(** * The erasure-coded Get path of the blobstore access layer

    A shallow embedding of [access/stream_get.go]: the decomposition of a
    location into blobs, the locality sorting of volume units, the EC
    geometry of empty data shards, the per-shard transport with its retry
    loop, the shard reader, the blob reader and the Get pipeline, together
    with the properties of the read path proved about them. *)

From Stdlib Require Import ZArith Lia List Bool Strings.Byte.
From stdpp Require Import base tactics option list numbers strings gmap sorting.

Local Open Scope Z_scope.

(** ** Machine integers

    Go's [uint64] is embedded in [Z] with the wrap-around written out, and
    [int] the same way on the signed 64-bit range. Positions in a slice
    (unit indexes, shard indexes) are natural numbers. *)

Definition u64 (z : Z) : Z := z mod 2 ^ 64.

Definition int64 (z : Z) : Z := (z + 2 ^ 63) mod 2 ^ 64 - 2 ^ 63.

Definition is_u64 (z : Z) : Prop := 0 <= z < 2 ^ 64.

Definition is_u32 (z : Z) : Prop := 0 <= z < 2 ^ 32.

Definition minU64 (a b : Z) : Z := if a <? b then a else b.

(** ** Data model *)

(** [api/access]: a location is a sequence of blob runs. *)
Record SliceInfo := {
  s_MinBid : Z;   (* proto.BlobID, uint64 *)
  s_Vid : Z;      (* proto.Vid *)
  s_Count : Z     (* uint32 *)
}.

Record Location := {
  loc_ClusterID : Z;
  loc_CodeMode : Z;
  loc_Size : Z;       (* uint64 *)
  loc_BlobSize : Z;   (* uint32 *)
  loc_Blobs : list SliceInfo
}.

Record blobGetArgs := {
  Vid : Z;
  Bid : Z;
  BlobSize : Z;
  Offset : Z;
  ReadSize : Z
}.

(** [codemode.Tactic]: data, parity and local unit counts. *)
Record Tactic := {
  t_N : nat;
  t_M : nat;
  t_L : nat
}.

(** [ec.BufferSizes], Go [int] fields. *)
Record BufferSizes := {
  ShardSize : Z;
  DataSize : Z;
  ECDataSize : Z
}.

(** [access/controller]: a volume unit, the host of a disk, a volume. *)
Record Unit := {
  u_Vuid : Z;
  u_DiskID : Z;
  u_Host : string
}.

Record HostIDC := {
  hi_Host : string;
  hi_IDC : string;
  hi_Punished : bool
}.

Record VolumePhy := {
  v_Vid : Z;
  v_CodeMode : Z;
  v_Units : list Unit
}.

Record sortedVuid := {
  index : nat;
  vuid : Z;
  diskID : Z;
  host : string
}.

(** [blobnode.RangeGetShardArgs]. *)
Record RangeGetShardArgs := {
  a_DiskID : Z;
  a_Vuid : Z;
  a_Bid : Z;
  a_Offset : Z;
  a_Size : Z
}.

(** A pooled byte slice. The identity of the underlying array is kept, so
    that acquiring and returning can be matched; [None] is a slice that did
    not come from the pool (Go's [nil]). *)
Record buffer := {
  buf_id : option nat;
  buf_bytes : list byte
}.

Definition nilBuffer : buffer := {| buf_id := None; buf_bytes := [] |}.

Record shardData := {
  sd_index : nat;
  sd_status : bool;
  sd_buffer : buffer
}.

(** Modelled from the spec: the classified error kinds the shard transport
    surfaces distinctly (section 4.1); the status codes of [errcode] and
    the test [errorTimeout] that tell them apart are not part of the
    sources. *)
Inductive rpcError :=
  | Overload
  | DiskBroken
  | VuidReadonly
  | DiskNotFound
  | VuidNotFound
  | Timeout
  | OtherRpc.

Inductive statusCode :=
  | CodeOverload
  | CodeDiskBroken
  | CodeVUIDReadonly
  | CodeDiskNotFound
  | CodeVuidNotFound
  | CodeUnclassified.

Definition DetectStatusCode (e : rpcError) : statusCode :=
  match e with
  | Overload => CodeOverload
  | DiskBroken => CodeDiskBroken
  | VuidReadonly => CodeVUIDReadonly
  | DiskNotFound => CodeDiskNotFound
  | VuidNotFound => CodeVuidNotFound
  | Timeout | OtherRpc => CodeUnclassified
  end.

Definition errorTimeout (e : rpcError) : bool :=
  match e with
  | Timeout => true
  | _ => false
  end.

(** The errors of the read path. *)
Inductive error :=
  | errNeedReconstructRead
  | errCanceledReadShard
  | ErrIllegalArguments
  | ErrBrokenBlob (cluster vid bid : Z)
  | ErrNotEnoughData (remain : Z)
  | ErrLocationRange (size readSize offset : Z)
  | ErrBlobSize (blobSize : Z)
  | ErrRpc (e : rpcError)
  | ErrPunishedDisk (disk : Z) (h : string)
  | ErrGetShardOn (disk : Z) (h : string) (e : rpcError)
  | ErrWriteResponse
  | ErrCollaborator (code : Z).

Global Instance rpcError_eq_dec : EqDecision rpcError.
Proof. solve_decision. Defined.

Global Instance error_eq_dec : EqDecision error.
Proof. solve_decision. Defined.

(** ** [genLocationBlobs] *)

(** [unsafe.Sizeof(blobGetArgs{})]: a [uint32] padded to eight bytes and
    four [uint64]. *)
Definition sizeofBlobGetArgs : Z := 40.

(** The largest allocation the run time accepts ([runtime.maxAlloc] on a
    64-bit platform with 48 address bits, as linux/amd64). *)
Definition maxAlloc : Z := 2 ^ 48.

(** [make([]blobGetArgs, 0, cap)] for a [cap] of type [uint64]: the run
    time panics (makeslice: cap out of range) when the capacity does not
    fit an [int] or asks for more than [maxAlloc] bytes, and gives the
    empty slice otherwise. Memory itself is not bounded here. *)
Definition makeBlobs (cap : Z) : option (list blobGetArgs) :=
  if maxAlloc <? sizeofBlobGetArgs * cap then None else Some [].

(** The variables the two nested loops of [genLocationBlobs] update. *)
Record genState := {
  g_blobs : list blobGetArgs;
  g_remainSize : Z;
  g_blobOffset : Z;
  g_idx : Z
}.

(** A loop body either goes on with a new state or returns from the
    function. *)
Inductive flow (S R : Type) :=
  | Running (s : S)
  | Returned (r : R).
Arguments Running {S R} s.
Arguments Returned {S R} r.

(** One pass of the inner loop body, for the blob [currBlobID] of the run
    [blob]. *)
Definition genStep (locSize blobSize firstBlobIdx : Z) (blob : SliceInfo)
    (currBlobID : Z) (st : genState) : flow genState (list blobGetArgs) :=
  if g_remainSize st <=? 0 then Returned (g_blobs st)
  else
    let st1 :=
      if firstBlobIdx <=? g_idx st then
        let toReadSize := minU64 (g_remainSize st) (u64 (blobSize - g_blobOffset st)) in
        let blobs :=
          if 0 <? toReadSize then
            g_blobs st ++ [ {| Vid := s_Vid blob;
                               Bid := currBlobID;
                               BlobSize := minU64 (u64 (locSize - u64 (g_idx st * blobSize))) blobSize;
                               Offset := g_blobOffset st;
                               ReadSize := toReadSize |} ]
          else g_blobs st in
        {| g_blobs := blobs;
           g_remainSize := u64 (g_remainSize st - toReadSize);
           g_blobOffset := 0;
           g_idx := g_idx st |}
      else st in
    Running {| g_blobs := g_blobs st1;
               g_remainSize := g_remainSize st1;
               g_blobOffset := g_blobOffset st1;
               g_idx := u64 (g_idx st1 + 1) |}.

(** [for ii := uint32(0); ii < blob.Count; ii++]: [n] passes are left. *)
Fixpoint genRun (locSize blobSize firstBlobIdx : Z) (blob : SliceInfo)
    (n : nat) (currBlobID : Z) (st : genState) : flow genState (list blobGetArgs) :=
  match n with
  | O => Running st
  | S n' =>
      match genStep locSize blobSize firstBlobIdx blob currBlobID st with
      | Returned r => Returned r
      | Running st' =>
          genRun locSize blobSize firstBlobIdx blob n' (u64 (currBlobID + 1)) st'
      end
  end.

(** [for _, blob := range location.Blobs]. *)
Fixpoint genRuns (locSize blobSize firstBlobIdx : Z) (runs : list SliceInfo)
    (st : genState) : flow genState (list blobGetArgs) :=
  match runs with
  | [] => Running st
  | blob :: rest =>
      match genRun locSize blobSize firstBlobIdx blob
              (Z.to_nat (s_Count blob)) (s_MinBid blob) st with
      | Returned r => Returned r
      | Running st' => genRuns locSize blobSize firstBlobIdx rest st'
      end
  end.

(** [None] is the panic of [make]. *)
Definition genLocationBlobs (location : Location) (readSize offset : Z)
    : option (list blobGetArgs + error) :=
  if loc_Size location <? u64 (offset + readSize) then
    Some (inr (ErrLocationRange (loc_Size location) readSize offset))
  else
    let blobSize := loc_BlobSize location in
    if blobSize <=? 0 then Some (inr (ErrBlobSize blobSize))
    else
      let firstBlobIdx := offset / blobSize in
      let blobOffset := offset mod blobSize in
      match makeBlobs (u64 (1 + u64 (readSize + blobOffset) / blobSize)) with
      | None => None
      | Some blobs0 =>
          Some
            match genRuns (loc_Size location) blobSize firstBlobIdx (loc_Blobs location)
                    {| g_blobs := blobs0; g_remainSize := readSize;
                       g_blobOffset := blobOffset; g_idx := 0 |} with
            | Returned blobs => inl blobs
            | Running st =>
                if 0 <? g_remainSize st then inr (ErrNotEnoughData (g_remainSize st))
                else inl (g_blobs st)
            end
      end.

(** ** Locality sorting *)

Definition distance (idc1 idc2 : string) (punished : bool) : Z :=
  if punished then
    if bool_decide (idc1 = idc2) then 2 else 3
  else if bool_decide (idc1 = idc2) then 0 else 1.

(** ** EC geometry *)

(** The keys of the returned [map[int]struct{}]. Go's [/] on [int]
    truncates and panics on a zero divisor; the callers reach this function
    with the sizes of a successful [ec.GetBufferSizes], whose shard size is
    positive. *)
Definition emptyDataShardIndexes (sizes : BufferSizes) : gset nat :=
  let firstEmptyIdx :=
    Z.quot (int64 (int64 (DataSize sizes + ShardSize sizes) - 1)) (ShardSize sizes) in
  let n := Z.quot (ECDataSize sizes) (ShardSize sizes) in
  if n <=? firstEmptyIdx then ∅
  else list_to_set (Z.to_nat <$> seqZ firstEmptyIdx (n - firstEmptyIdx)).

(** ** The world of a Get

    The collaborators of the handler (storage nodes, cluster manager,
    service controller, encoder, memory pool, circuit breaker, random
    source, the caller's writer) are oracles over a state [Σ] of their
    own. What the read path does to them is recorded in a trace, newest
    event first. *)

Inductive hystrixVerdict :=
  | HxRun                    (* the command runs and its error is returned *)
  | HxReject (e : error)     (* circuit open or too many commands: not run *)
  | HxTimeout (e : error).   (* the command ran, its result is dropped *)

Inductive event :=
  | EvRangeGetShard (idx : nat) (h : string) (args : RangeGetShardArgs)
      (res : option rpcError)
  | EvGetVolume (cluster vid : Z) (isCache : bool)
  | EvGetDiskHost (disk : Z)
  | EvPunishDisk (cluster disk : Z) (h : string)
  | EvPunishDiskWith (cluster disk : Z) (h : string)
  | EvBackoff (delayMs : Z)
  | EvAlloc (id : nat) (size : Z)
  | EvPut (id : nat)
  | EvZero (id : option nat)
  | EvLaunch (idx : nat)
  | EvCloseStop
  | EvNext
  | EvReconstructData (badIdx : list nat)
  | EvDataShardOnly (blob : blobGetArgs)
  | EvReadOneBlob (blob : blobGetArgs)
  | EvWrite (data : list byte).

Record Handler (Σ : Type) := {
  h_IDC : string;
  h_MinReadShardsX : nat;
  h_Tactic : Z → Tactic;
  h_GetBufferSizes : Z → Tactic → BufferSizes + error;
  h_GetServiceController : Σ → Z → Σ * option error;
  h_getVolume : Σ → Z → Z → bool → Σ * (VolumePhy + error);
  h_GetDiskHost : Σ → Z → Σ * (HostIDC + error);
  h_RangeGetShard : Σ → string → RangeGetShardArgs → Σ * (list byte + rpcError);
  h_punish : Σ → Z → Z → string → bool → Σ;
  h_hystrix : Σ → Σ * hystrixVerdict;
  h_Shuffle : Σ → list sortedVuid → Σ * list sortedVuid;
  h_ReconstructData : Σ → Z → list (list byte) → list nat
                      → Σ * (list (list byte) * option error);
  h_poolAlloc : Σ → Z → Σ * (list byte + error);
  h_Write : Σ → list byte → Σ * option error
}.
Arguments h_IDC {Σ} _.
Arguments h_MinReadShardsX {Σ} _.
Arguments h_Tactic {Σ} _ _.
Arguments h_GetBufferSizes {Σ} _ _ _.
Arguments h_GetServiceController {Σ} _ _ _.
Arguments h_getVolume {Σ} _ _ _ _ _.
Arguments h_GetDiskHost {Σ} _ _ _.
Arguments h_RangeGetShard {Σ} _ _ _ _.
Arguments h_punish {Σ} _ _ _ _ _ _.
Arguments h_hystrix {Σ} _ _.
Arguments h_Shuffle {Σ} _ _ _.
Arguments h_ReconstructData {Σ} _ _ _ _ _.
Arguments h_poolAlloc {Σ} _ _ _.
Arguments h_Write {Σ} _ _ _.

Record world (Σ : Type) := {
  w_env : Σ;
  w_trace : list event;
  w_nextBuf : nat
}.
Arguments w_env {Σ} _.
Arguments w_trace {Σ} _.
Arguments w_nextBuf {Σ} _.
Arguments Build_world {Σ} _ _ _.

(** State and panic: [None] is a Go run-time panic (index out of range,
    nil dereference), with the world as it was when it happened. *)
Definition M (Σ A : Type) : Type := world Σ → option A * world Σ.

Global Instance M_ret {Σ} : MRet (M Σ) := λ A a w, (Some a, w).

Global Instance M_bind {Σ} : MBind (M Σ) := λ A B f m w,
  match m w with
  | (Some a, w') => f a w'
  | (None, w') => (None, w')
  end.

Definition panic {Σ A} : M Σ A := λ w, (None, w).

Definition emit {Σ} (e : event) : M Σ unit := λ w,
  (Some tt, {| w_env := w_env w; w_trace := e :: w_trace w; w_nextBuf := w_nextBuf w |}).

Definition oracle {Σ A} (f : Σ → Σ * A) : M Σ A := λ w,
  let '(σ, a) := f (w_env w) in
  (Some a, {| w_env := σ; w_trace := w_trace w; w_nextBuf := w_nextBuf w |}).

Definition effect {Σ} (f : Σ → Σ) : M Σ unit := λ w,
  (Some tt, {| w_env := f (w_env w); w_trace := w_trace w; w_nextBuf := w_nextBuf w |}).

Definition freshBuf {Σ} : M Σ nat := λ w,
  (Some (w_nextBuf w),
   {| w_env := w_env w; w_trace := w_trace w; w_nextBuf := S (w_nextBuf w) |}).

(** ** Memory pool *)

Definition len (b : buffer) : Z := Z.of_nat (length (buf_bytes b)).

(** Modelled from the spec: [alloc(size)] yields a buffer of exactly
    [size] or fails (section 4.9); the pool decides the failure and the
    bytes the recycled array holds. [resourcepool] is not part of the
    sources. *)
Definition memPoolAlloc {Σ} (h : Handler Σ) (size : Z) : M Σ (buffer + error) :=
  r ← oracle (λ σ, h_poolAlloc h σ size);
  match r with
  | inr e => mret (inr e)
  | inl bytes =>
      id ← freshBuf;
      _ ← emit (EvAlloc id size);
      mret (inl {| buf_id := Some id;
                   buf_bytes := resize (Z.to_nat size) x00 bytes |})
  end.

(** Modelled from the spec: [put(buf)] returns the buffer to the pool. *)
Definition memPoolPut {Σ} (b : buffer) : M Σ unit :=
  match buf_id b with
  | Some id => emit (EvPut id)
  | None => mret tt
  end.

(** Modelled from the spec: [zero(buf)] fully zeroes the buffer. *)
Definition memPoolZero {Σ} (b : buffer) : M Σ buffer :=
  _ ← emit (EvZero (buf_id b));
  mret {| buf_id := buf_id b; buf_bytes := replicate (length (buf_bytes b)) x00 |}.

(** The buffers a trace acquires and the buffers it returns, newest
    first. *)
Fixpoint acquired (tr : list event) : list nat :=
  match tr with
  | [] => []
  | EvAlloc id _ :: tr' => id :: acquired tr'
  | _ :: tr' => acquired tr'
  end.

Fixpoint returned (tr : list event) : list nat :=
  match tr with
  | [] => []
  | EvPut id :: tr' => id :: returned tr'
  | _ :: tr' => returned tr'
  end.

(** Buffers acquired and never returned. *)
Definition leaked (tr : list event) : list nat :=
  filter (λ id, id ∉ returned tr) (acquired tr).

(** ** Retry *)

(** Modelled from the spec: exponential backoff, at most [attempts]
    attempts; the callback says whether the loop is interrupted, and an
    attempt without error ends it (section 4.1). [util/retry] is not part
    of the sources. The callback's captured variables are the state [L]. *)
Fixpoint RuptOn {Σ L} (attempts : nat) (delayMs : Z)
    (caller : L → M Σ (L * (bool * option error))) (l : L)
    : M Σ (L * option error) :=
  match attempts with
  | O => mret (l, None)
  | S n =>
      '(l', (interrupted, err)) ← caller l;
      match err with
      | None => mret (l', None)
      | Some e =>
          if (interrupted : bool) then mret (l', Some e)
          else
            match n with
            | O => mret (l', Some e)
            | S _ =>
                _ ← emit (EvBackoff delayMs);
                RuptOn n (2 * delayMs) caller l'
            end
      end
  end.

(** Modelled from the spec: [On] is the same loop without interruption. *)
Definition On {Σ L} (attempts : nat) (delayMs : Z)
    (caller : L → M Σ (L * option error)) (l : L) : M Σ (L * option error) :=
  RuptOn attempts delayMs
    (λ l0, '(l1, err) ← caller l0; mret (l1, (false, err))) l.

(** Modelled from the spec: [retry.Timed] waits a fixed interval between
    at most [attempts] attempts. *)
Fixpoint TimedOn {Σ L} (attempts : nat) (delayMs : Z)
    (caller : L → M Σ (L * option error)) (l : L) : M Σ (L * option error) :=
  match attempts with
  | O => mret (l, None)
  | S n =>
      '(l', err) ← caller l;
      match err with
      | None => mret (l', None)
      | Some e =>
          match n with
          | O => mret (l', Some e)
          | S _ => _ ← emit (EvBackoff delayMs); TimedOn n delayMs caller l'
          end
      end
  end.

(** ** [genSortedVuidByIDC] *)

(** The closure retried by [retry.ExponentialBackoff(2, 100).On]; its
    captured variable is [hostIDC]. *)
Definition lookupDiskHost {Σ} (h : Handler Σ) (disk : Z) : M Σ (option HostIDC) :=
  '(hostIDC, err) ← On 2 100
      (λ cur : option HostIDC,
         _ ← emit (EvGetDiskHost disk);
         r ← oracle (λ σ, h_GetDiskHost h σ disk);
         match r with
         | inr e => mret (cur, Some e)
         | inl hi => mret (Some hi, None)
         end) None;
  match err with
  | Some _ => mret None
  | None => mret hostIDC
  end.

(** [for idx, phy := range vuidPhys], filling [sortMap]. *)
Fixpoint sortLoop {Σ} (h : Handler Σ) (idc : string) (idx : nat) (vuidPhys : list Unit)
    (sortMap : gmap Z (list sortedVuid)) : M Σ (gmap Z (list sortedVuid)) :=
  match vuidPhys with
  | [] => mret sortMap
  | phy :: rest =>
      r ← lookupDiskHost h (u_DiskID phy);
      match r with
      | None => sortLoop h idc (S idx) rest sortMap
      | Some hostIDC =>
          let dis := distance idc (hi_IDC hostIDC) (hi_Punished hostIDC) in
          let ids := default [] (sortMap !! dis) in
          sortLoop h idc (S idx) rest
            (<[dis := ids ++ [ {| index := idx; vuid := u_Vuid phy;
                                  diskID := u_DiskID phy; host := u_Host phy |} ]]> sortMap)
      end
  end.

(** [for _, dis := range keys]: shuffle each group and append it. *)
Fixpoint shuffleGroups {Σ} (h : Handler Σ) (keys : list Z)
    (sortMap : gmap Z (list sortedVuid)) (vuids : list sortedVuid)
    : M Σ (list sortedVuid) :=
  match keys with
  | [] => mret vuids
  | dis :: rest =>
      ids ← oracle (λ σ, h_Shuffle h σ (default [] (sortMap !! dis)));
      shuffleGroups h rest sortMap (vuids ++ ids)
  end.

Definition genSortedVuidByIDC {Σ} (h : Handler Σ) (idc : string)
    (vuidPhys : list Unit) : M Σ (list sortedVuid) :=
  sortMap ← sortLoop h idc 0%nat vuidPhys ∅;
  let keys := merge_sort Z.le (elements (dom sortMap)) in
  shuffleGroups h keys sortMap [].

(** ** The shard transport: [getOneShardFromHost] *)

(** The variables the retried closure captures and assigns. *)
Record shardTarget := {
  tg_host : string;
  tg_diskID : Z;
  tg_args : RangeGetShardArgs;
  tg_rbody : option (list byte)
}.

Definition punishDisk {Σ} (h : Handler Σ) (clusterID disk : Z) (hst : string) : M Σ unit :=
  _ ← emit (EvPunishDisk clusterID disk hst);
  effect (λ σ, h_punish h σ clusterID disk hst false).

Definition punishDiskWith {Σ} (h : Handler Σ) (clusterID disk : Z) (hst : string) : M Σ unit :=
  _ ← emit (EvPunishDiskWith clusterID disk hst);
  effect (λ σ, h_punish h σ clusterID disk hst true).

Definition getVolume {Σ} (h : Handler Σ) (clusterID vid : Z) (isCache : bool)
    : M Σ (VolumePhy + error) :=
  _ ← emit (EvGetVolume clusterID vid isCache);
  oracle (λ σ, h_getVolume h σ clusterID vid isCache).

(** The statements after the [switch] of the closure. *)
Definition afterSwitch {Σ} (h : Handler Σ) (clusterID : Z) (err : rpcError)
    (tg : shardTarget) : M Σ (shardTarget * (bool * option error)) :=
  if errorTimeout err then
    _ ← punishDiskWith h clusterID (tg_diskID tg) (tg_host tg);
    mret (tg, (true, Some (ErrRpc err)))
  else
    mret (tg, (false, Some (ErrGetShardOn (tg_diskID tg) (tg_host tg) err))).

(** One call of the closure given to [RuptOn]. [cancelChan] is [None] for
    a nil channel and otherwise tells whether the channel is closed. *)
Definition shardAttempt {Σ} (h : Handler Σ) (idx : nat) (clusterID vid : Z)
    (cancelChan : option bool) (tg : shardTarget)
    : M Σ (shardTarget * (bool * option error)) :=
  match cancelChan with
  | Some true => mret (tg, (true, Some errCanceledReadShard))
  | _ =>
      r ← oracle (λ σ, h_RangeGetShard h σ (tg_host tg) (tg_args tg));
      _ ← emit (EvRangeGetShard idx (tg_host tg) (tg_args tg)
                  (match r with inl _ => None | inr e => Some e end));
      match r with
      | inl body =>
          mret ({| tg_host := tg_host tg; tg_diskID := tg_diskID tg;
                   tg_args := tg_args tg; tg_rbody := Some body |}, (true, None))
      | inr err =>
          match DetectStatusCode err with
          | CodeOverload => mret (tg, (true, Some (ErrRpc err)))
          | CodeDiskBroken | CodeVUIDReadonly =>
              _ ← punishDisk h clusterID (tg_diskID tg) (tg_host tg);
              mret (tg, (true, Some (ErrPunishedDisk (tg_diskID tg) (tg_host tg))))
          | CodeDiskNotFound | CodeVuidNotFound =>
              v ← getVolume h clusterID vid false;
              match v with
              | inr _ => mret (tg, (false, Some (ErrRpc err)))
              | inl latestVolume =>
                  match v_Units latestVolume !! idx with
                  | None => panic
                  | Some newUnit =>
                      let newDiskID := u_DiskID newUnit in
                      let punishNotFound :=
                        _ ← punishDiskWith h clusterID (tg_diskID tg) (tg_host tg);
                        afterSwitch h clusterID err tg in
                      if bool_decide (newDiskID ≠ tg_diskID tg) then
                        _ ← emit (EvGetDiskHost newDiskID);
                        hi ← oracle (λ σ, h_GetDiskHost h σ newDiskID);
                        match hi with
                        | inl hi =>
                            if negb (hi_Punished hi) then
                              mret ({| tg_host := hi_Host hi;
                                       tg_diskID := newDiskID;
                                       tg_args :=
                                         {| a_DiskID := newDiskID;
                                            a_Vuid := u_Vuid newUnit;
                                            a_Bid := a_Bid (tg_args tg);
                                            a_Offset := a_Offset (tg_args tg);
                                            a_Size := a_Size (tg_args tg) |};
                                       tg_rbody := tg_rbody tg |},
                                    (false, Some (ErrRpc err)))
                            else punishNotFound
                        | inr _ => punishNotFound
                        end
                      else punishNotFound
                  end
              end
          | CodeUnclassified => afterSwitch h clusterID err tg
          end
      end
  end.

Definition getOneShardFromHost {Σ} (h : Handler Σ) (hst : string) (disk : Z)
    (args : RangeGetShardArgs) (idx : nat) (clusterID vid : Z)
    (cancelChan : option bool) : M Σ (option (list byte) * option error) :=
  '(tg, rerr) ← RuptOn 3 200 (shardAttempt h idx clusterID vid cancelChan)
      {| tg_host := hst; tg_diskID := disk; tg_args := args; tg_rbody := None |};
  mret (tg_rbody tg, rerr).

(** ** The shard reader: [readOneShard] *)

(** [hystrix.Do(rwCommand, run, nil)]. *)
Definition hystrixDo {Σ} (h : Handler Σ)
    (run : M Σ (option (list byte) * option error))
    : M Σ (option (list byte) * option error) :=
  v ← oracle (h_hystrix h);
  match v with
  | HxRun => run
  | HxReject e => mret (None, Some e)
  | HxTimeout e => '(body, _) ← run; mret (body, Some e)
  end.

(** [io.ReadFull(body, buf)]: the buffer is filled when the body holds
    enough bytes, and the read fails otherwise. *)
Definition ReadFull (body : list byte) (buf : buffer) : option buffer :=
  if (length (buf_bytes buf) <=? length body)%nat then
    Some {| buf_id := buf_id buf; buf_bytes := take (length (buf_bytes buf)) body |}
  else None.

Definition readOneShard {Σ} (h : Handler Σ) (clusterID vid : Z) (shardSize : Z)
    (blob : blobGetArgs) (vu : sortedVuid) (stopChan : option bool) : M Σ shardData :=
  let shardResult :=
    {| sd_index := index vu; sd_status := false; sd_buffer := nilBuffer |} in
  let args := {| a_DiskID := diskID vu; a_Vuid := vuid vu; a_Bid := Bid blob;
                 a_Offset := 0; a_Size := shardSize |} in
  '(body, err) ← hystrixDo h
      (getOneShardFromHost h (host vu) (diskID vu) args (index vu) clusterID vid stopChan);
  match err with
  | Some _ => mret shardResult
  | None =>
      match body with
      | None => panic
      | Some body =>
          a ← memPoolAlloc h shardSize;
          match a with
          | inr _ => mret shardResult
          | inl buf =>
              match ReadFull body buf with
              | None => _ ← memPoolPut buf; mret shardResult
              | Some buf' =>
                  mret {| sd_index := index vu; sd_status := true; sd_buffer := buf' |}
              end
          end
      end
  end.

(** ** The blob reader: [readOneBlob]

    The reader consumes the outcomes of the shard readers it has started,
    in the order they arrive. A schedule chooses, for every pass of the
    consuming loop, which of the reads in flight arrives next; a read runs
    when it arrives. The goroutine that starts the reads takes a token of
    [nextChan] as soon as one is sent: starting a read later only narrows
    the arrivals a schedule can choose from. *)

Record blobRead := {
  br_received : gmap nat bool;
  br_shards : list buffer;
  br_inflight : list sortedVuid;   (* started, outcome not yet consumed *)
  br_waiting : list sortedVuid;    (* the rest of the order, not yet started *)
  br_nextChan : nat;               (* tokens nobody takes any more *)
  br_stopChan : bool;              (* closed *)
  br_reconstructed : bool
}.

Definition notReceived (received : gmap nat bool) (i : nat) : bool :=
  match received !! i with
  | Some true => false
  | _ => true
  end.

(** [for _, succ := range received { if !succ { badShards++ } }]. *)
Definition countBad (received : gmap nat bool) : nat :=
  size (filter (λ kv : nat * bool, kv.2 = false) received).

Definition ReconstructData {Σ} (h : Handler Σ) (codeMode : Z) (shards : list buffer)
    (badIdx : list nat) : M Σ (list buffer * option error) :=
  _ ← emit (EvReconstructData badIdx);
  '(bytes, err) ← oracle (λ σ, h_ReconstructData h σ codeMode (buf_bytes <$> shards) badIdx);
  mret (imap (λ i b, {| buf_id := buf_id b;
                        buf_bytes := default (buf_bytes b) (bytes !! i) |}) shards,
        err).

Definition closeStop {Σ} (received : gmap nat bool) (shards : list buffer)
    (reconstructed : bool) (st : blobRead) : M Σ (blobRead * bool) :=
  _ ← emit EvCloseStop;
  mret ({| br_received := received; br_shards := shards;
           br_inflight := br_inflight st; br_waiting := br_waiting st;
           br_nextChan := br_nextChan st; br_stopChan := true;
           br_reconstructed := reconstructed |}, true).

(** [nextChan <- struct{}{}], and the goroutine of [shardPipe] starting the
    next read of the order. *)
Definition sendNext {Σ} (received : gmap nat bool) (shards : list buffer)
    (st : blobRead) : M Σ (blobRead * bool) :=
  _ ← emit EvNext;
  match br_waiting st with
  | vu :: rest =>
      _ ← emit (EvLaunch (index vu));
      mret ({| br_received := received; br_shards := shards;
               br_inflight := br_inflight st ++ [vu]; br_waiting := rest;
               br_nextChan := br_nextChan st; br_stopChan := br_stopChan st;
               br_reconstructed := br_reconstructed st |}, false)
  | [] =>
      mret ({| br_received := received; br_shards := shards;
               br_inflight := br_inflight st; br_waiting := [];
               br_nextChan := S (br_nextChan st); br_stopChan := br_stopChan st;
               br_reconstructed := br_reconstructed st |}, false)
  end.

(** The body of [for shard := range shardPipe]; the boolean is [break]. *)
Definition consume {Σ} (h : Handler Σ) (codeMode : Z) (dataN dataParityN lenSorted : nat)
    (shard : shardData) (st : blobRead) : M Σ (blobRead * bool) :=
  shards ← (if sd_status shard then
              match br_shards st !! sd_index shard with
              | None => panic
              | Some buf =>
                  _ ← memPoolPut buf;
                  mret (<[sd_index shard := sd_buffer shard]> (br_shards st))
              end
            else mret (br_shards st));
  let received := <[sd_index shard := sd_status shard]> (br_received st) in
  if (size received <? dataN)%nat then
    mret ({| br_received := received; br_shards := shards;
             br_inflight := br_inflight st; br_waiting := br_waiting st;
             br_nextChan := br_nextChan st; br_stopChan := br_stopChan st;
             br_reconstructed := br_reconstructed st |}, false)
  else
    let badData := filter (λ i, notReceived received i = true) (seq 0 dataN) in
    match badData with
    | [] => closeStop received shards true st
    | _ :: _ =>
        let badIdx :=
          badData ++ filter (λ i, notReceived received i = true)
                       (seq dataN (dataParityN - dataN)) in
        let badShards := countBad received in
        if (dataParityN - dataN <? badShards)%nat then
          closeStop received shards (br_reconstructed st) st
        else
          '(shards, ok) ←
            (if (dataN + badShards <=? size received)%nat then
               '(shards', err) ← ReconstructData h codeMode shards badIdx;
               mret (shards', bool_decide (err = None))
             else mret (shards, false));
          if (ok : bool) then closeStop received shards true st
          else if (lenSorted <=? size received)%nat then
            closeStop received shards (br_reconstructed st) st
          else sendNext received shards st
    end.

(** The read a schedule entry chooses among the reads in flight. *)
Definition pick {A} (k : nat) (l : list A) : option (A * list A) :=
  match l with
  | [] => None
  | _ :: _ =>
      let i := (k mod length l)%nat in
      match l !! i with
      | Some a => Some (a, delete i l)
      | None => None
      end
  end.

Inductive loopEnd :=
  | LoopBreak      (* [break] *)
  | LoopClosed     (* [shardPipe] is closed and drained *)
  | LoopBlocked    (* nothing in flight, and the goroutine waits for a token *)
  | LoopStarved.   (* the schedule ended before the loop did *)

(** What the loop does with the shard that arrived: the body, then either
    [break] or the rest of the loop. *)
Definition onShard {Σ} (h : Handler Σ) (codeMode : Z) (dataN dataParityN lenSorted : nat)
    (loop : blobRead → M Σ (blobRead * loopEnd)) (shard : shardData) (st : blobRead)
    : M Σ (blobRead * loopEnd) :=
  '(st', brk) ← consume h codeMode dataN dataParityN lenSorted shard st;
  if (brk : bool) then mret (st', LoopBreak) else loop st'.

Definition taken (st : blobRead) (rest : list sortedVuid) : blobRead :=
  {| br_received := br_received st; br_shards := br_shards st;
     br_inflight := rest; br_waiting := br_waiting st;
     br_nextChan := br_nextChan st; br_stopChan := br_stopChan st;
     br_reconstructed := br_reconstructed st |}.

Fixpoint blobLoop {Σ} (h : Handler Σ) (clusterID vid codeMode : Z) (shardSize : Z)
    (blob : blobGetArgs) (dataN dataParityN lenSorted : nat)
    (sched : list nat) (st : blobRead) : M Σ (blobRead * loopEnd) :=
  match sched with
  | [] => mret (st, LoopStarved)
  | k :: sched' =>
      match pick k (br_inflight st) with
      | None =>
          match br_waiting st with
          | [] => mret (st, LoopClosed)
          | _ :: _ => mret (st, LoopBlocked)
          end
      | Some (vu, rest) =>
          shard ← readOneShard h clusterID vid shardSize blob vu (Some false);
          onShard h codeMode dataN dataParityN lenSorted
            (blobLoop h clusterID vid codeMode shardSize blob
               dataN dataParityN lenSorted sched')
            shard (taken st rest)
      end
  end.

(** [for idx := range empties]: mark received and zero the buffer. *)
Fixpoint zeroEmpties {Σ} (idxs : list nat) (received : gmap nat bool)
    (shards : list buffer) : M Σ (gmap nat bool * list buffer) :=
  match idxs with
  | [] => mret (received, shards)
  | idx :: rest =>
      match shards !! idx with
      | None => panic
      | Some buf =>
          buf' ← memPoolZero buf;
          zeroEmpties rest (<[idx := true]> received) (<[idx := buf']> shards)
      end
  end.

(** The goroutine releasing the buffers of delayed shards. For every read
    still in flight, [late] tells whether it finished before it could see
    the stop channel closed. *)
Fixpoint drainShards {Σ} (h : Handler Σ) (clusterID vid : Z) (shardSize : Z)
    (blob : blobGetArgs) (stopped : bool) (late : list bool)
    (vus : list sortedVuid) : M Σ unit :=
  match vus with
  | [] => mret tt
  | vu :: rest =>
      let finished := hd false late in
      shard ← readOneShard h clusterID vid shardSize blob vu
                (Some (stopped && negb finished));
      _ ← (if sd_status shard then memPoolPut (sd_buffer shard) else mret tt);
      drainShards h clusterID vid shardSize blob stopped (tl late) rest
  end.

Fixpoint emitAll {Σ} (es : list event) : M Σ unit :=
  match es with
  | [] => mret tt
  | e :: rest => _ ← emit e; emitAll rest
  end.

Inductive blobOutcome :=
  | BlobReturned (err : option error) (shards : list buffer)
  | BlobHangs         (* reader and goroutine wait for each other *)
  | BlobUnscheduled.  (* the schedule was too short *)

(** The end of [readOneBlob]: the buffers of delayed shards are released
    and the blob is reported read or broken. *)
Definition blobResult {Σ} (h : Handler Σ) (clusterID vid : Z) (shardSize : Z)
    (blob : blobGetArgs) (late : list bool) (st : blobRead) (e : loopEnd)
    : M Σ blobOutcome :=
  match e with
  | LoopStarved => mret BlobUnscheduled
  | LoopBlocked => mret BlobHangs
  | LoopBreak | LoopClosed =>
      _ ← drainShards h clusterID vid shardSize blob (br_stopChan st) late
            (br_inflight st);
      if br_reconstructed st then mret (BlobReturned None (br_shards st))
      else mret (BlobReturned
                   (Some (ErrBrokenBlob clusterID (Vid blob) (Bid blob)))
                   (br_shards st))
  end.

Definition readOneBlob {Σ} (h : Handler Σ) (clusterID vid codeMode : Z)
    (blob : blobGetArgs) (sortedVuids : list sortedVuid) (shards : list buffer)
    (sched : list nat) (late : list bool) : M Σ blobOutcome :=
  let tactic := h_Tactic h codeMode in
  match h_GetBufferSizes h (int64 (BlobSize blob)) tactic with
  | inr err => mret (BlobReturned (Some err) shards)
  | inl sizes =>
      let empties := emptyDataShardIndexes sizes in
      let dataN := t_N tactic in
      let dataParityN := (t_N tactic + t_M tactic)%nat in
      let minShardsRead :=
        if (length sortedVuids <? dataN + h_MinReadShardsX h)%nat
        then length sortedVuids else (dataN + h_MinReadShardsX h)%nat in
      match shards with
      | [] => panic
      | s0 :: _ =>
          let shardSize := len s0 in
          let started :=
            filter (λ vu, index vu ∉ empties) (take minShardsRead sortedVuids) in
          let rest :=
            filter (λ vu, index vu ∉ empties) (drop minShardsRead sortedVuids) in
          _ ← emitAll (EvLaunch <$> (index <$> started));
          '(received, shards0) ← zeroEmpties (elements empties) ∅ shards;
          '(st, e) ← blobLoop h clusterID vid codeMode shardSize blob
              dataN dataParityN (length sortedVuids) sched
              {| br_received := received; br_shards := shards0;
                 br_inflight := started; br_waiting := rest;
                 br_nextChan := 0; br_stopChan := false;
                 br_reconstructed := false |};
          blobResult h clusterID vid shardSize blob late st e
      end
  end.

(** ** The data-shard-only reader: [getDataShardOnly] *)

(** [for i, shard := range blobVolume.Units[firstShardIdx:tactic.N]]; [idx]
    is [firstShardIdx+i] and [data] the part of [buffer.DataBuf] filled so
    far, so that [bufOffset] is its length. *)
Fixpoint dataShardLoop {Σ} (h : Handler Σ) (clusterID : Z) (blob : blobGetArgs)
    (units : list Unit) (idx : nat) (shardSize shardOffset remainSize : Z)
    (data : list byte) : M Σ (flow (Z * list byte) error) :=
  match units with
  | [] => mret (Running (remainSize, data))
  | shard :: rest =>
      if remainSize <=? 0 then mret (Running (remainSize, data))
      else
        let toReadSize := minU64 remainSize (u64 (shardSize - shardOffset)) in
        let args := {| a_DiskID := u_DiskID shard; a_Vuid := u_Vuid shard;
                       a_Bid := Bid blob; a_Offset := shardOffset;
                       a_Size := int64 toReadSize |} in
        '(body, err) ← getOneShardFromHost h (u_Host shard) (u_DiskID shard) args
                         idx clusterID (Vid blob) None;
        match err with
        | Some _ => mret (Returned errNeedReconstructRead)
        | None =>
            match body with
            | None => panic
            | Some body =>
                if (Z.to_nat toReadSize <=? length body)%nat then
                  dataShardLoop h clusterID blob rest (S idx) shardSize 0
                    (u64 (remainSize - toReadSize))
                    (data ++ take (Z.to_nat toReadSize) body)
                else mret (Returned errNeedReconstructRead)
            end
        end
  end.

(** [blobVolume.Units[from:to]], which panics outside the slice (a slice
    of a volume has no spare capacity). *)
Definition slice {A} (l : list A) (from to : nat) : option (list A) :=
  if (from <=? to)%nat && (to <=? length l)%nat
  then Some (take (to - from) (drop from l)) else None.

(** Modelled from the spec: [ec.NewRangeBuffer] takes the buffer of the
    requested range from the pool and carries the shard size of the blob;
    [Release] returns the buffer. [common/ec] is not part of the
    sources. *)
Definition NewRangeBuffer {Σ} (h : Handler Σ) (dataSize from to : Z) (tactic : Tactic)
    : M Σ ((BufferSizes * buffer) + error) :=
  match h_GetBufferSizes h dataSize tactic with
  | inr e => mret (inr e)
  | inl sizes =>
      a ← memPoolAlloc h (to - from);
      match a with
      | inr e => mret (inr e)
      | inl buf => mret (inl (sizes, buf))
      end
  end.

(** [defer f()]: [f] runs when the function returns, and when it panics. *)
Definition defer {Σ A} (f : M Σ unit) (body : M Σ A) : M Σ A := λ w,
  match body w with
  | (Some a, w') => (_ ← f; mret a) w'
  | (None, w') => (_ ← f; panic) w'
  end.

Definition getDataShardOnly {Σ} (h : Handler Σ) (clusterID : Z) (blob : blobGetArgs)
    : M Σ (option error) :=
  if ReadSize blob =? 0 then mret None
  else
    v ← getVolume h clusterID (Vid blob) true;
    match v with
    | inr err => mret (Some err)
    | inl blobVolume =>
        let tactic := h_Tactic h (v_CodeMode blobVolume) in
        let from := int64 (Offset blob) in
        let to := int64 (u64 (Offset blob + ReadSize blob)) in
        b ← NewRangeBuffer h (int64 (BlobSize blob)) from to tactic;
        match b with
        | inr err => mret (Some err)
        | inl (sizes, buf) =>
            defer (memPoolPut buf)
              (let shardSize := ShardSize sizes in
               if shardSize =? 0 then panic
               else
                 let firstShardIdx := Z.quot (int64 (Offset blob)) shardSize in
                 let shardOffset := Z.rem (int64 (Offset blob)) shardSize in
                 if firstShardIdx <? 0 then panic
                 else
                   match slice (v_Units blobVolume) (Z.to_nat firstShardIdx)
                           (t_N tactic) with
                   | None => panic
                   | Some units =>
                       r ← dataShardLoop h clusterID blob units (Z.to_nat firstShardIdx)
                             shardSize shardOffset (ReadSize blob) [];
                       match r with
                       | Returned err => mret (Some err)
                       | Running (remainSize, data) =>
                           if 0 <? remainSize then
                             mret (Some (ErrNotEnoughData remainSize))
                           else
                             let out := take (Z.to_nat (int64 (ReadSize blob))) data in
                             _ ← emit (EvWrite out);
                             e ← oracle (λ σ, h_Write h σ out);
                             match e with
                             | Some _ => mret (Some ErrWriteResponse)
                             | None => mret None
                             end
                       end
                   end)
        end
    end.

(** ** The pipeline of [Get] *)

Record pipeBuffer := {
  pb_err : option error;
  pb_blob : blobGetArgs;
  pb_shards : list buffer
}.

Definition zeroBlob : blobGetArgs :=
  {| Vid := 0; Bid := 0; BlobSize := 0; Offset := 0; ReadSize := 0 |}.

Definition errLine (e : error) : pipeBuffer :=
  {| pb_err := Some e; pb_blob := zeroBlob; pb_shards := [] |}.

(** The variables of the producing goroutine that outlive one blob. *)
Record pipeProducer := {
  pp_blobVolume : option VolumePhy;
  pp_sortedVuids : list sortedVuid
}.

(** [for ii := range shards { buf, _ := h.memPool.Alloc(shardSize) ... }]. *)
Fixpoint allocShards {Σ} (h : Handler Σ) (n : nat) (shardSize : Z) : M Σ (list buffer) :=
  match n with
  | O => mret []
  | S n' =>
      a ← memPoolAlloc h shardSize;
      rest ← allocShards h n' shardSize;
      mret (match a with inl buf => buf | inr _ => nilBuffer end :: rest)
  end.

Fixpoint putAll {Σ} (bufs : list buffer) : M Σ unit :=
  match bufs with
  | [] => mret tt
  | buf :: rest => _ ← memPoolPut buf; putAll rest
  end.

(** What one pass of [for _, blob := range blobs] comes to: a line for the
    channel, or a blob reader that never returns. *)
Inductive produced :=
  | Line (pb : pipeBuffer)
  | Stuck.

(** Go leaves the zero value in [sizes] when [ec.GetBufferSizes] fails and
    the error is dropped. *)
Definition sizesOrZero (r : BufferSizes + error) : BufferSizes :=
  match r with
  | inl sizes => sizes
  | inr _ => {| ShardSize := 0; DataSize := 0; ECDataSize := 0 |}
  end.

Definition produceBlob {Σ} (h : Handler Σ) (clusterID : Z) (blob : blobGetArgs)
    (pp : pipeProducer) (sched : list nat) (late : list bool)
    : M Σ (pipeProducer * produced) :=
  let fresh :=
    match pp_blobVolume pp with
    | None => true
    | Some bv => bool_decide (v_Vid bv ≠ Vid blob)
    end in
  r ← (if fresh then
         v ← getVolume h clusterID (Vid blob) true;
         match v with
         | inr err => mret (inr err)
         | inl bv =>
             let tactic := h_Tactic h (v_CodeMode bv) in
             match slice (v_Units bv) 0 (t_N tactic + t_M tactic) with
             | None => panic
             | Some units =>
                 sortedVuids ← genSortedVuidByIDC h (h_IDC h) units;
                 if (length sortedVuids <? t_N tactic)%nat then
                   mret (inr (ErrBrokenBlob clusterID (Vid blob) (Bid blob)))
                 else mret (inl (bv, sortedVuids))
             end
         end
       else
         match pp_blobVolume pp with
         | Some bv => mret (inl (bv, pp_sortedVuids pp))
         | None => panic
         end);
  match r with
  | inr err => mret (pp, Line (errLine err))
  | inl (bv, sortedVuids) =>
      let pp' := {| pp_blobVolume := Some bv; pp_sortedVuids := sortedVuids |} in
      let codeMode := v_CodeMode bv in
      let tactic := h_Tactic h codeMode in
      let sizes := sizesOrZero (h_GetBufferSizes h (int64 (BlobSize blob)) tactic) in
      shards ← allocShards h (t_N tactic + t_M tactic) (ShardSize sizes);
      _ ← emit (EvReadOneBlob blob);
      o ← readOneBlob h clusterID (v_Vid bv) codeMode blob sortedVuids shards sched late;
      match o with
      | BlobHangs | BlobUnscheduled => mret (pp', Stuck)
      | BlobReturned (Some err) shards' =>
          _ ← putAll shards';
          mret (pp', Line (errLine err))
      | BlobReturned None shards' =>
          mret (pp', Line {| pb_err := None; pb_blob := blob; pb_shards := shards' |})
      end
  end.

(** The loop writing one line to the caller: [idx] walks down [shards].
    Every subtraction is guarded by the comparison before it, so that the
    [uint64] operations do not wrap. *)
Fixpoint writeShards {Σ} (h : Handler Σ) (shards : list buffer) (off toReadSize : Z)
    : M Σ (option error) :=
  if toReadSize <=? 0 then mret None
  else
    match shards with
    | [] => panic
    | buf :: rest =>
        let l := len buf in
        if l <=? off then writeShards h rest (off - l) toReadSize
        else
          let toRead := minU64 toReadSize (l - off) in
          let out := take (Z.to_nat toRead) (drop (Z.to_nat off) (buf_bytes buf)) in
          _ ← emit (EvWrite out);
          e ← oracle (λ σ, h_Write h σ out);
          match e with
          | Some _ => mret (Some ErrWriteResponse)
          | None => writeShards h rest 0 (toReadSize - toRead)
          end
    end.

(** The body of [for line := range pipeline] for a line without error:
    write, return the buffers, and say whether to go on. *)
Definition consumeLine {Σ} (h : Handler Σ) (line : pipeBuffer) : M Σ (option error) :=
  err ← writeShards h (pb_shards line) (Offset (pb_blob line)) (ReadSize (pb_blob line));
  _ ← putAll (pb_shards line);
  mret err.

(** The producing goroutine and the consuming loop of [Get] share the
    channel [ch] of capacity one and the channel [closeCh]. *)
Record pipeState := {
  ps_blobs : list blobGetArgs;               (* not yet started by the producer *)
  ps_scheds : list (list nat * list bool);   (* the schedules of the blob readers *)
  ps_producer : pipeProducer;
  ps_hold : option pipeBuffer;               (* the line the producer is sending *)
  ps_stuck : bool;                           (* its blob reader never returns *)
  ps_closed : bool;                          (* the producer returned: [close(ch)] *)
  ps_ch : option pipeBuffer;
  ps_closeCh : bool;
  ps_result : option (option error)          (* the consumer returned *)
}.

Definition setProducer (st : pipeState) (blobs : list blobGetArgs)
    (scheds : list (list nat * list bool)) (pp : pipeProducer)
    (hold : option pipeBuffer) (stuck closed : bool) (ch : option pipeBuffer)
    : pipeState :=
  {| ps_blobs := blobs; ps_scheds := scheds; ps_producer := pp; ps_hold := hold;
     ps_stuck := stuck; ps_closed := closed; ps_ch := ch;
     ps_closeCh := ps_closeCh st; ps_result := ps_result st |}.

Definition setConsumer (st : pipeState) (ch : option pipeBuffer) (closeCh : bool)
    (result : option (option error)) : pipeState :=
  {| ps_blobs := ps_blobs st; ps_scheds := ps_scheds st;
     ps_producer := ps_producer st; ps_hold := ps_hold st;
     ps_stuck := ps_stuck st; ps_closed := ps_closed st; ps_ch := ch;
     ps_closeCh := closeCh; ps_result := result |}.

(** One step of the producing goroutine. [choice] settles a [select] with
    both cases ready. *)
Definition producerStep {Σ} (h : Handler Σ) (clusterID : Z) (choice : bool)
    (st : pipeState) : M Σ pipeState :=
  if ps_closed st || ps_stuck st then mret st
  else
    match ps_hold st with
    | Some line =>
        match pb_err line with
        | Some _ =>
            (* [ch <- pipeBuffer{err: err}; return] *)
            match ps_ch st with
            | None => mret (setProducer st (ps_blobs st) (ps_scheds st) (ps_producer st)
                              None false true (Some line))
            | Some _ => mret st
            end
        | None =>
            (* [select { case <-closeCh: return; case ch <- line: }] *)
            let canSend := bool_decide (ps_ch st = None) in
            if ps_closeCh st && (negb canSend || choice) then
              mret (setProducer st (ps_blobs st) (ps_scheds st) (ps_producer st)
                      None false true (ps_ch st))
            else if canSend then
              mret (setProducer st (ps_blobs st) (ps_scheds st) (ps_producer st)
                      None false false (Some line))
            else mret st
        end
    | None =>
        match ps_blobs st with
        | [] => mret (setProducer st [] (ps_scheds st) (ps_producer st)
                        None false true (ps_ch st))
        | blob :: rest =>
            let '(sched, late) := hd ([], []) (ps_scheds st) in
            '(pp, p) ← produceBlob h clusterID blob (ps_producer st) sched late;
            match p with
            | Stuck => mret (setProducer st rest (tl (ps_scheds st)) pp
                               None true false (ps_ch st))
            | Line line => mret (setProducer st rest (tl (ps_scheds st)) pp
                                   (Some line) false false (ps_ch st))
            end
        end
    end.

(** One step of [for line := range pipeline]. *)
Definition consumerStep {Σ} (h : Handler Σ) (st : pipeState) : M Σ pipeState :=
  match ps_result st with
  | Some _ => mret st
  | None =>
      match ps_ch st with
      | Some line =>
          match pb_err line with
          | Some e => mret (setConsumer st None (ps_closeCh st) (Some (Some e)))
          | None =>
              err ← consumeLine h line;
              match err with
              | Some e => mret (setConsumer st None true (Some (Some e)))
              | None => mret (setConsumer st None (ps_closeCh st) None)
              end
          end
      | None =>
          if ps_closed st then mret (setConsumer st None (ps_closeCh st) (Some None))
          else mret st
      end
  end.

(** A schedule entry names the goroutine that moves ([true]: the producer)
    and carries the choice of its [select]. *)
Fixpoint runPipeline {Σ} (h : Handler Σ) (clusterID : Z) (sched : list (bool * bool))
    (st : pipeState) : M Σ pipeState :=
  match sched with
  | [] => mret st
  | (who, choice) :: rest =>
      st' ← (if (who : bool) then producerStep h clusterID choice st
             else consumerStep h st);
      runPipeline h clusterID rest st'
  end.

Record schedule := {
  sc_blobs : list (list nat * list bool);
  sc_pipeline : list (bool * bool)
}.

(** The condition under which [Get] first tries the data shards only. *)
Definition dataShardOnly {Σ} (h : Handler Σ) (location : Location)
    (blobs : list blobGetArgs) : option blobGetArgs :=
  match blobs with
  | [blob] =>
      let sizes := sizesOrZero (h_GetBufferSizes h (int64 (BlobSize blob))
                                  (h_Tactic h (loc_CodeMode location))) in
      if (int64 (BlobSize blob) <=? ShardSize sizes)
         || (ReadSize blob <? BlobSize blob / 4)
      then Some blob else None
  | _ => None
  end.

Definition generalPath {Σ} (h : Handler Σ) (clusterID : Z) (blobs : list blobGetArgs)
    (s : schedule) : M Σ pipeState :=
  runPipeline h clusterID (sc_pipeline s)
    {| ps_blobs := blobs; ps_scheds := sc_blobs s;
       ps_producer := {| pp_blobVolume := None; pp_sortedVuids := [] |};
       ps_hold := None; ps_stuck := false; ps_closed := false;
       ps_ch := None; ps_closeCh := false; ps_result := None |}.

(** The function [Get] returns. Its value is [None] while the consuming
    loop has not returned under the schedule. *)
Definition transfer {Σ} (h : Handler Σ) (location : Location)
    (blobs : list blobGetArgs) (s : schedule) : M Σ (option (option error)) :=
  let clusterID := loc_ClusterID location in
  r ← match dataShardOnly h location blobs with
      | Some blob =>
          _ ← emit (EvDataShardOnly blob);
          err ← getDataShardOnly h clusterID blob;
          if bool_decide (err = Some errNeedReconstructRead) then mret None
          else mret (Some err)
      | None => mret None
      end;
  match r with
  | Some err => mret (Some err)
  | None =>
      st ← generalPath h clusterID blobs s;
      mret (ps_result st)
  end.

Definition Get {Σ} (h : Handler Σ) (location : Location) (readSize offset : Z)
    : M Σ ((schedule → M Σ (option (option error))) * option error) :=
  match genLocationBlobs location readSize offset with
  | None => panic
  | Some (inr _) => mret (λ _, mret (Some None), Some ErrIllegalArguments)
  | Some (inl []) => mret (λ _, mret (Some None), None)
  | Some (inl (b :: bs)) =>
      let clusterID := loc_ClusterID location in
      '(_, err) ← TimedOn 3 200
          (λ _ : unit, e ← oracle (λ σ, h_GetServiceController h σ clusterID);
                       mret (tt, e)) tt;
      match err with
      | Some e => mret (λ _, mret (Some None), Some e)
      | None => mret (transfer h location (b :: bs), None)
      end
  end.

(** ** A cluster of three units

    One volume under the tactic N = 2, M = 1 with shards of four bytes,
    its units on three disks of three hosts. *)

Definition shardBytes (i : nat) : list byte :=
  match i with
  | 0%nat => [x01; x02; x03; x04]
  | 1%nat => [x05; x06; x07; x08]
  | _ => [x04; x04; x04; x0c]
  end.

Definition clusterUnits : list Unit :=
  [ {| u_Vuid := 10; u_DiskID := 100; u_Host := "h0" |};
    {| u_Vuid := 11; u_DiskID := 101; u_Host := "h1" |};
    {| u_Vuid := 12; u_DiskID := 102; u_Host := "h2" |} ].

Definition firstUnit : sortedVuid :=
  {| index := 0; vuid := 10; diskID := 100; host := "h0" |}.

Definition secondUnit : sortedVuid :=
  {| index := 1; vuid := 11; diskID := 101; host := "h1" |}.

Definition thirdUnit : sortedVuid :=
  {| index := 2; vuid := 12; diskID := 102; host := "h2" |}.

(** The read order of a handler in IDC [A]: the second unit is punished. *)
Definition clusterVuids : list sortedVuid := [firstUnit; thirdUnit; secondUnit].

(** The storage nodes answer a request for a vuid with [answer], the
    caller's writer answers [write]; the encoder fills the shards it is
    asked to rebuild. *)
Definition cluster (answer : Z → list byte + rpcError) (write : option error)
    : Handler unit :=
  {| h_IDC := "A"; h_MinReadShardsX := 0;
     h_Tactic := λ _, {| t_N := 2; t_M := 1; t_L := 0 |};
     h_GetBufferSizes := λ size _,
       inl {| ShardSize := 4; DataSize := size; ECDataSize := 8 |};
     h_GetServiceController := λ σ _, (σ, None);
     h_getVolume := λ σ _ vid _,
       (σ, inl {| v_Vid := vid; v_CodeMode := 1; v_Units := clusterUnits |});
     h_GetDiskHost := λ σ disk,
       (σ, inl {| hi_Host := "h"; hi_IDC := if disk =? 100 then "A" else "B";
                  hi_Punished := disk =? 101 |});
     h_RangeGetShard := λ σ _ args, (σ, answer (a_Vuid args));
     h_punish := λ σ _ _ _ _, σ;
     h_hystrix := λ σ, (σ, HxRun);
     h_Shuffle := λ σ l, (σ, reverse l);
     h_ReconstructData := λ σ _ shards badIdx,
       (σ, (imap (λ i b, if bool_decide (i ∈ badIdx) then shardBytes i else b) shards,
            None));
     h_poolAlloc := λ σ _, (σ, inl []);
     h_Write := λ σ _, (σ, write) |}.

(** Every node holds its shard. *)
Definition healthy (vuid : Z) : list byte + rpcError :=
  inl (shardBytes (Z.to_nat (vuid - 10))).

(** The disk of the second unit is broken. *)
Definition degraded (vuid : Z) : list byte + rpcError :=
  if vuid =? 11 then inr DiskBroken else healthy vuid.


(** No node knows its vuid, and the volume does not change. *)
Definition stale (vuid : Z) : list byte + rpcError := inr VuidNotFound.

Definition emptyWorld : world unit := {| w_env := tt; w_trace := []; w_nextBuf := 0 |}.

(** A full blob of eight bytes, and a blob of three bytes whose second
    data shard is empty. *)
Definition fullBlob : blobGetArgs :=
  {| Vid := 1; Bid := 1; BlobSize := 8; Offset := 0; ReadSize := 8 |}.

Definition smallBlob : blobGetArgs :=
  {| Vid := 1; Bid := 3; BlobSize := 3; Offset := 0; ReadSize := 3 |}.

(** One byte of a blob of eight: a read for the data-shard-only path. *)
Definition tinyRead : blobGetArgs :=
  {| Vid := 1; Bid := 1; BlobSize := 8; Offset := 0; ReadSize := 1 |}.

Definition oneBlob : Location :=
  {| loc_ClusterID := 1; loc_CodeMode := 1; loc_Size := 8; loc_BlobSize := 8;
     loc_Blobs := [ {| s_MinBid := 1; s_Vid := 1; s_Count := 1 |} ] |}.

(** Three buffers of the pool, of four bytes each. *)
Definition poolShards : list buffer :=
  [ {| buf_id := Some 0%nat; buf_bytes := [x00; x00; x00; x00] |};
    {| buf_id := Some 1%nat; buf_bytes := [x00; x00; x00; x00] |};
    {| buf_id := Some 2%nat; buf_bytes := [x00; x00; x00; x00] |} ].



Definition pooledWorld : world unit := {| w_env := tt; w_trace := []; w_nextBuf := 3 |}.

(** Two blobs of eight bytes in one volume. *)
Definition twoBlobs : Location :=
  {| loc_ClusterID := 1; loc_CodeMode := 1; loc_Size := 16; loc_BlobSize := 8;
     loc_Blobs := [ {| s_MinBid := 1; s_Vid := 1; s_Count := 2 |} ] |}.

(** Both blob readers get their two shards in order; the producer reads
    the first blob, sends it and reads the second, the consumer takes the
    first line, and the producer comes to its [select]. *)
Definition writerFails (choice : bool) (more : list (bool * bool)) : schedule :=
  {| sc_blobs := [([0; 0], []); ([0; 0], [])]%nat;
     sc_pipeline := [(true, false); (true, false); (true, false); (false, false);
                     (true, choice)] ++ more |}.

Definition runGet {Σ} (h : Handler Σ) (location : Location) (readSize offset : Z)
    (s : schedule) : M Σ (option (option error)) :=
  '(f, err) ← Get h location readSize offset;
  match err with
  | Some e => mret (Some (Some e))
  | None => f s
  end.

(** The blobs of a location in order, each with the run it belongs to. *)
Definition expandRun (blob : SliceInfo) : list (SliceInfo * Z) :=
  (λ k, (blob, u64 (s_MinBid blob + k))) <$> seqZ 0 (s_Count blob).

Definition expand (runs : list SliceInfo) : list (SliceInfo * Z) :=
  concat (expandRun <$> runs).

Fixpoint genFlat (locSize blobSize firstBlobIdx : Z) (l : list (SliceInfo * Z))
    (st : genState) : flow genState (list blobGetArgs) :=
  match l with
  | [] => Running st
  | (blob, bid) :: rest =>
      match genStep locSize blobSize firstBlobIdx blob bid st with
      | Returned r => Returned r
      | Running st' => genFlat locSize blobSize firstBlobIdx rest st'
      end
  end.

Definition blobAt (runs : list SliceInfo) (idx : Z) : Z * Z :=
  match expand runs !! Z.to_nat idx with
  | Some (blob, bid) => (s_Vid blob, bid)
  | None => (0, 0)
  end.

(** The part of the requested range that lies in blob [idx]. *)
Definition coverBlob (location : Location) (readSize offset idx : Z) : blobGetArgs :=
  let bs := loc_BlobSize location in
  {| Vid := (blobAt (loc_Blobs location) idx).1;
     Bid := (blobAt (loc_Blobs location) idx).2;
     BlobSize := Z.min bs (loc_Size location - idx * bs);
     Offset := Z.max offset (idx * bs) - idx * bs;
     ReadSize := Z.min (offset + readSize) ((idx + 1) * bs) - Z.max offset (idx * bs) |}.

Definition totalCount (runs : list SliceInfo) : Z :=
  foldr (λ r acc, s_Count r + acc) 0 runs.

Definition is_err {A B} (r : option (A + B)) : Prop :=
  match r with Some (inr _) => True | _ => False end.

Definition wrapLocation : Location :=
  {| loc_ClusterID := 1; loc_CodeMode := 1; loc_Size := 0;
     loc_BlobSize := 4294967295;
     loc_Blobs := [ {| s_MinBid := 0; s_Vid := 1; s_Count := 4294967295 |};
                    {| s_MinBid := 4294967295; s_Vid := 1; s_Count := 3 |} ] |}.

(** The results of the storage-node requests of a trace, newest first. *)
Fixpoint attemptResults (tr : list event) : list (option rpcError) :=
  match tr with
  | [] => []
  | EvRangeGetShard _ _ _ res :: tr' => res :: attemptResults tr'
  | _ :: tr' => attemptResults tr'
  end.

Fixpoint backoffs (tr : list event) : list Z :=
  match tr with
  | [] => []
  | EvBackoff d :: tr' => d :: backoffs tr'
  | _ :: tr' => backoffs tr'
  end.

(** The volume lookups of a trace that bypass the cache, newest first. *)
Fixpoint forcedRefreshes (tr : list event) : list (Z * Z) :=
  match tr with
  | [] => []
  | EvGetVolume c v false :: tr' => (c, v) :: forcedRefreshes tr'
  | _ :: tr' => forcedRefreshes tr'
  end.

Definition shortCircuits (e : rpcError) : bool :=
  match e with
  | Overload | DiskBroken | VuidReadonly | Timeout => true
  | _ => false
  end.

Definition identityMismatch (r : option rpcError) : bool :=
  match r with
  | Some DiskNotFound | Some VuidNotFound => true
  | _ => false
  end.

(** The events of the shard transport for the unit [idx]. *)
Definition transportEvent (idx : nat) (ev : event) : Prop :=
  match ev with
  | EvRangeGetShard i _ _ _ => i = idx
  | EvGetVolume _ _ _ | EvGetDiskHost _ | EvPunishDisk _ _ _
  | EvPunishDiskWith _ _ _ | EvBackoff _ => True
  | _ => False
  end.

(** What one attempt leaves in the trace. *)
Definition attemptSpec (idx : nat) (clusterID vid : Z) (Δ : list event) (intr : bool)
    (err : option error) : Prop :=
  backoffs Δ = [] ∧ (length (attemptResults Δ) ≤ 1)%nat ∧
  Forall (transportEvent idx) Δ ∧
  forcedRefreshes Δ = ((λ _, (clusterID, vid)) <$> filter (λ r, identityMismatch r = true) (attemptResults Δ)) ∧
  (err = None → attemptResults Δ = [None]) ∧
  (intr = false → ∃ e, err ≠ None ∧ attemptResults Δ = [Some e] ∧ shortCircuits e = false).

(** The traces a retry loop of at most [n] attempts leaves, newest event
    first, when [P] describes the trace of one attempt. *)
Inductive retryTrace (P : list event → bool → option error → Prop)
    : nat → Z → list event → Prop :=
  | rt_none d : retryTrace P 0 d []
  | rt_last n d Δ intr err : P Δ intr err → retryTrace P (S n) d Δ
  | rt_more n d Δ Δ' e :
      P Δ false (Some e) → retryTrace P (S n) (2 * d) Δ' →
      retryTrace P (S (S n)) d (Δ' ++ EvBackoff d :: Δ).

Definition retryable (r : option rpcError) : bool :=
  match r with
  | Some e => negb (shortCircuits e)
  | None => false
  end.

(** [d; 2d; 4d; ...]: the delays of an exponential backoff. *)
Fixpoint expDelays (k : nat) (d : Z) : list Z :=
  match k with
  | O => []
  | S k' => d :: expDelays k' (2 * d)
  end.

(** The disks a trace threshold-punishes, newest first. *)
Fixpoint thresholdPunishes (tr : list event) : list (Z * Z * string) :=
  match tr with
  | [] => []
  | EvPunishDiskWith c d hst :: tr' => (c, d, hst) :: thresholdPunishes tr'
  | _ :: tr' => thresholdPunishes tr'
  end.

(** What the forced refresh after an identity mismatch tells about the
    unit [idx] of the target [tg], when the refresh is asked in the state
    [σ]: the refresh fails, the refreshed volume has no such unit, the unit
    stays where it is asked (same disk, or a disk that does not resolve or
    is punished), or it has moved to the disk of [u] on the host [hi]. *)
Inductive refreshed :=
  | RefreshFailed
  | UnitMissing
  | UnitStays
  | UnitMoved (u : Unit) (hi : HostIDC).

Definition refreshOutcome {Σ} (h : Handler Σ) (idx : nat) (c v : Z) (tg : shardTarget)
    (σ : Σ) : refreshed :=
  match (h_getVolume h σ c v false).2 with
  | inr _ => RefreshFailed
  | inl bv =>
      match v_Units bv !! idx with
      | None => UnitMissing
      | Some u =>
          if bool_decide (u_DiskID u = tg_diskID tg) then UnitStays
          else
            match (h_GetDiskHost h (h_getVolume h σ c v false).1 (u_DiskID u)).2 with
            | inl hi => if hi_Punished hi then UnitStays else UnitMoved u hi
            | inr _ => UnitStays
            end
      end
  end.

(** The target of the attempt after a mismatch. *)
Definition nextTarget (tg : shardTarget) (o : refreshed) : shardTarget :=
  match o with
  | UnitMoved u hi =>
      {| tg_host := hi_Host hi; tg_diskID := u_DiskID u;
         tg_args := {| a_DiskID := u_DiskID u; a_Vuid := u_Vuid u;
                       a_Bid := a_Bid (tg_args tg); a_Offset := a_Offset (tg_args tg);
                       a_Size := a_Size (tg_args tg) |};
         tg_rbody := tg_rbody tg |}
  | _ => tg
  end.

(** The events of a shard reader for the unit [idx]. *)
Definition readerEvent (idx : nat) (ev : event) : Prop :=
  match ev with
  | EvAlloc _ _ | EvPut _ => True
  | _ => transportEvent idx ev
  end.

(** The sizes [ec.GetBufferSizes] gives a blob under a tactic of [n] data
    shards: [n] shards of a positive size hold the data. *)
Definition sizesFor (n : nat) (sizes : BufferSizes) : Prop :=
  0 < ShardSize sizes ∧ 0 < DataSize sizes ∧
  DataSize sizes + ShardSize sizes < 2 ^ 63 ∧
  DataSize sizes <= ECDataSize sizes ∧
  ECDataSize sizes = ShardSize sizes * Z.of_nat n.

(** Counting in the [received] map. *)
Definition liveKeys (received : gmap nat bool) : gset nat :=
  dom (filter (λ kv : nat * bool, kv.2 = true) received).

Definition failedKeys (received : gmap nat bool) : gset nat :=
  dom (filter (λ kv : nat * bool, kv.2 = false) received).

Definition zeros (n : nat) : list byte := replicate n x00.

(** The bytes a trace hands to the caller's writer, in the order written. *)
Fixpoint written (tr : list event) : list byte :=
  match tr with
  | [] => []
  | EvWrite data :: tr' => written tr' ++ data
  | _ :: tr' => written tr'
  end.


(** A computation run from [w] only adds events satisfying [φ] to the
    trace, and its value, if it has one, satisfies [Q]. *)
Definition runs {Σ A} (φ : event → Prop) (m : M Σ A) (w : world Σ) (Q : A → Prop) : Prop :=
  ∃ Δ, w_trace (m w).2 = Δ ++ w_trace w ∧ Forall φ Δ ∧
       match (m w).1 with
       | Some a => Q a
       | None => True
       end.

(** No request and no read for an empty data shard. *)
Definition untouched (E : gset nat) (ev : event) : Prop :=
  match ev with
  | EvRangeGetShard i _ _ _ | EvLaunch i => i ∉ E
  | _ => True
  end.

Definition allZero (b : buffer) : Prop := buf_bytes b = zeros (length (buf_bytes b)).

Definition shardsZero (E : gset nat) (shards : list buffer) : Prop :=
  ∀ i, i ∈ E → ∃ b, shards !! i = Some b ∧ allZero b.

Definition receivedAll (E : gset nat) (received : gmap nat bool) : Prop :=
  ∀ i, i ∈ E → received !! i = Some true.

Definition emptiesKept (E : gset nat) (st : blobRead) : Prop :=
  receivedAll E (br_received st) ∧ shardsZero E (br_shards st) ∧
  (∀ vu, vu ∈ br_inflight st ++ br_waiting st → index vu ∉ E).

(** The buffers a trace zero-fills, newest first. *)
Fixpoint zeroed (tr : list event) : list (option nat) :=
  match tr with
  | [] => []
  | EvZero id :: tr' => id :: zeroed tr'
  | _ :: tr' => zeroed tr'
  end.

(** The events before the consuming loop of [readOneBlob]: the first
    shard reads are started, none of them for an empty data shard, and the
    buffers of the empty data shards are zero-filled. *)
Definition preludeEvent (E : gset nat) (ev : event) : Prop :=
  match ev with
  | EvZero _ => True
  | EvLaunch i => i ∉ E
  | _ => False
  end.

(** The assumptions of a blob read that succeeds: the read order names
    units of the volume, each once; the units outside [bad], which are no
    more than the tactic has parity shards, are all in the order and give
    their shard [truth i]; the encoder rebuilds the data shards from enough
    good shards; the shard buffers come in the size of the shards; the
    stored data shards past the data hold zeros; the range read lies
    inside the data shards; and the caller's writer takes what it is
    given. *)
Record blobServed {Σ} (h : Handler Σ) (clusterID vid codeMode : Z) (blob : blobGetArgs)
    (sortedVuids : list sortedVuid) (truth : nat → list byte) (bad : gset nat)
    (shardSize : Z) (sizes : BufferSizes) (shards : list buffer) : Prop := {
  served_nodup : NoDup (index <$> sortedVuids);
  served_range : ∀ vu, vu ∈ sortedVuids →
    (index vu < t_N (h_Tactic h codeMode) + t_M (h_Tactic h codeMode))%nat;
  served_bad : (size bad ≤ t_M (h_Tactic h codeMode))%nat;
  served_present : ∀ i,
    (i < t_N (h_Tactic h codeMode) + t_M (h_Tactic h codeMode))%nat → i ∉ bad →
    i ∈ (list_to_set (index <$> sortedVuids) : gset nat);
  served_read : ∀ vu w, vu ∈ sortedVuids →
    ∃ sd w', readOneShard h clusterID vid shardSize blob vu (Some false) w = (Some sd, w') ∧
             sd_index sd = index vu ∧
             (sd_status sd = true → buf_bytes (sd_buffer sd) = truth (index vu)) ∧
             (index vu ∉ bad → sd_status sd = true);
  served_encoder : ∀ σ bytes badIdx,
    length bytes = (t_N (h_Tactic h codeMode) + t_M (h_Tactic h codeMode))%nat →
    (∀ i, (i < t_N (h_Tactic h codeMode) + t_M (h_Tactic h codeMode))%nat →
          i ∉ badIdx → bytes !! i = Some (truth i)) →
    (t_N (h_Tactic h codeMode)
     ≤ size (set_seq 0 (t_N (h_Tactic h codeMode) + t_M (h_Tactic h codeMode))
             ∖ list_to_set badIdx : gset nat))%nat →
    ∃ σ' out, h_ReconstructData h σ codeMode bytes badIdx = (σ', (out, None)) ∧
              length out = (t_N (h_Tactic h codeMode) + t_M (h_Tactic h codeMode))%nat ∧
              ∀ i, (i < t_N (h_Tactic h codeMode))%nat → out !! i = Some (truth i);
  served_shards :
    length shards = (t_N (h_Tactic h codeMode) + t_M (h_Tactic h codeMode))%nat;
  served_shardlen : Forall (λ b, len b = shardSize) shards;
  served_padding : ∀ i,
    i ∈ emptyDataShardIndexes sizes → truth i = zeros (Z.to_nat shardSize);
  served_truthlen : ∀ i,
    (i < t_N (h_Tactic h codeMode))%nat → length (truth i) = Z.to_nat shardSize;
  served_offset : 0 <= Offset blob;
  served_fits :
    Offset blob + ReadSize blob <= Z.of_nat (t_N (h_Tactic h codeMode)) * shardSize;
  served_writer : ∀ σ data, (h_Write h σ data).2 = None
}.

(** The units of a volume whose disk the service controller resolves, in
    the order of the volume, each with the answer it got. *)
Fixpoint resolvedUnits {Σ} (h : Handler Σ) (idx : nat) (vuidPhys : list Unit)
    : M Σ (list (sortedVuid * HostIDC)) :=
  match vuidPhys with
  | [] => mret []
  | phy :: rest =>
      r ← lookupDiskHost h (u_DiskID phy);
      rs ← resolvedUnits h (S idx) rest;
      mret (match r with
            | None => rs
            | Some hostIDC =>
                ({| index := idx; vuid := u_Vuid phy;
                    diskID := u_DiskID phy; host := u_Host phy |}, hostIDC) :: rs
            end)
  end.

(** The distance key of the specification. *)
Definition distanceKey (sameIDC punished : bool) : Z :=
  match punished, sameIDC with
  | false, true => 0
  | false, false => 1
  | true, true => 2
  | true, false => 3
  end.

Definition keyOf (idc : string) (r : sortedVuid * HostIDC) : Z :=
  distanceKey (bool_decide (idc = hi_IDC r.2)) (hi_Punished r.2).

(** The resolved units at distance [d], in the order of the volume. *)
Definition groupAt (idc : string) (d : Z) (rs : list (sortedVuid * HostIDC))
    : list sortedVuid :=
  fst <$> filter (λ r, keyOf idc r = d) rs.

(** The resolvable units of a volume, in the order of the volume, each with
    the host record of its disk: [resolve] tells the disks the service
    controller knows. *)
Fixpoint resolvableUnits (resolve : Z → option HostIDC) (idx : nat)
    (vuidPhys : list Unit) : list (sortedVuid * HostIDC) :=
  match vuidPhys with
  | [] => []
  | phy :: rest =>
      match resolve (u_DiskID phy) with
      | None => resolvableUnits resolve (S idx) rest
      | Some hostIDC =>
          ({| index := idx; vuid := u_Vuid phy;
              diskID := u_DiskID phy; host := u_Host phy |}, hostIDC)
            :: resolvableUnits resolve (S idx) rest
      end
  end.

(** The service controller answers as [resolve] says, in every state. *)
Definition resolves {Σ} (h : Handler Σ) (resolve : Z → option HostIDC) : Prop :=
  ∀ σ disk,
    match resolve disk with
    | Some hi => (h_GetDiskHost h σ disk).2 = inl hi
    | None => ∃ e, (h_GetDiskHost h σ disk).2 = inr e
    end.

(** The producer of the pipeline looks the volume of [blob] up. *)
Definition looksUp (pp : pipeProducer) (blob : blobGetArgs) : Prop :=
  match pp_blobVolume pp with
  | None => True
  | Some bv => v_Vid bv ≠ Vid blob
  end.

(** The events of a disk lookup. *)
Definition lookupEvent (ev : event) : Prop :=
  match ev with
  | EvGetVolume _ _ _ | EvGetDiskHost _ | EvBackoff _ => True
  | _ => False
  end.

(** The map the first loop builds holds every resolved unit under its
    distance, in the order of the volume. *)
Definition grouped (idc : string) (rs : list (sortedVuid * HostIDC))
    (sortMap : gmap Z (list sortedVuid)) : Prop :=
  (∀ d, default [] (sortMap !! d) = groupAt idc d rs) ∧
  (∀ d, is_Some (sortMap !! d) → d ∈ [0; 1; 2; 3]).

(** The units the storage-node requests of a trace go to, newest first. *)
Fixpoint requestedUnits (tr : list event) : list nat :=
  match tr with
  | [] => []
  | EvRangeGetShard idx _ _ _ :: tr' => idx :: requestedUnits tr'
  | _ :: tr' => requestedUnits tr'
  end.

(** The events of the data-shard-only reader: no shard reader is
    launched and nothing is reconstructed. *)
Definition fastPathEvent (ev : event) : Prop :=
  match ev with
  | EvRangeGetShard _ _ _ _ | EvGetVolume _ _ _ | EvGetDiskHost _
  | EvPunishDisk _ _ _ | EvPunishDiskWith _ _ _ | EvBackoff _
  | EvAlloc _ _ | EvPut _ | EvWrite _ => True
  | _ => False
  end.

(** What the fast-path loop leaves in the trace when it starts at the
    unit [idx] with [n] units to go. *)
Definition fastTrace (idx n : nat) (Δ : list event) : Prop :=
  Forall fastPathEvent Δ ∧
  StronglySorted ge (requestedUnits Δ) ∧
  Forall (λ i, idx ≤ i < idx + n)%nat (requestedUnits Δ).

(** What the data-shard-only reader leaves in the trace, for the volume it
    read and the outcome it has. *)
Definition fastPathSpec {Σ} (h : Handler Σ) (blob : blobGetArgs) (volume : option VolumePhy)
    (Δ : list event) (r : option (option error)) : Prop :=
  Forall fastPathEvent Δ ∧
  StronglySorted ge (requestedUnits Δ) ∧
  (∀ bv sizes,
     volume = Some bv →
     h_GetBufferSizes h (int64 (BlobSize blob)) (h_Tactic h (v_CodeMode bv)) = inl sizes →
     Forall (λ i, Z.to_nat (Z.quot (int64 (Offset blob)) (ShardSize sizes)) ≤ i
                  < t_N (h_Tactic h (v_CodeMode bv)))%nat (requestedUnits Δ) ∧
     (0 < ShardSize sizes < 2 ^ 63 → 0 <= Offset blob < 2 ^ 63 →
      0 <= ReadSize blob < 2 ^ 64 →
      Forall (λ i, Z.of_nat i * ShardSize sizes < Offset blob + ReadSize blob)
        (requestedUnits Δ))) ∧
  (∀ e : rpcError, head (attemptResults Δ) = Some (Some e) →
     match r with
     | Some err => err = Some errNeedReconstructRead
     | None => True
     end).

(** The shards a range of [remain] bytes reaches that starts [off] bytes
    into a shard of [shardSize] bytes. *)
Definition shardsReached (shardSize off remain : Z) : nat :=
  if remain <=? 0 then 0%nat else Z.to_nat ((off + remain - 1) / shardSize + 1).

(** The assumptions of a data-shard-only read that is served up to the
    unit [k]: the volume is known and does not change, the sizes and the
    pool are there, the range read lies inside the data shards, every data
    unit before [k] answers with the bytes asked of its shard [truth i],
    and the unit [k] answers every request with an error, of whatever
    class. *)
Record fastServed {Σ} (h : Handler Σ) (clusterID : Z) (blob : blobGetArgs)
    (bv : VolumePhy) (sizes : BufferSizes) (truth : nat → list byte) (k : nat) : Prop := {
  fs_volume : ∀ σ cache, (h_getVolume h σ clusterID (Vid blob) cache).2 = inl bv;
  fs_sizes :
    h_GetBufferSizes h (int64 (BlobSize blob)) (h_Tactic h (v_CodeMode bv)) = inl sizes;
  fs_pool : ∀ σ size, ∃ bytes, (h_poolAlloc h σ size).2 = inl bytes;
  fs_shardSize : 0 < ShardSize sizes;
  fs_int : Z.of_nat (t_N (h_Tactic h (v_CodeMode bv))) * ShardSize sizes < 2 ^ 63;
  fs_units : (t_N (h_Tactic h (v_CodeMode bv)) ≤ length (v_Units bv))%nat;
  fs_offset : 0 <= Offset blob;
  fs_read : 0 < ReadSize blob;
  fs_fits : Offset blob + ReadSize blob
            <= Z.of_nat (t_N (h_Tactic h (v_CodeMode bv))) * ShardSize sizes;
  fs_truthlen : ∀ i, (i < t_N (h_Tactic h (v_CodeMode bv)))%nat →
    length (truth i) = Z.to_nat (ShardSize sizes);
  fs_node : ∀ σ i phy off size,
    v_Units bv !! i = Some phy → (i < k)%nat →
    (i < t_N (h_Tactic h (v_CodeMode bv)))%nat →
    0 <= off → 0 < size → off + size <= ShardSize sizes →
    (h_RangeGetShard h σ (u_Host phy)
       {| a_DiskID := u_DiskID phy; a_Vuid := u_Vuid phy; a_Bid := Bid blob;
          a_Offset := off; a_Size := size |}).2
    = inl (take (Z.to_nat size) (drop (Z.to_nat off) (truth i)));
  fs_fault : ∀ σ phy off size,
    v_Units bv !! k = Some phy →
    ∃ e, (h_RangeGetShard h σ (u_Host phy)
            {| a_DiskID := u_DiskID phy; a_Vuid := u_Vuid phy; a_Bid := Bid blob;
               a_Offset := off; a_Size := size |}).2 = inr e
}.

(** The pool buffers a list of shards holds. *)
Definition held (shards : list buffer) : list nat := omap buf_id shards.

(** From [w] to [w'] every buffer held [before] and every buffer acquired
    since has been returned; the buffers acquired are fresh, so that each
    one is returned once. *)
Definition conserved {Σ} (before : list nat) (w w' : world Σ) : Prop :=
  ∃ Δ, w_trace w' = Δ ++ w_trace w ∧
       returned Δ ≡ₚ before ++ acquired Δ ∧
       NoDup (acquired Δ) ∧
       Forall (λ id, w_nextBuf w ≤ id)%nat (acquired Δ) ∧
       (NoDup before → Forall (λ id, id < w_nextBuf w)%nat before → NoDup (returned Δ)).

(** A computation run from [w] acquires fresh buffers only, each once; [Q]
    relates its value to the buffers it acquires and those it returns,
    newest first. *)
Definition pooled {Σ A} (m : M Σ A) (w : world Σ)
    (Q : A → list nat → list nat → Prop) : Prop :=
  ∃ Δ, w_trace (m w).2 = Δ ++ w_trace w ∧
       (w_nextBuf w ≤ w_nextBuf (m w).2)%nat ∧
       NoDup (acquired Δ) ∧
       Forall (λ id, w_nextBuf w ≤ id < w_nextBuf (m w).2)%nat (acquired Δ) ∧
       match (m w).1 with
       | Some a => Q a (acquired Δ) (returned Δ)
       | None => True
       end.

(** Nothing acquired, nothing returned. *)
Definition silent {A} : A → list nat → list nat → Prop := λ _ acq ret, acq = [] ∧ ret = [].

(** Events that neither acquire nor return a buffer. *)
Definition notPool (ev : event) : Prop :=
  match ev with
  | EvAlloc _ _ | EvPut _ => False
  | _ => True
  end.

(** The consumer has returned and the producer has nothing left to send. *)
Definition pipelineOver (st : pipeState) : Prop :=
  is_Some (ps_result st) ∧ ps_hold st = None ∧ ps_blobs st = [].

(** An entry of the read order stands for the unit at its index. *)
Definition unitAt (vuidPhys : list Unit) (sv : sortedVuid) : Prop :=
  ∃ phy, vuidPhys !! index sv = Some phy ∧
         vuid sv = u_Vuid phy ∧ diskID sv = u_DiskID phy ∧ host sv = u_Host phy.

(** A scan of a trace in the order of time: [asked] is the host and disk of
    the last request when that request failed. Every punishment names
    them. *)
Fixpoint punishesAsked (asked : option (string * Z)) (tr : list event) : Prop :=
  match tr with
  | [] => True
  | EvRangeGetShard _ hst args (Some _) :: tr' =>
      punishesAsked (Some (hst, a_DiskID args)) tr'
  | EvRangeGetShard _ _ _ None :: tr' => punishesAsked None tr'
  | EvPunishDisk _ disk hst :: tr' | EvPunishDiskWith _ disk hst :: tr' =>
      asked = Some (hst, disk) ∧ punishesAsked asked tr'
  | _ :: tr' => punishesAsked asked tr'
  end.

Fixpoint lastAsked (asked : option (string * Z)) (tr : list event) : option (string * Z) :=
  match tr with
  | [] => asked
  | EvRangeGetShard _ hst args (Some _) :: tr' => lastAsked (Some (hst, a_DiskID args)) tr'
  | EvRangeGetShard _ _ _ None :: tr' => lastAsked None tr'
  | _ :: tr' => lastAsked asked tr'
  end.

(** The traces in which every punishment follows the failed request it
    names, whatever came before. *)
Definition punishesOwn (Δ : list event) : Prop := ∀ a, punishesAsked a (reverse Δ).

Definition aimed (tg : shardTarget) : Prop := a_DiskID (tg_args tg) = tg_diskID tg.

(** A line that carries the shards of [blob], long enough for the range,
    whose range holds [bytes]. *)
Definition goodLine (bytes : list byte) (blob : blobGetArgs) (line : pipeBuffer) : Prop :=
  pb_err line = None ∧ pb_blob line = blob ∧ 0 <= Offset blob ∧
  Offset blob + ReadSize blob
    <= Z.of_nat (length (concat (buf_bytes <$> pb_shards line))) ∧
  take (Z.to_nat (ReadSize blob))
    (drop (Z.to_nat (Offset blob)) (concat (buf_bytes <$> pb_shards line))) = bytes.

(** The producer and the consumer take turns, [n] times. *)
Definition roundRobin (n : nat) : list (bool * bool) :=
  concat (replicate n [(true, false); (false, false)]).

(** The lines on their way to the consumer, oldest first. *)
Definition pending (st : pipeState) : list pipeBuffer :=
  option_list (ps_ch st) ++ option_list (ps_hold st).

(** The steps the pipeline still has to take. *)
Definition pipeWork (st : pipeState) : nat :=
  (3 * length (ps_blobs st) + 2 * length (option_list (ps_hold st))
   + length (option_list (ps_ch st)) + (if ps_closed st then 0 else 1))%nat.

Definition pipeInv (I : pipeProducer → Prop) (fair : list nat * list bool → Prop)
    (data : blobGetArgs → list byte) (blobs : list blobGetArgs) (base : list byte)
    (tr : list event) (st : pipeState) : Prop :=
  ∃ served sent,
    blobs = served ++ sent ++ ps_blobs st ∧
    Forall2 (λ blob line, goodLine (data blob) blob line) sent (pending st) ∧
    written tr = base ++ concat (data <$> served) ∧
    I (ps_producer st) ∧ Forall fair (ps_scheds st) ∧
    (length (ps_blobs st) ≤ length (ps_scheds st))%nat ∧
    ps_stuck st = false ∧ ps_closeCh st = false ∧
    (ps_closed st = true → ps_hold st = None ∧ ps_blobs st = []) ∧
    (∀ r, ps_result st = Some r →
       r = None ∧ ps_closed st = true ∧ ps_ch st = None ∧ sent = []).

(** The events of the producing goroutine: everything but a write to the
    caller and the start of the data-shard-only reader. *)
Definition producerEvent (ev : event) : Prop :=
  match ev with
  | EvWrite _ | EvDataShardOnly _ => False
  | _ => True
  end.

(** The read order of a volume under [n] data and parity units: every
    unit of the slice once, under its own index. *)
Definition goodOrder (units : list Unit) (n : nat) (vuids : list sortedVuid) : Prop :=
  NoDup (index <$> vuids) ∧ Forall (unitAt (take n units)) vuids ∧
  index <$> vuids ≡ₚ seq 0 n.

(** The collaborators serve [blob]: its volume [bv] is known and its disks
    are resolved, the shards have the sizes [sizes], at most [M] units,
    those of [bad], fail to deliver their shard while every other unit
    delivers the bytes [truth] of its index, the encoder rebuilds the data
    shards from any [N] shards, and the range of the blob lies in the data
    shards. *)
Record serves {Σ} (h : Handler Σ) (clusterID : Z) (bv : VolumePhy) (sizes : BufferSizes)
    (truth : nat → list byte) (bad : gset nat) (blob : blobGetArgs) : Prop := {
  sv_volume : ∀ σ, (h_getVolume h σ clusterID (Vid blob) true).2 = inl bv;
  sv_vid : v_Vid bv = Vid blob;
  sv_units :
    (t_N (h_Tactic h (v_CodeMode bv)) + t_M (h_Tactic h (v_CodeMode bv))
     ≤ length (v_Units bv))%nat;
  sv_hosts : ∀ σ phy,
    phy ∈ take (t_N (h_Tactic h (v_CodeMode bv)) + t_M (h_Tactic h (v_CodeMode bv)))
            (v_Units bv) →
    ∃ hi, (h_GetDiskHost h σ (u_DiskID phy)).2 = inl hi;
  sv_sizes :
    h_GetBufferSizes h (int64 (BlobSize blob)) (h_Tactic h (v_CodeMode bv)) = inl sizes;
  sv_wf : sizesFor (t_N (h_Tactic h (v_CodeMode bv))) sizes;
  sv_bad : (size bad ≤ t_M (h_Tactic h (v_CodeMode bv)))%nat;
  sv_read : ∀ vu (w : world Σ),
    unitAt (take (t_N (h_Tactic h (v_CodeMode bv)) + t_M (h_Tactic h (v_CodeMode bv)))
              (v_Units bv)) vu →
    ∃ sd w', readOneShard h clusterID (v_Vid bv) (ShardSize sizes) blob vu (Some false) w
             = (Some sd, w') ∧
             sd_index sd = index vu ∧
             (sd_status sd = true → buf_bytes (sd_buffer sd) = truth (index vu)) ∧
             (index vu ∉ bad → sd_status sd = true);
  sv_encoder : ∀ σ bytes badIdx,
    length bytes
    = (t_N (h_Tactic h (v_CodeMode bv)) + t_M (h_Tactic h (v_CodeMode bv)))%nat →
    (∀ i, (i < t_N (h_Tactic h (v_CodeMode bv)) + t_M (h_Tactic h (v_CodeMode bv)))%nat →
          i ∉ badIdx → bytes !! i = Some (truth i)) →
    (t_N (h_Tactic h (v_CodeMode bv))
     ≤ size (set_seq 0 (t_N (h_Tactic h (v_CodeMode bv)) + t_M (h_Tactic h (v_CodeMode bv)))
             ∖ list_to_set badIdx : gset nat))%nat →
    ∃ σ' out, h_ReconstructData h σ (v_CodeMode bv) bytes badIdx = (σ', (out, None)) ∧
              length out
              = (t_N (h_Tactic h (v_CodeMode bv)) + t_M (h_Tactic h (v_CodeMode bv)))%nat ∧
              ∀ i, (i < t_N (h_Tactic h (v_CodeMode bv)))%nat → out !! i = Some (truth i);
  sv_padding : ∀ i, i ∈ emptyDataShardIndexes sizes →
    truth i = zeros (Z.to_nat (ShardSize sizes));
  sv_truthlen : ∀ i, (i < t_N (h_Tactic h (v_CodeMode bv)))%nat →
    length (truth i) = Z.to_nat (ShardSize sizes);
  sv_offset : 0 <= Offset blob;
  sv_fits :
    Offset blob + ReadSize blob
    <= Z.of_nat (t_N (h_Tactic h (v_CodeMode bv))) * ShardSize sizes
}.

(** The bytes of the range of a blob in its data shards. *)
Definition rangeOf (n : nat) (truth : nat → list byte) (blob : blobGetArgs) : list byte :=
  take (Z.to_nat (ReadSize blob))
    (drop (Z.to_nat (Offset blob)) (concat (truth <$> seq 0 n))).

(** What the producer keeps from one blob to the next: the volume of a
    blob of the request, with a read order of that volume. *)
Definition keeps {Σ} (h : Handler Σ) (vol : blobGetArgs → VolumePhy)
    (blobs : list blobGetArgs) (pp : pipeProducer) : Prop :=
  match pp_blobVolume pp with
  | None => True
  | Some bv =>
      (∃ b, b ∈ blobs ∧ bv = vol b) ∧
      goodOrder (v_Units bv)
        (t_N (h_Tactic h (v_CodeMode bv)) + t_M (h_Tactic h (v_CodeMode bv)))
        (pp_sortedVuids pp)
  end.

(** The blobs the producer takes up: those of [good], and [bad] as the
    last. *)
Definition tagged (good : list blobGetArgs) (bad : blobGetArgs)
    : list (blobGetArgs * bool) :=
  ((λ blob, (blob, false)) <$> good) ++ [(bad, true)].

(** The line of a blob: the range of a good one, the error of the bad
    one. *)
Definition lineFor (data : blobGetArgs → list byte) (e : error)
    (tb : blobGetArgs * bool) (line : pipeBuffer) : Prop :=
  if tb.2 then pb_err line = Some e else goodLine (data tb.1) tb.1 line.

(** The steps the pipeline still has to take when the blobs [rest] are not
    taken up. *)
Definition failWork (rest : list blobGetArgs) (st : pipeState) : nat :=
  (3 * (length (ps_blobs st) - length rest) + 2 * length (option_list (ps_hold st))
   + length (option_list (ps_ch st)) + (if ps_closed st then 0 else 1))%nat.

Definition failInv (I : pipeProducer → Prop) (fair : list nat * list bool → Prop)
    (data : blobGetArgs → list byte) (good : list blobGetArgs) (bad : blobGetArgs)
    (rest : list blobGetArgs) (e : error) (base : list byte)
    (tr : list event) (st : pipeState) : Prop :=
  ∃ served sent todo,
    tagged good bad = served ++ sent ++ todo ∧
    ps_blobs st = (fst <$> todo) ++ rest ∧
    Forall2 (lineFor data e) sent (pending st) ∧
    written tr = base ++ concat (data <$> take (length served) good) ∧
    (todo ≠ [] → I (ps_producer st)) ∧ Forall fair (ps_scheds st) ∧
    (length (ps_blobs st) ≤ length (ps_scheds st))%nat ∧
    ps_stuck st = false ∧ ps_closeCh st = false ∧
    (ps_closed st = true → ps_hold st = None ∧ todo = []) ∧
    (ps_closed st = false →
       (∀ line, ps_ch st = Some line → pb_err line = None) ∧
       (ps_hold st = None → todo ≠ [])) ∧
    (ps_result st = None → (length served ≤ length good)%nat) ∧
    (∀ r, ps_result st = Some r →
       r = Some e ∧ ps_closed st = true ∧ ps_ch st = None ∧ sent = [] ∧ todo = []).

(** * The blob id manager of the allocator

    A shallow embedding of [allocator/bidmgr.go]: the manager hands out
    ranges of blob ids from the scope it holds, [current], and goes on with
    the scope in reserve, [backup]; a goroutine fetches a new scope from
    the cluster manager when it is signalled. [proto.BlobID] and the count
    are [uint64]. *)

Module allocator.

Definition DefaultBidAllocNums : Z := 10000.

Record BidRange := {
  StartBid : Z;
  EndBid : Z
}.

Record allocableBids := {
  minBid : Z;
  maxBid : Z
}.

(** The fields of [bidMgr] that [Alloc] and [allocBid] read and write. A
    scope is reached through one pointer only: [backup] is set to [nil]
    where [current] takes its scope. *)
Record bidMgr := {
  current : option allocableBids;
  backup : option allocableBids;
  BidAllocNums : Z
}.

Inductive error :=
  | ErrIllegalArguments
  | ErrAllocBidFromCm
  | ErrClusterMgr (code : Z).

(** [clustermgr.APIAllocator.AllocBid], over a state of its own: the
    answer is the scope [StartBid, EndBid] or an error. *)
Record clusterMgr (Σ : Type) := {
  AllocBid : Σ → Z → Σ * (Z * Z + error)
}.
Arguments AllocBid {Σ} _ _ _.

Definition confCheck (bidAllocNums : Z) : Z :=
  if bidAllocNums <? DefaultBidAllocNums then DefaultBidAllocNums else bidAllocNums.

(** [for try := 0; try < 3; try++]: [n] tries are left and [r] is what the
    last try returned. *)
Fixpoint tryAllocBid {Σ} (cm : clusterMgr Σ) (count : Z) (n : nat) (σ : Σ)
    (r : Z * Z + error) : Σ * (Z * Z + error) :=
  match n with
  | O => (σ, r)
  | S n' =>
      let '(σ', r') := AllocBid cm σ count in
      match r' with
      | inl _ => (σ', r')
      | inr _ => tryAllocBid cm count n' σ' r'
      end
  end.

(** The scope a successful [allocBid] installs. *)
Definition install (b : bidMgr) (scope : allocableBids) : bidMgr :=
  match current b with
  | Some _ =>
      {| current := current b; backup := Some scope; BidAllocNums := BidAllocNums b |}
  | None =>
      {| current := Some scope; backup := None; BidAllocNums := BidAllocNums b |}
  end.

Definition allocBid {Σ} (cm : clusterMgr Σ) (b : bidMgr) (σ : Σ)
    : Σ * (bidMgr * option error) :=
  let '(σ', r) := tryAllocBid cm (BidAllocNums b) 3 σ (inl (0, 0)) in
  match r with
  | inr err => (σ', (b, Some err))
  | inl (startBid, endBid) =>
      (σ', (install b {| minBid := startBid; maxBid := endBid |}, None))
  end.

(** [NewBidMgr] without its goroutine: the manager and the error of the
    first [allocBid]. *)
Definition NewBidMgr {Σ} (cm : clusterMgr Σ) (bidAllocNums : Z) (σ : Σ)
    : Σ * (bidMgr * option error) :=
  allocBid cm {| current := None; backup := None; BidAllocNums := confCheck bidAllocNums |} σ.

(** [Alloc]: the manager it leaves, what it returns, and whether its
    deferred function tries to signal the fetching goroutine. *)
Definition Alloc (b : bidMgr) (count : Z) : bidMgr * (list BidRange + error) * bool :=
  let finish (b' : bidMgr) (r : list BidRange + error) :=
    (b', r, bool_decide (backup b' = None)) in
  if BidAllocNums b <? count then finish b (inr ErrIllegalArguments)
  else
    match current b with
    | None => finish b (inr ErrAllocBidFromCm)
    | Some cur =>
        if u64 (u64 (count + minBid cur) - 1) <=? maxBid cur then
          let br := {| StartBid := minBid cur; EndBid := u64 (minBid cur + count - 1) |} in
          let cur' := {| minBid := u64 (minBid cur + count); maxBid := maxBid cur |} in
          let currentCount := u64 (maxBid cur' - minBid cur' + 1) in
          if currentCount =? 0 then
            finish {| current := backup b; backup := None; BidAllocNums := BidAllocNums b |}
              (inl [br])
          else
            finish {| current := Some cur'; backup := backup b;
                      BidAllocNums := BidAllocNums b |}
              (inl [br])
        else
          let br1 := {| StartBid := minBid cur; EndBid := maxBid cur |} in
          let bidCountRemain := u64 (count - u64 (maxBid cur - minBid cur + 1)) in
          match backup b with
          | None => finish b (inr ErrAllocBidFromCm)
          | Some bk =>
              let br2 := {| StartBid := minBid bk;
                            EndBid := u64 (minBid bk + bidCountRemain - 1) |} in
              finish {| current := Some {| minBid := u64 (minBid bk + bidCountRemain);
                                           maxBid := maxBid bk |};
                        backup := None; BidAllocNums := BidAllocNums b |}
                (inl [br1; br2])
          end
    end.

(** The use of a manager: requests for blob ids, and scopes the fetching
    goroutine installs in between. *)
Inductive op :=
  | OpAlloc (count : Z)
  | OpInstall (scope : allocableBids).

(** The ranges handed out over a sequence of operations, oldest first. *)
Fixpoint handedOut (b : bidMgr) (ops : list op) : list BidRange :=
  match ops with
  | [] => []
  | OpAlloc count :: rest =>
      match Alloc b count with
      | (b', inl ranges, _) => ranges ++ handedOut b' rest
      | (b', inr _, _) => handedOut b' rest
      end
  | OpInstall scope :: rest => handedOut (install b scope) rest
  end.

End allocator.

Definition inRange (x : Z) (r : allocator.BidRange) : Prop :=
  allocator.StartBid r <= x <= allocator.EndBid r.

Definition inScope (x : Z) (s : allocator.allocableBids) : Prop :=
  allocator.minBid s <= x <= allocator.maxBid s.

(** The blob ids a manager can still hand out. *)
Definition availableBid (b : allocator.bidMgr) (x : Z) : Prop :=
  (∃ cur, allocator.current b = Some cur ∧ inScope x cur) ∨
  (∃ bk, allocator.backup b = Some bk ∧ inScope x bk).

(** The number of blob ids of a range. *)
Definition rangeSize (r : allocator.BidRange) : Z :=
  allocator.EndBid r - allocator.StartBid r + 1.

(** A scope is not empty and lies so far below the end of [uint64] that a
    request of [n] ids does not wrap. *)
Definition scopeWF (n : Z) (s : allocator.allocableBids) : Prop :=
  0 <= allocator.minBid s <= allocator.maxBid s ∧ allocator.maxBid s + n < 2 ^ 64.

Definition apart (s1 s2 : allocator.allocableBids) : Prop :=
  allocator.maxBid s1 < allocator.minBid s2 ∨ allocator.maxBid s2 < allocator.minBid s1.

(** The scope in reserve is a whole scope of the cluster manager, of at
    least [BidAllocNums] ids. *)
Definition bidMgrWF (b : allocator.bidMgr) : Prop :=
  1 <= allocator.BidAllocNums b ∧
  (∀ cur, allocator.current b = Some cur → scopeWF (allocator.BidAllocNums b) cur) ∧
  (∀ bk, allocator.backup b = Some bk →
     scopeWF (allocator.BidAllocNums b) bk ∧
     allocator.BidAllocNums b <= allocator.maxBid bk - allocator.minBid bk + 1) ∧
  (∀ cur bk, allocator.current b = Some cur → allocator.backup b = Some bk → apart cur bk).

(** The requests ask for one id at least, and every scope installed is a
    fresh scope of at least [n] ids. *)
Fixpoint opsWF (n : Z) (issued : list allocator.allocableBids) (ops : list allocator.op)
    : Prop :=
  match ops with
  | [] => True
  | allocator.OpAlloc count :: rest => 1 <= count ∧ opsWF n issued rest
  | allocator.OpInstall scope :: rest =>
      scopeWF n scope ∧
      n <= allocator.maxBid scope - allocator.minBid scope + 1 ∧
      Forall (apart scope) issued ∧
      opsWF n (scope :: issued) rest
  end.

(** * The key count limiter

    A shallow embedding of [util/limit/keycount/keycount.go]: a limiter
    that lets every key be held [limit] times at most. The counters are
    [uint32]; the methods run under the mutex of the limiter, one at a
    time. *)

Module keycount.

Definition u32 (z : Z) : Z := z mod 2 ^ 32.

Inductive error :=
  | ErrLimited.

(** How a call that may panic ends. *)
Inductive outcome :=
  | Returns
  | Panics (msg : string).

Section limiter.

Context {K : Type} `{Countable K}.

Record keyCountLimit := {
  limit : Z;
  current : gmap K Z
}.

(** [l.current[key]]: a key that is not in the map reads as zero. *)
Definition count (current : gmap K Z) (key : K) : Z := default 0 (current !! key).

Definition New (n : Z) : keyCountLimit := {| limit := u32 n; current := ∅ |}.

(** [for _, v := range l.current { all += v }]; the sum of [uint32] does
    not depend on the order in which the map is walked. *)
Definition Running (l : keyCountLimit) : Z :=
  map_fold (λ _ v all, u32 (all + v)) 0 (current l).

(** The first loop of [Acquire]: some key has reached the limit. *)
Fixpoint limited (lim : Z) (current : gmap K Z) (keys : list K) : bool :=
  match keys with
  | [] => false
  | key :: rest => if lim <=? count current key then true else limited lim current rest
  end.

(** The second loop of [Acquire]: [l.current[key]++]. *)
Fixpoint increment (current : gmap K Z) (keys : list K) : gmap K Z :=
  match keys with
  | [] => current
  | key :: rest => increment (<[key := u32 (count current key + 1)]> current) rest
  end.

Definition Acquire (l : keyCountLimit) (keys : list K) : keyCountLimit * option error :=
  if limited (limit l) (current l) keys then (l, Some ErrLimited)
  else ({| limit := limit l; current := increment (current l) keys |}, None).

(** The loop of [Release], which panics at a key that is not held. *)
Fixpoint release (current : gmap K Z) (keys : list K) : gmap K Z * outcome :=
  match keys with
  | [] => (current, Returns)
  | key :: rest =>
      match current !! key with
      | None => (current, Panics "released by 0")
      | Some n =>
          if n =? 0 then (current, Panics "released by 0")
          else if n =? 1 then release (delete key current) rest
          else release (<[key := u32 (n - 1)]> current) rest
      end
  end.

Definition Release (l : keyCountLimit) (keys : list K) : keyCountLimit * outcome :=
  let '(current', o) := release (current l) keys in
  ({| limit := limit l; current := current' |}, o).

Definition Reset (l : keyCountLimit) (n : Z) : keyCountLimit :=
  {| limit := u32 n; current := current l |}.

(** The calls of a limiter. *)
Inductive op :=
  | OpAcquire (keys : list K)
  | OpRelease (keys : list K).

Definition step (l : keyCountLimit) (o : op) : keyCountLimit :=
  match o with
  | OpAcquire keys => (Acquire l keys).1
  | OpRelease keys => (Release l keys).1
  end.

End limiter.

Arguments keyCountLimit K {_ _}.
Arguments op K : clear implicits.

End keycount.

(** The counters a limiter reaches: every entry of the map is a positive
    [uint32]. *)
Definition countersWF `{Countable K} (current : gmap K Z) : Prop :=
  ∀ key n, current !! key = Some n → 0 < n < 2 ^ 32.

(** How often [key] occurs in [keys]. *)
Definition occurrences `{EqDecision K} (key : K) (keys : list K) : Z :=
  Z.of_nat (length (filter (λ k, k = key) keys)).

(** The holds of all keys together. *)
Definition holds `{Countable K} (current : gmap K Z) : Z :=
  map_fold (λ _ v all, all + v) 0 current.

(** * The choice of a cluster

    A shallow embedding of [ChooseOne] and [ChangeChooseAlg] of
    [access/controller/cluster.go]. [AlgChoose] is [uint32], the space of a
    cluster and the total are [int64], the round robin count is [uint64]. *)

Module controller.

Definition minAlg : Z := 0.

Definition AlgAvailable : Z := 1.

Definition AlgRandom : Z := 2.

Definition maxAlg : Z := 3.

Definition IsValidAlg (alg : Z) : bool := (minAlg <? alg) && (alg <? maxAlg).

Record ClusterInfo := {
  Region : string;
  ClusterID : Z;
  Capacity : Z;
  Available : Z;
  Readonly : bool;
  Nodes : list string
}.

(** The fields of [clusterControllerImpl] that [ChooseOne] and
    [ChangeChooseAlg] read and write; [available] is the queue stored by
    the last [load]. *)
Record clusterControllerImpl := {
  allocAlg : Z;
  totalAvailableTB : Z;
  available : list ClusterInfo;
  roundRobinCount : Z
}.

(** The errors, which the code makes with [fmt.Errorf], and the run-time
    panic of an index out of range. *)
Inductive error :=
  | ErrNoAvailableSpace (total : Z)
  | ErrNoAvailableCluster (alg : Z)
  | ErrNotImplemented (alg : Z)
  | ErrInvalidAllocAlg
  | PanicIndexOutOfRange.

(** [for _, cluster := range available] of [AlgAvailable]. *)
Fixpoint chooseAvailable (randValue : Z) (available : list ClusterInfo)
    : option ClusterInfo :=
  match available with
  | [] => None
  | cluster :: rest =>
      if randValue <=? Z.shiftr (Available cluster) 40 then Some cluster
      else chooseAvailable (int64 (randValue - Z.shiftr (Available cluster) 40)) rest
  end.

(** [ChooseOne], where [randValue] is what [rand.Int63n(totalAvailableTB)]
    returns if it is called. *)
Definition ChooseOne (c : clusterControllerImpl) (randValue : Z)
    : clusterControllerImpl * (ClusterInfo + error) :=
  if allocAlg c =? AlgAvailable then
    if totalAvailableTB c <=? 0 then (c, inr (ErrNoAvailableSpace (totalAvailableTB c)))
    else
      match chooseAvailable randValue (available c) with
      | Some cluster => (c, inl cluster)
      | None => (c, inr (ErrNoAvailableCluster (allocAlg c)))
      end
  else if allocAlg c =? AlgRandom then
    if (0 <? length (available c))%nat then
      let count := u64 (roundRobinCount c + 1) in
      let c' := {| allocAlg := allocAlg c; totalAvailableTB := totalAvailableTB c;
                   available := available c; roundRobinCount := count |} in
      match available c !! Z.to_nat (count mod Z.of_nat (length (available c))) with
      | Some cluster => (c', inl cluster)
      | None => (c', inr PanicIndexOutOfRange)
      end
    else (c, inr (ErrNoAvailableCluster (allocAlg c)))
  else (c, inr (ErrNotImplemented (allocAlg c))).

Definition ChangeChooseAlg (c : clusterControllerImpl) (alg : Z)
    : clusterControllerImpl * option error :=
  if IsValidAlg alg then
    ({| allocAlg := alg; totalAvailableTB := totalAvailableTB c;
        available := available c; roundRobinCount := roundRobinCount c |}, None)
  else (c, Some ErrInvalidAllocAlg).

(** The calls of a controller between two loads. *)
Inductive op :=
  | OpChooseOne (randValue : Z)
  | OpChangeChooseAlg (alg : Z).

(** What the calls of [ChooseOne] return over a sequence of calls, oldest
    first. *)
Fixpoint chosen (c : clusterControllerImpl) (ops : list op) : list (ClusterInfo + error) :=
  match ops with
  | [] => []
  | OpChooseOne randValue :: rest =>
      let '(c', r) := ChooseOne c randValue in r :: chosen c' rest
  | OpChangeChooseAlg alg :: rest => chosen (ChangeChooseAlg c alg).1 rest
  end.

End controller.

(** The space of a cluster that counts for the choice, in TB. *)
Definition availableTB (cluster : controller.ClusterInfo) : Z :=
  Z.shiftr (controller.Available cluster) 40.

Definition sumTB (clusters : list controller.ClusterInfo) : Z :=
  foldr Z.add 0 (availableTB <$> clusters).

(** The results that [ChooseOne] never gives. *)
Definition unexpected (r : controller.ClusterInfo + controller.error) : Prop :=
  match r with
  | inr (controller.ErrNotImplemented _) | inr controller.PanicIndexOutOfRange => True
  | _ => False
  end.

(** * The task switches

    A shallow embedding of package [taskswitch]: a switch that tasks wait
    on while it is disabled, and the manager that sets its switches as the
    cluster manager says. The [sync.WaitGroup] of a switch is its counter:
    [Add] panics when the counter becomes negative, [Wait] returns when the
    counter is zero. The methods run under the mutex of the switch, or of
    the manager, one at a time. *)

Module taskswitch.

Definition SwitchOpen : string := "Enable".

Definition SwitchClose : string := "Disable".

Inductive error :=
  | ErrConflictSwitch
  | ErrNoSuchSwitch
  | ErrIllegalStatus
  | ErrGetConfig (code : Z).

(** How a call that may panic ends. *)
Inductive outcome :=
  | Returns
  | Panics (msg : string).

Record TaskSwitch := {
  enabled : bool;
  wg : Z
}.

(** [wg.Add(delta)] *)
Definition wgAdd (s : TaskSwitch) (delta : Z) : TaskSwitch * outcome :=
  ({| enabled := enabled s; wg := wg s + delta |},
   if wg s + delta <? 0 then Panics "sync: negative WaitGroup counter" else Returns).

Definition Enable (s : TaskSwitch) : TaskSwitch * outcome :=
  if enabled s then (s, Returns)
  else wgAdd {| enabled := true; wg := wg s |} (-1).

Definition Disable (s : TaskSwitch) : TaskSwitch * outcome :=
  if negb (enabled s) then (s, Returns)
  else wgAdd {| enabled := false; wg := wg s |} 1.

Definition newTaskSwitch : TaskSwitch := (Disable {| enabled := true; wg := 0 |}).1.

Definition NewEnabledTaskSwitch : TaskSwitch := (Enable newTaskSwitch).1.

Definition Enabled (s : TaskSwitch) : bool := enabled s.

(** [WaitEnable] returns at once when the counter is zero, and blocks
    otherwise. *)
Definition WaitEnableReturns (s : TaskSwitch) : bool := wg s =? 0.

Definition switchStatus (statusStr : string) : bool * option error :=
  if String.eqb statusStr SwitchOpen then (true, None)
  else if String.eqb statusStr SwitchClose then (false, None)
  else (true, Some ErrIllegalStatus).

(** The switches of a [SwitchMgr] are a map from their names. The loop of
    [update] over the names in the order [range] gives them;
    [answers] is what [GetConfig] returns for a name, which is asked once
    in an update. *)
Fixpoint updateLoop (answers : string → string + error) (names : list string)
    (switchs : gmap string TaskSwitch) : gmap string TaskSwitch * outcome :=
  match names with
  | [] => (switchs, Returns)
  | switchName :: rest =>
      match switchs !! switchName with
      | None => updateLoop answers rest switchs
      | Some taskSwitch =>
          match answers switchName with
          | inr _ => updateLoop answers rest switchs
          | inl statusStr =>
              match switchStatus statusStr with
              | (_, Some _) => updateLoop answers rest switchs
              | (enable, None) =>
                  let '(s', o) := if enable then Enable taskSwitch else Disable taskSwitch in
                  match o with
                  | Panics msg => (<[switchName := s']> switchs, Panics msg)
                  | Returns => updateLoop answers rest (<[switchName := s']> switchs)
                  end
              end
          end
      end
  end.

Definition update (answers : string → string + error) (names : list string)
    (sm : gmap string TaskSwitch) : gmap string TaskSwitch * outcome :=
  updateLoop answers names sm.

Definition AddSwitch (sm : gmap string TaskSwitch) (switchName : string)
    : gmap string TaskSwitch * (TaskSwitch + error) :=
  match sm !! switchName with
  | Some _ => (sm, inr ErrConflictSwitch)
  | None => (<[switchName := newTaskSwitch]> sm, inl newTaskSwitch)
  end.

Definition DelSwitch (sm : gmap string TaskSwitch) (switchName : string) : gmap string TaskSwitch * option error :=
  match sm !! switchName with
  | Some _ => (delete switchName sm, None)
  | None => (sm, Some ErrNoSuchSwitch)
  end.

(** The calls of a switch. *)
Inductive op :=
  | OpEnable
  | OpDisable.

Definition call (s : TaskSwitch) (o : op) : TaskSwitch * outcome :=
  match o with
  | OpEnable => Enable s
  | OpDisable => Disable s
  end.

(** A sequence of calls, each made also after a panic of an earlier one,
    and how the calls ended, oldest first. *)
Fixpoint calls (s : TaskSwitch) (ops : list op) : TaskSwitch * list outcome :=
  match ops with
  | [] => (s, [])
  | o :: rest =>
      let '(s', out) := call s o in
      let '(s'', outs) := calls s' rest in
      (s'', out :: outs)
  end.

End taskswitch.

(** The counter of a switch is in step with the switch: zero when it is
    enabled, one when it is disabled. *)
Definition inStep (s : taskswitch.TaskSwitch) : Prop :=
  taskswitch.wg s = if taskswitch.enabled s then 0 else 1.

(** What an update makes of a switch [s] under the answer of the cluster
    manager: enabled for ["Enable"], disabled for ["Disable"], and as it
    was for any other answer and for an error. *)
Definition asConfigured (answer : string + taskswitch.error) (s s' : taskswitch.TaskSwitch)
    : Prop :=
  match answer with
  | inl statusStr =>
      if decide (statusStr = "Enable") then taskswitch.enabled s' = true
      else if decide (statusStr = "Disable") then taskswitch.enabled s' = false
      else s' = s
  | inr _ => s' = s
  end.

(** * The idle volumes of the volume allocator

    A shallow embedding of [idleVolumes] of [clustermgr/volumemgr/alloc.go]:
    the idle volumes of a code mode in two lists, [allocatable] and
    [notAllocatable], with a map from the volume id to the list and the
    list element that hold the volume. An element of a [container/list] is
    a pointer; here it is a number, and [elements] counts the elements made
    so far, so that [PushFront] makes a new one. A list is the list of its
    elements and their values from the front. The methods run under the
    lock of the structure, one at a time. *)

Module volumemgr.

Section idle.

(** A [*volume], of which the idle lists read the field [vid]. *)
Context {volume : Type} (vid : volume → Z).

Record idleItem := {
  head : bool;             (* [true]: the list [allocatable] *)
  element : nat
}.

Record idleVolumes := {
  m : gmap Z idleItem;
  allocatable : list (nat * volume);
  notAllocatable : list (nat * volume);
  elements : nat
}.

Definition newIdleVolumes : idleVolumes :=
  {| m := ∅; allocatable := []; notAllocatable := []; elements := 0 |}.

(** [l.Remove(e)] *)
Definition listRemove (l : list (nat * volume)) (e : nat) : list (nat * volume) :=
  filter (λ x, x.1 ≠ e) l.

(** [item.head.Remove(item.element)] *)
Definition removeItem (i : idleVolumes) (item : idleItem) : idleVolumes :=
  if head item then
    {| m := m i; allocatable := listRemove (allocatable i) (element item);
       notAllocatable := notAllocatable i; elements := elements i |}
  else
    {| m := m i; allocatable := allocatable i;
       notAllocatable := listRemove (notAllocatable i) (element item);
       elements := elements i |}.

Definition getAllIdles (i : idleVolumes) : list volume := snd <$> allocatable i.

Definition statAllocatableNum (i : idleVolumes) : nat := length (allocatable i).

Definition addAllocatable (i : idleVolumes) (vol : volume) : idleVolumes :=
  let i1 := match m i !! vid vol with
            | Some item => removeItem i item
            | None => i
            end in
  let e := elements i1 in
  {| m := <[vid vol := {| head := true; element := e |}]> (m i1);
     allocatable := (e, vol) :: allocatable i1;
     notAllocatable := notAllocatable i1;
     elements := S e |}.

Definition addNotAllocatable (i : idleVolumes) (vol : volume) : idleVolumes :=
  let i1 := match m i !! vid vol with
            | Some item => removeItem i item
            | None => i
            end in
  let e := elements i1 in
  {| m := <[vid vol := {| head := false; element := e |}]> (m i1);
     allocatable := allocatable i1;
     notAllocatable := (e, vol) :: notAllocatable i1;
     elements := S e |}.

Definition delete (i : idleVolumes) (v : Z) : idleVolumes :=
  match m i !! v with
  | Some item =>
      let i1 := removeItem i item in
      {| m := base.delete v (m i1); allocatable := allocatable i1;
         notAllocatable := notAllocatable i1; elements := elements i1 |}
  | None => i
  end.

(** The loop of [allocFromOptions]; [count] is an [int]. *)
Fixpoint allocLoop (optionalVids : list Z) (count : Z) (i : idleVolumes)
    (succeed : list Z) : idleVolumes * list Z :=
  match optionalVids with
  | [] => (i, succeed)
  | v :: rest =>
      match m i !! v with
      | Some item =>
          let i1 := removeItem i item in
          let i2 := {| m := base.delete v (m i1); allocatable := allocatable i1;
                       notAllocatable := notAllocatable i1; elements := elements i1 |} in
          let succeed' := succeed ++ [v] in
          if count <=? Z.of_nat (length succeed') then (i2, succeed')
          else allocLoop rest count i2 succeed'
      | None => allocLoop rest count i succeed
      end
  end.

Definition allocFromOptions (i : idleVolumes) (optionalVids : list Z) (count : Z)
    : idleVolumes * list Z :=
  allocLoop optionalVids count i [].

(** The calls that change the idle volumes. *)
Inductive op :=
  | OpAddAllocatable (vol : volume)
  | OpAddNotAllocatable (vol : volume)
  | OpDelete (v : Z)
  | OpAllocFromOptions (optionalVids : list Z) (count : Z).

Definition step (i : idleVolumes) (o : op) : idleVolumes :=
  match o with
  | OpAddAllocatable vol => addAllocatable i vol
  | OpAddNotAllocatable vol => addNotAllocatable i vol
  | OpDelete v => delete i v
  | OpAllocFromOptions optionalVids count => (allocFromOptions i optionalVids count).1
  end.

End idle.

Arguments idleVolumes : clear implicits.
Arguments op : clear implicits.
Arguments newIdleVolumes {volume}.

End volumemgr.

(** The elements of both lists. *)
Definition idleEntries {volume} (i : volumemgr.idleVolumes volume) : list (nat * volume) :=
  volumemgr.allocatable i ++ volumemgr.notAllocatable i.

(** The map and the lists agree: the elements differ and were made before,
    and the map sends a volume id to the list and the element that hold a
    volume of that id. *)
Definition idleWF {volume} (vid : volume → Z) (i : volumemgr.idleVolumes volume) : Prop :=
  NoDup (fst <$> idleEntries i) ∧
  (∀ x, x ∈ idleEntries i → (x.1 < volumemgr.elements i)%nat) ∧
  (∀ v item, volumemgr.m i !! v = Some item ↔
     ∃ vol, vid vol = v ∧
       (volumemgr.element item, vol)
         ∈ (if volumemgr.head item then volumemgr.allocatable i
            else volumemgr.notAllocatable i)).

(** The idle volumes without the volumes of id [v]. *)
Definition dropVid {volume} (vid : volume → Z) (v : Z) (i : volumemgr.idleVolumes volume)
    : volumemgr.idleVolumes volume :=
  {| volumemgr.m := delete v (volumemgr.m i);
     volumemgr.allocatable := filter (λ x, vid x.2 ≠ v) (volumemgr.allocatable i);
     volumemgr.notAllocatable := filter (λ x, vid x.2 ≠ v) (volumemgr.notAllocatable i);
     volumemgr.elements := volumemgr.elements i |}.

(** The cluster of three units with storage nodes that answer with the
    bytes asked for: [a_Size] bytes from [a_Offset] of the shard. *)
Definition rangeNodes : Handler unit :=
  {| h_IDC := "A"; h_MinReadShardsX := 0;
     h_Tactic := λ _, {| t_N := 2; t_M := 1; t_L := 0 |};
     h_GetBufferSizes := λ size _,
       inl {| ShardSize := 4; DataSize := size; ECDataSize := 8 |};
     h_GetServiceController := λ σ _, (σ, None);
     h_getVolume := λ σ _ vid _,
       (σ, inl {| v_Vid := vid; v_CodeMode := 1; v_Units := clusterUnits |});
     h_GetDiskHost := λ σ disk,
       (σ, inl {| hi_Host := "h"; hi_IDC := if disk =? 100 then "A" else "B";
                  hi_Punished := disk =? 101 |});
     h_RangeGetShard := λ σ _ args,
       (σ, inl (take (Z.to_nat (a_Size args))
                  (drop (Z.to_nat (a_Offset args))
                     (shardBytes (Z.to_nat (a_Vuid args - 10))))));
     h_punish := λ σ _ _ _ _, σ;
     h_hystrix := λ σ, (σ, HxRun);
     h_Shuffle := λ σ l, (σ, reverse l);
     h_ReconstructData := λ σ _ shards badIdx, (σ, (shards, None));
     h_poolAlloc := λ σ _, (σ, inl []);
     h_Write := λ σ _, (σ, None) |}.

(** Four bytes from the middle of a blob of eight: the end of the first
    data shard and the start of the second. *)
Definition midRead : blobGetArgs :=
  {| Vid := 1; Bid := 1; BlobSize := 8; Offset := 2; ReadSize := 4 |}.

Definition clusterVolume : VolumePhy :=
  {| v_Vid := 1; v_CodeMode := 1; v_Units := clusterUnits |}.

Definition clusterSizes : BufferSizes :=
  {| ShardSize := 4; DataSize := 8; ECDataSize := 8 |}.

(** The decomposition of [twoBlobs], read in full. *)
Definition twoBlobsRead : list blobGetArgs :=
  [ {| Vid := 1; Bid := 1; BlobSize := 8; Offset := 0; ReadSize := 8 |};
    {| Vid := 1; Bid := 2; BlobSize := 8; Offset := 0; ReadSize := 8 |} ].

(** Blob readers whose three reads arrive in order, and goroutines that
    take turns. *)
Definition inTurns : schedule :=
  {| sc_blobs := [([0; 0; 0], []); ([0; 0; 0], [])]%nat;
     sc_pipeline := roundRobin 8 |}.

(** The healthy cluster when only volume 1 is known. *)
Definition oneVolume : Handler unit :=
  let h := cluster healthy None in
  {| h_IDC := h_IDC h; h_MinReadShardsX := h_MinReadShardsX h;
     h_Tactic := h_Tactic h; h_GetBufferSizes := h_GetBufferSizes h;
     h_GetServiceController := h_GetServiceController h;
     h_getVolume := λ σ _ vid _,
       (σ, if vid =? 1 then inl clusterVolume else inr (ErrCollaborator 404));
     h_GetDiskHost := h_GetDiskHost h; h_RangeGetShard := h_RangeGetShard h;
     h_punish := h_punish h; h_hystrix := h_hystrix h; h_Shuffle := h_Shuffle h;
     h_ReconstructData := h_ReconstructData h; h_poolAlloc := h_poolAlloc h;
     h_Write := h_Write h |}.

(** A blob of the known volume, a blob of a volume that is not known, and
    a blob after it. *)
Definition knownBlob : blobGetArgs :=
  {| Vid := 1; Bid := 1; BlobSize := 8; Offset := 0; ReadSize := 8 |}.

Definition lostBlob : blobGetArgs :=
  {| Vid := 2; Bid := 2; BlobSize := 8; Offset := 0; ReadSize := 8 |}.

Definition laterBlob : blobGetArgs :=
  {| Vid := 1; Bid := 3; BlobSize := 8; Offset := 0; ReadSize := 8 |}.

Definition threeReaders : schedule :=
  {| sc_blobs := [([0; 0; 0], []); ([0; 0; 0], []); ([0; 0; 0], [])]%nat;
     sc_pipeline := roundRobin 8 |}.

(** A manager with a fresh scope of ten thousand blob ids. *)
Definition freshMgr : allocator.bidMgr :=
  {| allocator.current := Some {| allocator.minBid := 1; allocator.maxBid := 10000 |};
     allocator.backup := None;
     allocator.BidAllocNums := 10000 |}.

(** A request that leaves one id, a new scope, and a request that takes
    the last id and goes on in the new scope. *)
Definition acrossScopes : list allocator.op :=
  [ allocator.OpAlloc 9999;
    allocator.OpInstall {| allocator.minBid := 10001; allocator.maxBid := 20000 |};
    allocator.OpAlloc 5 ].

(** A cluster manager that fails once and then gives the scope asked
    for. *)
Definition failsOnce : allocator.clusterMgr bool :=
  {| allocator.AllocBid := λ (σ : bool) (count : Z),
       (true, if σ then inl (1, count) else inr (allocator.ErrClusterMgr 500)) |}.

(** A limiter of two holds per key in which ["a"] is held once. *)
Definition heldOnce : keycount.keyCountLimit string :=
  {| keycount.limit := 2; keycount.current := {[ "a" := 1 ]} |}.

(** Two clusters with 3 TB and 5 TB available. *)
Definition twoClusters : list controller.ClusterInfo :=
  [ {| controller.Region := "r"; controller.ClusterID := 1;
       controller.Capacity := 10 * 2 ^ 40; controller.Available := 3 * 2 ^ 40;
       controller.Readonly := false; controller.Nodes := [] |};
    {| controller.Region := "r"; controller.ClusterID := 2;
       controller.Capacity := 20 * 2 ^ 40; controller.Available := 5 * 2 ^ 40;
       controller.Readonly := false; controller.Nodes := [] |} ].

Definition chooser (alg : Z) : controller.clusterControllerImpl :=
  {| controller.allocAlg := alg; controller.totalAvailableTB := 8;
     controller.available := twoClusters; controller.roundRobinCount := 0 |}.

(** A manager of two switches, one of them enabled. *)
Definition twoSwitches : gmap string taskswitch.TaskSwitch :=
  {[ "balance" := taskswitch.newTaskSwitch; "disk_drop" := taskswitch.NewEnabledTaskSwitch ]}.

(** The cluster manager opens the balance switch and does not answer for
    the other. *)
Definition opensBalance (name : string) : string + taskswitch.error :=
  if String.eqb name "balance" then inl "Enable" else inr (taskswitch.ErrGetConfig 500).

(** A location of [2^63] blobs of one byte. *)
Definition hugeLocation : Location :=
  {| loc_ClusterID := 1; loc_CodeMode := 1; loc_Size := 2 ^ 63; loc_BlobSize := 1;
     loc_Blobs := [] |}.

(** The first unit of the stale cluster as the target of an attempt. *)
Definition staleTarget : shardTarget :=
  {| tg_host := "h0"; tg_diskID := 100;
     tg_args := {| a_DiskID := 100; a_Vuid := 10; a_Bid := 7; a_Offset := 0; a_Size := 4 |};
     tg_rbody := None |}.

(** What the service controller of the cluster knows of a disk. *)
Definition clusterResolve (disk : Z) : option HostIDC :=
  Some {| hi_Host := "h"; hi_IDC := if disk =? 100 then "A" else "B";
          hi_Punished := disk =? 101 |}.

(** A handler with another service controller, and the healthy cluster
    whose service controller knows the first disk only. *)
Definition withDiskHost {Σ} (h : Handler Σ) (lookup : Σ → Z → Σ * (HostIDC + error))
    : Handler Σ :=
  {| h_IDC := h_IDC h; h_MinReadShardsX := h_MinReadShardsX h;
     h_Tactic := h_Tactic h; h_GetBufferSizes := h_GetBufferSizes h;
     h_GetServiceController := h_GetServiceController h;
     h_getVolume := h_getVolume h;
     h_GetDiskHost := lookup; h_RangeGetShard := h_RangeGetShard h;
     h_punish := h_punish h; h_hystrix := h_hystrix h; h_Shuffle := h_Shuffle h;
     h_ReconstructData := h_ReconstructData h; h_poolAlloc := h_poolAlloc h;
     h_Write := h_Write h |}.

Definition firstDiskOnly (disk : Z) : option HostIDC :=
  if disk =? 100 then Some {| hi_Host := "h"; hi_IDC := "A"; hi_Punished := false |}
  else None.

Definition lostDisks : Handler unit :=
  withDiskHost (cluster healthy None)
    (λ σ disk, (σ, match firstDiskOnly disk with
                   | Some hi => inl hi
                   | None => inr (ErrCollaborator 404)
                   end)).

(** The cluster with range-serving nodes whose second disk is broken. *)
Definition rangeDegraded : Handler unit :=
  {| h_IDC := h_IDC rangeNodes; h_MinReadShardsX := h_MinReadShardsX rangeNodes;
     h_Tactic := h_Tactic rangeNodes; h_GetBufferSizes := h_GetBufferSizes rangeNodes;
     h_GetServiceController := h_GetServiceController rangeNodes;
     h_getVolume := h_getVolume rangeNodes;
     h_GetDiskHost := h_GetDiskHost rangeNodes;
     h_RangeGetShard := λ σ hst args,
       if a_Vuid args =? 11 then (σ, inr DiskBroken)
       else h_RangeGetShard rangeNodes σ hst args;
     h_punish := h_punish rangeNodes; h_hystrix := h_hystrix rangeNodes;
     h_Shuffle := h_Shuffle rangeNodes;
     h_ReconstructData := h_ReconstructData rangeNodes;
     h_poolAlloc := h_poolAlloc rangeNodes;
     h_Write := h_Write rangeNodes |}.

(** One byte of the second data shard of a blob of eight. *)
Definition lateRead : blobGetArgs :=
  {| Vid := 1; Bid := 1; BlobSize := 8; Offset := 4; ReadSize := 1 |}.

Definition noSchedule : schedule := {| sc_blobs := []; sc_pipeline := [] |}.

(** The shards stored for the small blob: its three bytes, zeros up to
    the end of the data shards, and the parity. *)
Definition smallBytes (i : nat) : list byte :=
  match i with
  | 0%nat => [x01; x02; x03; x00]
  | 1%nat => [x00; x00; x00; x00]
  | _ => [x01; x02; x03; x00]
  end.

(** The cluster that stores the small blob. *)
Definition smallCluster : Handler unit :=
  let h := cluster (λ vuid, inl (smallBytes (Z.to_nat (vuid - 10)))) None in
  {| h_IDC := h_IDC h; h_MinReadShardsX := h_MinReadShardsX h;
     h_Tactic := h_Tactic h; h_GetBufferSizes := h_GetBufferSizes h;
     h_GetServiceController := h_GetServiceController h;
     h_getVolume := h_getVolume h;
     h_GetDiskHost := h_GetDiskHost h; h_RangeGetShard := h_RangeGetShard h;
     h_punish := h_punish h; h_hystrix := h_hystrix h; h_Shuffle := h_Shuffle h;
     h_ReconstructData := λ σ _ shards badIdx,
       (σ, (imap (λ i b, if bool_decide (i ∈ badIdx) then smallBytes i else b) shards,
            None));
     h_poolAlloc := h_poolAlloc h;
     h_Write := h_Write h |}.

Definition smallSizes : BufferSizes := {| ShardSize := 4; DataSize := 3; ECDataSize := 8 |}.

(** * Properties of the read path *)

Lemma u64_small z : is_u64 z → u64 z = z.
Proof. unfold is_u64, u64. intros. apply Z.mod_small. lia. Qed.

Lemma u64_range z : is_u64 (u64 z).
Proof. unfold is_u64, u64. apply Z.mod_pos_bound. lia. Qed.

Lemma u64_succ_u64 a k : u64 (u64 (a + k) + 1) = u64 (a + (k + 1)).
Proof.
  unfold u64. rewrite Zplus_mod_idemp_l. f_equal. lia.
Qed.

Lemma genFlat_app ls bs fi l1 l2 st :
  genFlat ls bs fi (l1 ++ l2) st =
  match genFlat ls bs fi l1 st with
  | Returned r => Returned r
  | Running st' => genFlat ls bs fi l2 st'
  end.
Proof.
  revert st. induction l1 as [|[b i] l1 IH]; intros st; simpl; [done|].
  destruct (genStep ls bs fi b i st); [apply IH|done].
Qed.

Lemma genRun_flat ls bs fi blob n k st :
  0 <= k →
  genRun ls bs fi blob n (u64 (s_MinBid blob + k)) st =
  genFlat ls bs fi ((λ j, (blob, u64 (s_MinBid blob + j))) <$> seqZ k (Z.of_nat n)) st.
Proof.
  revert k st. induction n as [|n IH]; intros k st Hk.
  - by rewrite seqZ_nil.
  - rewrite seqZ_cons by lia. cbn [genRun fmap list_fmap genFlat].
    destruct (genStep ls bs fi blob _ st) as [st'|r]; [|done].
    rewrite u64_succ_u64.
    replace (Z.pred (Z.of_nat (S n))) with (Z.of_nat n) by lia.
    replace (Z.succ k) with (k + 1) by lia. apply IH. lia.
Qed.

Lemma genRuns_flat ls bs fi runs st :
  Forall (λ r, is_u64 (s_MinBid r) ∧ 0 <= s_Count r) runs →
  genRuns ls bs fi runs st = genFlat ls bs fi (expand runs) st.
Proof.
  intros H. revert st. induction H as [|r runs [Hb Hc] _ IH]; intros st; [done|].
  cbn [genRuns]. unfold expand. cbn [fmap list_fmap concat]. rewrite genFlat_app.
  fold (expand runs). unfold expandRun.
  replace (s_MinBid r) with (u64 (s_MinBid r + 0)) at 1
    by (rewrite Z.add_0_r; by apply u64_small).
  rewrite genRun_flat by lia. rewrite Z2Nat.id by lia.
  destruct (genFlat ls bs fi _ st); [apply IH|done].
Qed.

Lemma minU64_min a b : minU64 a b = Z.min a b.
Proof. unfold minU64. destruct (Z.ltb_spec a b); lia. Qed.

Lemma length_expand runs :
  Forall (λ r, 0 <= s_Count r) runs →
  Z.of_nat (length (expand runs)) = totalCount runs.
Proof.
  induction 1 as [|r runs Hr _ IH]; [done|].
  unfold expand in *. cbn [fmap list_fmap concat totalCount foldr].
  rewrite length_app. unfold expandRun at 1. rewrite length_fmap, length_seqZ.
  fold (totalCount runs). lia.
Qed.

Section cover.

Variables (location : Location) (readSize offset : Z).

Let bs := loc_BlobSize location.

Let ls := loc_Size location.

Let first := offset / bs.

Let last := (offset + readSize - 1) / bs.

Hypothesis Hbs : 0 < bs.

Hypothesis Hbs32 : bs < 2 ^ 32.

Hypothesis Hoff : 0 <= offset.

Hypothesis Hrs : 0 < readSize.

Hypothesis Hfit : offset + readSize <= ls.

Hypothesis Hls : ls < 2 ^ 64.

Definition genInv (i : Z) (st : genState) : Prop :=
  g_idx st = i ∧
  if decide (i <= first) then
    g_remainSize st = readSize ∧ g_blobOffset st = offset mod bs ∧ g_blobs st = []
  else
    g_blobOffset st = 0 ∧ g_remainSize st = Z.max 0 (offset + readSize - i * bs) ∧
    g_blobs st = coverBlob location readSize offset <$> seqZ first (Z.min i (last + 1) - first).

Lemma first_bounds : bs * first <= offset < bs * first + bs ∧ offset mod bs = offset - bs * first.
Proof.
  unfold first. pose proof (Z.div_mod offset bs ltac:(lia)).
  pose proof (Z.mod_pos_bound offset bs Hbs). lia.
Qed.

Lemma last_bounds : bs * last <= offset + readSize - 1 < bs * last + bs.
Proof.
  unfold last. pose proof (Z.div_mod (offset + readSize - 1) bs ltac:(lia)).
  pose proof (Z.mod_pos_bound (offset + readSize - 1) bs Hbs). lia.
Qed.

Lemma first_le_last : first <= last.
Proof. unfold first, last. apply Z.div_le_mono; lia. Qed.

Lemma genStep_inv i st blob bid :
  0 <= i → i + 1 < 2 ^ 64 →
  expand (loc_Blobs location) !! Z.to_nat i = Some (blob, bid) →
  genInv i st →
  match genStep ls bs first blob bid st with
  | Returned r =>
      r = coverBlob location readSize offset <$> seqZ first (last + 1 - first) ∧
      offset + readSize <= i * bs
  | Running st' => genInv (i + 1) st'
  end.
Proof.
  intros Hi Hi' Hlk [Hidx Hst].
  pose proof first_bounds as (Hf1 & Hf2).
  pose proof last_bounds as Hl. pose proof first_le_last as Hfl.
  unfold genStep. destruct (decide (i <= first)) as [Hle|Hgt].
  - destruct Hst as (Hrem & Hbo & Hbl). rewrite Hrem, Hbo, Hbl, Hidx.
    destruct (Z.leb_spec readSize 0); [lia|].
    destruct (Z.leb_spec first i).
    + assert (i = first) as -> by lia.
      rewrite !minU64_min.
      rewrite (u64_small (bs - offset mod bs)) by (unfold is_u64; lia).
      destruct (Z.ltb_spec 0 (Z.min readSize (bs - offset mod bs))); [|lia].
      unfold genInv; cbn [g_blobs g_remainSize g_blobOffset g_idx]; rewrite ?Hidx.
      split; [apply u64_small; unfold is_u64; lia|].
      destruct (decide (first + 1 <= first)); [lia|].
      split; [done|]. split.
      * rewrite u64_small by (unfold is_u64; lia). nia.
      * replace (Z.min (first + 1) (last + 1) - first) with 1 by lia.
        rewrite seqZ_cons, seqZ_nil by lia. cbn [fmap list_fmap app].
        do 2 f_equal. unfold coverBlob, blobAt. rewrite Hlk. fold bs ls. cbn [fst snd].
        rewrite (u64_small (first * bs)) by (unfold is_u64; nia).
        rewrite u64_small by (unfold is_u64; nia).
        f_equal; nia.
    + unfold genInv; cbn [g_blobs g_remainSize g_blobOffset g_idx]; rewrite ?Hidx.
      split; [apply u64_small; unfold is_u64; lia|].
      destruct (decide (i + 1 <= first)); [done|lia].
  - destruct Hst as (Hbo & Hrem & Hbl). rewrite Hrem, Hbo, Hbl, Hidx.
    assert (offset < i * bs) by nia.
    destruct (Z.leb_spec (Z.max 0 (offset + readSize - i * bs)) 0) as [Hz|Hnz].
    + split; [|lia]. f_equal. f_equal. assert (last + 1 <= i) by nia. lia.
    + assert (i <= last) by nia.
      destruct (Z.leb_spec first i); [|lia].
      rewrite !minU64_min. rewrite Z.sub_0_r.
      rewrite (u64_small bs) by (unfold is_u64; lia).
      destruct (Z.ltb_spec 0 (Z.min (Z.max 0 (offset + readSize - i * bs)) bs)); [|lia].
      unfold genInv; cbn [g_blobs g_remainSize g_blobOffset g_idx]; rewrite ?Hidx.
      split; [apply u64_small; unfold is_u64; lia|].
      destruct (decide (i + 1 <= first)); [lia|].
      split; [done|]. split.
      * rewrite u64_small by (unfold is_u64; lia). nia.
      * replace (Z.min (i + 1) (last + 1) - first) with (i - first + 1) by lia.
        replace (Z.min i (last + 1) - first) with (i - first) by lia.
        rewrite (seqZ_app first (i - first) 1) by lia.
        rewrite fmap_app. f_equal.
        replace (first + (i - first)) with i by lia.
        rewrite seqZ_cons, seqZ_nil by lia. cbn [fmap list_fmap].
        f_equal. unfold coverBlob, blobAt. rewrite Hlk. fold bs ls. cbn [fst snd].
        rewrite (u64_small (i * bs)) by (unfold is_u64; nia).
        rewrite u64_small by (unfold is_u64; nia).
        f_equal; nia.
Qed.

Lemma genFlat_inv l : ∀ pre st,
  expand (loc_Blobs location) = pre ++ l →
  Z.of_nat (length (pre ++ l)) < 2 ^ 64 →
  genInv (Z.of_nat (length pre)) st →
  match genFlat ls bs first l st with
  | Returned r =>
      r = coverBlob location readSize offset <$> seqZ first (last + 1 - first) ∧
      offset + readSize <= Z.of_nat (length (pre ++ l)) * bs
  | Running st' => genInv (Z.of_nat (length (pre ++ l))) st'
  end.
Proof.
  induction l as [|[blob bid] l IH]; intros pre st Hpre Hlen Hinv.
  - by rewrite app_nil_r.
  - cbn [genFlat].
    rewrite length_app in Hlen. cbn [length] in Hlen.
    pose proof (genStep_inv (Z.of_nat (length pre)) st blob bid) as Hstep.
    lapply Hstep; [clear Hstep; intros Hstep|lia].
    lapply Hstep; [clear Hstep; intros Hstep|lia].
    lapply Hstep; [clear Hstep; intros Hstep|].
    2:{ rewrite Nat2Z.id, Hpre. by rewrite list_lookup_middle. }
    specialize (Hstep Hinv).
    destruct (genStep ls bs first blob bid st) as [st'|r].
    + specialize (IH (pre ++ [(blob, bid)]) st').
      rewrite <-(assoc_L (++)) in IH. cbn [app] in IH.
      apply IH; [done|rewrite length_app; cbn [length]; lia|].
      rewrite length_app. cbn [length].
      by replace (Z.of_nat (length pre + 1)) with (Z.of_nat (length pre) + 1) by lia.
    + destruct Hstep as [-> Hle]. split; [done|].
      rewrite length_app. cbn [length]. nia.
Qed.

End cover.

Lemma genFlat_done ls bs fi l st :
  g_remainSize st <= 0 →
  genFlat ls bs fi l st = match l with [] => Running st | _ => Returned (g_blobs st) end.
Proof.
  intros H. destruct l as [|[b i] l]; [done|]. cbn [genFlat]. unfold genStep.
  destruct (Z.leb_spec (g_remainSize st) 0); [done|lia].
Qed.

Lemma genLocationBlobs_spec location readSize offset :
  is_u64 readSize → is_u64 offset → offset + readSize < 2 ^ 64 →
  is_u64 (loc_Size location) → is_u32 (loc_BlobSize location) →
  Forall (λ r, is_u64 (s_MinBid r) ∧ is_u32 (s_Count r)) (loc_Blobs location) →
  totalCount (loc_Blobs location) < 2 ^ 64 →
  let bs := loc_BlobSize location in
  let total := totalCount (loc_Blobs location) in
  let cap := (1 + (readSize + offset mod bs) / bs) mod 2 ^ 64 in
  (genLocationBlobs location readSize offset = None ↔
     offset + readSize <= loc_Size location ∧ bs ≠ 0 ∧
     maxAlloc < sizeofBlobGetArgs * cap) ∧
  (is_err (genLocationBlobs location readSize offset) ↔
     loc_Size location < offset + readSize ∨ bs = 0 ∨
     (sizeofBlobGetArgs * cap <= maxAlloc ∧
      0 < readSize ∧ total * bs < offset + readSize)) ∧
  (∀ blobs, genLocationBlobs location readSize offset = Some (inl blobs) →
     blobs = coverBlob location readSize offset <$>
               seqZ (offset / bs)
                 (if readSize =? 0 then 0
                  else (offset + readSize - 1) / bs - offset / bs + 1)).
Proof.
  intros Hrs Hoff Hsum Hls Hbs Hruns Htot bs total cap.
  unfold is_u64, is_u32 in *.
  assert (Hruns' : Forall (λ r, is_u64 (s_MinBid r) ∧ 0 <= s_Count r) (loc_Blobs location)).
  { eapply Forall_impl; [exact Hruns|]. intros r [? ?]. split; [done|]. unfold is_u32 in *; lia. }
  assert (Hruns'' : Forall (λ r, 0 <= s_Count r) (loc_Blobs location)).
  { eapply Forall_impl; [exact Hruns'|]. by intros r [? ?]. }
  pose proof (length_expand _ Hruns'') as Hlen. fold total in Hlen.
  unfold genLocationBlobs. fold bs.
  rewrite (u64_small (offset + readSize)) by (unfold is_u64; lia).
  destruct (Z.ltb_spec (loc_Size location) (offset + readSize)) as [Hbig|Hfit].
  { split; [split; [done|lia]|]. split; [simpl; split; [auto|done]|]. intros blobs [=]. }
  destruct (Z.leb_spec bs 0) as [Hz|Hpos].
  { split; [split; [done|lia]|].
    split; [simpl; split; [intros _; right; left; lia|done]|]. intros blobs [=]. }
  assert (Hmod : 0 <= offset mod bs < bs) by (apply Z.mod_pos_bound; lia).
  assert (Hmodle : offset mod bs <= offset) by (apply Z.mod_le; lia).
  rewrite (u64_small (readSize + offset mod bs)) by (unfold is_u64; lia).
  change (u64 (1 + (readSize + offset mod bs) / bs)) with cap.
  unfold makeBlobs.
  destruct (Z.ltb_spec maxAlloc (sizeofBlobGetArgs * cap)) as [Hcap|Hcap].
  { split; [split; [intros _; repeat split; lia|done]|].
    split; [simpl; split; [done|lia]|]. intros blobs [=]. }
  split; [split; [done|lia]|].
  rewrite genRuns_flat by done.
  destruct (Z.eqb_spec readSize 0) as [->|Hnz].
  - rewrite genFlat_done by (simpl; lia).
    destruct (expand (loc_Blobs location)); cbn [g_blobs g_remainSize];
      (split; [simpl; split; [done|lia]|]); intros blobs [= <-]; by rewrite seqZ_nil.
  - match goal with |- context [genFlat _ _ _ _ ?st0] =>
      pose proof (genFlat_inv location readSize offset Hpos ltac:(lia) ltac:(lia) ltac:(lia)
                    ltac:(lia) ltac:(lia) (expand (loc_Blobs location)) [] st0 eq_refl) as Hinv
    end.
    cbn [app length] in Hinv. rewrite Hlen in Hinv.
    lapply Hinv; [clear Hinv; intros Hinv|lia].
    lapply Hinv; [clear Hinv; intros Hinv|].
    2:{ split; [done|]. destruct (decide _) as [|Hn]; [done|].
        exfalso. apply Hn. apply Z.div_pos; lia. }
    fold bs in Hinv.
    pose proof (first_bounds location readSize offset Hpos) as [Hf1 Hf2].
    pose proof (last_bounds location readSize offset Hpos) as Hl.
    pose proof (first_le_last location readSize offset Hpos ltac:(lia)) as Hfl.
    fold bs in Hf1, Hf2, Hl.
    destruct (genFlat _ _ _ _ _) as [st|r].
    + destruct Hinv as [Hidx Hst]. fold bs in Hst.
      destruct (decide (total <= offset / bs)) as [Hle|Hgt].
      * destruct Hst as (Hrem & _ & _). rewrite Hrem.
        destruct (Z.ltb_spec 0 readSize); [|lia].
        split; [simpl; split; [intros _; right; right; nia|done]|]. intros blobs [=].
      * destruct Hst as (_ & Hrem & Hbl). rewrite Hrem, Hbl.
        destruct (Z.ltb_spec 0 (Z.max 0 (offset + readSize - total * bs))) as [Hlt|Hge].
        { split; [simpl; split; [intros _; right; right; lia|done]|]. intros blobs [=]. }
        split; [simpl; split; [done|lia]|]. intros blobs [= <-].
        f_equal. f_equal. assert ((offset + readSize - 1) / bs + 1 <= total) by nia. lia.
    + destruct Hinv as [-> Hle].
      split; [simpl; split; [done|lia]|]. intros blobs [= <-].
      f_equal. f_equal. lia.
Qed.

(** Where [offset + readSize] does not wrap, the sizes fit their types
    and the runs hold fewer than [2^64] blobs: [genLocationBlobs] panics
    exactly when the range lies inside the location, the blob size is not
    zero and the capacity [1 + (readSize + offset mod bs) / bs] asked of
    [make] takes more than [maxAlloc] bytes; it fails exactly when the
    range ends beyond [loc_Size], the blob size is zero, or [make] is
    served and the runs are too few for a non-empty range; and what it
    returns is, in order, the blobs
    [offset / bs .. (offset + readSize - 1) / bs], each with its part of
    the range and the blob size [min bs (loc_Size - idx * bs)]. *)
Theorem genLocationBlobs_cover location readSize offset :
  is_u64 readSize → is_u64 offset → offset + readSize < 2 ^ 64 →
  is_u64 (loc_Size location) → is_u32 (loc_BlobSize location) →
  Forall (λ r, is_u64 (s_MinBid r) ∧ is_u32 (s_Count r)) (loc_Blobs location) →
  totalCount (loc_Blobs location) < 2 ^ 64 →
  let bs := loc_BlobSize location in
  let total := totalCount (loc_Blobs location) in
  let cap := (1 + (readSize + offset mod bs) / bs) mod 2 ^ 64 in
  (genLocationBlobs location readSize offset = None ↔
     offset + readSize <= loc_Size location ∧ bs ≠ 0 ∧
     maxAlloc < sizeofBlobGetArgs * cap) ∧
  (is_err (genLocationBlobs location readSize offset) ↔
     loc_Size location < offset + readSize ∨ bs = 0 ∨
     (sizeofBlobGetArgs * cap <= maxAlloc ∧
      0 < readSize ∧ total * bs < offset + readSize)) ∧
  (∀ blobs, genLocationBlobs location readSize offset = Some (inl blobs) →
     blobs = coverBlob location readSize offset <$>
               seqZ (offset / bs)
                 (if readSize =? 0 then 0
                  else (offset + readSize - 1) / bs - offset / bs + 1)).
Proof. apply genLocationBlobs_spec. Qed.

Lemma genRun_skip ls bs fi blob n cur st :
  0 < g_remainSize st → 0 <= g_idx st → g_idx st + Z.of_nat n <= fi → fi < 2 ^ 64 →
  genRun ls bs fi blob n cur st =
  Running {| g_blobs := g_blobs st; g_remainSize := g_remainSize st;
             g_blobOffset := g_blobOffset st; g_idx := g_idx st + Z.of_nat n |}.
Proof.
  revert cur st. induction n as [|n IH]; intros cur st Hrem Hidx Hle Hfi.
  - cbn [genRun]. rewrite Z.add_0_r. by destruct st.
  - cbn [genRun]. unfold genStep.
    destruct (Z.leb_spec (g_remainSize st) 0); [lia|].
    destruct (Z.leb_spec fi (g_idx st)); [lia|].
    rewrite IH; cbn [g_blobs g_remainSize g_blobOffset g_idx];
      rewrite ?u64_small by (unfold is_u64; lia); try lia.
    do 2 f_equal. lia.
Qed.

(** C5: the sum [offset + readSize] wraps. For the offset [2^64 - 1] and
    one byte to read, the range ends beyond [loc_Size], and
    [genLocationBlobs] returns a blob and no error. *)
Lemma genLocationBlobs_offset_wraps :
  loc_Size wrapLocation < 18446744073709551615 + 1 ∧
  genLocationBlobs wrapLocation 1 18446744073709551615
  = Some (inl [ {| Vid := 1; Bid := 4294967297; BlobSize := 1; Offset := 0;
                   ReadSize := 1 |} ]).
Proof.
  split; [done|].
  unfold genLocationBlobs, wrapLocation.
  cbn [loc_Size loc_BlobSize loc_Blobs genRuns s_Count s_MinBid].
  change (0 <? u64 (18446744073709551615 + 1)) with false.
  change (4294967295 <=? 0) with false. cbv iota.
  change (18446744073709551615 `div` 4294967295) with 4294967297.
  change (18446744073709551615 `mod` 4294967295) with 0.
  change (makeBlobs _) with (Some (@nil blobGetArgs)). cbv iota.
  rewrite genRun_skip; cbn [g_blobs g_remainSize g_blobOffset g_idx];
    rewrite ?Z2Nat.id by done; done.
Qed.

Ltac strip_prefix l tr :=
  lazymatch l with
  | tr => constr:(@nil event)
  | ?e :: ?l' => let d := strip_prefix l' tr in constr:(e :: d)
  end.

Ltac give_delta :=
  lazymatch goal with
  | |- ∃ Δ, ?l = Δ ++ ?tr ∧ _ => let d := strip_prefix l tr in exists d; split; [reflexivity|]
  end.

Lemma bind_eq {Σ A B} (m : M Σ A) (f : A → M Σ B) w :
  (m ≫= f) w = match m w with (Some a, w') => f a w' | (None, w') => (None, w') end.
Proof. reflexivity. Qed.

Lemma oracle_eq {Σ A} (f : Σ → Σ * A) (w : world Σ) :
  oracle f w = (Some (f (w_env w)).2,
                {| w_env := (f (w_env w)).1; w_trace := w_trace w; w_nextBuf := w_nextBuf w |}).
Proof. unfold oracle. by destruct (f (w_env w)). Qed.

Ltac run_M :=
  unfold mbind, M_bind, mret, M_ret, emit, oracle, effect, panic, freshBuf; cbn [fst snd w_env w_trace w_nextBuf].

Ltac solve_spec :=
  unfold attemptSpec; cbn;
  repeat split; try done; try lia; try (repeat constructor; done);
  try (intros; simplify_eq/=; try done; eauto 6).

Lemma shardAttempt_spec {Σ} (h : Handler Σ) idx clusterID vid cancelChan tg w :
  ∃ Δ, w_trace (shardAttempt h idx clusterID vid cancelChan tg w).2 = Δ ++ w_trace w ∧
    match (shardAttempt h idx clusterID vid cancelChan tg w).1 with
    | Some (_, (intr, err)) => attemptSpec idx clusterID vid Δ intr err
    | None => attemptSpec idx clusterID vid Δ true (Some errCanceledReadShard)
    end.
Proof.
  unfold shardAttempt, afterSwitch, punishDisk, punishDiskWith, getVolume.
  destruct cancelChan as [[]|]; run_M.
  1: exists []; split; [done|]; solve_spec.
  all: destruct (h_RangeGetShard _ _ _ _) as [σ [body|err]]; run_M.
  all: try (give_delta; solve_spec; fail).
  all: destruct err; cbn; run_M.
  all: repeat case_match; simplify_eq/=; give_delta; solve_spec.
Qed.

Lemma RuptOn_trace {Σ L} (P : list event → bool → option error → Prop)
    (caller : L → M Σ (L * (bool * option error))) :
  (∀ l w, ∃ Δ, w_trace (caller l w).2 = Δ ++ w_trace w ∧
     match (caller l w).1 with
     | Some (_, (intr, err)) => P Δ intr err
     | None => ∃ intr err, P Δ intr err
     end) →
  ∀ n d l w, ∃ Δ, w_trace (RuptOn n d caller l w).2 = Δ ++ w_trace w ∧ retryTrace P n d Δ.
Proof.
  intros Hc n. induction n as [|n IH]; intros d l w.
  - exists []. split; [done|constructor].
  - cbn [RuptOn]. rewrite bind_eq.
    destruct (Hc l w) as (Δ & HΔ & HP).
    destruct (caller l w) as [[[l' [intr err]]|] w1]; cbn [fst snd] in *.
    2:{ exists Δ. split; [done|]. destruct HP as (i & e & HP). by eapply rt_last. }
    destruct err as [e|]; [|exists Δ; split; [done|by eapply rt_last]].
    destruct intr; [exists Δ; split; [done|by eapply rt_last]|].
    destruct n as [|n]; [exists Δ; split; [done|by eapply rt_last]|].
    run_M.
    destruct (IH (2 * d) l' {| w_env := w_env w1; w_trace := EvBackoff d :: w_trace w1;
                               w_nextBuf := w_nextBuf w1 |}) as (Δ' & HΔ' & HR).
    exists (Δ' ++ EvBackoff d :: Δ). split.
    + rewrite HΔ'. cbn [w_trace]. rewrite HΔ. by rewrite <-(assoc_L (++)).
    + by eapply rt_more.
Qed.

Lemma attemptResults_app a b : attemptResults (a ++ b) = attemptResults a ++ attemptResults b.
Proof. induction a as [|[] a IH]; cbn; by rewrite ?IH. Qed.

Lemma backoffs_app a b : backoffs (a ++ b) = backoffs a ++ backoffs b.
Proof. induction a as [|[] a IH]; cbn; by rewrite ?IH. Qed.

Lemma forcedRefreshes_app a b : forcedRefreshes (a ++ b) = forcedRefreshes a ++ forcedRefreshes b.
Proof. induction a as [|[? ? ? ?|? ? []| | | | | | | | | | | | | |] a IH]; cbn; by rewrite ?IH. Qed.

Lemma acquired_app a b : acquired (a ++ b) = acquired a ++ acquired b.
Proof. induction a as [|[] a IH]; cbn; by rewrite ?IH. Qed.

Lemma returned_app a b : returned (a ++ b) = returned a ++ returned b.
Proof. induction a as [|[] a IH]; cbn; by rewrite ?IH. Qed.

Lemma retryTrace_attempts idx c v n d Δ :
  retryTrace (attemptSpec idx c v) n d Δ →
  (length (attemptResults Δ) ≤ n)%nat ∧
  Forall (λ r, retryable r = true) (tail (attemptResults Δ)) ∧
  reverse (backoffs Δ) = expDelays (length (backoffs Δ)) d ∧
  (length (backoffs Δ) < n ∨ n = 0)%nat ∧
  Forall (transportEvent idx) Δ ∧
  forcedRefreshes Δ =
    (λ _, (c, v)) <$> filter (λ r, identityMismatch r = true) (attemptResults Δ).
Proof.
  induction 1 as [d|n d Δ intr err HP|n d Δ Δ' e HP HR IH].
  - repeat split; try done. by right.
  - destruct HP as (Hb & Hlen & Ha & Hf & _ & _).
    rewrite Hb. repeat split; try done; try lia.
    + destruct (attemptResults Δ) as [|r [|]]; cbn in *; try lia; constructor.
    + left. cbn. lia.
  - destruct HP as (Hb & Hlen & Ha & Hf & _ & Hnon).
    destruct (Hnon eq_refl) as (e' & _ & Hres & Hshort).
    destruct IH as (IH1 & IH2 & IH3 & IH4 & IH5 & IH7).
    rewrite !attemptResults_app, !backoffs_app, forcedRefreshes_app.
    cbn [attemptResults backoffs forcedRefreshes].
    rewrite Hb, Hres, Hf, IH7, Hres.
    rewrite !length_app. cbn [length].
    repeat split; try done; try lia.
    3:{ apply Forall_app. split; [done|]. by constructor. }
    + destruct (attemptResults Δ') as [|r rs]; cbn; [constructor|].
      apply Forall_app. split; [done|]. repeat constructor. cbn. by rewrite Hshort.
    + rewrite reverse_app. cbn. rewrite Nat.add_1_r. cbn [expDelays]. by rewrite IH3.
    + by rewrite filter_app, fmap_app.
Qed.

Lemma getOneShardFromHost_trace {Σ} (h : Handler Σ) hst disk args idx c v cancelChan w :
  ∃ Δ, w_trace (getOneShardFromHost h hst disk args idx c v cancelChan w).2 = Δ ++ w_trace w ∧
       retryTrace (attemptSpec idx c v) 3 200 Δ.
Proof.
  unfold getOneShardFromHost. rewrite bind_eq.
  match goal with |- context [RuptOn 3 200 ?f ?l0 w] =>
    assert (∀ l w, ∃ Δ, w_trace (f l w).2 = Δ ++ w_trace w ∧
              match (f l w).1 with
              | Some (_, (intr, err)) => attemptSpec idx c v Δ intr err
              | None => ∃ intr err, attemptSpec idx c v Δ intr err
              end) as Hc;
    [|destruct (RuptOn_trace (attemptSpec idx c v) f Hc 3%nat 200 l0 w) as (Δ & HΔ & HR)]
  end.
  { intros l0 w0. destruct (shardAttempt_spec h idx c v cancelChan l0 w0) as (Δ & HΔ & HP).
    exists Δ. split; [done|]. destruct (shardAttempt _ _ _ _ _ _ _).1 as [[? [? ?]]|]; eauto. }
  exists Δ. split; [|done].
  destruct (RuptOn _ _ _ _ _) as [[[tg rerr]|] w1]; done.
Qed.

(** C8: a transport call makes at most three requests. Every request
    but the newest failed with an error that lets the loop go on, so that
    Overload, DiskBroken, VuidReadonly and a timeout end it at once. The
    backoffs between requests are 200ms, then 400ms. *)
Theorem getOneShardFromHost_attempts {Σ} (h : Handler Σ) hst disk args idx c v cancelChan w :
  ∃ Δ, w_trace (getOneShardFromHost h hst disk args idx c v cancelChan w).2 = Δ ++ w_trace w ∧
       (length (attemptResults Δ) ≤ 3)%nat ∧
       Forall (λ r, retryable r = true) (tail (attemptResults Δ)) ∧
       reverse (backoffs Δ) `prefix_of` [200; 400].
Proof.
  destruct (getOneShardFromHost_trace h hst disk args idx c v cancelChan w) as (Δ & HΔ & HR).
  exists Δ. split; [done|].
  destruct (retryTrace_attempts _ _ _ _ _ _ HR) as (H1 & H2 & H3 & H4 & _).
  repeat split; try done.
  rewrite H3. destruct H4 as [H4|]; [|done].
  destruct (length (backoffs Δ)) as [|[|[|k]]]; cbn; try lia.
  - by exists [200; 400].
  - by exists [400].
  - by exists [].
Qed.

Lemma getOneShardFromHost_counts {Σ} (h : Handler Σ) hst disk args idx c v cancelChan w :
  ∃ Δ, w_trace (getOneShardFromHost h hst disk args idx c v cancelChan w).2 = Δ ++ w_trace w ∧
       forcedRefreshes Δ =
         (λ _, (c, v)) <$> filter (λ r, identityMismatch r = true) (attemptResults Δ) ∧
       (length (attemptResults Δ) ≤ 3)%nat ∧
       (length (forcedRefreshes Δ) ≤ 3)%nat.
Proof.
  destruct (getOneShardFromHost_trace h hst disk args idx c v cancelChan w) as (Δ & HΔ & HR).
  exists Δ. split; [done|].
  destruct (retryTrace_attempts _ _ _ _ _ _ HR) as (H1 & _ & _ & _ & _ & H7).
  repeat split; try done.
  rewrite H7, length_fmap. etrans; [apply length_filter|done].
Qed.

Lemma shardAttempt_mismatch {Σ} (h : Handler Σ) idx c v cancelChan tg (w : world Σ) e :
  cancelChan ≠ Some true →
  (h_RangeGetShard h (w_env w) (tg_host tg) (tg_args tg)).2 = inr e →
  identityMismatch (Some e) = true →
  let o := refreshOutcome h idx c v tg
             (h_RangeGetShard h (w_env w) (tg_host tg) (tg_args tg)).1 in
  let a := shardAttempt h idx c v cancelChan tg w in
  ∃ Δ, w_trace a.2 = Δ ++ EvGetVolume c v false
                        :: EvRangeGetShard idx (tg_host tg) (tg_args tg) (Some e)
                        :: w_trace w ∧
       attemptResults Δ = [] ∧ forcedRefreshes Δ = [] ∧ backoffs Δ = [] ∧
       thresholdPunishes Δ =
         match o with
         | UnitStays => [(c, tg_diskID tg, tg_host tg)]
         | _ => []
         end ∧
       match o with
       | UnitMissing => a.1 = None
       | _ => ∃ err, a.1 = Some (nextTarget tg o, (false, Some err))
       end.
Proof.
  intros Hc He Hm o a. subst o a.
  unfold refreshOutcome, shardAttempt, afterSwitch, punishDiskWith, getVolume.
  assert (∀ (X : Type) (x y : X),
            match cancelChan with Some true => x | _ => y end = y) as Hsel.
  { intros X x y. destruct cancelChan as [[]|]; done. }
  rewrite Hsel. clear Hsel.
  rewrite !bind_eq, oracle_eq.
  destruct (h_RangeGetShard h (w_env w) (tg_host tg) (tg_args tg)) as [σ1 r].
  cbn [fst snd] in *. subst r.
  assert (errorTimeout e = false) as Htime by (by destruct e).
  assert (∀ (X : Type) (x1 x2 x3 x4 : X),
            match DetectStatusCode e with
            | CodeOverload => x1
            | CodeDiskBroken | CodeVUIDReadonly => x2
            | CodeDiskNotFound | CodeVuidNotFound => x3
            | CodeUnclassified => x4
            end = x3) as Hcode by (intros; by destruct e).
  rewrite Hcode. clear Hcode.
  run_M.
  destruct (h_getVolume h σ1 c v false) as [σ2 [bv|e2]] eqn:Hvol; cbn [fst snd].
  2:{ exists []. cbn. repeat split; eauto. }
  destruct (v_Units bv !! idx) as [u|] eqn:Hu.
  2:{ exists []. cbn. by repeat split. }
  destruct (decide (u_DiskID u = tg_diskID tg)) as [Hsame|Hdiff].
  - rewrite (bool_decide_eq_true_2 (u_DiskID u = tg_diskID tg)) by done.
    rewrite (bool_decide_eq_false_2 (u_DiskID u ≠ tg_diskID tg)) by (by intros ?).
    exists [EvPunishDiskWith c (tg_diskID tg) (tg_host tg)].
    rewrite Htime. cbn. repeat split; eauto.
  - rewrite (bool_decide_eq_false_2 (u_DiskID u = tg_diskID tg)) by done.
    rewrite (bool_decide_eq_true_2 (u_DiskID u ≠ tg_diskID tg)) by done.
    cbv beta iota. cbn [w_env w_trace w_nextBuf fst snd].
    destruct (h_GetDiskHost h σ2 (u_DiskID u)) as [σ3 [hi|e3]] eqn:Hhost; cbn [fst snd].
    + destruct (hi_Punished hi) eqn:Hp; cbn [negb].
      * exists [EvPunishDiskWith c (tg_diskID tg) (tg_host tg); EvGetDiskHost (u_DiskID u)].
        rewrite Htime. cbn. repeat split; eauto.
      * exists [EvGetDiskHost (u_DiskID u)]. cbn. repeat split; eauto.
    + exists [EvPunishDiskWith c (tg_diskID tg) (tg_host tg); EvGetDiskHost (u_DiskID u)].
      rewrite Htime. cbn. repeat split; eauto.
Qed.

(** The retry loop after an attempt that failed without interrupting. *)
Lemma RuptOn_goes_on {Σ L} (caller : L → M Σ (L * (bool * option error))) n d l l' err
    (w w' : world Σ) :
  caller l w = (Some (l', (false, Some err)), w') →
  RuptOn (S n) d caller l w =
  match n with
  | O => (Some (l', Some err), w')
  | S _ => RuptOn n (2 * d) caller l'
             {| w_env := w_env w'; w_trace := EvBackoff d :: w_trace w';
                w_nextBuf := w_nextBuf w' |}
  end.
Proof.
  intros Hcall. cbn [RuptOn]. rewrite bind_eq, Hcall. destruct n; [done|].
  by rewrite bind_eq.
Qed.

Lemma thresholdPunishes_app a b :
  thresholdPunishes (a ++ b) = thresholdPunishes a ++ thresholdPunishes b.
Proof. induction a as [|[] a IH]; cbn; by rewrite ?IH. Qed.

Lemma replicate_snoc {A} n (x : A) : replicate n x ++ [x] = x :: replicate n x.
Proof. induction n as [|n IH]; [done|]. cbn. by rewrite IH. Qed.

(** Nodes that answer every request for the target with an identity
    mismatch, under a volume in which the unit stays where it is. *)
Lemma RuptOn_stale {Σ} (h : Handler Σ) idx c v cancelChan tg :
  cancelChan ≠ Some true →
  (∀ σ, ∃ e, (h_RangeGetShard h σ (tg_host tg) (tg_args tg)).2 = inr e ∧
             identityMismatch (Some e) = true) →
  (∀ σ, refreshOutcome h idx c v tg σ = UnitStays) →
  ∀ n d (w : world Σ), ∃ err w' Δ,
    RuptOn (S n) d (shardAttempt h idx c v cancelChan) tg w = (Some (tg, Some err), w') ∧
    w_trace w' = Δ ++ w_trace w ∧
    length (attemptResults Δ) = S n ∧
    forcedRefreshes Δ = replicate (S n) (c, v) ∧
    thresholdPunishes Δ = replicate (S n) (c, tg_diskID tg, tg_host tg) ∧
    reverse (backoffs Δ) = expDelays n d.
Proof.
  intros Hc Hnode Hstay n. induction n as [|n IH]; intros d w.
  all: destruct (Hnode (w_env w)) as (e & He & Hm).
  all: destruct (shardAttempt_mismatch h idx c v cancelChan tg w e Hc He Hm)
         as (Δ & HΔ & H1 & H2 & H3 & H4 & H5).
  all: rewrite Hstay in H4, H5; destruct H5 as [err Ha]; cbn [nextTarget] in Ha.
  all: destruct (shardAttempt h idx c v cancelChan tg w) as [o w1] eqn:Hrun.
  all: cbn [fst snd] in *; subst o.
  all: rewrite (RuptOn_goes_on _ _ d tg tg err w w1 Hrun).
  - exists err, w1, (Δ ++ [EvGetVolume c v false;
                           EvRangeGetShard idx (tg_host tg) (tg_args tg) (Some e)]).
    split; [done|]. split; [by rewrite HΔ, <-(assoc_L (++))|].
    rewrite attemptResults_app, forcedRefreshes_app, thresholdPunishes_app, backoffs_app.
    rewrite H1, H2, H3, H4. by repeat split.
  - set (w2 := {| w_env := w_env w1; w_trace := EvBackoff d :: w_trace w1;
                  w_nextBuf := w_nextBuf w1 |}).
    destruct (IH (2 * d) w2) as (err' & w' & Δ' & Hrun' & HΔ' & Hn1 & Hn2 & Hn3 & Hn4).
    exists err', w', (Δ' ++ EvBackoff d :: Δ ++
                      [EvGetVolume c v false;
                       EvRangeGetShard idx (tg_host tg) (tg_args tg) (Some e)]).
    split; [done|]. cbn [w2 w_trace] in HΔ'.
    split; [rewrite HΔ', HΔ; do 3 (rewrite <-?(assoc_L (++)); cbn [app]); done|].
    rewrite !attemptResults_app, !forcedRefreshes_app, !thresholdPunishes_app, !backoffs_app.
    cbn [attemptResults forcedRefreshes thresholdPunishes backoffs].
    rewrite !attemptResults_app, !forcedRefreshes_app, !thresholdPunishes_app, !backoffs_app.
    rewrite H1, H2, H3, H4, Hn2, Hn3. cbn [attemptResults forcedRefreshes thresholdPunishes
                                           backoffs app].
    split; [rewrite length_app, Hn1; cbn; lia|].
    split; [by rewrite replicate_snoc|].
    split; [by rewrite replicate_snoc|].
    rewrite reverse_app, reverse_singleton. cbn [expDelays app]. by rewrite Hn4.
Qed.

(** C4: within one transport call every request that fails with
    DiskNotFound or VuidNotFound is followed by one forced volume refresh
    (cache disallowed), and there is no other refresh: with at most three
    requests the call makes at most three refreshes for its unit, and
    nothing remembers an earlier one. An attempt whose request is answered
    with such a mismatch, the stop channel not being closed, asks for the
    refresh right after the answer and sends no other request and no other
    refresh. It threshold-punishes the disk it asked exactly when the
    refresh succeeded and the unit stays where it is: on the same disk, or
    on a disk that does not resolve or is punished. It panics when the
    refreshed volume has no unit at the index. Otherwise it does not
    interrupt the retry loop: the loop goes on after the backoff with the
    next attempt, on the new disk when the unit has moved, or ends with the
    error when this was the last attempt. So a call whose requests are all
    answered with a mismatch, under a volume in which the unit stays on
    its disk, makes three requests, three forced refreshes and three
    threshold punishes of that disk, with backoffs of 200ms and 400ms, and
    returns an error. *)
Theorem getOneShardFromHost_refreshes {Σ} (h : Handler Σ) idx c v cancelChan :
  (∀ hst disk args w,
     ∃ Δ, w_trace (getOneShardFromHost h hst disk args idx c v cancelChan w).2
            = Δ ++ w_trace w ∧
          forcedRefreshes Δ =
            (λ _, (c, v)) <$> filter (λ r, identityMismatch r = true) (attemptResults Δ) ∧
          (length (attemptResults Δ) ≤ 3)%nat ∧
          (length (forcedRefreshes Δ) ≤ 3)%nat) ∧
  (∀ n d tg (w : world Σ) e,
     cancelChan ≠ Some true →
     (h_RangeGetShard h (w_env w) (tg_host tg) (tg_args tg)).2 = inr e →
     identityMismatch (Some e) = true →
     let o := refreshOutcome h idx c v tg
                (h_RangeGetShard h (w_env w) (tg_host tg) (tg_args tg)).1 in
     let a := shardAttempt h idx c v cancelChan tg w in
     ∃ Δ, w_trace a.2 = Δ ++ EvGetVolume c v false
                           :: EvRangeGetShard idx (tg_host tg) (tg_args tg) (Some e)
                           :: w_trace w ∧
          attemptResults Δ = [] ∧ forcedRefreshes Δ = [] ∧ backoffs Δ = [] ∧
          thresholdPunishes Δ =
            match o with
            | UnitStays => [(c, tg_diskID tg, tg_host tg)]
            | _ => []
            end ∧
          match o with
          | UnitMissing =>
              (RuptOn (S n) d (shardAttempt h idx c v cancelChan) tg w).1 = None
          | _ =>
              ∃ err,
                a.1 = Some (nextTarget tg o, (false, Some err)) ∧
                RuptOn (S n) d (shardAttempt h idx c v cancelChan) tg w =
                match n with
                | O => (Some (nextTarget tg o, Some err), a.2)
                | S _ =>
                    RuptOn n (2 * d) (shardAttempt h idx c v cancelChan) (nextTarget tg o)
                      {| w_env := w_env a.2; w_trace := EvBackoff d :: w_trace a.2;
                         w_nextBuf := w_nextBuf a.2 |}
                end
          end) ∧
  (∀ hst disk args (w : world Σ),
     cancelChan ≠ Some true →
     (∀ σ, ∃ e, (h_RangeGetShard h σ hst args).2 = inr e ∧
                identityMismatch (Some e) = true) →
     (∀ σ, ∃ bv u, (h_getVolume h σ c v false).2 = inl bv ∧
                   v_Units bv !! idx = Some u ∧ u_DiskID u = disk) →
     ∃ err w' Δ,
       getOneShardFromHost h hst disk args idx c v cancelChan w
         = (Some (None, Some err), w') ∧
       w_trace w' = Δ ++ w_trace w ∧
       length (attemptResults Δ) = 3%nat ∧
       forcedRefreshes Δ = [(c, v); (c, v); (c, v)] ∧
       thresholdPunishes Δ = [(c, disk, hst); (c, disk, hst); (c, disk, hst)] ∧
       reverse (backoffs Δ) = [200; 400]).
Proof.
  split; [intros; apply getOneShardFromHost_counts|]. split.
  - intros n d tg w e Hc He Hm o a.
    destruct (shardAttempt_mismatch h idx c v cancelChan tg w e Hc He Hm)
      as (Δ & HΔ & H1 & H2 & H3 & H4 & H5).
    fold o a in HΔ, H4, H5. exists Δ. do 5 (split; [done|]).
    destruct o.
    + destruct H5 as [err Ha]. exists err. split; [done|].
      apply RuptOn_goes_on. fold a. by destruct a as [? ?]; cbn in *; subst.
    + cbn [RuptOn]. rewrite bind_eq. fold a. destruct a as [? ?]; cbn in *. by subst.
    + destruct H5 as [err Ha]. exists err. split; [done|].
      apply RuptOn_goes_on. fold a. by destruct a as [? ?]; cbn in *; subst.
    + destruct H5 as [err Ha]. exists err. split; [done|].
      apply RuptOn_goes_on. fold a. by destruct a as [? ?]; cbn in *; subst.
  - intros hst disk args w Hc Hnode Hvol.
    set (tg := {| tg_host := hst; tg_diskID := disk; tg_args := args; tg_rbody := None |}).
    destruct (RuptOn_stale h idx c v cancelChan tg Hc Hnode) with (n := 2%nat) (d := 200) (w := w)
      as (err & w' & Δ & Hrun & HΔ & Hn1 & Hn2 & Hn3 & Hn4).
    { intros σ. destruct (Hvol σ) as (bv & u & Hbv & Hu & Hd).
      unfold refreshOutcome. rewrite Hbv, Hu. by rewrite bool_decide_eq_true_2. }
    exists err, w', Δ. split; [|done].
    unfold getOneShardFromHost. fold tg. by rewrite bind_eq, Hrun.
Qed.

(** C4, counterexample: nodes that keep answering VuidNotFound under a
    volume that does not change make one transport call refresh the volume
    three times for the same unit: the second mismatch refreshes again. *)
Lemma stale_unit_refreshed_three_times :
  forcedRefreshes
    (w_trace (getOneShardFromHost (cluster stale None) "h0" 100
                {| a_DiskID := 100; a_Vuid := 10; a_Bid := 7; a_Offset := 0; a_Size := 4 |}
                0 1 1 (Some false) emptyWorld).2)
  = [(1, 1); (1, 1); (1, 1)].
Proof. vm_compute. reflexivity. Qed.

Lemma RuptOn_noerr {Σ L} (Q : L → Prop) (caller : L → M Σ (L * (bool * option error))) :
  (∀ l w l' i w', caller l w = (Some (l', (i, None)), w') → Q l') →
  ∀ n d l w l' w', RuptOn (S n) d caller l w = (Some (l', None), w') → Q l'.
Proof.
  intros Hc n. induction n as [|n IH]; intros d l w l' w'; cbn [RuptOn]; rewrite bind_eq.
  - destruct (caller l w) as [[[l1 [i [e|]]]|] w1] eqn:Hcall; run_M; try done.
    + by destruct i.
    + intros [= <- <-]. eauto.
  - destruct (caller l w) as [[[l1 [i [e|]]]|] w1] eqn:Hcall; try done.
    + destruct i; [done|]. rewrite bind_eq. unfold emit at 1. apply IH.
    + intros [= <- <-]. eauto.
Qed.

Lemma shardAttempt_body {Σ} (h : Handler Σ) idx c v cancelChan tg w tg' i w' :
  shardAttempt h idx c v cancelChan tg w = (Some (tg', (i, None)), w') → is_Some (tg_rbody tg').
Proof.
  unfold shardAttempt, afterSwitch, punishDisk, punishDiskWith, getVolume.
  destruct cancelChan as [[]|]; run_M; try done.
  all: destruct (h_RangeGetShard _ _ _ _) as [σ [body|err]]; run_M.
  all: try (intros [= <- <- <-]; eauto; fail).
  all: destruct err; cbn; run_M; repeat case_match; simplify_eq/=; done.
Qed.

Lemma transport_spec {Σ} (h : Handler Σ) hst disk args idx c v cancelChan w :
  let r := hystrixDo h (getOneShardFromHost h hst disk args idx c v cancelChan) w in
  (∃ Δ, w_trace r.2 = Δ ++ w_trace w ∧ Forall (transportEvent idx) Δ) ∧
  (∀ body, r.1 = Some (body, None) → is_Some body).
Proof.
  intros r. subst r. unfold hystrixDo. rewrite bind_eq, oracle_eq.
  destruct (h_hystrix h (w_env w)) as [σ verdict]. cbn [fst snd].
  set (w0 := {| w_env := σ; w_trace := w_trace w; w_nextBuf := w_nextBuf w |}).
  destruct (getOneShardFromHost_trace h hst disk args idx c v cancelChan w0) as (Δ & HΔ & HR).
  destruct (retryTrace_attempts _ _ _ _ _ _ HR) as (_ & _ & _ & _ & Ha & _).
  assert (Hbody : ∀ body w', getOneShardFromHost h hst disk args idx c v cancelChan w0
                    = (Some (body, None), w') → is_Some body).
  { intros body w'. unfold getOneShardFromHost. rewrite bind_eq.
    destruct (RuptOn _ _ _ _ _) as [[[tg [e|]]|] w1] eqn:HR'; run_M; try done.
    intros [= <- <-].
    exact (RuptOn_noerr (λ tg, is_Some (tg_rbody tg)) (shardAttempt h idx c v cancelChan)
             (λ l w l' i w', shardAttempt_body h idx c v cancelChan l w l' i w')
             2%nat 200 _ w0 _ w1 HR'). }
  destruct verdict; cbn [fst snd].
  - split; [eauto|]. intros body Hb.
    destruct (getOneShardFromHost _ _ _ _ _ _ _ _ _) as [o w1] eqn:Hg. cbn in Hb.
    subst o. by eapply Hbody.
  - split; [exists []; done|]. intros body. run_M. done.
  - rewrite bind_eq.
    destruct (getOneShardFromHost _ _ _ _ _ _ _ _ _) as [[[b e1]|] w1]; cbn in *; run_M.
    + split; [eauto|]. done.
    + split; [eauto|]. done.
Qed.

(** C10: [readOneShard] holds no buffer of the pool when it reports a
    failure: either nothing was allocated after the transport, or the
    buffer allocated after the transport returned a body was returned
    before the report. A success carries a buffer of
    exactly [shardSize] bytes, filled from that body. *)
Theorem readOneShard_buffer {Σ} (h : Handler Σ) clusterID vid shardSize blob vu stopChan w :
  0 <= shardSize →
  let args := {| a_DiskID := diskID vu; a_Vuid := vuid vu; a_Bid := Bid blob;
                 a_Offset := 0; a_Size := shardSize |} in
  let t := hystrixDo h (getOneShardFromHost h (host vu) (diskID vu) args (index vu)
                          clusterID vid stopChan) w in
  let r := readOneShard h clusterID vid shardSize blob vu stopChan w in
  (∃ Δ, w_trace t.2 = Δ ++ w_trace w ∧ Forall (transportEvent (index vu)) Δ) ∧
  match r.1 with
  | None => t.1 = None ∧ r.2 = t.2
  | Some shard =>
      sd_index shard = index vu ∧
      if sd_status shard then
        ∃ body id, t.1 = Some (Some body, None) ∧
          w_trace r.2 = EvAlloc id shardSize :: w_trace t.2 ∧
          sd_buffer shard = {| buf_id := Some id; buf_bytes := take (Z.to_nat shardSize) body |} ∧
          len (sd_buffer shard) = shardSize
      else
        sd_buffer shard = nilBuffer ∧
        (w_trace r.2 = w_trace t.2 ∨
         ∃ body id, t.1 = Some (Some body, None) ∧
           w_trace r.2 = EvPut id :: EvAlloc id shardSize :: w_trace t.2)
  end.
Proof.
  intros Hsize args t r.
  destruct (transport_spec h (host vu) (diskID vu) args (index vu) clusterID vid stopChan w)
    as [Htr Hbody]. fold t in Htr, Hbody.
  split; [done|]. subst r. unfold readOneShard. fold args. rewrite bind_eq. fold t.
  destruct t as [[[body [e|]]|] w1]; cbn [fst snd] in *; run_M; try done.
  { split; [done|]. split; [done|]. by left. }
  destruct (Hbody body eq_refl) as [bytes ->].
  unfold memPoolAlloc. run_M.
  destruct (h_poolAlloc h (w_env w1) shardSize) as [σ [got|e]]; run_M.
  2:{ split; [done|]. split; [done|]. by left. }
  unfold ReadFull. cbn [buf_bytes buf_id]. rewrite length_resize.
  destruct (Nat.leb_spec (Z.to_nat shardSize) (length bytes)) as [Hle|Hgt]; run_M.
  - cbn [sd_index sd_status sd_buffer]. split; [done|].
    exists bytes, (w_nextBuf w1). repeat split.
    unfold len. cbn [buf_bytes]. rewrite length_take. lia.
  - unfold memPoolPut. cbn [buf_id]. run_M. cbn [sd_index sd_status sd_buffer].
    split; [done|]. split; [done|]. right. by exists bytes, (w_nextBuf w1).
Qed.

Lemma transport_readerEvent idx ev : transportEvent idx ev → readerEvent idx ev.
Proof. by destruct ev. Qed.

Lemma readOneShard_events {Σ} (h : Handler Σ) clusterID vid shardSize blob vu stopChan w :
  let r := readOneShard h clusterID vid shardSize blob vu stopChan w in
  ∃ Δ, w_trace r.2 = Δ ++ w_trace w ∧ Forall (readerEvent (index vu)) Δ ∧
       match r.1 with
       | Some sd => sd_index sd = index vu
       | None => True
       end.
Proof.
  intros r. subst r. unfold readOneShard. rewrite bind_eq.
  match goal with |- context [hystrixDo h (getOneShardFromHost h ?a ?b ?c ?d ?e ?f ?g) w] =>
    destruct (transport_spec h a b c d e f g w) as [(Δ & HΔ & Hev) Hbody]
  end.
  pose proof (Forall_impl _ _ _ Hev (transport_readerEvent (index vu))) as Hev'.
  destruct (hystrixDo _ _ _) as [[[body [e|]]|] w1]; cbn [fst snd] in *; run_M; eauto.
  destruct (Hbody body eq_refl) as [bytes ->].
  unfold memPoolAlloc. run_M.
  destruct (h_poolAlloc h (w_env w1) shardSize) as [σ [got|e]]; run_M; eauto.
  destruct (ReadFull _ _); unfold memPoolPut; cbn; run_M.
  - exists (EvAlloc (w_nextBuf w1) shardSize :: Δ). rewrite HΔ. split; [done|].
    split; [by constructor|done].
  - exists (EvPut (w_nextBuf w1) :: EvAlloc (w_nextBuf w1) shardSize :: Δ). rewrite HΔ.
    split; [done|]. split; [by repeat constructor|done].
Qed.

Lemma int64_small z : - 2 ^ 63 <= z < 2 ^ 63 → int64 z = z.
Proof. intros H. unfold int64. rewrite Z.mod_small; lia. Qed.

Lemma elem_of_emptyDataShardIndexes sizes n i :
  sizesFor n sizes →
  i ∈ emptyDataShardIndexes sizes ↔
  (DataSize sizes + ShardSize sizes - 1) / ShardSize sizes <= Z.of_nat i < Z.of_nat n.
Proof.
  intros (Hs & Hd & Hsum & Hle & Hec). unfold emptyDataShardIndexes.
  rewrite (int64_small (DataSize sizes + ShardSize sizes)) by lia.
  rewrite int64_small by lia.
  rewrite !Z.quot_div_nonneg by lia.
  rewrite Hec, Z.mul_comm, Z.div_mul by lia.
  set (fe := (DataSize sizes + ShardSize sizes - 1) / ShardSize sizes).
  assert (0 <= fe) by (apply Z.div_pos; lia).
  destruct (Z.leb_spec (Z.of_nat n) fe) as [Hge|Hlt].
  - split; [by intros ?%elem_of_empty|lia].
  - rewrite elem_of_list_to_set, list_elem_of_fmap. split.
    + intros (z & -> & Hz%elem_of_seqZ). lia.
    + intros Hi. exists (Z.of_nat i). split; [lia|]. apply elem_of_seqZ. lia.
Qed.

Lemma empties_range sizes n i :
  sizesFor n sizes → i ∈ emptyDataShardIndexes sizes → (0 < i < n)%nat.
Proof.
  intros Hwf Hi. pose proof Hwf as (Hs & Hd & Hsum & Hle & Hec).
  apply (elem_of_emptyDataShardIndexes sizes n i Hwf) in Hi.
  assert (1 <= (DataSize sizes + ShardSize sizes - 1) / ShardSize sizes).
  { apply Z.div_le_lower_bound; lia. }
  lia.
Qed.

Lemma elem_of_liveKeys R i : i ∈ liveKeys R ↔ R !! i = Some true.
Proof.
  unfold liveKeys. rewrite elem_of_dom. unfold is_Some.
  setoid_rewrite map_lookup_filter_Some. cbn. split.
  - by intros (x & Hx & ->).
  - intros H. by exists true.
Qed.

Lemma elem_of_failedKeys R i : i ∈ failedKeys R ↔ R !! i = Some false.
Proof.
  unfold failedKeys. rewrite elem_of_dom. unfold is_Some.
  setoid_rewrite map_lookup_filter_Some. cbn. split.
  - by intros (x & Hx & ->).
  - intros H. by exists false.
Qed.

Lemma countBad_failedKeys R : countBad R = size (failedKeys R).
Proof. unfold countBad, failedKeys. by rewrite size_dom. Qed.

Lemma size_live_failed (R : gmap nat bool) :
  size R = (size (liveKeys R) + size (failedKeys R))%nat.
Proof.
  replace (size R) with (size (dom R : gset nat)) by apply size_dom.
  rewrite <-size_union.
  - f_equal. apply set_eq. intros i.
    rewrite elem_of_union, elem_of_liveKeys, elem_of_failedKeys, elem_of_dom.
    unfold is_Some. split.
    + intros [[] ?]; eauto.
    + intros [?|?]; eauto.
  - intros i. rewrite elem_of_liveKeys, elem_of_failedKeys. congruence.
Qed.

Lemma notReceived_false R i : notReceived R i = false ↔ R !! i = Some true.
Proof. unfold notReceived. destruct (R !! i) as [[]|]; naive_solver. Qed.

Lemma pick_None {A} k (l : list A) : pick k l = None ↔ l = [].
Proof.
  unfold pick. destruct l as [|a l]; [done|]. split; [|done].
  set (i := (k mod length (a :: l))%nat).
  assert (i < length (a :: l))%nat as Hi by (apply Nat.mod_upper_bound; done).
  destruct (lookup_lt_is_Some_2 _ _ Hi) as [x Hx]. by rewrite Hx.
Qed.

Lemma pick_Some {A} k (l : list A) a rest :
  pick k l = Some (a, rest) → l ≡ₚ a :: rest.
Proof.
  unfold pick. destruct l as [|b l]; [done|].
  set (i := (k mod length (b :: l))%nat).
  destruct ((b :: l) !! i) as [x|] eqn:Hx; [|done].
  intros [= <- <-]. by apply delete_Permutation.
Qed.

Lemma list_case_cons {A B} (l : list A) (a : B) (f : A → list A → B) s0 rest :
  l = s0 :: rest → match l with [] => a | s :: r => f s r end = f s0 rest.
Proof. by intros ->. Qed.

Lemma zeros_length n : length (zeros n) = n.
Proof. apply length_replicate. Qed.

Lemma zeroEmpties_ok {Σ} idxs : ∀ (R : gmap nat bool) (S : list buffer) (w : world Σ),
  (∀ i, i ∈ idxs → (i < length S)%nat) →
  ∃ R' S' w', zeroEmpties idxs R S w = (Some (R', S'), w') ∧
    length S' = length S ∧
    (∀ i, R' !! i = if decide (i ∈ idxs) then Some true else R !! i) ∧
    (∀ i, buf_bytes <$> S' !! i =
          if decide (i ∈ idxs) then (λ b, zeros (length (buf_bytes b))) <$> S !! i
          else buf_bytes <$> S !! i).
Proof.
  induction idxs as [|idx idxs IH]; intros R S w Hlt.
  { do 3 eexists. split; [done|]. split; [done|]. split; intros i.
    - by rewrite decide_False by apply not_elem_of_nil.
    - by rewrite decide_False by apply not_elem_of_nil. }
  cbn [zeroEmpties].
  destruct (lookup_lt_is_Some_2 S idx) as [buf Hbuf]; [apply Hlt; left|].
  rewrite Hbuf, bind_eq. unfold memPoolZero. run_M.
  match goal with |- context [zeroEmpties idxs ?R1 ?S1 ?w1] =>
    destruct (IH R1 S1 w1) as (R' & S' & w' & -> & Hlen & HR & HS)
  end.
  { intros i Hi. rewrite length_insert. apply Hlt. by right. }
  do 3 eexists. split; [done|]. rewrite length_insert in Hlen. split; [done|].
  split; intros i.
  - rewrite HR. destruct (decide (i ∈ idxs)) as [Hin|Hnin].
    + rewrite decide_True; [done|by right].
    + destruct (decide (i = idx)) as [->|Hne].
      * rewrite lookup_insert_eq. rewrite decide_True; [done|by left].
      * rewrite lookup_insert_ne by done. rewrite decide_False; [done|].
        intros [?|?]%elem_of_cons; done.
  - rewrite HS. pose proof (lookup_lt_Some _ _ _ Hbuf) as Hidxlt.
    destruct (decide (i = idx)) as [->|Hne].
    + rewrite list_lookup_insert_eq by done. unfold zeros. cbn. rewrite length_replicate.
      rewrite (decide_True (P := idx ∈ idx :: idxs)) by (by left).
      rewrite Hbuf. cbn. by destruct (decide _).
    + rewrite list_lookup_insert_ne by done.
      destruct (decide (i ∈ idxs)) as [Hin|Hnin].
      * rewrite decide_True; [done|by right].
      * rewrite decide_False; [done|]. intros [?|?]%elem_of_cons; done.
Qed.

Lemma length_filter_split {A} (P : A → Prop) `{!∀ x, Decision (P x)} (l : list A) :
  (length (filter P l) + length (filter (λ x, ¬ P x) l) = length l)%nat.
Proof.
  induction l as [|a l IH]; [done|]. rewrite !filter_cons.
  destruct (decide (P a)), (decide (¬ P a)); cbn; try done; lia.
Qed.

Lemma putAll_ok {Σ} (bufs : list buffer) (w : world Σ) :
  ∃ w', putAll bufs w = (Some tt, w') ∧ written (w_trace w') = written (w_trace w).
Proof.
  revert w. induction bufs as [|b bufs IH]; intros w; [by eexists|].
  cbn [putAll]. rewrite bind_eq. unfold memPoolPut.
  destruct (buf_id b); run_M.
  - match goal with |- context [putAll bufs ?w1] =>
      destruct (IH w1) as (w' & -> & Hw') end.
    eexists. split; [done|]. by rewrite Hw'.
  - apply IH.
Qed.

Lemma writeShards_ok {Σ} (h : Handler Σ) (shards : list buffer) : ∀ off n (w : world Σ),
  (∀ σ data, (h_Write h σ data).2 = None) →
  0 <= off → off + n <= Z.of_nat (length (concat (buf_bytes <$> shards))) →
  ∃ w', writeShards h shards off n w = (Some None, w') ∧
        written (w_trace w') =
        written (w_trace w) ++
          take (Z.to_nat n) (drop (Z.to_nat off) (concat (buf_bytes <$> shards))).
Proof.
  intros off n w Hw. revert off n w.
  induction shards as [|buf rest IH]; intros off n w Hoff Hfit.
  - cbn [writeShards]. cbn in Hfit. destruct (Z.leb_spec n 0); [|lia].
    eexists. split; [done|]. cbn. by rewrite drop_nil, take_nil, app_nil_r.
  - cbn [writeShards]. destruct (Z.leb_spec n 0) as [Hn|Hn].
    { eexists. split; [done|]. replace (Z.to_nat n) with 0%nat by lia.
      by rewrite take_0, app_nil_r. }
    cbn [fmap list_fmap concat] in *. rewrite length_app in Hfit.
    unfold len. set (l := length (buf_bytes buf)) in *.
    destruct (Z.leb_spec (Z.of_nat l) off) as [Hskip|Hin].
    + destruct (IH (off - Z.of_nat l) n w) as (w' & -> & Hwr); [lia|lia|].
      eexists. split; [done|]. rewrite Hwr. do 2 f_equal.
      rewrite drop_app_ge by (fold l; lia). fold l. f_equal. lia.
    + rewrite minU64_min, bind_eq. unfold emit at 1. rewrite bind_eq, oracle_eq.
      cbn [fst snd w_env w_trace w_nextBuf]. rewrite Hw.
      set (toRead := Z.min n (Z.of_nat l - off)).
      match goal with |- context [writeShards h rest 0 _ ?w1] =>
        destruct (IH 0 (n - toRead) w1) as (w' & -> & Hwr); [lia|unfold toRead; lia|]
      end.
      eexists. split; [done|]. rewrite Hwr. cbn [w_trace written].
      rewrite <-(assoc_L (++)). f_equal. rewrite drop_0.
      rewrite drop_app_le by (fold l; lia).
      destruct (Z.le_gt_cases n (Z.of_nat l - off)) as [Hle|Hgt].
      * replace toRead with n by (unfold toRead; lia).
        replace (Z.to_nat (n - n)) with 0%nat by lia. rewrite take_0, app_nil_r.
        rewrite take_app_le; [done|]. rewrite length_drop. fold l. lia.
      * replace toRead with (Z.of_nat l - off) by (unfold toRead; lia).
        rewrite take_app_ge by (rewrite length_drop; fold l; lia).
        rewrite length_drop. fold l.
        rewrite (take_ge (drop _ _)) by (rewrite length_drop; fold l; lia).
        do 2 f_equal. lia.
Qed.

Lemma length_concat_uniform {A} (ls : list (list A)) k :
  Forall (λ l, length l = k) ls → length (concat ls) = (length ls * k)%nat.
Proof.
  induction 1 as [|l ls Hl _ IH]; [done|]. cbn. rewrite length_app, IH, Hl. lia.
Qed.

Section reader.

Context {Σ : Type} (h : Handler Σ).

Variables (clusterID vid codeMode : Z) (blob : blobGetArgs).

Variables (sortedVuids : list sortedVuid).

Variables (truth : nat → list byte) (bad : gset nat).

Variable shardSize : Z.

Let N := t_N (h_Tactic h codeMode).

Let M_ := t_M (h_Tactic h codeMode).

Let L := length sortedVuids.

Let sortedIdx : gset nat := list_to_set (index <$> sortedVuids).

Hypothesis Hnodup : NoDup (index <$> sortedVuids).

Hypothesis Hrange : ∀ vu, vu ∈ sortedVuids → (index vu < N + M_)%nat.

Hypothesis Hbad : (size bad ≤ M_)%nat.

Hypothesis Hpresent : ∀ i, (i < N + M_)%nat → i ∉ bad → i ∈ sortedIdx.

Hypothesis Hread : ∀ vu w, vu ∈ sortedVuids →
  ∃ sd w', readOneShard h clusterID vid shardSize blob vu (Some false) w = (Some sd, w') ∧
           sd_index sd = index vu ∧
           (sd_status sd = true → buf_bytes (sd_buffer sd) = truth (index vu)) ∧
           (index vu ∉ bad → sd_status sd = true).

Hypothesis Hencoder : ∀ σ bytes badIdx,
  length bytes = (N + M_)%nat →
  (∀ i, (i < N + M_)%nat → i ∉ badIdx → bytes !! i = Some (truth i)) →
  (N ≤ size (set_seq 0 (N + M_) ∖ list_to_set badIdx : gset nat))%nat →
  ∃ σ' out, h_ReconstructData h σ codeMode bytes badIdx = (σ', (out, None)) ∧
            length out = (N + M_)%nat ∧
            ∀ i, (i < N)%nat → out !! i = Some (truth i).

Record readerInv (st : blobRead) : Prop := {
  ri_nodup : NoDup (index <$> (br_inflight st ++ br_waiting st));
  ri_pending : ∀ vu, vu ∈ br_inflight st ++ br_waiting st →
                 vu ∈ sortedVuids ∧ br_received st !! index vu = None;
  ri_length : length (br_shards st) = (N + M_)%nat;
  ri_live : ∀ i, br_received st !! i = Some true →
              (i < N + M_)%nat ∧ buf_bytes <$> br_shards st !! i = Some (truth i);
  ri_failed : ∀ i, br_received st !! i = Some false → i ∈ bad ∧ i ∈ sortedIdx;
  ri_enough : (N ≤ size (br_received st) + length (br_inflight st))%nat;
  ri_inflight : br_inflight st ≠ [];
  ri_covered : ∀ vu, vu ∈ sortedVuids →
                 is_Some (br_received st !! index vu) ∨
                 vu ∈ br_inflight st ++ br_waiting st
}.

Lemma size_sortedIdx : size sortedIdx = L.
Proof. unfold sortedIdx, L. rewrite size_list_to_set by done. by rewrite length_fmap. Qed.

Lemma failed_bound (R : gmap nat bool) :
  (∀ i, R !! i = Some false → i ∈ bad ∧ i ∈ sortedIdx) →
  (N + countBad R ≤ L ∧ countBad R ≤ M_)%nat.
Proof.
  intros HR. rewrite countBad_failedKeys.
  set (Gd := (set_seq 0 (N + M_) ∖ bad : gset nat)).
  assert (N ≤ size Gd)%nat as HGd.
  { unfold Gd. rewrite size_difference_alt, size_set_seq.
    pose proof (subseteq_size (set_seq 0 (N + M_) ∩ bad) bad (intersection_subseteq_r _ _)). lia. }
  assert (Gd ∪ failedKeys R ⊆ sortedIdx) as Hsub.
  { intros i [Hi|Hi]%elem_of_union.
    - apply elem_of_difference in Hi as [Hi1 Hi2]. apply elem_of_set_seq in Hi1.
      apply Hpresent; [lia|done].
    - apply elem_of_failedKeys in Hi. by apply HR. }
  assert (Gd ## failedKeys R) as Hdisj.
  { intros i Hi1 Hi2. apply elem_of_difference in Hi1 as [_ Hi1].
    apply elem_of_failedKeys in Hi2. apply Hi1. by apply HR. }
  pose proof (subseteq_size _ _ Hsub) as Hs. rewrite size_union, size_sortedIdx in Hs by done.
  split; [lia|].
  etrans; [|exact Hbad]. apply subseteq_size. intros i Hi.
  apply elem_of_failedKeys in Hi. by apply HR.
Qed.

Lemma L_ge_N : (N ≤ L)%nat.
Proof.
  pose proof (failed_bound ∅) as [H _]; [|lia].
  intros i. by rewrite lookup_empty.
Qed.

Definition dataRead (shards : list buffer) : Prop :=
  length shards = (N + M_)%nat ∧
  ∀ i, (i < N)%nat → buf_bytes <$> shards !! i = Some (truth i).

Lemma lookup_imap_bytes (shards : list buffer) (bytes : list (list byte)) i :
  length bytes = length shards →
  buf_bytes <$> imap (λ i b, {| buf_id := buf_id b;
                                buf_bytes := default (buf_bytes b) (bytes !! i) |}) shards !! i
  = bytes !! i.
Proof.
  intros Hlen. rewrite list_lookup_imap.
  destruct (shards !! i) as [b|] eqn:Hb; cbn.
  - destruct (bytes !! i) as [c|] eqn:Hc; [done|].
    apply lookup_ge_None in Hc. apply lookup_lt_Some in Hb. lia.
  - symmetry. apply lookup_ge_None. apply lookup_ge_None in Hb. lia.
Qed.

Lemma consume_ok st vu rest sd w :
  readerInv st →
  br_inflight st ≡ₚ vu :: rest →
  sd_index sd = index vu →
  (sd_status sd = true → buf_bytes (sd_buffer sd) = truth (index vu)) →
  (index vu ∉ bad → sd_status sd = true) →
  ∃ st' brk w',
    consume h codeMode N (N + M_) L sd (taken st rest) w = (Some (st', brk), w') ∧
    if (brk : bool) then
      br_reconstructed st' = true ∧ dataRead (br_shards st') ∧ br_inflight st' = rest
    else readerInv st' ∧
         (length (br_inflight st') + length (br_waiting st') + 1 =
          length (br_inflight st) + length (br_waiting st))%nat.
Proof.
  intros Hinv Hperm Hidx Hbytes Hgood.
  destruct Hinv as [Hnd Hpend Hlen Hlive Hfail Henough Hne Hcov].
  assert (Hvu : vu ∈ sortedVuids ∧ br_received st !! index vu = None).
  { apply Hpend. rewrite Hperm. set_solver. }
  destruct Hvu as [Hvu Hfresh].
  pose proof (Hrange vu Hvu) as Hlt.
  set (R' := <[sd_index sd := sd_status sd]> (br_received st)).
  assert (Hsize : size R' = S (size (br_received st))).
  { unfold R'. rewrite Hidx. by apply map_size_insert_None. }
  assert (Hlenperm : length (br_inflight st) = S (length rest)).
  { by rewrite Hperm. }
  unfold consume. rewrite bind_eq.
  set (S1 := if sd_status sd then <[sd_index sd := sd_buffer sd]> (br_shards st)
             else br_shards st).
  set (pre := if sd_status sd then _ else _).
  assert (∃ w1, pre w = (Some S1, w1)) as [w1 ->].
  { subst pre S1. destruct (sd_status sd); [|by eexists].
    cbn [taken br_shards]. rewrite Hidx.
    destruct (lookup_lt_is_Some_2 (br_shards st) (index vu) ltac:(lia)) as [buf ->].
    rewrite bind_eq. unfold memPoolPut. destruct (buf_id buf); run_M; by eexists. }
  assert (HlenS1 : length S1 = (N + M_)%nat).
  { subst S1. destruct (sd_status sd); [by rewrite length_insert|done]. }
  assert (Hlive' : ∀ i, R' !! i = Some true →
            (i < N + M_)%nat ∧ buf_bytes <$> S1 !! i = Some (truth i)).
  { intros i. unfold R'. rewrite Hidx. destruct (decide (i = index vu)) as [->|Hne'].
    - rewrite lookup_insert_eq. intros [= Hst]. split; [done|].
      subst S1. rewrite Hst, Hidx. rewrite list_lookup_insert_eq by lia. cbn.
      by rewrite Hbytes.
    - rewrite lookup_insert_ne by done. intros Hi. destruct (Hlive i Hi) as [? Hb].
      split; [done|]. subst S1. destruct (sd_status sd); [|done].
      by rewrite Hidx, list_lookup_insert_ne. }
  assert (Hfail' : ∀ i, R' !! i = Some false → i ∈ bad ∧ i ∈ sortedIdx).
  { intros i. unfold R'. rewrite Hidx. destruct (decide (i = index vu)) as [->|Hne'].
    - rewrite lookup_insert_eq. intros [= Hst]. split.
      + destruct (decide (index vu ∈ bad)) as [|Hn]; [done|].
        specialize (Hgood Hn). congruence.
      + unfold sortedIdx. apply elem_of_list_to_set, list_elem_of_fmap. eauto.
    - rewrite lookup_insert_ne by done. apply Hfail. }
  pose proof (failed_bound R' Hfail') as [HboundL HboundM].
  cbn [taken br_received br_shards br_inflight br_waiting br_nextChan br_stopChan
       br_reconstructed]. fold R'.
  assert (Hnd' : NoDup (index <$> (rest ++ br_waiting st))).
  { rewrite fmap_app in Hnd |- *. rewrite Hperm in Hnd. cbn in Hnd.
    by apply NoDup_cons in Hnd as [_ Hnd]. }
  assert (Hpend' : ∀ vu', vu' ∈ rest ++ br_waiting st →
            vu' ∈ sortedVuids ∧ R' !! index vu' = None).
  { intros vu' Hin. assert (vu' ∈ br_inflight st ++ br_waiting st) as Hin'.
    { rewrite Hperm. set_solver. }
    destruct (Hpend vu' Hin') as [? ?]. split; [done|].
    unfold R'. rewrite Hidx, lookup_insert_ne; [done|].
    intros Heq. rewrite fmap_app, Hperm in Hnd. cbn in Hnd.
    apply NoDup_cons in Hnd as [Hnotin _]. apply Hnotin.
    rewrite <-fmap_app, Heq. apply list_elem_of_fmap. eauto. }
  assert (Hcov' : ∀ vu', vu' ∈ sortedVuids →
            is_Some (R' !! index vu') ∨ vu' ∈ rest ++ br_waiting st).
  { intros vu' Hin. destruct (Hcov vu' Hin) as [Hs|Hp].
    - left. unfold R'. destruct (decide (sd_index sd = index vu')) as [->|?].
      + rewrite lookup_insert_eq. eauto.
      + by rewrite lookup_insert_ne.
    - rewrite Hperm in Hp. cbn in Hp. apply elem_of_cons in Hp as [->|Hp]; [|by right].
      left. unfold R'. rewrite Hidx, lookup_insert_eq. eauto. }
  destruct (Nat.ltb_spec (size R') N) as [Hsmall|Hbig].
  { run_M. do 3 eexists. split; [reflexivity|]. cbn beta iota. split; [|cbn; lia].
    split; cbn [br_received br_shards br_inflight br_waiting]; try done; try lia.
    intros ->. cbn in *. lia. }
  destruct (filter _ (seq 0 N)) as [|b0 bs] eqn:HbadData.
  { unfold closeStop. run_M. do 3 eexists. split; [reflexivity|]. cbn beta iota.
    split; [done|]. split; [|done]. split; [done|]. cbn [br_shards]. intros i Hi.
    apply Hlive'. apply notReceived_false.
    destruct (notReceived R' i) eqn:Hnr; [|done].
    assert (i ∈ filter (λ i, notReceived R' i = true) (seq 0 N)) as Hin.
    { apply list_elem_of_filter. split; [done|]. apply elem_of_seq. lia. }
    rewrite HbadData in Hin. by apply elem_of_nil in Hin. }
  replace (N + M_ - N)%nat with M_ by lia.
  destruct (Nat.ltb_spec M_ (countBad R')) as [Hmany|Hfew]; [lia|].
  set (badIdx := (b0 :: bs) ++ filter _ (seq N M_)).
  assert (HbadIdx : ∀ i, (i < N + M_)%nat → i ∉ badIdx → R' !! i = Some true).
  { intros i Hi Hnotin. apply notReceived_false.
    destruct (notReceived R' i) eqn:Hnr; [|done]. exfalso. apply Hnotin.
    unfold badIdx. rewrite <-HbadData, <-filter_app, <-seq_app.
    apply list_elem_of_filter. split; [done|]. apply elem_of_seq. lia. }
  destruct (Nat.leb_spec (N + countBad R') (size R')) as [Hrec|Hnorec].
  - unfold ReconstructData. run_M.
    destruct (Hencoder (w_env w1) (buf_bytes <$> S1) badIdx) as (σ' & out & Henc & Hout & Hdata).
    { by rewrite length_fmap. }
    { intros i Hi Hnotin. rewrite list_lookup_fmap. by apply Hlive', HbadIdx. }
    { etrans; [|apply subseteq_size with (X := liveKeys R')].
      - pose proof (size_live_failed R'). rewrite countBad_failedKeys in Hrec. lia.
      - intros i Hi. apply elem_of_liveKeys in Hi. destruct (Hlive' i Hi) as [Hi' _].
        apply elem_of_difference. split; [apply elem_of_set_seq; lia|].
        rewrite elem_of_list_to_set. intros Hin. unfold badIdx in Hin.
        rewrite <-HbadData, <-filter_app in Hin. apply list_elem_of_filter in Hin as [Hnr _].
        apply notReceived_false in Hi. congruence. }
    rewrite Henc. cbn [fst snd]. run_M. rewrite bool_decide_eq_true_2 by done.
    unfold closeStop. run_M. do 3 eexists. split; [reflexivity|]. cbn beta iota.
    split; [done|]. split; [|done]. cbn [br_shards]. split.
    + by rewrite length_imap.
    + intros i Hi. rewrite lookup_imap_bytes by lia. by apply Hdata.
  - run_M. destruct (Nat.leb_spec L (size R')) as [HL|HL]; [lia|].
    unfold sendNext. run_M.
    cbn [taken br_received br_shards br_inflight br_waiting br_nextChan br_stopChan
         br_reconstructed].
    destruct (br_waiting st) as [|vu' W'] eqn:HW; run_M.
    + do 3 eexists. split; [reflexivity|]. cbn beta iota. split; [|cbn; lia].
      rewrite app_nil_r in *.
      split; cbn [br_received br_shards br_inflight br_waiting]; rewrite ?app_nil_r;
        try done; try lia.
      intros ->. assert (sortedIdx ⊆ dom R') as Hsub.
      { intros i Hi. unfold sortedIdx in Hi.
        apply elem_of_list_to_set, list_elem_of_fmap in Hi as (vu' & -> & Hin).
        apply elem_of_dom. destruct (Hcov' vu' Hin) as [?|Hp]; [done|].
        by apply elem_of_nil in Hp. }
      apply subseteq_size in Hsub. rewrite size_sortedIdx, size_dom in Hsub. lia.
    + do 3 eexists. split; [reflexivity|]. cbn beta iota. split; [|cbn; rewrite length_app; cbn; lia].
      split; cbn [br_received br_shards br_inflight br_waiting]; try done.
      * rewrite <-(assoc_L (++)). cbn. rewrite fmap_app in Hnd' |- *.
        cbn in Hnd' |- *. done.
      * intros vu0 Hin. apply Hpend'. rewrite <-(assoc_L (++)) in Hin. by cbn in Hin.
      * rewrite length_app. cbn. lia.
      * by destruct rest.
      * intros vu0 Hin. destruct (Hcov' vu0 Hin) as [?|Hp]; [by left|right].
        rewrite <-(assoc_L (++)). by cbn.
Qed.

Lemma blobLoop_ok sched : ∀ st w,
  readerInv st →
  (length (br_inflight st) + length (br_waiting st) ≤ length sched)%nat →
  ∃ st' w',
    blobLoop h clusterID vid codeMode shardSize blob N (N + M_) L sched st w
      = (Some (st', LoopBreak), w') ∧
    br_reconstructed st' = true ∧ dataRead (br_shards st') ∧
    br_inflight st' ⊆ sortedVuids.
Proof.
  induction sched as [|k sched IH]; intros st w Hinv Hlen.
  { destruct Hinv. destruct (br_inflight st); [done|]. cbn in Hlen. lia. }
  cbn [blobLoop].
  destruct (pick k (br_inflight st)) as [[vu rest]|] eqn:Hpick.
  2:{ apply pick_None in Hpick. by destruct Hinv. }
  apply pick_Some in Hpick.
  assert (vu ∈ sortedVuids) as Hvu.
  { eapply (ri_pending st Hinv). rewrite Hpick. set_solver. }
  destruct (Hread vu w Hvu) as (sd & w1 & Hrd & Hidx & Hbytes & Hgood).
  rewrite bind_eq, Hrd. unfold onShard. rewrite bind_eq.
  destruct (consume_ok st vu rest sd w1 Hinv Hpick Hidx Hbytes Hgood)
    as (st' & brk & w' & -> & Hres).
  destruct brk.
  - run_M. destruct Hres as (Hrec & Hdata & Hin). do 2 eexists. split; [done|].
    split; [done|]. split; [done|]. rewrite Hin. intros vu' Hvu'.
    eapply (ri_pending st Hinv). rewrite Hpick. set_solver.
  - destruct Hres as [Hinv' Hlen']. apply IH; [done|]. cbn in Hlen. lia.
Qed.

Lemma readOneShard_canceled vu w :
  ∃ sd w', readOneShard h clusterID vid shardSize blob vu (Some true) w = (Some sd, w') ∧
           sd_status sd = false.
Proof.
  unfold readOneShard, hystrixDo, getOneShardFromHost. rewrite !bind_eq, oracle_eq.
  destruct (h_hystrix h (w_env w)) as [σ []]; cbn; run_M; by do 2 eexists.
Qed.

Lemma drainShards_ok stopped vus : ∀ late w,
  vus ⊆ sortedVuids →
  ∃ w', drainShards h clusterID vid shardSize blob stopped late vus w = (Some tt, w').
Proof.
  induction vus as [|vu vus IH]; intros late w Hsub; [by eexists|].
  cbn [drainShards]. rewrite bind_eq.
  assert (∃ sd w1, readOneShard h clusterID vid shardSize blob vu
                     (Some (stopped && negb (hd false late))) w = (Some sd, w1))
    as (sd & w1 & ->).
  { destruct (stopped && negb (hd false late)).
    - destruct (readOneShard_canceled vu w) as (sd & w1 & ? & _); eauto.
    - destruct (Hread vu w) as (sd & w1 & ? & _); [set_solver|eauto]. }
  rewrite bind_eq.
  assert (∃ w2, (if sd_status sd then memPoolPut (sd_buffer sd) else mret ()) w1
                = (Some tt, w2)) as [w2 ->].
  { destruct (sd_status sd); [|by eexists]. unfold memPoolPut.
    destruct (buf_id _); run_M; by eexists. }
  apply IH. set_solver.
Qed.

Variables (sizes : BufferSizes) (shards : list buffer).

Let empties := emptyDataShardIndexes sizes.

Hypothesis Hsizes :
  h_GetBufferSizes h (int64 (BlobSize blob)) (h_Tactic h codeMode) = inl sizes.

Hypothesis Hwf : sizesFor N sizes.

Hypothesis Hshards : length shards = (N + M_)%nat.

Hypothesis Hshardlen : Forall (λ b, len b = shardSize) shards.

Hypothesis Hpadding : ∀ i, i ∈ empties → truth i = zeros (Z.to_nat shardSize).

Lemma emitAll_ok (es : list event) (w : world Σ) :
  ∃ w', emitAll es w = (Some tt, w').
Proof.
  revert w. induction es as [|e es IH]; intros w; [by eexists|].
  cbn [emitAll]. rewrite bind_eq. unfold emit at 1. apply IH.
Qed.

Lemma N_pos : (0 < N)%nat.
Proof. destruct Hwf as (? & ? & ? & ? & ?). nia. Qed.

Lemma size_empties : (size empties < N)%nat.
Proof.
  pose proof N_pos.
  assert (empties ⊆ set_seq 1 (N - 1)) as Hsub.
  { intros i Hi. apply (empties_range sizes N i Hwf) in Hi. apply elem_of_set_seq. lia. }
  apply subseteq_size in Hsub. rewrite size_set_seq in Hsub. lia.
Qed.

Lemma started_enough (n : nat) :
  (n ≤ size empties +
       length (filter (λ vu, index vu ∉ empties) (take n sortedVuids)) +
       (n - L))%nat.
Proof.
  pose proof (length_filter_split (λ vu, index vu ∉ empties) (take n sortedVuids)) as Hsplit.
  rewrite length_take in Hsplit. fold L in Hsplit.
  set (inE := filter (λ vu, ¬ (index vu ∉ empties)) (take n sortedVuids)) in *.
  assert (length inE ≤ size empties)%nat; [|lia].
  assert (NoDup (index <$> inE)) as Hnd.
  { eapply sublist_NoDup; [exact Hnodup|]. apply fmap_sublist.
    etrans; [apply sublist_filter|apply sublist_take]. }
  rewrite <-(length_fmap index), <-(size_list_to_set (C := gset nat)) by done.
  apply subseteq_size. intros i Hi.
  apply elem_of_list_to_set, list_elem_of_fmap in Hi as (vu & -> & Hvu).
  apply list_elem_of_filter in Hvu as [Hvu _]. by apply dec_stable.
Qed.

Lemma readOneBlob_ok sched late w :
  (L ≤ length sched)%nat →
  ∃ shards' w',
    readOneBlob h clusterID vid codeMode blob sortedVuids shards sched late w
      = (Some (BlobReturned None shards'), w') ∧
    dataRead shards'.
Proof.
  intros Hsched. pose proof N_pos as HN. pose proof size_empties as HE.
  pose proof L_ge_N as HL.
  unfold readOneBlob. rewrite Hsizes. fold N M_ L empties.
  assert (∃ s0 rest, shards = s0 :: rest ∧ len s0 = shardSize) as (s0 & rest & Hsh & Hs0).
  { destruct shards as [|s0 rest] eqn:Hsh; [cbn in Hshards; lia|].
    exists s0, rest. split; [done|]. by apply Forall_cons in Hshardlen as [? _]. }
  rewrite (list_case_cons shards _ _ s0 rest Hsh). rewrite Hs0. clear s0 rest Hsh Hs0.
  set (msr := if (L <? N + h_MinReadShardsX h)%nat then L else (N + h_MinReadShardsX h)%nat).
  set (F0 := filter (λ vu, index vu ∉ empties) (take msr sortedVuids)).
  set (W0 := filter (λ vu, index vu ∉ empties) (drop msr sortedVuids)).
  assert (HFW : F0 ++ W0 = filter (λ vu, index vu ∉ empties) sortedVuids).
  { unfold F0, W0. by rewrite <-filter_app, take_drop. }
  rewrite bind_eq. destruct (emitAll_ok (EvLaunch <$> (index <$> F0)) w) as [w1 ->].
  rewrite bind_eq.
  destruct (zeroEmpties_ok (elements empties) ∅ shards w1) as (R0 & S0 & w2 & -> & HlenS & HR0 & HS0).
  { intros i Hi%elem_of_elements. apply (empties_range sizes N i Hwf) in Hi. lia. }
  rewrite bind_eq.
  assert (HR0' : ∀ i, R0 !! i = if decide (i ∈ empties) then Some true else None).
  { intros i. rewrite HR0. destruct (decide (i ∈ elements empties)) as [Hi|Hi];
      rewrite elem_of_elements in Hi; [by rewrite decide_True|by rewrite decide_False]. }
  assert (HsizeR0 : size R0 = size empties).
  { rewrite <-(size_dom (D := gset nat)). f_equal. apply set_eq. intros i.
    rewrite elem_of_dom, HR0'. destruct (decide _); [naive_solver|].
    split; [by intros [? ?]|done]. }
  match goal with |- context [blobLoop _ _ _ _ _ _ _ _ _ sched ?st0 w2] =>
    destruct (blobLoop_ok sched st0 w2) as (st' & w3 & -> & Hrec & Hdata & Hin)
  end.
  { split; cbn [br_received br_shards br_inflight br_waiting].
    - rewrite HFW. eapply sublist_NoDup; [exact Hnodup|].
      apply fmap_sublist, sublist_filter.
    - intros vu. rewrite HFW. intros [Hne Hvu]%list_elem_of_filter.
      split; [done|]. rewrite HR0'. by rewrite decide_False.
    - lia.
    - intros i. rewrite HR0'. destruct (decide _) as [Hi|]; [|done]. intros _.
      pose proof (empties_range sizes N i Hwf Hi). split; [lia|].
      rewrite HS0, decide_True by (by apply elem_of_elements).
      destruct (lookup_lt_is_Some_2 shards i) as [b Hb]; [lia|]. rewrite Hb. cbn.
      rewrite Hpadding by done. do 2 f_equal.
      eapply Forall_lookup_1 in Hshardlen; [|exact Hb]. unfold len in Hshardlen. lia.
    - intros i. rewrite HR0'. by destruct (decide _).
    - pose proof (started_enough msr). fold F0 in H. rewrite HsizeR0.
      unfold msr in *. destruct (Nat.ltb_spec L (N + h_MinReadShardsX h)); lia.
    - pose proof (started_enough msr). fold F0 in H. intros HF0. rewrite HF0 in H.
      cbn in H. unfold msr in *. destruct (Nat.ltb_spec L (N + h_MinReadShardsX h)); lia.
    - intros vu Hvu. rewrite HR0'. destruct (decide (index vu ∈ empties)); [left; eauto|].
      right. rewrite HFW. by apply list_elem_of_filter. }
  { cbn [br_inflight br_waiting]. rewrite <-length_app, HFW.
    etrans; [apply length_filter|done]. }
  unfold blobResult. rewrite bind_eq.
  destruct (drainShards_ok (br_stopChan st') (br_inflight st') late w3 Hin) as [w4 ->].
  rewrite Hrec. run_M. by do 2 eexists.
Qed.

Hypothesis Hwriter : ∀ σ data, (h_Write h σ data).2 = None.

Hypothesis Htruthlen : ∀ i, (i < N)%nat → length (truth i) = Z.to_nat shardSize.

Hypothesis Hoffset : 0 <= Offset blob.

Hypothesis Hfits : Offset blob + ReadSize blob <= Z.of_nat N * shardSize.

Lemma dataRead_concat shards' :
  dataRead shards' →
  ∃ parity, concat (buf_bytes <$> shards') = concat (truth <$> seq 0 N) ++ parity.
Proof.
  intros [Hlen Hdata]. exists (concat (drop N (buf_bytes <$> shards'))).
  rewrite <-concat_app. f_equal.
  rewrite <-(take_drop N (buf_bytes <$> shards')) at 1. f_equal.
  apply list_eq. intros i. destruct (decide (i < N)%nat) as [Hi|Hi].
  - rewrite lookup_take_lt by done. rewrite list_lookup_fmap, Hdata by done.
    rewrite list_lookup_fmap, lookup_seq_lt by done. done.
  - rewrite lookup_take_ge by lia. symmetry. apply lookup_ge_None.
    rewrite length_fmap, length_seq. lia.
Qed.


End reader.



Section broken.

Context {Σ : Type} (h : Handler Σ).

Variables (clusterID vid codeMode : Z) (blob : blobGetArgs) (shardSize : Z).

Variable lenSorted : nat.

Let N := t_N (h_Tactic h codeMode).

Let M_ := t_M (h_Tactic h codeMode).







End broken.

Lemma runs_ret {Σ A} φ (a : A) (w : world Σ) (Q : A → Prop) : Q a → runs φ (mret a) w Q.
Proof. intros. by exists []. Qed.

Lemma runs_panic {Σ A} φ (w : world Σ) (Q : A → Prop) : runs φ panic w Q.
Proof. by exists []. Qed.

Lemma runs_emit {Σ} (φ : event → Prop) e (w : world Σ) (Q : unit → Prop) :
  φ e → Q tt → runs φ (emit e) w Q.
Proof. intros. exists [e]. cbn. split; [done|]. split; [by repeat constructor|done]. Qed.

Lemma runs_oracle {Σ A} φ (f : Σ → Σ * A) (w : world Σ) (Q : A → Prop) :
  (∀ σ, Q (f σ).2) → runs φ (oracle f) w Q.
Proof.
  intros HQ. exists []. rewrite oracle_eq. cbn. split; [done|]. split; [done|]. apply HQ.
Qed.

Lemma runs_bind {Σ A B} φ (m : M Σ A) (f : A → M Σ B) (w : world Σ) Q Q' :
  runs φ m w Q → (∀ a w', Q a → runs φ (f a) w' Q') → runs φ (m ≫= f) w Q'.
Proof.
  intros (Δ & HΔ & Hφ & HQ) Hf. unfold runs. rewrite bind_eq.
  destruct (m w) as [[a|] w1]; cbn [fst snd] in *.
  - destruct (Hf a w1 HQ) as (Δ' & HΔ' & Hφ' & HQ').
    exists (Δ' ++ Δ). rewrite HΔ', HΔ, (assoc_L (++)). split; [done|].
    split; [by apply Forall_app|done].
  - by exists Δ.
Qed.

Lemma runs_weaken {Σ A} (φ φ' : event → Prop) (m : M Σ A) (w : world Σ) (Q Q' : A → Prop) :
  runs φ m w Q → (∀ e, φ e → φ' e) → (∀ a, Q a → Q' a) → runs φ' m w Q'.
Proof.
  intros (Δ & HΔ & Hφ & HQ) Hφ' HQ'. exists Δ. split; [done|].
  split; [by eapply Forall_impl|]. destruct (m w).1; [by apply HQ'|done].
Qed.

Lemma consumeLine_ok {Σ} (h : Handler Σ) blob shards (w : world Σ) :
  (∀ σ data, (h_Write h σ data).2 = None) →
  0 <= Offset blob →
  Offset blob + ReadSize blob <= Z.of_nat (length (concat (buf_bytes <$> shards))) →
  ∃ w', consumeLine h {| pb_err := None; pb_blob := blob; pb_shards := shards |} w
          = (Some None, w') ∧
        written (w_trace w') =
          written (w_trace w) ++
            take (Z.to_nat (ReadSize blob))
              (drop (Z.to_nat (Offset blob)) (concat (buf_bytes <$> shards))).
Proof.
  intros Hw Hoff Hfit. unfold consumeLine. cbn [pb_shards pb_blob]. rewrite bind_eq.
  destruct (writeShards_ok h shards (Offset blob) (ReadSize blob) w Hw Hoff Hfit)
    as (w1 & -> & Hwr).
  rewrite bind_eq. destruct (putAll_ok shards w1) as (w2 & -> & Hw2).
  exists w2. split; [done|]. by rewrite Hw2.
Qed.

Lemma readerEvent_untouched E idx ev : idx ∉ E → readerEvent idx ev → untouched E ev.
Proof. destruct ev; cbn; naive_solver. Qed.

Lemma shardsZero_insert E shards idx b :
  idx ∉ E → shardsZero E shards → shardsZero E (<[idx := b]> shards).
Proof.
  intros Hidx Hz i Hi. destruct (Hz i Hi) as (b' & Hb' & Hzero). exists b'.
  split; [|done]. rewrite list_lookup_insert_ne; [done|]. by intros ->.
Qed.

Lemma receivedAll_insert E R idx b :
  idx ∉ E → receivedAll E R → receivedAll E (<[idx := b]> R).
Proof. intros Hidx HR i Hi. rewrite lookup_insert_ne; [by apply HR|]. by intros ->. Qed.

Lemma zeroEmpties_runs {Σ} φ idxs : ∀ (seen : gset nat) R S (w : world Σ),
  (∀ id, φ (EvZero id)) →
  receivedAll seen R → shardsZero seen S →
  runs φ (zeroEmpties idxs R S) w
    (λ r, receivedAll (seen ∪ list_to_set idxs) r.1 ∧
          shardsZero (seen ∪ list_to_set idxs) r.2).
Proof.
  intros seen R S w Hφ. revert seen R S w.
  induction idxs as [|idx idxs IH]; intros seen R S w HR HS.
  { apply runs_ret. cbn. split; intros i Hi; [apply HR|apply HS]; set_solver. }
  cbn [zeroEmpties]. destruct (S !! idx) as [buf|] eqn:Hbuf; [|apply runs_panic].
  eapply runs_bind with
    (Q := λ b, b = {| buf_id := buf_id buf;
                      buf_bytes := replicate (length (buf_bytes buf)) x00 |}).
  { unfold memPoolZero. eapply runs_bind with (Q := λ _, True).
    - by apply runs_emit.
    - intros _ w' _. by apply runs_ret. }
  intros b w1 ->.
  eapply runs_weaken; [apply (IH (seen ∪ {[idx]}))| |].
  - intros i Hi. destruct (decide (i = idx)) as [->|Hne].
    + by rewrite lookup_insert_eq.
    + rewrite lookup_insert_ne by done. apply HR. set_solver.
  - intros i Hi. destruct (decide (i = idx)) as [->|Hne].
    + eexists. rewrite list_lookup_insert_eq by (by eapply lookup_lt_Some).
      split; [done|]. unfold allZero, zeros. cbn. by rewrite length_replicate.
    + rewrite list_lookup_insert_ne by done. apply HS. set_solver.
  - done.
  - intros [R' S'] [HR' HS']. cbn in *.
    split; intros i Hi; [apply HR'|apply HS']; set_solver.
Qed.

Lemma emitAll_runs {Σ} φ es (w : world Σ) :
  Forall φ es → runs φ (emitAll es) w (λ _, True).
Proof.
  revert w. induction es as [|e es IH]; intros w Hes; [by apply runs_ret|].
  apply Forall_cons in Hes as [He Hes]. cbn [emitAll].
  eapply runs_bind with (Q := λ _, True); [by apply runs_emit|].
  intros _ w' _. by apply IH.
Qed.

Section empties.

Context {Σ : Type} (h : Handler Σ).

Variables (clusterID vid codeMode : Z) (blob : blobGetArgs) (shardSize : Z).

Variables (lenSorted dataN dataParityN : nat) (E : gset nat).

(** The encoder leaves alone the shards that are not listed as bad. *)
Hypothesis Hframe : ∀ σ bytes badIdx i,
  i ∉ badIdx → (h_ReconstructData h σ codeMode bytes badIdx).2.1 !! i = bytes !! i.

Lemma shardsZero_reconstruct σ R shards (badIdx : list nat) :
  receivedAll E R → shardsZero E shards →
  (∀ i, i ∈ badIdx → notReceived R i = true) →
  shardsZero E
    (imap (λ i b, {| buf_id := buf_id b;
                     buf_bytes := default (buf_bytes b)
                       ((h_ReconstructData h σ codeMode (buf_bytes <$> shards) badIdx).2.1 !! i) |})
       shards).
Proof.
  intros HR Hz Hbad i Hi. destruct (Hz i Hi) as (b & Hb & Hzero).
  rewrite list_lookup_imap, Hb. cbn. eexists. split; [done|].
  rewrite Hframe.
  - rewrite list_lookup_fmap, Hb. done.
  - intros Hin. apply Hbad in Hin. unfold notReceived in Hin. by rewrite HR in Hin.
Qed.

Lemma consume_empties sd st w :
  emptiesKept E st → sd_index sd ∉ E →
  runs (untouched E) (consume h codeMode dataN dataParityN lenSorted sd st) w
    (λ r, emptiesKept E r.1).
Proof.
  intros (HR & HS & HP) Hidx.
  pose proof (receivedAll_insert E _ _ (sd_status sd) Hidx HR) as HR'.
  set (R' := <[sd_index sd := sd_status sd]> (br_received st)) in *.
  unfold consume. eapply runs_bind with (Q := shardsZero E).
  { destruct (sd_status sd); [|by apply runs_ret].
    destruct (br_shards st !! sd_index sd) as [buf|]; [|apply runs_panic].
    eapply runs_bind with (Q := λ _, True).
    - unfold memPoolPut. destruct (buf_id buf); [by apply runs_emit|by apply runs_ret].
    - intros _ w' _. apply runs_ret. by apply shardsZero_insert. }
  intros S1 w1 HS1. fold R'.
  destruct (size R' <? dataN)%nat; [by apply runs_ret|].
  assert (Hclose : ∀ S2 b (w2 : world Σ), shardsZero E S2 →
            runs (untouched E) (closeStop R' S2 b st) w2 (λ r, emptiesKept E r.1)).
  { intros S2 b w2 HS2. unfold closeStop. eapply runs_bind with (Q := λ _, True).
    - by apply runs_emit.
    - intros _ w' _. by apply runs_ret. }
  assert (Hnext : ∀ S2 (w2 : world Σ), shardsZero E S2 →
            runs (untouched E) (sendNext R' S2 st) w2 (λ r, emptiesKept E r.1)).
  { intros S2 w2 HS2. unfold sendNext. eapply runs_bind with (Q := λ _, True).
    - by apply runs_emit.
    - intros _ w' _. destruct (br_waiting st) as [|vu rest] eqn:HW; rewrite ?HW in HP.
      + apply runs_ret. repeat split; try done; cbn; done.
      + eapply runs_bind with (Q := λ _, True).
        * apply runs_emit; [|done]. cbn. apply HP. set_solver.
        * intros _ w'' _. apply runs_ret. repeat split; try done; cbn.
          intros vu' Hvu'. apply HP. set_solver. }
  destruct (filter _ (seq 0 dataN)) as [|b0 bs] eqn:HbadData; [by apply Hclose|].
  destruct (_ <? countBad R')%nat; [by apply Hclose|].
  set (badIdx := (b0 :: bs) ++ _).
  assert (HbadIdx : ∀ i, i ∈ badIdx → notReceived R' i = true).
  { intros i. unfold badIdx. rewrite <-HbadData. rewrite elem_of_app, !list_elem_of_filter.
    naive_solver. }
  eapply runs_bind with (Q := λ r, shardsZero E r.1).
  { destruct (_ <=? size R')%nat; [|by apply runs_ret].
    eapply runs_bind with (Q := λ r, shardsZero E r.1).
    - unfold ReconstructData. eapply runs_bind with (Q := λ _, True).
      + by apply runs_emit.
      + intros _ w' _.
        eapply runs_bind with
          (Q := λ r, ∃ σ, r = (h_ReconstructData h σ codeMode (buf_bytes <$> S1) badIdx).2).
        * apply runs_oracle. eauto.
        * intros [bytes err] w'' [σ Heq]. apply runs_ret. cbn.
          pose proof (shardsZero_reconstruct σ R' S1 badIdx HR' HS1 HbadIdx) as Hz.
          by rewrite <-Heq in Hz.
    - intros [shards' err] w' Hz. by apply runs_ret. }
  intros [S2 ok] w2 HS2. cbn in HS2. destruct ok; [by apply Hclose|].
  destruct (lenSorted <=? size R')%nat; [by apply Hclose|by apply Hnext].
Qed.

Lemma readOneShard_runs vu stop (w : world Σ) :
  index vu ∉ E →
  runs (untouched E) (readOneShard h clusterID vid shardSize blob vu stop) w
    (λ sd, sd_index sd = index vu).
Proof.
  intros Hvu.
  destruct (readOneShard_events h clusterID vid shardSize blob vu stop w) as (Δ & HΔ & Hev & Hsd).
  exists Δ. split; [done|]. split; [|done].
  eapply Forall_impl; [exact Hev|]. intros ev. by apply readerEvent_untouched.
Qed.

Lemma blobLoop_empties sched : ∀ st (w : world Σ),
  emptiesKept E st →
  runs (untouched E)
    (blobLoop h clusterID vid codeMode shardSize blob dataN dataParityN lenSorted sched st) w
    (λ r, emptiesKept E r.1).
Proof.
  induction sched as [|k sched IH]; intros st w Hst; [by apply runs_ret|].
  cbn [blobLoop]. destruct (pick k (br_inflight st)) as [[vu rest]|] eqn:Hpick.
  2:{ destruct (br_waiting st); by apply runs_ret. }
  apply pick_Some in Hpick. destruct Hst as (HR & HS & HP).
  assert (index vu ∉ E) as Hvu by (apply HP; rewrite Hpick; set_solver).
  eapply runs_bind; [by apply readOneShard_runs|].
  intros sd w1 Hsd. unfold onShard.
  eapply runs_bind.
  - apply consume_empties; [|by rewrite Hsd].
    repeat split; try done. cbn. intros vu' Hvu'. apply HP. rewrite Hpick. set_solver.
  - intros [st' brk] w2 Hst'. destruct brk; [by apply runs_ret|by apply IH].
Qed.

Lemma drainShards_empties stopped vus : ∀ late (w : world Σ),
  (∀ vu, vu ∈ vus → index vu ∉ E) →
  runs (untouched E) (drainShards h clusterID vid shardSize blob stopped late vus) w
    (λ _, True).
Proof.
  induction vus as [|vu vus IH]; intros late w Hvus; [by apply runs_ret|].
  cbn [drainShards]. eapply runs_bind; [apply readOneShard_runs, Hvus; by left|].
  intros sd w1 _. eapply runs_bind with (Q := λ _, True).
  - destruct (sd_status sd); [|by apply runs_ret].
    unfold memPoolPut. destruct (buf_id _); [by apply runs_emit|by apply runs_ret].
  - intros _ w2 _. apply IH. intros vu' Hvu'. apply Hvus. by right.
Qed.

End empties.

Lemma take_add {A} (l : list A) a b : take (a + b) l = take a l ++ take b (drop a l).
Proof.
  revert l. induction a as [|a IH]; intros l; [done|].
  destruct l as [|x l]; cbn; [by rewrite take_nil|]. by rewrite IH.
Qed.

(** Inside the concatenation of chunks of length [s], the chunk [i] starts
    at [i * s]. *)
Lemma concat_chunk {A} (f : nat → list A) (s n i off k : nat) :
  (∀ j, j < n → length (f j) = s)%nat → (i < n)%nat → (off + k ≤ s)%nat →
  take k (drop (i * s + off) (concat (f <$> seq 0 n))) = take k (drop off (f i)).
Proof.
  intros Hlen Hi Hfit.
  assert (Hsplit : seq 0 n = seq 0 i ++ i :: seq (S i) (n - S i)).
  { replace n with (i + S (n - S i))%nat at 1 by lia. by rewrite seq_app. }
  rewrite Hsplit, fmap_app, concat_app. cbn [fmap list_fmap concat].
  assert (length (concat (f <$> seq 0 i)) = (i * s)%nat) as Hpre.
  { rewrite (length_concat_uniform _ s); [by rewrite length_fmap, length_seq|].
    apply Forall_fmap, Forall_forall. intros j Hj%elem_of_seq. apply Hlen. lia. }
  rewrite <-drop_drop, drop_app_length' by done.
  rewrite drop_app_le by (rewrite Hlen by done; lia).
  rewrite take_app_le; [done|]. rewrite length_drop, Hlen by done. lia.
Qed.

Lemma concat_lookup_chunk {A} (f : nat → list A) (s n p : nat) :
  (∀ j, j < n → length (f j) = s)%nat → (0 < s)%nat → (p < n * s)%nat →
  concat (f <$> seq 0 n) !! p = f (p / s)%nat !! (p mod s)%nat.
Proof.
  intros Hlen Hs Hp.
  assert (p / s < n)%nat as Hi by (apply Nat.Div0.div_lt_upper_bound; lia).
  pose proof (Nat.mod_upper_bound p s ltac:(lia)) as Hmod.
  pose proof (Nat.div_mod_eq p s) as Hdm.
  pose proof (concat_chunk f s n (p / s) (p mod s) 1 Hlen Hi ltac:(lia)) as Hc.
  replace (p / s * s + p mod s)%nat with p in Hc by lia.
  rewrite <-(Nat.add_0_r p) at 1. rewrite <-lookup_drop.
  rewrite <-(Nat.add_0_r (p mod s)). rewrite <-(lookup_drop (f (p / s)%nat)).
  rewrite <-(lookup_take_lt (drop p _) 1 0) by lia.
  rewrite <-(lookup_take_lt (drop (p mod s) _) 1 0) by lia.
  by rewrite Hc.
Qed.

Lemma zeroed_app a b : zeroed (a ++ b) = zeroed a ++ zeroed b.
Proof. induction a as [|[] a IH]; cbn; by rewrite ?IH. Qed.

Lemma emitAll_trace {Σ} (es : list event) (w : world Σ) :
  emitAll es w = (Some tt, {| w_env := w_env w; w_trace := reverse es ++ w_trace w;
                              w_nextBuf := w_nextBuf w |}).
Proof.
  revert w. induction es as [|e es IH]; intros w; [by destruct w|].
  cbn [emitAll]. rewrite bind_eq. unfold emit at 1. rewrite IH. cbn [w_env w_trace w_nextBuf].
  by rewrite reverse_cons, <-(assoc_L (++)).
Qed.

Lemma zeroEmpties_trace {Σ} E idxs : ∀ (R : gmap nat bool) (S : list buffer) (w : world Σ),
  ∃ Δ, w_trace (zeroEmpties idxs R S w).2 = Δ ++ w_trace w ∧
       Forall (preludeEvent E) Δ ∧
       (is_Some (zeroEmpties idxs R S w).1 →
        reverse (zeroed Δ) = omap (λ i, buf_id <$> S !! i) idxs).
Proof.
  induction idxs as [|idx idxs IH]; intros R S w.
  { exists []. by repeat split. }
  cbn [zeroEmpties]. destruct (S !! idx) as [buf|] eqn:Hbuf.
  2:{ exists []. repeat split; [done|]. by intros [? ?]. }
  rewrite bind_eq. unfold memPoolZero. run_M.
  match goal with |- context [zeroEmpties idxs ?R1 ?S1 ?w1] =>
    destruct (IH R1 S1 w1) as (Δ & HΔ & Hev & Hz)
  end.
  exists (Δ ++ [EvZero (buf_id buf)]). cbn [w_trace] in HΔ.
  rewrite HΔ, <-(assoc_L (++)). split; [done|].
  split; [apply Forall_app; split; [done|by repeat constructor]|].
  intros Hsome. specialize (Hz Hsome).
  rewrite zeroed_app, reverse_app. cbn [zeroed reverse app omap list_omap]. rewrite Hbuf. cbn.
  f_equal. rewrite Hz. apply list_omap_ext, Forall2_same_length_lookup_2; [done|].
  intros k i j Hi Hj. rewrite Hi in Hj. injection Hj as <-.
  destruct (decide (i = idx)) as [->|Hne].
  - rewrite list_lookup_insert_eq by (by eapply lookup_lt_Some). by rewrite Hbuf.
  - by rewrite list_lookup_insert_ne.
Qed.

Section empty_shards.

Context {Σ : Type} (h : Handler Σ).

Variables (clusterID vid codeMode : Z) (blob : blobGetArgs) (sizes : BufferSizes).

Let N := t_N (h_Tactic h codeMode).

Let M_ := t_M (h_Tactic h codeMode).

Let E := emptyDataShardIndexes sizes.

Hypothesis Hsizes :
  h_GetBufferSizes h (int64 (BlobSize blob)) (h_Tactic h codeMode) = inl sizes.

Hypothesis Hwf : sizesFor N sizes.

Hypothesis Hframe : ∀ σ bytes badIdx i,
  i ∉ badIdx → (h_ReconstructData h σ codeMode bytes badIdx).2.1 !! i = bytes !! i.

Lemma loop_untouched shardSize lenSorted sched late st0 (w0 : world Σ) :
  emptiesKept E st0 →
  runs (untouched E)
    ('(st, e) ← blobLoop h clusterID vid codeMode shardSize blob N (N + M_)
                  lenSorted sched st0;
     blobResult h clusterID vid shardSize blob late st e) w0
    (λ o, match o with
          | BlobReturned _ shards' => shardsZero E shards'
          | _ => True
          end).
Proof.
  intros Hst0.
  eapply runs_bind; [by eapply blobLoop_empties|].
  intros [st e] w3 (HR & HS & HP). cbn in *.
  unfold blobResult. destruct e; try by apply runs_ret.
  all: eapply runs_bind;
    [eapply drainShards_empties; intros vu Hvu; apply HP; set_solver|].
  all: intros _ w4 _; destruct (br_reconstructed st); by apply runs_ret.
Qed.

Lemma readOneBlob_untouched sortedVuids shards sched late (w : world Σ) :
  runs (untouched E)
    (readOneBlob h clusterID vid codeMode blob sortedVuids shards sched late) w
    (λ o, match o with
          | BlobReturned _ shards' => shardsZero E shards'
          | _ => True
          end).
Proof.
  unfold readOneBlob. rewrite Hsizes. fold E N M_.
  destruct shards as [|s0 shards0]; [apply runs_panic|].
  eapply runs_bind with (Q := λ _, True).
  { apply emitAll_runs. apply Forall_fmap, Forall_fmap, Forall_forall.
    intros vu Hvu%list_elem_of_filter. cbn. by destruct Hvu. }
  intros _ w1 _.
  eapply runs_bind.
  { apply (zeroEmpties_runs (untouched E) (elements E) ∅); [done| |];
      intros i Hi; by apply elem_of_empty in Hi. }
  intros [R0 S0] w2 [HR0 HS0]. cbn in HR0, HS0.
  assert (∅ ∪ list_to_set (elements E) = E) as HE.
  { apply set_eq. intros i. rewrite elem_of_union, elem_of_list_to_set, elem_of_elements.
    set_solver. }
  rewrite HE in HR0, HS0.
  apply loop_untouched.
  repeat split; try done. cbn. intros vu. rewrite <-filter_app.
  by intros [? _]%list_elem_of_filter.
Qed.

(** The part of [readOneBlob] before its consuming loop. *)
Lemma readOneBlob_prelude sortedVuids s0 more sched late (w : world Σ) :
  (N ≤ S (length more))%nat →
  let shards := s0 :: more in
  let minShardsRead :=
    if (length sortedVuids <? N + h_MinReadShardsX h)%nat
    then length sortedVuids else (N + h_MinReadShardsX h)%nat in
  let started := filter (λ vu, index vu ∉ E) (take minShardsRead sortedVuids) in
  let rest := filter (λ vu, index vu ∉ E) (drop minShardsRead sortedVuids) in
  ∃ received shards0 w0 Δ0,
    w_trace w0 = Δ0 ++ w_trace w ∧
    Forall (preludeEvent E) Δ0 ∧
    reverse (zeroed Δ0) = omap (λ i, buf_id <$> shards !! i) (elements E) ∧
    (∀ i, received !! i = if decide (i ∈ E) then Some true else None) ∧
    length shards0 = length shards ∧
    (∀ i, buf_bytes <$> shards0 !! i =
          if decide (i ∈ E) then (λ b, zeros (length (buf_bytes b))) <$> shards !! i
          else buf_bytes <$> shards !! i) ∧
    readOneBlob h clusterID vid codeMode blob sortedVuids shards sched late w =
      ('(st, e) ← blobLoop h clusterID vid codeMode (len s0) blob N (N + M_)
                    (length sortedVuids) sched
                    {| br_received := received; br_shards := shards0;
                       br_inflight := started; br_waiting := rest;
                       br_nextChan := 0; br_stopChan := false;
                       br_reconstructed := false |};
       blobResult h clusterID vid (len s0) blob late st e) w0 ∧
    ∃ Δ1, w_trace (readOneBlob h clusterID vid codeMode blob sortedVuids shards
                     sched late w).2 = Δ1 ++ w_trace w0 ∧
          Forall (untouched E) Δ1.
Proof.
  intros Hlen shards msr started rest.
  set (launches := reverse (EvLaunch <$> (index <$> started))).
  set (w1 := {| w_env := w_env w; w_trace := launches ++ w_trace w;
                w_nextBuf := w_nextBuf w |}).
  destruct (zeroEmpties_ok (elements E) ∅ shards w1)
    as (R0 & S0 & w0 & Hz & HlenS & HR0 & HS0).
  { intros i Hi%elem_of_elements. apply (empties_range sizes N i Hwf) in Hi.
    cbn [shards length]. lia. }
  destruct (zeroEmpties_trace E (elements E) ∅ shards w1) as (Δz & HΔz & Hevz & Hzeroed).
  rewrite Hz in HΔz, Hzeroed. cbn [fst snd] in HΔz, Hzeroed.
  specialize (Hzeroed ltac:(eauto)).
  assert (HR0' : ∀ i, R0 !! i = if decide (i ∈ E) then Some true else None).
  { intros i. rewrite HR0. destruct (decide (i ∈ elements E)) as [Hi|Hi];
      rewrite elem_of_elements in Hi; [by rewrite decide_True|by rewrite decide_False]. }
  assert (HS0' : ∀ i, buf_bytes <$> S0 !! i =
            if decide (i ∈ E) then (λ b, zeros (length (buf_bytes b))) <$> shards !! i
            else buf_bytes <$> shards !! i).
  { intros i. rewrite HS0. destruct (decide (i ∈ elements E)) as [Hi|Hi];
      rewrite elem_of_elements in Hi; [by rewrite decide_True|by rewrite decide_False]. }
  set (st0 := {| br_received := R0; br_shards := S0;
                 br_inflight := started; br_waiting := rest;
                 br_nextChan := 0; br_stopChan := false;
                 br_reconstructed := false |}).
  assert (Hrun : readOneBlob h clusterID vid codeMode blob sortedVuids shards sched late w =
            ('(st, e) ← blobLoop h clusterID vid codeMode (len s0) blob N (N + M_)
                          (length sortedVuids) sched st0;
             blobResult h clusterID vid (len s0) blob late st e) w0).
  { unfold readOneBlob. rewrite Hsizes. unfold shards at 1. cbv beta iota zeta.
    rewrite bind_eq, emitAll_trace. cbv beta iota.
    rewrite bind_eq.
    match goal with |- context [zeroEmpties ?a ?b ?c ?wx] =>
      change (zeroEmpties a b c wx) with (zeroEmpties (elements E) ∅ shards w1)
    end.
    rewrite Hz. reflexivity. }
  exists R0, S0, w0, (Δz ++ launches).
  split; [by rewrite HΔz, <-(assoc_L (++))|].
  split.
  { apply Forall_app. split; [done|]. unfold launches.
    apply Forall_reverse, Forall_fmap, Forall_fmap, Forall_forall.
    intros vu Hvu%list_elem_of_filter. cbn. by destruct Hvu. }
  split.
  { rewrite zeroed_app, reverse_app.
    assert (zeroed launches = []) as ->; [|by rewrite Hzeroed].
    unfold launches. rewrite <-fmap_reverse. generalize (reverse (index <$> started)).
    intros l. by induction l. }
  split; [done|]. split; [done|]. split; [done|].
  split; [exact Hrun|]. rewrite Hrun.
  destruct (loop_untouched (len s0) (length sortedVuids) sched late st0 w0)
    as (Δ1 & HΔ1 & Hev1 & _).
  { split; [|split].
    - intros i Hi. cbn. rewrite HR0'. by rewrite decide_True.
    - intros i Hi. cbn. specialize (HS0' i). rewrite decide_True in HS0' by done.
      pose proof (empties_range sizes N i Hwf Hi) as Hrange.
      destruct (lookup_lt_is_Some_2 shards i) as [b0 Hb0]; [cbn [shards length]; lia|].
      rewrite Hb0 in HS0'. cbn in HS0'.
      destruct (S0 !! i) as [b|]; [|done]. exists b. split; [done|].
      injection HS0' as HS0'. unfold allZero. rewrite HS0'. by rewrite zeros_length.
    - cbn. intros vu. unfold started, rest. rewrite <-filter_app.
      by intros [? _]%list_elem_of_filter. }
  by exists Δ1.
Qed.

(** C7: the empty data shards are those from
    [ceil (DataSize / ShardSize)] to [N - 1]. In every environment
    [readOneBlob] issues no request and launches no read for them, and the
    shards it returns are all zero at these indexes; the consuming loop
    writes the requested range of the concatenated shard buffers. Given
    shard buffers for the data units at least, [readOneBlob] reaches its
    consuming loop having zero-filled exactly the buffers of the empty
    data shards, with these shards and no other marked as received and
    none of them among the reads started or waiting, and having sent no
    request. When the blob is served ([blobServed]) and the schedule lets
    the reads arrive, [readOneBlob] returns the shards without error, the
    shards at the empty indexes are zeros, no request and no read was made
    for them, and every byte of the range that lies in an empty data shard
    is written to the caller as zero. *)
Theorem empty_shards_zero_filled :
  (∀ i, i ∈ E ↔
        (DataSize sizes + ShardSize sizes - 1) / ShardSize sizes <= Z.of_nat i < Z.of_nat N) ∧
  (∀ sortedVuids shards sched late (w : world Σ),
     runs (untouched E)
       (readOneBlob h clusterID vid codeMode blob sortedVuids shards sched late) w
       (λ o, match o with
             | BlobReturned _ shards' => shardsZero E shards'
             | _ => True
             end)) ∧
  (∀ shards' w1,
     (∀ σ data, (h_Write h σ data).2 = None) →
     0 <= Offset blob →
     Offset blob + ReadSize blob <= Z.of_nat (length (concat (buf_bytes <$> shards'))) →
     ∃ w2, consumeLine h {| pb_err := None; pb_blob := blob; pb_shards := shards' |} w1
             = (Some None, w2) ∧
           written (w_trace w2) =
             written (w_trace w1) ++
               take (Z.to_nat (ReadSize blob))
                 (drop (Z.to_nat (Offset blob)) (concat (buf_bytes <$> shards')))) ∧
  (∀ sortedVuids s0 more sched late (w : world Σ),
     (N ≤ S (length more))%nat →
     let shards := s0 :: more in
     let minShardsRead :=
       if (length sortedVuids <? N + h_MinReadShardsX h)%nat
       then length sortedVuids else (N + h_MinReadShardsX h)%nat in
     let started := filter (λ vu, index vu ∉ E) (take minShardsRead sortedVuids) in
     let rest := filter (λ vu, index vu ∉ E) (drop minShardsRead sortedVuids) in
     ∃ received shards0 w0 Δ0,
       w_trace w0 = Δ0 ++ w_trace w ∧
       Forall (preludeEvent E) Δ0 ∧
       reverse (zeroed Δ0) = omap (λ i, buf_id <$> shards !! i) (elements E) ∧
       (∀ i, received !! i = if decide (i ∈ E) then Some true else None) ∧
       length shards0 = length shards ∧
       (∀ i, buf_bytes <$> shards0 !! i =
             if decide (i ∈ E) then (λ b, zeros (length (buf_bytes b))) <$> shards !! i
             else buf_bytes <$> shards !! i) ∧
       readOneBlob h clusterID vid codeMode blob sortedVuids shards sched late w =
         ('(st, e) ← blobLoop h clusterID vid codeMode (len s0) blob N (N + M_)
                       (length sortedVuids) sched
                       {| br_received := received; br_shards := shards0;
                          br_inflight := started; br_waiting := rest;
                          br_nextChan := 0; br_stopChan := false;
                          br_reconstructed := false |};
          blobResult h clusterID vid (len s0) blob late st e) w0 ∧
       ∃ Δ1, w_trace (readOneBlob h clusterID vid codeMode blob sortedVuids shards
                        sched late w).2 = Δ1 ++ w_trace w0 ∧
             Forall (untouched E) Δ1) ∧
  (∀ sortedVuids truth bad shardSize shards sched late (w : world Σ),
     blobServed h clusterID vid codeMode blob sortedVuids truth bad shardSize sizes shards →
     (length sortedVuids ≤ length sched)%nat →
     ∃ shards' w1 w2 Δ,
       readOneBlob h clusterID vid codeMode blob sortedVuids shards sched late w
         = (Some (BlobReturned None shards'), w1) ∧
       w_trace w1 = Δ ++ w_trace w ∧ Forall (untouched E) Δ ∧
       (∀ i, i ∈ E → buf_bytes <$> shards' !! i = Some (zeros (Z.to_nat shardSize))) ∧
       consumeLine h {| pb_err := None; pb_blob := blob; pb_shards := shards' |} w1
         = (Some None, w2) ∧
       written (w_trace w2) =
         written (w_trace w1) ++
           take (Z.to_nat (ReadSize blob))
             (drop (Z.to_nat (Offset blob)) (concat (buf_bytes <$> shards'))) ∧
       ∀ p : nat,
         (Z.to_nat (Offset blob) ≤ p < Z.to_nat (Offset blob + ReadSize blob))%nat →
         (p / Z.to_nat shardSize)%nat ∈ E →
         written (w_trace w2)
           !! (length (written (w_trace w1)) + (p - Z.to_nat (Offset blob)))%nat
         = Some x00).
Proof.
  split; [intros i; by apply elem_of_emptyDataShardIndexes|].
  split; [apply readOneBlob_untouched|].
  split; [intros shards' w1; apply consumeLine_ok|].
  split; [apply readOneBlob_prelude|].
  intros sortedVuids truth bad shardSize shards sched late w Hs Hsched.
  destruct Hs as [Hnodup Hrange Hbad Hpresent Hread Hencoder Hshards Hshardlen
                  Hpadding Htruthlen Hoffset Hfits Hwriter].
  destruct (readOneBlob_ok h clusterID vid codeMode blob sortedVuids truth bad shardSize
              Hnodup Hrange Hbad Hpresent Hread Hencoder sizes shards Hsizes Hwf
              Hshards Hshardlen Hpadding sched late w Hsched)
    as (shards' & w1 & Hrun & Hdata).
  destruct (readOneBlob_untouched sortedVuids shards sched late w) as (Δ & HΔ & Hev & _).
  rewrite Hrun in HΔ. cbn [snd] in HΔ.
  destruct (dataRead_concat h codeMode sortedVuids truth bad Hbad shards Hshards
              shards' Hdata) as [parity Hcat].
  fold N in Hcat, Htruthlen, Hfits.
  assert (HN : (0 < N)%nat).
  { destruct Hwf as (? & ? & ? & ? & ?). nia. }
  assert (Hss : 0 <= shardSize).
  { destruct (lookup_lt_is_Some_2 shards 0) as [b Hb]; [fold N in Hshards; lia|].
    eapply Forall_lookup_1 in Hb; [|exact Hshardlen]. unfold len in Hb. lia. }
  assert (Hlen : length (concat (truth <$> seq 0 N)) = (N * Z.to_nat shardSize)%nat).
  { rewrite (length_concat_uniform _ (Z.to_nat shardSize)).
    - by rewrite length_fmap, length_seq.
    - apply Forall_fmap, Forall_forall. intros i Hi%elem_of_seq. apply Htruthlen. lia. }
  destruct (consumeLine_ok h blob shards' w1 Hwriter Hoffset) as (w2 & Hline & Hwr).
  { rewrite Hcat, length_app, Hlen. nia. }
  exists shards', w1, w2, Δ.
  split; [done|]. split; [done|]. split; [done|]. split.
  { intros i Hi. destruct Hdata as [_ Hdata]. fold N in Hdata.
    rewrite Hdata by (apply (empties_range sizes N i Hwf) in Hi; lia).
    by rewrite Hpadding. }
  split; [done|]. split; [done|].
  intros p [Hp1 Hp2] HpE.
  pose proof (empties_range sizes N _ Hwf HpE) as Hrange'.
  assert (Hspos : (0 < Z.to_nat shardSize)%nat).
  { destruct (Nat.eq_dec (Z.to_nat shardSize) 0%nat) as [Hz|]; [|lia].
    rewrite Hz in Hrange'. cbn in Hrange'. lia. }
  assert (HpN : (p < N * Z.to_nat shardSize)%nat) by nia.
  rewrite Hwr, lookup_app_r by lia.
  replace (length (written (w_trace w1)) + (p - Z.to_nat (Offset blob))
           - length (written (w_trace w1)))%nat
    with (p - Z.to_nat (Offset blob))%nat by lia.
  rewrite lookup_take_lt by lia. rewrite lookup_drop.
  replace (Z.to_nat (Offset blob) + (p - Z.to_nat (Offset blob)))%nat with p by lia.
  rewrite Hcat, lookup_app_l by (rewrite Hlen; lia).
  rewrite (concat_lookup_chunk truth (Z.to_nat shardSize) N p Htruthlen Hspos HpN).
  rewrite Hpadding by done.
  apply lookup_replicate_2. apply Nat.mod_upper_bound. lia.
Qed.

End empty_shards.

Lemma distance_key idc1 idc2 punished :
  distance idc1 idc2 punished = distanceKey (bool_decide (idc1 = idc2)) punished.
Proof. unfold distance, distanceKey. by destruct punished, (bool_decide _). Qed.

Lemma distanceKey_range s p : distanceKey s p ∈ [0; 1; 2; 3].
Proof. destruct s, p; cbn; set_solver. Qed.

Lemma lookupDiskHost_total {Σ} (h : Handler Σ) disk w :
  ∃ r Δ w', lookupDiskHost h disk w = (Some r, w') ∧
            w_trace w' = Δ ++ w_trace w ∧ Forall lookupEvent Δ.
Proof.
  unfold lookupDiskHost, On. cbn [RuptOn]. run_M.
  destruct (h_GetDiskHost h (w_env w) disk) as [σ [hi|e]]; cbn.
  { eexists _, [_], _. split; [done|]. split; [done|]. by repeat constructor. }
  destruct (h_GetDiskHost h σ disk) as [σ' [hi|e']]; cbn.
  all: eexists _, [_; _; _], _; split; [done|]; split; [done|]; by repeat constructor.
Qed.

Lemma groupAt_snoc idc d rs r :
  groupAt idc d (rs ++ [r]) =
  groupAt idc d rs ++ (if decide (keyOf idc r = d) then [r.1] else []).
Proof.
  unfold groupAt. rewrite filter_app, fmap_app. f_equal.
  rewrite filter_cons, filter_nil. by destruct (decide _).
Qed.

Lemma sortLoop_grouped {Σ} (h : Handler Σ) idc vuidPhys :
  ∀ idx sortMap pre w, grouped idc pre sortMap →
  ∃ rs sortMap' Δ w',
    resolvedUnits h idx vuidPhys w = (Some rs, w') ∧
    sortLoop h idc idx vuidPhys sortMap w = (Some sortMap', w') ∧
    w_trace w' = Δ ++ w_trace w ∧ Forall lookupEvent Δ ∧
    grouped idc (pre ++ rs) sortMap'.
Proof.
  induction vuidPhys as [|phy rest IH]; intros idx sortMap pre w Hg.
  { exists [], sortMap, [], w. rewrite app_nil_r.
    split; [done|]. split; [done|]. split; [done|]. split; [constructor|done]. }
  cbn [resolvedUnits sortLoop]. rewrite !bind_eq.
  destruct (lookupDiskHost_total h (u_DiskID phy) w) as (r & Δ & w1 & -> & HΔ & Hev).
  cbv beta iota. rewrite bind_eq.
  destruct r as [hostIDC|].
  - set (sv := {| index := idx; vuid := u_Vuid phy; diskID := u_DiskID phy;
                  host := u_Host phy |}).
    set (dis := distance idc (hi_IDC hostIDC) (hi_Punished hostIDC)).
    destruct (IH (S idx) (<[dis := default [] (sortMap !! dis) ++ [sv]]> sortMap)
                (pre ++ [(sv, hostIDC)]) w1) as (rs & sm & Δ' & w2 & Hr & Hs & HΔ' & Hev' & Hg').
    { destruct Hg as [Hg1 Hg2]. split.
      - intros d. rewrite groupAt_snoc. unfold keyOf. cbn [fst snd].
        rewrite <-distance_key. fold dis.
        destruct (decide (dis = d)) as [<-|Hne].
        + rewrite lookup_insert_eq. cbn. by rewrite Hg1.
        + rewrite lookup_insert_ne by done. by rewrite Hg1, app_nil_r.
      - intros d. destruct (decide (dis = d)) as [<-|Hne].
        + intros _. unfold dis. rewrite distance_key. apply distanceKey_range.
        + rewrite lookup_insert_ne by done. apply Hg2. }
    rewrite Hr, Hs. run_M.
    exists ((sv, hostIDC) :: rs), sm, (Δ' ++ Δ), w2.
    repeat split; try done.
    + by rewrite HΔ', HΔ, (assoc_L (++)).
    + by apply Forall_app.
    + destruct Hg' as [Hg1 _]. intros d. rewrite Hg1. by rewrite <-(assoc_L (++)).
    + apply Hg'.
  - destruct (IH (S idx) sortMap pre w1 Hg) as (rs & sm & Δ' & w2 & Hr & Hs & HΔ' & Hev' & Hg').
    rewrite Hr, Hs. run_M.
    exists rs, sm, (Δ' ++ Δ), w2. repeat split; try done; try apply Hg'.
    + by rewrite HΔ', HΔ, (assoc_L (++)).
    + by apply Forall_app.
Qed.

Lemma shuffleGroups_concat {Σ} (h : Handler Σ) sortMap :
  (∀ σ l, (h_Shuffle h σ l).2 ≡ₚ l) →
  ∀ keys vuids w, ∃ gs w',
    shuffleGroups h keys sortMap vuids w = (Some (vuids ++ concat gs), w') ∧
    w_trace w' = w_trace w ∧
    Forall2 (λ d g, g ≡ₚ default [] (sortMap !! d)) keys gs.
Proof.
  intros Hsh keys. induction keys as [|dis keys IH]; intros vuids w.
  { exists [], w. cbn. rewrite app_nil_r. by repeat split. }
  cbn [shuffleGroups]. rewrite bind_eq, oracle_eq. cbn [fst snd].
  set (l := default [] (sortMap !! dis)).
  destruct (IH (vuids ++ (h_Shuffle h (w_env w) l).2)
              {| w_env := (h_Shuffle h (w_env w) l).1; w_trace := w_trace w;
                 w_nextBuf := w_nextBuf w |}) as (gs & w' & -> & Htr & Hgs).
  exists ((h_Shuffle h (w_env w) l).2 :: gs), w'. cbn [concat].
  rewrite (assoc_L (++)). repeat split; try done. constructor; [apply Hsh|done].
Qed.

Lemma sorted_keys (D : gset Z) :
  (∀ d, d ∈ D → d ∈ [0; 1; 2; 3]) →
  merge_sort Z.le (elements D) = filter (λ d, d ∈ D) [0; 1; 2; 3].
Proof.
  intros HD. apply (Sorted_unique Z.le).
  - apply (Sorted_merge_sort Z.le).
  - rewrite !filter_cons, filter_nil.
    repeat case_decide;
      repeat first [apply Sorted_nil | apply Sorted_cons | apply HdRel_nil | apply HdRel_cons];
      lia.
  - rewrite merge_sort_Permutation. apply NoDup_Permutation.
    + apply NoDup_elements.
    + apply NoDup_filter. apply (bool_decide_unpack _). by vm_compute.
    + intros d. rewrite elem_of_elements, list_elem_of_filter. naive_solver.
Qed.

Lemma fill_groups {A} (P : Z → Prop) `{∀ d, Decision (P d)} (G : Z → list A) ds :
  (∀ d, ¬ P d → G d = []) →
  ∀ gs, Forall2 (λ d g, g ≡ₚ G d) (filter P ds) gs →
  ∃ gs', concat gs' = concat gs ∧ Forall2 (λ d g, g ≡ₚ G d) ds gs'.
Proof.
  intros HG. induction ds as [|d ds IH]; intros gs Hgs.
  { exists gs. split; [done|]. by rewrite filter_nil in Hgs. }
  rewrite filter_cons in Hgs. destruct (decide (P d)) as [Hd|Hd].
  - inversion Hgs as [|? g ? gs0 Hg Hrest]; subst.
    destruct (IH gs0 Hrest) as (gs' & Hc & Hf).
    exists (g :: gs'). cbn. rewrite Hc. split; [done|]. by constructor.
  - destruct (IH gs Hgs) as (gs' & Hc & Hf).
    exists ([] :: gs'). cbn. split; [done|]. constructor; [|done]. by rewrite HG.
Qed.

Lemma groups_all idc (rs : list (sortedVuid * HostIDC)) :
  groupAt idc 0 rs ++ groupAt idc 1 rs ++ groupAt idc 2 rs ++ groupAt idc 3 rs
  ≡ₚ fst <$> rs.
Proof.
  induction rs as [|r rs IH]; [done|].
  unfold groupAt in *. rewrite !filter_cons.
  pose proof (distanceKey_range (bool_decide (idc = hi_IDC r.2)) (hi_Punished r.2)) as Hk.
  fold (keyOf idc r) in Hk.
  repeat (apply elem_of_cons in Hk as [Hk|Hk]); [..|by apply elem_of_nil in Hk].
  all: rewrite Hk; repeat (case_decide; [try lia|try lia]); cbn [fmap list_fmap].
  all: rewrite <-IH; solve_Permutation.
Qed.

Lemma concat_groups idc (rs : list (sortedVuid * HostIDC)) gs :
  Forall2 (λ d g, g ≡ₚ groupAt idc d rs) [0; 1; 2; 3] gs → concat gs ≡ₚ fst <$> rs.
Proof.
  intros Hgs. rewrite <-(groups_all idc rs).
  repeat match goal with
         | H : Forall2 _ (_ :: _) _ |- _ =>
             apply Forall2_cons_inv_l in H as (? & ? & ? & ? & ->)
         | H : Forall2 _ [] _ |- _ => apply Forall2_nil_inv_l in H as ->
         end.
  cbn [concat]. rewrite app_nil_r.
  repeat match goal with H : _ ≡ₚ groupAt _ _ _ |- _ => rewrite H; clear H end.
  done.
Qed.

Section sorter.

Context {Σ : Type} (h : Handler Σ).

Hypothesis Hshuffle : ∀ σ l, (h_Shuffle h σ l).2 ≡ₚ l.

Lemma genSortedVuidByIDC_groups idc vuidPhys w :
  ∃ rs gs Δ w',
    (resolvedUnits h 0 vuidPhys w).1 = Some rs ∧
    genSortedVuidByIDC h idc vuidPhys w = (Some (concat gs), w') ∧
    w_trace w' = Δ ++ w_trace w ∧ Forall lookupEvent Δ ∧
    Forall2 (λ d g, g ≡ₚ groupAt idc d rs) [0; 1; 2; 3] gs.
Proof.
  destruct (sortLoop_grouped h idc vuidPhys 0%nat ∅ [] w)
    as (rs & sm & Δ & w1 & Hr & Hs & HΔ & Hev & Hg1 & Hg2).
  { split; [|intros d; rewrite lookup_empty; by intros [? ?]].
    intros d. by rewrite lookup_empty. }
  cbn [app] in Hg1.
  unfold genSortedVuidByIDC. rewrite bind_eq, Hs.
  rewrite sorted_keys by (intros d; rewrite elem_of_dom; apply Hg2).
  destruct (shuffleGroups_concat h sm Hshuffle
              (filter (λ d, d ∈ dom sm) [0; 1; 2; 3]) [] w1) as (gs & w2 & Hsg & Htr & Hgs).
  destruct (fill_groups (λ d, d ∈ dom sm) (λ d, groupAt idc d rs) [0; 1; 2; 3]) with (gs := gs)
    as (gs' & Hc & Hf).
  { intros d Hd. rewrite <-Hg1. apply not_elem_of_dom in Hd. by rewrite Hd. }
  { eapply Forall2_impl; [exact Hgs|]. intros d g Hp. cbn in Hp. by rewrite Hp, Hg1. }
  exists rs, gs', Δ, w2. rewrite Hr, Hsg, Hc, Htr. by repeat split.
Qed.

Lemma lookupDiskHost_resolves resolve disk (w : world Σ) :
  resolves h resolve →
  ∃ w', lookupDiskHost h disk w = (Some (resolve disk), w').
Proof.
  intros Hres. unfold lookupDiskHost, On. cbn [RuptOn]. run_M.
  pose proof (Hres (w_env w) disk) as H1.
  destruct (h_GetDiskHost h (w_env w) disk) as [σ r]. cbn [snd] in H1.
  destruct (resolve disk) as [hi|] eqn:Hd.
  { subst r. cbn. by eexists. }
  destruct H1 as [e ->]. cbn.
  pose proof (Hres σ disk) as H2. rewrite Hd in H2.
  destruct (h_GetDiskHost h σ disk) as [σ' r']. cbn [snd] in H2.
  destruct H2 as [e' ->]. cbn. by eexists.
Qed.

Lemma resolvedUnits_resolves resolve vuidPhys :
  resolves h resolve →
  ∀ idx (w : world Σ),
    (resolvedUnits h idx vuidPhys w).1 = Some (resolvableUnits resolve idx vuidPhys).
Proof.
  intros Hres. induction vuidPhys as [|phy rest IH]; intros idx w; [done|].
  cbn [resolvedUnits resolvableUnits]. rewrite bind_eq.
  destruct (lookupDiskHost_resolves resolve (u_DiskID phy) w Hres) as [w1 ->].
  cbv beta iota. rewrite bind_eq.
  specialize (IH (S idx) w1).
  destruct (resolvedUnits h (S idx) rest w1) as [[rs|] w2]; cbn [fst] in IH; [|done].
  injection IH as ->. run_M. by destruct (resolve (u_DiskID phy)).
Qed.

(** C9: [distance] is 0, 1, 2, 3 for a host in the same IDC and not
    punished, in another IDC and not punished, in the same IDC and punished,
    in another IDC and punished. With a shuffle that permutes and a
    service controller that answers as [resolve] says,
    [genSortedVuidByIDC] returns the concatenation, in ascending distance,
    of one permutation per distance of the units of the volume whose disk
    resolves and has that distance. When the producer looks the volume up,
    no volume being held yet or the one held being another than the
    blob's, and the order has fewer than [N] entries, the producer answers
    with a broken-blob line at once: the world is the one the sorting left,
    and the events since are lookups only. This is the case whenever fewer
    than [N] units of the volume have a disk that resolves. *)
Theorem genSortedVuidByIDC_order idc vuidPhys w :
  (∀ idc1 idc2 punished,
     distance idc1 idc2 punished = distanceKey (bool_decide (idc1 = idc2)) punished) ∧
  (∀ resolve, resolves h resolve →
     ∃ gs w',
       genSortedVuidByIDC h idc vuidPhys w = (Some (concat gs), w') ∧
       Forall2 (λ d g, g ≡ₚ groupAt idc d (resolvableUnits resolve 0 vuidPhys))
         [0; 1; 2; 3] gs) ∧
  (∀ clusterID blob pp sched late bv wv,
     looksUp pp blob →
     getVolume h clusterID (Vid blob) true w = (Some (inl bv), wv) →
     let tactic := h_Tactic h (v_CodeMode bv) in
     ∀ units vuids ws,
       slice (v_Units bv) 0 (t_N tactic + t_M tactic) = Some units →
       genSortedVuidByIDC h (h_IDC h) units wv = (Some vuids, ws) →
       (length vuids < t_N tactic)%nat →
       produceBlob h clusterID blob pp sched late w
       = (Some (pp, Line (errLine (ErrBrokenBlob clusterID (Vid blob) (Bid blob)))), ws) ∧
       ∃ Δ, w_trace ws = Δ ++ w_trace w ∧ Forall lookupEvent Δ) ∧
  (∀ resolve clusterID blob pp sched late bv,
     resolves h resolve →
     looksUp pp blob →
     (h_getVolume h (w_env w) clusterID (Vid blob) true).2 = inl bv →
     let tactic := h_Tactic h (v_CodeMode bv) in
     ∀ units,
       slice (v_Units bv) 0 (t_N tactic + t_M tactic) = Some units →
       (length (resolvableUnits resolve 0 units) < t_N tactic)%nat →
       ∃ ws Δ,
         produceBlob h clusterID blob pp sched late w
         = (Some (pp, Line (errLine (ErrBrokenBlob clusterID (Vid blob) (Bid blob)))), ws) ∧
         w_trace ws = Δ ++ w_trace w ∧ Forall lookupEvent Δ).
Proof.
  split; [apply distance_key|]. split.
  { intros resolve Hres.
    destruct (genSortedVuidByIDC_groups idc vuidPhys w) as (rs & gs & Δ & w' & Hr & ? & _ & _ & ?).
    rewrite (resolvedUnits_resolves resolve vuidPhys Hres) in Hr. injection Hr as <-.
    by exists gs, w'. }
  assert (Hfails : ∀ clusterID blob pp sched late bv wv,
     looksUp pp blob →
     getVolume h clusterID (Vid blob) true w = (Some (inl bv), wv) →
     let tactic := h_Tactic h (v_CodeMode bv) in
     ∀ units vuids ws,
       slice (v_Units bv) 0 (t_N tactic + t_M tactic) = Some units →
       genSortedVuidByIDC h (h_IDC h) units wv = (Some vuids, ws) →
       (length vuids < t_N tactic)%nat →
       produceBlob h clusterID blob pp sched late w
       = (Some (pp, Line (errLine (ErrBrokenBlob clusterID (Vid blob) (Bid blob)))), ws) ∧
       ∃ Δ, w_trace ws = Δ ++ w_trace w ∧ Forall lookupEvent Δ).
  { intros clusterID blob pp sched late bv wv Hfresh Hv tactic units vuids ws Hunits Hs Hlen.
    split.
    - unfold produceBlob.
      assert (match pp_blobVolume pp with
              | Some bv0 => bool_decide (v_Vid bv0 ≠ Vid blob)
              | None => true
              end = true) as ->.
      { unfold looksUp in Hfresh. destruct (pp_blobVolume pp); [|done].
        by apply bool_decide_eq_true_2. }
      rewrite !bind_eq, Hv. cbv beta iota.
      fold tactic. rewrite Hunits, bind_eq, Hs. cbv beta iota.
      apply Nat.ltb_lt in Hlen. rewrite Hlen. by run_M.
    - destruct (genSortedVuidByIDC_groups (h_IDC h) units wv)
        as (rs & gs & Δ & w' & _ & Hs' & HΔ & Hev & _).
      rewrite Hs in Hs'. injection Hs' as Hvu Hws. subst w'.
      unfold getVolume in Hv. rewrite bind_eq in Hv. unfold emit at 1 in Hv.
      rewrite oracle_eq in Hv. injection Hv as Hbv Hwv. subst wv. cbn [w_trace] in HΔ.
      exists (Δ ++ [EvGetVolume clusterID (Vid blob) true]).
      rewrite <-(assoc_L (++)). split; [done|].
      apply Forall_app. split; [done|]. by repeat constructor. }
  split; [exact Hfails|].
  intros resolve clusterID blob pp sched late bv Hres Hfresh Hbv tactic units Hunits Hlen.
  destruct (getVolume h clusterID (Vid blob) true w) as [v wv] eqn:Hv.
  assert (v = Some (inl bv)) as ->.
  { unfold getVolume in Hv. rewrite bind_eq in Hv. unfold emit at 1 in Hv.
    rewrite oracle_eq in Hv. cbn [w_env] in Hv. rewrite Hbv in Hv. by injection Hv as <- _. }
  destruct (genSortedVuidByIDC_groups (h_IDC h) units wv)
    as (rs & gs & Δ & ws & Hr & Hs & _ & _ & Hgs).
  rewrite (resolvedUnits_resolves resolve units Hres) in Hr. injection Hr as <-.
  destruct (Hfails clusterID blob pp sched late bv wv Hfresh Hv units (concat gs) ws
              Hunits Hs) as [Hp (Δ' & HΔ' & Hev)].
  { rewrite (concat_groups _ _ _ Hgs), length_fmap. exact Hlen. }
  by exists ws, Δ'.
Qed.

End sorter.

Lemma requestedUnits_app a b : requestedUnits (a ++ b) = requestedUnits a ++ requestedUnits b.
Proof. induction a as [|[] a IH]; cbn; by rewrite ?IH. Qed.

Lemma transportEvent_fast idx ev : transportEvent idx ev → fastPathEvent ev.
Proof. by destruct ev. Qed.

Lemma transportEvent_units idx Δ :
  Forall (transportEvent idx) Δ → Forall (λ i, i = idx) (requestedUnits Δ).
Proof.
  induction 1 as [|ev Δ Hev _ IH]; [constructor|].
  destruct ev; cbn in *; try done. by constructor.
Qed.

(** A retry loop that ends without error ends on a successful attempt. *)
Lemma RuptOn_success {Σ L} (caller : L → M Σ (L * (bool * option error))) :
  (∀ l w, ∃ Δ, w_trace (caller l w).2 = Δ ++ w_trace w ∧
     ∀ l' i, (caller l w).1 = Some (l', (i, None)) → attemptResults Δ = [None]) →
  ∀ n d l w l' w', RuptOn (S n) d caller l w = (Some (l', None), w') →
  ∃ Δ, w_trace w' = Δ ++ w_trace w ∧ head (attemptResults Δ) = Some None.
Proof.
  intros Hc n. induction n as [|n IH]; intros d l w l' w'; cbn [RuptOn]; rewrite bind_eq.
  - destruct (Hc l w) as (Δ & HΔ & Hok).
    destruct (caller l w) as [[[l1 [i [e|]]]|] w1]; cbn [fst snd] in *; run_M; try done.
    + by destruct i.
    + intros [= <- <-]. exists Δ. split; [done|]. by rewrite (Hok l1 i eq_refl).
  - destruct (Hc l w) as (Δ & HΔ & Hok).
    destruct (caller l w) as [[[l1 [i [e|]]]|] w1]; cbn [fst snd] in *; try done.
    + destruct i; [done|]. rewrite bind_eq. unfold emit at 1. intros HR.
      destruct (IH _ _ _ _ _ HR) as (Δ' & HΔ' & Hhd). cbn [w_trace] in HΔ'.
      exists (Δ' ++ EvBackoff d :: Δ). rewrite HΔ', HΔ, <-(assoc_L (++)). split; [done|].
      rewrite attemptResults_app. by destruct (attemptResults Δ').
    + intros [= <- <-]. exists Δ. split; [done|]. by rewrite (Hok l1 i eq_refl).
Qed.

Lemma getOneShardFromHost_success {Σ} (h : Handler Σ) hst disk args idx c v cancelChan w body w' :
  getOneShardFromHost h hst disk args idx c v cancelChan w = (Some (body, None), w') →
  ∃ Δ, w_trace w' = Δ ++ w_trace w ∧ head (attemptResults Δ) = Some None.
Proof.
  unfold getOneShardFromHost. rewrite bind_eq.
  destruct (RuptOn _ _ _ _ _) as [[[tg [e|]]|] w1] eqn:HR; run_M; try done.
  intros [= <- <-]. eapply RuptOn_success; [|exact HR].
  intros l0 w0. destruct (shardAttempt_spec h idx c v cancelChan l0 w0) as (Δ & HΔ & HP).
  exists Δ. split; [done|]. intros l1 i Heq. rewrite Heq in HP.
  destruct HP as (_ & _ & _ & _ & Hnone & _). by apply Hnone.
Qed.

Lemma fastTrace_nil idx n : fastTrace idx n [].
Proof. repeat split; constructor. Qed.

Lemma fastTrace_quiet idx n Δ ev :
  fastPathEvent ev → requestedUnits [ev] = [] → fastTrace idx n Δ → fastTrace idx n (ev :: Δ).
Proof.
  intros Hev Hq (H1 & H2 & H3).
  change (ev :: Δ) with ([ev] ++ Δ).
  unfold fastTrace. rewrite requestedUnits_app, Hq. cbn. repeat split; try done.
  by constructor.
Qed.

Lemma fastTrace_quiet_end idx n Δ ev :
  fastPathEvent ev → requestedUnits [ev] = [] → fastTrace idx n Δ → fastTrace idx n (Δ ++ [ev]).
Proof.
  intros Hev Hq (H1 & H2 & H3).
  unfold fastTrace. rewrite requestedUnits_app, Hq, app_nil_r. repeat split; try done.
  apply Forall_app. split; [done|]. by repeat constructor.
Qed.

Lemma fastTrace_step idx n Δ1 Δ2 :
  Forall (transportEvent idx) Δ1 → fastTrace (S idx) n Δ2 → fastTrace idx (S n) (Δ2 ++ Δ1).
Proof.
  intros Hev (H1 & H2 & H3).
  pose proof (transportEvent_units _ _ Hev) as Hu.
  unfold fastTrace. rewrite requestedUnits_app. repeat split.
  - apply Forall_app. split; [done|]. eapply Forall_impl; [exact Hev|].
    apply transportEvent_fast.
  - apply StronglySorted_app_2; [|done|].
    + intros x1 x2 Hx1 Hx2.
      rewrite Forall_forall in H3. rewrite Forall_forall in Hu.
      specialize (H3 _ Hx1). specialize (Hu _ Hx2). lia.
    + clear -Hu. induction Hu as [|x l Hx Hl IH]; constructor; [done|].
      subst x. eapply Forall_impl; [exact Hl|]. intros y ->. lia.
  - apply Forall_app. split.
    + eapply Forall_impl; [exact H3|]. cbn. lia.
    + eapply Forall_impl; [exact Hu|]. cbn. lia.
Qed.

Lemma fastTrace_first idx n Δ :
  Forall (transportEvent idx) Δ → fastTrace idx (S n) Δ.
Proof.
  intros Hev. rewrite <-(app_nil_l Δ). apply fastTrace_step; [done|apply fastTrace_nil].
Qed.

Lemma dataShardLoop_spec {Σ} (h : Handler Σ) clusterID blob units :
  ∀ idx shardSize shardOffset remainSize data w,
  let r := dataShardLoop h clusterID blob units idx shardSize shardOffset remainSize data w in
  ∃ Δ, w_trace r.2 = Δ ++ w_trace w ∧ fastTrace idx (length units) Δ ∧
    match r.1 with
    | Some (Running _) => ∀ e, head (attemptResults Δ) ≠ Some (Some e)
    | Some (Returned err) => err = errNeedReconstructRead
    | None => True
    end.
Proof.
  induction units as [|shard rest IH]; intros idx shardSize shardOffset remainSize data w r.
  { exists []. split; [done|]. split; [apply fastTrace_nil|done]. }
  subst r. cbn [dataShardLoop].
  destruct (remainSize <=? 0).
  { exists []. split; [done|]. split; [apply fastTrace_nil|done]. }
  rewrite bind_eq.
  match goal with |- context [getOneShardFromHost h ?x1 ?x2 ?x3 ?x4 ?x5 ?x6 ?x7 w] =>
    destruct (getOneShardFromHost_trace h x1 x2 x3 x4 x5 x6 x7 w) as (Δ & HΔ & HR);
    pose proof (getOneShardFromHost_success h x1 x2 x3 x4 x5 x6 x7 w) as Hok;
    destruct (getOneShardFromHost h x1 x2 x3 x4 x5 x6 x7 w) as [[[body [e|]]|] w1]
  end; cbn [fst snd] in *.
  all: destruct (retryTrace_attempts _ _ _ _ _ _ HR) as (_ & _ & _ & _ & Hev & _).
  all: cbn [length].
  - exists Δ. split; [done|]. split; [by apply fastTrace_first|done].
  - destruct (Hok _ _ eq_refl) as (Δ0 & HΔ0 & Hhd).
    rewrite HΔ in HΔ0. apply app_inv_tail in HΔ0. subst Δ0.
    destruct body as [body|]; [|exists Δ; split; [done|]; split; [by apply fastTrace_first|done]].
    destruct (_ <=? length body)%nat.
    2:{ exists Δ. split; [done|]. split; [by apply fastTrace_first|done]. }
    match goal with |- context [dataShardLoop h clusterID blob rest ?x1 ?x2 ?x3 ?x4 ?x5 w1] =>
      destruct (IH x1 x2 x3 x4 x5 w1) as (Δ' & HΔ' & Hft & Hres)
    end.
    exists (Δ' ++ Δ). rewrite HΔ', HΔ, (assoc_L (++)). split; [done|].
    split; [by apply fastTrace_step|].
    destruct (dataShardLoop _ _ _ _ _ _ _ _ _ _).1 as [[st|err]|]; try done.
    intros e. rewrite attemptResults_app.
    destruct (attemptResults Δ') as [|a l] eqn:Ha; cbn; [by rewrite Hhd|].
    specialize (Hres e). rewrite ?Ha in Hres. done.
  - exists Δ. split; [done|]. split; [by apply fastTrace_first|done].
Qed.

Lemma slice_length {A} (l : list A) from to units :
  slice l from to = Some units → (from + length units ≤ to)%nat.
Proof.
  unfold slice. destruct (_ && _) eqn:Hc; [|done].
  apply andb_true_iff in Hc as [H1 H2]. apply Nat.leb_le in H1.
  intros [= <-]. rewrite length_take. lia.
Qed.

Lemma fastTrace_weaken idx n n' Δ :
  (n ≤ n')%nat → fastTrace idx n Δ → fastTrace idx n' Δ.
Proof.
  intros Hn (H1 & H2 & H3). repeat split; try done.
  eapply Forall_impl; [exact H3|]. cbn. lia.
Qed.

(** The loop asks a unit only while bytes of the range are missing: the
    shard of every unit asked starts before the end [lim] of the range. *)
Lemma dataShardLoop_needed {Σ} (h : Handler Σ) clusterID blob units lim shardSize :
  0 < shardSize < 2 ^ 63 →
  ∀ idx shardOffset remainSize data w,
  0 <= shardOffset < shardSize → 0 <= remainSize < 2 ^ 64 →
  (0 < remainSize → Z.of_nat idx * shardSize + shardOffset + remainSize <= lim) →
  ∃ Δ, w_trace (dataShardLoop h clusterID blob units idx shardSize shardOffset
                  remainSize data w).2 = Δ ++ w_trace w ∧
       Forall (λ i, Z.of_nat i * shardSize < lim) (requestedUnits Δ).
Proof.
  intros Hss. induction units as [|shard rest IH];
    intros idx shardOffset remainSize data w Hoff Hrem Hinv.
  { exists []. split; [done|constructor]. }
  cbn [dataShardLoop]. destruct (Z.leb_spec remainSize 0) as [Hz|Hpos].
  { exists []. split; [done|constructor]. }
  rewrite bind_eq.
  match goal with |- context [getOneShardFromHost h ?x1 ?x2 ?x3 ?x4 ?x5 ?x6 ?x7 w] =>
    destruct (getOneShardFromHost_trace h x1 x2 x3 x4 x5 x6 x7 w) as (Δ & HΔ & HR);
    destruct (getOneShardFromHost h x1 x2 x3 x4 x5 x6 x7 w) as [[[body [e|]]|] w1]
  end; cbn [fst snd] in *.
  all: destruct (retryTrace_attempts _ _ _ _ _ _ HR) as (_ & _ & _ & _ & Hev & _).
  all: apply transportEvent_units in Hev.
  all: assert (Forall (λ i, Z.of_nat i * shardSize < lim) (requestedUnits Δ)) as Hhere
         by (eapply Forall_impl; [exact Hev|]; intros i ->; cbn; specialize (Hinv Hpos); lia).
  1, 3: by exists Δ.
  destruct body as [body|]; [|by exists Δ].
  destruct (_ <=? length body)%nat; [|by exists Δ].
  set (toReadSize := minU64 remainSize (u64 (shardSize - shardOffset))).
  assert (toReadSize = Z.min remainSize (shardSize - shardOffset)) as HtoRead.
  { unfold toReadSize. rewrite minU64_min. unfold u64. rewrite Z.mod_small; lia. }
  destruct (IH (S idx) 0 (u64 (remainSize - toReadSize))
              (data ++ take (Z.to_nat toReadSize) body) w1) as (Δ' & HΔ' & Hrest).
  { lia. }
  { unfold u64. apply Z.mod_pos_bound. lia. }
  { unfold u64. rewrite Z.mod_small by lia. intros Hmore.
    rewrite Nat2Z.inj_succ, Z.mul_succ_l. specialize (Hinv Hpos). lia. }
  exists (Δ' ++ Δ). rewrite HΔ', HΔ, (assoc_L (++)). split; [done|].
  rewrite requestedUnits_app. by apply Forall_app.
Qed.

Lemma fastPathSpec_nil {Σ} (h : Handler Σ) blob volume r : fastPathSpec h blob volume [] r.
Proof. repeat split; try done; constructor. Qed.

Lemma fastPathSpec_newest {Σ} (h : Handler Σ) blob volume Δ r ev :
  fastPathEvent ev → requestedUnits [ev] = [] →
  fastPathSpec h blob volume Δ r → fastPathSpec h blob volume (ev :: Δ) r.
Proof.
  intros Hev Hq (H1 & H2 & H3 & H4).
  assert (requestedUnits (ev :: Δ) = requestedUnits Δ) as Hu
    by (change (ev :: Δ) with ([ev] ++ Δ); by rewrite requestedUnits_app, Hq).
  assert (attemptResults (ev :: Δ) = attemptResults Δ) as Ha by (by destruct ev).
  unfold fastPathSpec. rewrite Hu, Ha. split; [by constructor|done].
Qed.

Lemma fastPathSpec_oldest {Σ} (h : Handler Σ) blob volume Δ r ev :
  fastPathEvent ev → requestedUnits [ev] = [] →
  fastPathSpec h blob volume Δ r → fastPathSpec h blob volume (Δ ++ [ev]) r.
Proof.
  intros Hev Hq (H1 & H2 & H3 & H4).
  assert (attemptResults [ev] = []) as Ha by (by destruct ev).
  unfold fastPathSpec. rewrite requestedUnits_app, attemptResults_app, Hq, Ha, !app_nil_r.
  split; [|done]. apply Forall_app. split; [done|]. by repeat constructor.
Qed.

Lemma fastPathSpec_volume {Σ} (h : Handler Σ) blob volume Δ r :
  fastPathSpec h blob None Δ r → requestedUnits Δ = [] → fastPathSpec h blob volume Δ r.
Proof.
  intros (H1 & H2 & _ & H4) Hq. unfold fastPathSpec. rewrite Hq.
  repeat split; try done; constructor.
Qed.

(** A deferred release adds the return of the buffer to the trace and
    leaves the outcome as it is. *)
Lemma defer_put_fast {Σ} (h : Handler Σ) blob volume (buf : buffer) id
    (body : M Σ (option error)) (w : world Σ) :
  buf_id buf = Some id →
  (∃ Δ, w_trace (body w).2 = Δ ++ w_trace w ∧ fastPathSpec h blob volume Δ (body w).1) →
  ∃ Δ, w_trace (defer (memPoolPut buf) body w).2 = Δ ++ w_trace w ∧
       fastPathSpec h blob volume Δ (defer (memPoolPut buf) body w).1.
Proof.
  intros Hid (Δ & HΔ & Hspec). unfold defer, memPoolPut. rewrite Hid.
  destruct (body w) as [[a|] w1]; cbn [fst snd] in *; run_M.
  all: exists (EvPut id :: Δ); rewrite HΔ; split; [done|].
  all: by apply fastPathSpec_newest.
Qed.

Section fast_path.

Context {Σ : Type} (h : Handler Σ).

Lemma getDataShardOnly_spec clusterID blob w :
  let r := getDataShardOnly h clusterID blob w in
  let volume := match (getVolume h clusterID (Vid blob) true w).1 with
                | Some (inl bv) => Some bv
                | _ => None
                end in
  ∃ Δ, w_trace r.2 = Δ ++ w_trace w ∧ fastPathSpec h blob volume Δ r.1.
Proof.
  intros r volume. subst r. unfold getDataShardOnly.
  destruct (ReadSize blob =? 0).
  { exists []. split; [done|apply fastPathSpec_nil]. }
  rewrite bind_eq.
  destruct (getVolume h clusterID (Vid blob) true w) as [[v|] wv] eqn:Hv.
  2:{ unfold getVolume in Hv. rewrite bind_eq in Hv. unfold emit at 1 in Hv.
      by rewrite oracle_eq in Hv. }
  assert (w_trace wv = [EvGetVolume clusterID (Vid blob) true] ++ w_trace w) as Hwv.
  { unfold getVolume in Hv. rewrite bind_eq in Hv. unfold emit at 1 in Hv.
    rewrite oracle_eq in Hv. by injection Hv as _ <-. }
  cbn [fst] in volume.
  cbv beta iota.
  match goal with |- ∃ Δ, w_trace (?m wv).2 = _ ∧ _ =>
    enough (∃ Δ, w_trace (m wv).2 = Δ ++ w_trace wv ∧
                 fastPathSpec h blob volume Δ (m wv).1) as (Δ & HΔ & Hspec)
  end.
  { exists (Δ ++ [EvGetVolume clusterID (Vid blob) true]).
    rewrite HΔ, Hwv, (assoc_L (++)). split; [done|]. by apply fastPathSpec_oldest. }
  destruct v as [blobVolume|err].
  2:{ exists []. split; [done|apply fastPathSpec_nil]. }
  subst volume.
  set (tactic := h_Tactic h (v_CodeMode blobVolume)).
  unfold NewRangeBuffer.
  destruct (h_GetBufferSizes h (int64 (BlobSize blob)) tactic) as [sizes|e] eqn:Hsizes.
  2:{ exists []. split; [done|apply fastPathSpec_nil]. }
  rewrite !bind_eq. unfold memPoolAlloc. rewrite bind_eq, oracle_eq. cbn [fst snd].
  destruct (h_poolAlloc h (w_env wv) _) as [σ [bytes|e]]; cbn [fst snd].
  2:{ exists []. split; [done|apply fastPathSpec_nil]. }
  run_M.
  set (wa := {| w_env := σ; w_trace := _ :: w_trace wv; w_nextBuf := _ |}).
  set (alloc := EvAlloc (w_nextBuf wv)
                  (int64 (u64 (Offset blob + ReadSize blob)) - int64 (Offset blob))).
  match goal with |- context [defer (memPoolPut ?b) ?m wa] =>
    enough (∃ Δ, w_trace (m wa).2 = Δ ++ w_trace wa ∧
                 fastPathSpec h blob (Some blobVolume) Δ (m wa).1) as Hbody;
    [destruct (defer_put_fast h blob (Some blobVolume) b (w_nextBuf wv) m wa eq_refl Hbody)
       as (Δ & HΔ & Hspec)|]
  end.
  1:{ exists (Δ ++ [alloc]). rewrite HΔ. cbn [wa w_trace].
      rewrite <-(assoc_L (++)). split; [done|]. by apply fastPathSpec_oldest. }
  destruct (Z.eqb_spec (ShardSize sizes) 0) as [Hzero|Hnz].
  { exists []. split; [done|apply fastPathSpec_nil]. }
  destruct (Z.ltb_spec (Z.quot (int64 (Offset blob)) (ShardSize sizes)) 0) as [Hneg|Hfirst].
  { exists []. split; [done|apply fastPathSpec_nil]. }
  set (first := Z.to_nat (Z.quot (int64 (Offset blob)) (ShardSize sizes))).
  destruct (slice (v_Units blobVolume) first (t_N tactic)) as [units|] eqn:Hslice.
  2:{ exists []. split; [done|apply fastPathSpec_nil]. }
  apply slice_length in Hslice.
  match goal with |- context [dataShardLoop h clusterID blob units ?x1 ?x2 ?x3 ?x4 ?x5 wa] =>
    destruct (dataShardLoop_spec h clusterID blob units x1 x2 x3 x4 x5 wa)
      as (Δ & HΔ & Hft & Hres);
    pose proof (dataShardLoop_needed h clusterID blob units
                  (Offset blob + ReadSize blob) x2) as Hneed;
    assert (∀ r' : option (option error),
              (∀ e : rpcError, head (attemptResults Δ) = Some (Some e) →
                 match r' with
                 | Some err => err = Some errNeedReconstructRead
                 | None => True
                 end) →
              fastPathSpec h blob (Some blobVolume) Δ r') as Hloop
  end.
  { intros r' Hr'. destruct Hft as (H1 & H2 & H3).
    split; [done|]. split; [done|]. split; [|done].
    intros bv sz [= <-]. fold tactic. rewrite Hsizes. intros [= <-]. fold first. split.
    - eapply Forall_impl; [exact H3|]. cbn. lia.
    - intros Hss Hoff Hrs.
      assert (int64 (Offset blob) = Offset blob) as Hi by (apply int64_small; lia).
      destruct (Hneed Hss first (Z.rem (int64 (Offset blob)) (ShardSize sizes))
                  (ReadSize blob) [] wa) as (Δ2 & HΔ2 & Hlim).
      + rewrite Hi. apply Z.rem_bound_pos; lia.
      + done.
      + intros _. unfold first. rewrite Z2Nat.id by done.
        pose proof (Z.quot_rem' (int64 (Offset blob)) (ShardSize sizes)) as Hqr.
        rewrite Hi in *. lia.
      + rewrite HΔ in HΔ2. apply app_inv_tail in HΔ2. by subst Δ2. }
  clear Hneed.
  destruct (dataShardLoop h clusterID blob units _ _ _ _ _ wa)
    as [[[[remain data]|err]|] w1]; cbn [fst snd] in *.
  - destruct (0 <? remain); run_M.
    + exists Δ. split; [done|]. apply Hloop. intros e He. by destruct (Hres e).
    + destruct (h_Write h (w_env w1) _) as [σ' [e'|]]; cbn.
      all: eexists (_ :: Δ); rewrite HΔ; split; [done|].
      all: apply fastPathSpec_newest; [done|done|].
      all: apply Hloop; intros e He; by destruct (Hres e).
  - subst err. run_M. exists Δ. split; [done|]. by apply Hloop.
  - exists Δ. split; [done|]. by apply Hloop.
Qed.

Lemma transfer_fast_path location blobs s w :
  let clusterID := loc_ClusterID location in
  let general := st ← generalPath h clusterID blobs s; mret (ps_result st) in
  (∀ blob, 0 <= BlobSize blob < 2 ^ 63 →
     dataShardOnly h location blobs = Some blob ↔
     blobs = [blob] ∧
     (BlobSize blob <= ShardSize (sizesOrZero (h_GetBufferSizes h (int64 (BlobSize blob))
                                                 (h_Tactic h (loc_CodeMode location))))
      ∨ ReadSize blob < BlobSize blob / 4)) ∧
  match dataShardOnly h location blobs with
  | None => transfer h location blobs s w = general w
  | Some blob =>
      let w0 := {| w_env := w_env w; w_trace := EvDataShardOnly blob :: w_trace w;
                   w_nextBuf := w_nextBuf w |} in
      let r := getDataShardOnly h clusterID blob w0 in
      match r.1 with
      | None => (transfer h location blobs s w).1 = None
      | Some err =>
          if bool_decide (err = Some errNeedReconstructRead)
          then transfer h location blobs s w = general r.2
          else transfer h location blobs s w = (Some (Some err), r.2)
      end ∧
      ∃ Δ, w_trace r.2 = Δ ++ w_trace w0 ∧
        Forall fastPathEvent Δ ∧
        StronglySorted ge (requestedUnits Δ) ∧
        (∀ bv wv sizes,
           getVolume h clusterID (Vid blob) true w0 = (Some (inl bv), wv) →
           h_GetBufferSizes h (int64 (BlobSize blob)) (h_Tactic h (v_CodeMode bv))
             = inl sizes →
           0 < ShardSize sizes < 2 ^ 63 → 0 <= Offset blob < 2 ^ 63 →
           0 <= ReadSize blob < 2 ^ 64 →
           Forall (λ i, Offset blob / ShardSize sizes <= Z.of_nat i
                        < Z.of_nat (t_N (h_Tactic h (v_CodeMode bv))) ∧
                        Z.of_nat i * ShardSize sizes < Offset blob + ReadSize blob)
                  (requestedUnits Δ)) ∧
        (∀ e, head (attemptResults Δ) = Some (Some e) →
           match r.1 with
           | Some err => err = Some errNeedReconstructRead
           | None => True
           end)
  end.
Proof.
  intros clusterID general. split.
  { intros blob Hbs. unfold dataShardOnly.
    destruct blobs as [|b [|b' bs]]; [split; [done|by intros [[=] _]]| |
                                      split; [done|by intros [[=] _]]].
    rewrite (int64_small (BlobSize blob)) by lia.
    split.
    - destruct (_ || _) eqn:Hc; [|done]. intros [= ->]. split; [done|].
      rewrite (int64_small (BlobSize blob)) in Hc by lia.
      apply orb_true_iff in Hc as [Hc|Hc]; [left|right]; lia.
    - intros [[= ->] Hc]. rewrite (int64_small (BlobSize blob)) by lia.
      destruct (_ || _) eqn:Hb; [done|].
      apply orb_false_iff in Hb as [H1 H2]. lia. }
  unfold transfer. fold clusterID.
  destruct (dataShardOnly h location blobs) as [blob|]; [|subst general; reflexivity].
  cbv zeta. split.
  - rewrite !bind_eq. unfold emit. cbv beta iota. rewrite bind_eq.
    destruct (getDataShardOnly h clusterID blob _) as [[err|] w1]; cbn [fst snd]; [|done].
    destruct (bool_decide (err = Some errNeedReconstructRead)); by run_M.
  - match goal with |- context [getDataShardOnly h clusterID blob ?w0] =>
      destruct (getDataShardOnly_spec clusterID blob w0) as (Δ & HΔ & H1 & H2 & H3 & H4)
    end.
    exists Δ. repeat split; try done.
    intros bv wv sizes Hv Hsz Hpos Hoff Hrs. rewrite Hv in H3.
    destruct (H3 bv sizes eq_refl Hsz) as [Hrange Hneed].
    specialize (Hneed Hpos Hoff Hrs).
    apply Forall_and. split; [|done].
    eapply Forall_impl; [exact Hrange|]. cbn. intros i Hi.
    rewrite int64_small in Hi by lia.
    rewrite Z.quot_div_nonneg in Hi by lia.
    assert (0 <= Offset blob / ShardSize sizes) by (apply Z.div_pos; lia). lia.
Qed.

End fast_path.

Lemma getOneShardFromHost_first {Σ} (h : Handler Σ) hst disk args idx c v (w : world Σ) body :
  (h_RangeGetShard h (w_env w) hst args).2 = inl body →
  getOneShardFromHost h hst disk args idx c v None w =
  (Some (Some body, None),
   {| w_env := (h_RangeGetShard h (w_env w) hst args).1;
      w_trace := EvRangeGetShard idx hst args None :: w_trace w;
      w_nextBuf := w_nextBuf w |}).
Proof.
  intros Hb. unfold getOneShardFromHost.
  cbn [RuptOn shardAttempt tg_host tg_args tg_diskID tg_rbody].
  rewrite !bind_eq, oracle_eq, Hb. by run_M.
Qed.

Lemma requestedUnits_length Δ : length (requestedUnits Δ) = length (attemptResults Δ).
Proof. induction Δ as [|[] Δ IH]; cbn; by rewrite ?IH. Qed.

Lemma transportEvent_written idx Δ tr :
  Forall (transportEvent idx) Δ → written (Δ ++ tr) = written tr.
Proof. induction 1 as [|ev Δ Hev _ IH]; [done|]. by destruct ev. Qed.

Section fast_serving.

Context {Σ : Type} (h : Handler Σ).

Variables (clusterID : Z) (blob : blobGetArgs) (bv : VolumePhy) (sizes : BufferSizes).

Variables (truth : nat → list byte) (k : nat).

Let tactic := h_Tactic h (v_CodeMode bv).

Let N := t_N tactic.

Let shardSize := ShardSize sizes.

Let stored := concat (truth <$> seq 0 N).

Hypothesis Hserved : fastServed h clusterID blob bv sizes truth k.

Lemma shardAttempt_fault phy off size (w : world Σ) :
  v_Units bv !! k = Some phy →
  let tg := {| tg_host := u_Host phy; tg_diskID := u_DiskID phy;
               tg_args := {| a_DiskID := u_DiskID phy; a_Vuid := u_Vuid phy;
                             a_Bid := Bid blob; a_Offset := off; a_Size := size |};
               tg_rbody := None |} in
  ∃ intr err w' Δ,
    shardAttempt h k clusterID (Vid blob) None tg w = (Some (tg, (intr, Some err)), w') ∧
    w_trace w' = Δ ++ w_trace w ∧
    requestedUnits Δ = [k] ∧ Forall (transportEvent k) Δ.
Proof.
  intros Hphy tg.
  destruct (fs_fault _ _ _ _ _ _ _ Hserved (w_env w) phy off size Hphy) as [e He0].
  assert (He : (h_RangeGetShard h (w_env w) (tg_host tg) (tg_args tg)).2 = inr e)
    by exact He0.
  clear He0.
  destruct (shardAttempt_spec h k clusterID (Vid blob) None tg w) as (Δ & HΔ & Hspec).
  destruct (identityMismatch (Some e)) eqn:Hm.
  - destruct (shardAttempt_mismatch h k clusterID (Vid blob) None tg w e ltac:(done) He Hm)
      as (Δ' & HΔ' & Hres & _ & _ & _ & Hout).
    assert (refreshOutcome h k clusterID (Vid blob) tg
              (h_RangeGetShard h (w_env w) (tg_host tg) (tg_args tg)).1 = UnitStays) as Ho.
    { unfold refreshOutcome.
      rewrite (fs_volume _ _ _ _ _ _ _ Hserved), Hphy. cbn [tg tg_diskID].
      by rewrite bool_decide_eq_true_2. }
    rewrite Ho in Hout. destruct Hout as [err Hout]. cbn [nextTarget] in Hout.
    destruct (shardAttempt h k clusterID (Vid blob) None tg w) as [o w'] eqn:Hrun.
    cbn [fst snd] in *. subst o.
    exists false, err, w', Δ. split; [done|]. split; [done|].
    split; [|by destruct Hspec as (_ & _ & ? & _)].
    rewrite HΔ in HΔ'.
    change (Δ' ++ EvGetVolume clusterID (Vid blob) false
               :: EvRangeGetShard k (tg_host tg) (tg_args tg) (Some e) :: w_trace w)
      with (Δ' ++ [EvGetVolume clusterID (Vid blob) false;
                   EvRangeGetShard k (tg_host tg) (tg_args tg) (Some e)] ++ w_trace w)
      in HΔ'.
    rewrite (assoc_L (++)) in HΔ'. apply app_inv_tail in HΔ'. subst Δ.
    rewrite requestedUnits_app. cbn.
    assert (requestedUnits Δ' = []) as ->; [|done].
    apply length_zero_iff_nil. by rewrite requestedUnits_length, Hres.
  - revert Hspec HΔ. unfold shardAttempt, afterSwitch, punishDisk, punishDiskWith.
    rewrite !bind_eq, oracle_eq.
    destruct (h_RangeGetShard h (w_env w) (tg_host tg) (tg_args tg)) as [σ1 r].
    cbn [fst snd] in He. subst r.
    destruct e; try done; run_M; cbn; intros Hspec HΔ.
    all: do 4 eexists; (split; [reflexivity|]); cbn [w_trace].
    all: rewrite HΔ; (split; [reflexivity|]).
    all: destruct Hspec as (_ & _ & Hev & _); split; [|exact Hev].
    all: apply (f_equal (λ l, take (length l - length (w_trace w)) l)) in HΔ.
    all: cbn [length] in HΔ.
    all: rewrite ?length_app in HΔ.
    all: revert HΔ.
    all: repeat match goal with
         | |- context [(S (S ?n) - ?n)%nat] => replace (S (S n) - n)%nat with 2%nat by lia
         | |- context [(S ?n - ?n)%nat] => replace (S n - n)%nat with 1%nat by lia
         | |- context [(?a + ?n - ?n)%nat] => replace (a + n - n)%nat with a by lia
         end.
    all: cbn [take]; rewrite ?take_0, take_app_length; by intros <-.
Qed.

Lemma RuptOn_fault phy off size n : ∀ d (w : world Σ),
  v_Units bv !! k = Some phy →
  let tg := {| tg_host := u_Host phy; tg_diskID := u_DiskID phy;
               tg_args := {| a_DiskID := u_DiskID phy; a_Vuid := u_Vuid phy;
                             a_Bid := Bid blob; a_Offset := off; a_Size := size |};
               tg_rbody := None |} in
  ∃ err w' Δ m,
    RuptOn (S n) d (shardAttempt h k clusterID (Vid blob) None) tg w
      = (Some (tg, Some err), w') ∧
    w_trace w' = Δ ++ w_trace w ∧
    requestedUnits Δ = replicate m k ∧ (1 ≤ m ≤ S n)%nat ∧
    Forall (transportEvent k) Δ.
Proof.
  induction n as [|n IH]; intros d w Hphy tg.
  - destruct (shardAttempt_fault phy off size w Hphy) as (intr & err & w' & Δ & Hrun & HΔ & Hreq & Hev).
    fold tg in Hrun. cbn [RuptOn]. rewrite bind_eq, Hrun.
    exists err, w', Δ, 1%nat. destruct intr; by repeat split.
  - destruct (shardAttempt_fault phy off size w Hphy) as (intr & err & w' & Δ & Hrun & HΔ & Hreq & Hev).
    fold tg in Hrun.
    destruct intr.
    { cbn [RuptOn]. rewrite bind_eq, Hrun. cbv beta iota.
      exists err, w', Δ, 1%nat. repeat split; try done; lia. }
    rewrite (RuptOn_goes_on _ (S n) d tg tg err w w' Hrun).
    set (w1 := {| w_env := w_env w'; w_trace := EvBackoff d :: w_trace w';
                  w_nextBuf := w_nextBuf w' |}).
    destruct (IH (2 * d) w1 Hphy) as (err' & w'' & Δ' & m & Hrun' & HΔ' & Hreq' & Hm & Hev').
    fold tg in Hrun'. rewrite Hrun'. cbn [w1 w_trace] in HΔ'.
    exists err', w'', (Δ' ++ EvBackoff d :: Δ), (S m).
    split; [done|]. split; [by rewrite HΔ', HΔ, <-(assoc_L (++))|].
    split.
    { rewrite requestedUnits_app. cbn [requestedUnits]. rewrite Hreq, Hreq'.
      change [k] with (replicate 1 k). rewrite <-replicate_add. f_equal. lia. }
    split; [lia|].
    apply Forall_app. split; [done|]. by constructor.
Qed.

Lemma dataShardLoop_until units : ∀ idx shardOffset remain data (w : world Σ),
  (∀ j phy, units !! j = Some phy → v_Units bv !! (idx + j)%nat = Some phy) →
  (idx + length units = N)%nat → (idx ≤ k)%nat →
  0 <= shardOffset < shardSize → 0 <= remain →
  Z.of_nat idx * shardSize + shardOffset + remain <= Z.of_nat N * shardSize →
  ∃ w' Δ,
    w_trace w' = Δ ++ w_trace w ∧
    written (w_trace w') = written (w_trace w) ∧
    Forall fastPathEvent Δ ∧
    if decide (k < idx + shardsReached shardSize shardOffset remain)%nat then
      dataShardLoop h clusterID blob units idx shardSize shardOffset remain data w
        = (Some (Returned errNeedReconstructRead), w') ∧
      ∃ m, (1 ≤ m ≤ 3)%nat ∧
           requestedUnits Δ = replicate m k ++ reverse (seq idx (k - idx))
    else
      dataShardLoop h clusterID blob units idx shardSize shardOffset remain data w
        = (Some (Running
             (0, data ++ take (Z.to_nat remain)
                           (drop (Z.to_nat (Z.of_nat idx * shardSize + shardOffset)) stored))),
           w') ∧
      requestedUnits Δ = reverse (seq idx (shardsReached shardSize shardOffset remain)).
Proof.
  pose proof (fs_shardSize _ _ _ _ _ _ _ Hserved) as HshardSize.
  pose proof (fs_int _ _ _ _ _ _ _ Hserved) as Hint.
  pose proof (fs_truthlen _ _ _ _ _ _ _ Hserved) as Htruthlen.
  fold tactic N shardSize in HshardSize, Hint, Htruthlen.
  induction units as [|shard rest IH];
    intros idx shardOffset remain data w Hu Hn Hk Hoff Hrem Hfit.
  { cbn in Hn. assert (remain = 0) as -> by nia.
    exists w, []. cbn. unfold shardsReached. cbn. rewrite decide_False by lia.
    rewrite take_0, app_nil_r. by repeat split. }
  cbn [dataShardLoop]. destruct (Z.leb_spec remain 0) as [Hz|Hpos].
  { assert (remain = 0) as -> by lia.
    exists w, []. cbn. unfold shardsReached. cbn. rewrite decide_False by lia.
    rewrite take_0, app_nil_r. by repeat split. }
  set (toReadSize := minU64 remain (u64 (shardSize - shardOffset))).
  assert (Hidx : (idx < N)%nat) by (cbn in Hn; lia).
  assert (Hone : shardSize <= Z.of_nat N * shardSize) by nia.
  assert (HtoRead : toReadSize = Z.min remain (shardSize - shardOffset)).
  { unfold toReadSize. rewrite minU64_min. unfold u64. rewrite Z.mod_small; [done|]. lia. }
  assert (Hsmall : toReadSize < 2 ^ 63) by lia.
  rewrite (int64_small toReadSize) by lia.
  pose proof (Hu 0%nat shard eq_refl) as Hshard. rewrite Nat.add_0_r in Hshard.
  assert (Hreach : shardsReached shardSize shardOffset remain
                   = S (shardsReached shardSize 0 (remain - toReadSize))).
  { unfold shardsReached. destruct (Z.leb_spec remain 0); [lia|].
    destruct (Z.leb_spec (remain - toReadSize) 0) as [Hlast|Hmore].
    - assert ((shardOffset + remain - 1) / shardSize = 0) as ->; [|done].
      apply Z.div_small. lia.
    - assert (toReadSize = shardSize - shardOffset) as Ht by lia.
      replace (shardOffset + remain - 1)
        with ((0 + (remain - toReadSize) - 1) + 1 * shardSize) by lia.
      rewrite Z.div_add by lia.
      assert (0 <= (0 + (remain - toReadSize) - 1) / shardSize)
        by (apply Z.div_pos; lia).
      lia. }
  rewrite bind_eq.
  destruct (decide (idx = k)) as [->|Hne].
  - (* the unit that fails *)
    unfold getOneShardFromHost. rewrite bind_eq.
    destruct (RuptOn_fault shard shardOffset toReadSize 2 200 w Hshard)
      as (err & w' & Δ & m & Hrun & HΔ & Hreq & Hm & Hev).
    cbv zeta in Hrun. rewrite Hrun. cbv beta iota. run_M.
    exists w', Δ. split; [done|].
    split; [by rewrite HΔ, (transportEvent_written k)|].
    split; [eapply Forall_impl; [exact Hev|apply transportEvent_fast]|].
    rewrite decide_True by lia. split; [done|].
    exists m. split; [done|]. rewrite Nat.sub_diag. cbn. by rewrite app_nil_r.
  - (* a unit that answers *)
    assert (Hlt : (idx < k)%nat) by lia.
    erewrite getOneShardFromHost_first
      by (apply (fs_node _ _ _ _ _ _ _ Hserved _ idx shard shardOffset toReadSize Hshard);
          fold tactic N shardSize; lia).
    cbv beta iota.
    set (body := take (Z.to_nat toReadSize) (drop (Z.to_nat shardOffset) (truth idx))).
    assert (Hbody : length body = Z.to_nat toReadSize).
    { unfold body. rewrite length_take, length_drop, Htruthlen by done. lia. }
    rewrite Hbody, Nat.leb_refl.
    set (w1 := {| w_env := _; w_trace := _; w_nextBuf := _ |}).
    assert (Hrest : u64 (remain - toReadSize) = remain - toReadSize).
    { apply u64_small. unfold is_u64. nia. }
    rewrite Hrest.
    destruct (IH (S idx) 0 (remain - toReadSize) (data ++ take (Z.to_nat toReadSize) body) w1)
      as (w' & Δ & HΔ & Hwr & Hev & Hres).
    { intros j phy Hj. replace (S idx + j)%nat with (idx + S j)%nat by lia. by apply Hu. }
    { cbn in Hn. lia. }
    { lia. }
    { lia. }
    { lia. }
    { rewrite Nat2Z.inj_succ. nia. }
    set (req := EvRangeGetShard idx (u_Host shard)
                  {| a_DiskID := u_DiskID shard; a_Vuid := u_Vuid shard; a_Bid := Bid blob;
                     a_Offset := shardOffset; a_Size := toReadSize |} None).
    exists w', (Δ ++ [req]).
    split; [by rewrite HΔ, <-(assoc_L (++))|].
    split; [by rewrite Hwr|].
    split; [apply Forall_app; split; [done|by repeat constructor]|].
    rewrite Hreach.
    destruct (decide (k < S idx + shardsReached shardSize 0 (remain - toReadSize))%nat)
      as [Hfail|Hok].
    + rewrite decide_True by lia. destruct Hres as [Hrun (m & Hm & Hreq)].
      split; [done|]. exists m. split; [done|].
      rewrite requestedUnits_app, Hreq. cbn [requestedUnits].
      replace (k - idx)%nat with (S (k - S idx)) by lia.
      cbn [seq]. by rewrite reverse_cons, (assoc_L (++)).
    + rewrite decide_False by lia. destruct Hres as [Hrun Hreq].
      split.
      * rewrite Hrun. do 3 f_equal. rewrite <-(assoc_L (++)). f_equal.
        rewrite take_ge by (rewrite Hbody; lia).
        replace (Z.to_nat remain)
          with (Z.to_nat toReadSize + Z.to_nat (remain - toReadSize))%nat by lia.
        rewrite take_add, drop_drop. f_equal. f_equal.
        -- unfold body, stored.
           replace (Z.to_nat (Z.of_nat idx * shardSize + shardOffset))
             with (idx * Z.to_nat shardSize + Z.to_nat shardOffset)%nat by nia.
           symmetry. apply (concat_chunk truth (Z.to_nat shardSize) N); [done|done|lia].
        -- destruct (Z.le_gt_cases remain (shardSize - shardOffset)) as [Hlast|Hmore].
           ++ replace (Z.to_nat (remain - toReadSize)) with 0%nat by lia. by rewrite !take_0.
           ++ do 2 f_equal. rewrite Nat2Z.inj_succ. nia.
      * rewrite requestedUnits_app, Hreq. cbn [requestedUnits seq].
        by rewrite reverse_cons.
Qed.

Lemma getDataShardOnly_until (w : world Σ) :
  let first := Z.to_nat (Offset blob / shardSize) in
  let last := Z.to_nat ((Offset blob + ReadSize blob - 1) / shardSize) in
  let data := take (Z.to_nat (ReadSize blob)) (drop (Z.to_nat (Offset blob)) stored) in
  (first ≤ k)%nat →
  ∃ res w' Δ,
    getDataShardOnly h clusterID blob w = (Some res, w') ∧
    w_trace w' = Δ ++ w_trace w ∧
    if decide (k ≤ last)%nat then
      res = Some errNeedReconstructRead ∧
      written (w_trace w') = written (w_trace w) ∧
      ∃ m, (1 ≤ m ≤ 3)%nat ∧
           requestedUnits Δ = replicate m k ++ reverse (seq first (k - first))
    else
      (∃ σ, res = match (h_Write h σ data).2 with
                  | Some _ => Some ErrWriteResponse
                  | None => None
                  end) ∧
      written (w_trace w') = written (w_trace w) ++ data ∧
      requestedUnits Δ = reverse (seq first (last - first + 1)).
Proof.
  intros first last data Hk.
  destruct Hserved as [Hvolume Hsizes Hpool HshardSize Hint Hunits Hoffset Hread Hfits
                        Htruthlen Hnode Hfault].
  fold tactic N shardSize in Hsizes, HshardSize, Hint, Hunits, Hfits, Htruthlen, Hnode.
  assert (HN : 0 < Z.of_nat N) by nia.
  unfold getDataShardOnly. destruct (Z.eqb_spec (ReadSize blob) 0) as [|_]; [lia|].
  unfold getVolume. rewrite !bind_eq. unfold emit at 1. rewrite oracle_eq, Hvolume.
  cbv beta iota. cbn [fst snd w_env w_trace w_nextBuf]. fold tactic.
  unfold NewRangeBuffer. rewrite Hsizes, !bind_eq.
  unfold memPoolAlloc. rewrite !bind_eq, oracle_eq. cbn [fst snd w_env w_trace w_nextBuf].
  set (σ1 := (h_getVolume h (w_env w) clusterID (Vid blob) true).1).
  set (size := int64 (u64 (Offset blob + ReadSize blob)) - int64 (Offset blob)).
  destruct (Hpool σ1 size) as [bytes Hbytes]. rewrite Hbytes. cbv beta iota.
  run_M. fold shardSize.
  set (buf := {| buf_id := Some (w_nextBuf w); buf_bytes := resize (Z.to_nat size) x00 bytes |}).
  set (w0 := {| w_env := (h_poolAlloc h σ1 size).1;
                w_trace := EvAlloc (w_nextBuf w) size :: EvGetVolume clusterID (Vid blob) true
                             :: w_trace w;
                w_nextBuf := S (w_nextBuf w) |}).
  unfold defer.
  destruct (Z.eqb_spec shardSize 0) as [|_]; [lia|].
  rewrite (int64_small (Offset blob)) by nia.
  rewrite Z.quot_div_nonneg, Z.rem_mod_nonneg by lia.
  set (firstZ := Offset blob / shardSize).
  assert (Hfirst : 0 <= firstZ < Z.of_nat N).
  { unfold firstZ. split; [apply Z.div_pos; lia|]. apply Z.div_lt_upper_bound; nia. }
  destruct (Z.ltb_spec firstZ 0) as [|_]; [lia|].
  unfold slice.
  pose proof (Z.mod_pos_bound (Offset blob) shardSize HshardSize) as Hmod.
  pose proof (Z.div_mod (Offset blob) shardSize ltac:(lia)) as Hdm. fold firstZ in Hdm.
  change (Z.to_nat firstZ) with first in *.
  destruct (dataShardLoop_until (take (N - first) (drop first (v_Units bv)))
              first (Offset blob mod shardSize) (ReadSize blob) [] w0)
    as (w1 & Δ & HΔ & Hwr & Hev & Hres).
  { intros j phy Hj. apply lookup_take_Some in Hj as [Hj _]. by rewrite lookup_drop in Hj. }
  { rewrite length_take, length_drop. unfold first. lia. }
  { done. }
  { done. }
  { lia. }
  { unfold first. rewrite Z2Nat.id by lia. nia. }
  assert (Hreach : (first + shardsReached shardSize (Offset blob mod shardSize) (ReadSize blob)
                    = S last ∧ first ≤ last)%nat).
  { unfold shardsReached, last, first. destruct (Z.leb_spec (ReadSize blob) 0); [lia|].
    replace (Offset blob mod shardSize + ReadSize blob - 1)
      with ((Offset blob + ReadSize blob - 1) + (- firstZ) * shardSize) by lia.
    rewrite Z.div_add by lia.
    assert (firstZ <= (Offset blob + ReadSize blob - 1) / shardSize).
    { apply Z.div_le_mono; lia. }
    fold firstZ. lia. }
  change (t_N tactic) with N.
  destruct (Nat.leb_spec first N) as [_|]; [|unfold first in *; lia].
  destruct (Nat.leb_spec N (length (v_Units bv))) as [_|]; [|lia].
  cbn [andb].
  destruct (decide (k ≤ last)%nat) as [Hfail|Hok].
  - rewrite decide_True in Hres by lia. destruct Hres as [Hrun Hreq].
    rewrite Hrun. cbv beta iota. unfold memPoolPut. cbn [buf_id buf]. run_M.
    eexists _, _, (EvPut (w_nextBuf w) :: Δ ++
                   [EvAlloc (w_nextBuf w) size; EvGetVolume clusterID (Vid blob) true]).
    split; [reflexivity|]. cbn [w_trace]. rewrite HΔ.
    split; [subst w0; cbn; by rewrite <-(assoc_L (++))|].
    split; [reflexivity|]. rewrite <-HΔ. cbn [written]. rewrite Hwr.
    split; [by subst w0|].
    destruct Hreq as (m & Hm & Hreq). exists m. split; [done|].
    cbn [requestedUnits]. rewrite requestedUnits_app, Hreq. cbn [requestedUnits].
    by rewrite app_nil_r.
  - rewrite decide_False in Hres by lia. destruct Hres as [Hrun Hreq].
    rewrite Hrun. cbv beta iota.
    destruct (Z.ltb_spec 0 0) as [|_]; [lia|].
    cbn [app]. rewrite (int64_small (ReadSize blob)) by nia.
    replace (Z.to_nat (Z.of_nat first * shardSize + Offset blob mod shardSize))
      with (Z.to_nat (Offset blob)) by (unfold first; nia).
    fold data.
    assert (Hlen : length data = Z.to_nat (ReadSize blob)).
    { unfold data, stored. rewrite length_take, length_drop.
      rewrite (length_concat_uniform _ (Z.to_nat shardSize)).
      - rewrite length_fmap, length_seq. nia.
      - apply Forall_fmap, Forall_forall. intros i Hi%elem_of_seq. apply Htruthlen. lia. }
    rewrite take_ge by lia.
    destruct (h_Write h (w_env w1) data) as [σ2 [e|]] eqn:Hwrite; cbn [fst snd].
    all: unfold memPoolPut; cbn [buf_id buf]; run_M.
    all: eexists _, _, (EvPut (w_nextBuf w) :: EvWrite data :: Δ ++
                        [EvAlloc (w_nextBuf w) size; EvGetVolume clusterID (Vid blob) true]).
    all: split; [reflexivity|].
    all: cbn [w_trace]; rewrite HΔ.
    all: split; [subst w0; cbn; by rewrite <-(assoc_L (++))|].
    all: split; [exists (w_env w1); by rewrite Hwrite|].
    all: rewrite <-HΔ; cbn [written]; rewrite Hwr; split; [by subst w0|].
    all: cbn [requestedUnits]; rewrite requestedUnits_app, Hreq; cbn [requestedUnits].
    all: rewrite app_nil_r.
    all: replace (shardsReached shardSize (Offset blob mod shardSize) (ReadSize blob))
           with (last - first + 1)%nat by lia.
    all: done.
Qed.

End fast_serving.

(** C6: [Get] takes the data-shard-only path exactly when the
    decomposition is a single blob with [BlobSize <= ShardSize] or
    [ReadSize < BlobSize / 4]. In every environment the path asks units in
    ascending order, all of them data units within [Offset / ShardSize, N)
    whose shard starts before the end of the range; it launches no shard
    reader and reconstructs nothing; when its newest request failed it
    yields [errNeedReconstructRead]; on that error [transfer] goes on with
    the general path from the world the fast path left, and any other
    outcome is what [Get] returns. When the volume, the sizes and the pool
    are there and the data units before the unit [k] answer with the bytes
    asked, while the unit [k] answers every request with an error of
    whatever class ([fastServed]): if the range reaches the unit [k], the
    path asks the units from the first of the range up to [k - 1] once
    each, then [k] one to three times, writes nothing, yields
    [errNeedReconstructRead], and [transfer] continues with the general
    path; if the range ends before [k], the path asks exactly the units
    from the first to the last of the range, once each, hands the bytes of
    the range to the writer in one write, and [transfer] returns the
    writer's outcome. *)
Theorem data_shard_only_path {Σ} (h : Handler Σ) location blobs s (w : world Σ) :
  let clusterID := loc_ClusterID location in
  let general := st ← generalPath h clusterID blobs s; mret (ps_result st) in
  (∀ blob, 0 <= BlobSize blob < 2 ^ 63 →
     dataShardOnly h location blobs = Some blob ↔
     blobs = [blob] ∧
     (BlobSize blob <= ShardSize (sizesOrZero (h_GetBufferSizes h (int64 (BlobSize blob))
                                                 (h_Tactic h (loc_CodeMode location))))
      ∨ ReadSize blob < BlobSize blob / 4)) ∧
  match dataShardOnly h location blobs with
  | None => transfer h location blobs s w = general w
  | Some blob =>
      let w0 := {| w_env := w_env w; w_trace := EvDataShardOnly blob :: w_trace w;
                   w_nextBuf := w_nextBuf w |} in
      let r := getDataShardOnly h clusterID blob w0 in
      match r.1 with
      | None => (transfer h location blobs s w).1 = None
      | Some err =>
          if bool_decide (err = Some errNeedReconstructRead)
          then transfer h location blobs s w = general r.2
          else transfer h location blobs s w = (Some (Some err), r.2)
      end ∧
      (∃ Δ, w_trace r.2 = Δ ++ w_trace w0 ∧
        Forall fastPathEvent Δ ∧
        StronglySorted ge (requestedUnits Δ) ∧
        (∀ bv wv sizes,
           getVolume h clusterID (Vid blob) true w0 = (Some (inl bv), wv) →
           h_GetBufferSizes h (int64 (BlobSize blob)) (h_Tactic h (v_CodeMode bv))
             = inl sizes →
           0 < ShardSize sizes < 2 ^ 63 → 0 <= Offset blob < 2 ^ 63 →
           0 <= ReadSize blob < 2 ^ 64 →
           Forall (λ i, Offset blob / ShardSize sizes <= Z.of_nat i
                        < Z.of_nat (t_N (h_Tactic h (v_CodeMode bv))) ∧
                        Z.of_nat i * ShardSize sizes < Offset blob + ReadSize blob)
                  (requestedUnits Δ)) ∧
        (∀ e, head (attemptResults Δ) = Some (Some e) →
           match r.1 with
           | Some err => err = Some errNeedReconstructRead
           | None => True
           end)) ∧
      (∀ bv sizes truth k,
         fastServed h clusterID blob bv sizes truth k →
         let shardSize := ShardSize sizes in
         let first := Z.to_nat (Offset blob / shardSize) in
         let last := Z.to_nat ((Offset blob + ReadSize blob - 1) / shardSize) in
         let data :=
           take (Z.to_nat (ReadSize blob))
             (drop (Z.to_nat (Offset blob))
                (concat (truth <$> seq 0 (t_N (h_Tactic h (v_CodeMode bv)))))) in
         (first ≤ k)%nat →
         ∃ Δ, w_trace r.2 = Δ ++ w_trace w0 ∧
           if decide (k ≤ last)%nat then
             r.1 = Some (Some errNeedReconstructRead) ∧
             written (w_trace r.2) = written (w_trace w) ∧
             (∃ m, (1 ≤ m ≤ 3)%nat ∧
                   requestedUnits Δ = replicate m k ++ reverse (seq first (k - first))) ∧
             transfer h location blobs s w = general r.2
           else
             (∃ σ, let res := match (h_Write h σ data).2 with
                              | Some _ => Some ErrWriteResponse
                              | None => None
                              end in
                   r.1 = Some res ∧
                   transfer h location blobs s w = (Some (Some res), r.2)) ∧
             written (w_trace r.2) = written (w_trace w) ++ data ∧
             requestedUnits Δ = reverse (seq first (last - first + 1)))
  end.
Proof.
  intros clusterID general.
  pose proof (transfer_fast_path h location blobs s w) as [Hiff Hpath].
  split; [exact Hiff|]. fold clusterID in Hpath.
  destruct (dataShardOnly h location blobs) as [blob|]; [|exact Hpath].
  cbv zeta in Hpath. destruct Hpath as [Hres Htrace].
  cbv zeta. split; [exact Hres|]. split; [exact Htrace|].
  intros bv sizes truth k Hserved Hk.
  set (w0 := {| w_env := w_env w; w_trace := EvDataShardOnly blob :: w_trace w;
                w_nextBuf := w_nextBuf w |}) in *.
  destruct (getDataShardOnly_until h clusterID blob bv sizes truth k Hserved w0 Hk)
    as (res & w' & Δ & Hrun & HΔ & Hcase).
  rewrite Hrun in *. cbn [fst snd] in *.
  exists Δ. split; [done|].
  destruct (decide (k ≤ _)%nat) as [Hfail|Hok].
  - destruct Hcase as (-> & Hwr & Hreq).
    split; [done|]. split; [exact Hwr|]. split; [done|].
    by rewrite bool_decide_eq_true_2 in Hres.
  - destruct Hcase as ((σ & ->) & Hwr & Hreq).
    split; [|split; [exact Hwr|exact Hreq]].
    exists σ. cbv zeta. split; [done|].
    rewrite bool_decide_eq_false_2 in Hres; [done|].
    by destruct (h_Write h σ _).2.
Qed.

Lemma pooled_ret {Σ A} (a : A) (w : world Σ) (Q : A → list nat → list nat → Prop) :
  Q a [] [] → pooled (mret a) w Q.
Proof. intros HQ. exists []. cbn. repeat split; try done; constructor. Qed.

Lemma pooled_panic {Σ A} (w : world Σ) (Q : A → list nat → list nat → Prop) :
  pooled panic w Q.
Proof. exists []. cbn. repeat split; try done; constructor. Qed.

Lemma pooled_emit {Σ} e (w : world Σ) (Q : unit → list nat → list nat → Prop) :
  acquired [e] = [] → Q tt [] (returned [e]) → pooled (emit e) w Q.
Proof.
  intros Ha HQ. exists [e]. cbn [emit fst snd w_trace w_nextBuf]. rewrite Ha.
  repeat split; try done; constructor.
Qed.

Lemma pooled_oracle {Σ A} (f : Σ → Σ * A) (w : world Σ)
    (Q : A → list nat → list nat → Prop) :
  (∀ σ, Q (f σ).2 [] []) → pooled (oracle f) w Q.
Proof.
  intros HQ. exists []. rewrite oracle_eq. cbn.
  split; [done|]. split; [done|]. split; [constructor|]. split; [constructor|]. apply HQ.
Qed.

Lemma pooled_effect {Σ} (f : Σ → Σ) (w : world Σ) (Q : unit → list nat → list nat → Prop) :
  Q tt [] [] → pooled (effect f) w Q.
Proof. intros HQ. exists []. cbn. repeat split; try done; constructor. Qed.

Lemma pooled_weaken {Σ A} (m : M Σ A) (w : world Σ)
    (Q Q' : A → list nat → list nat → Prop) :
  pooled m w Q → (∀ a acq ret, Q a acq ret → Q' a acq ret) → pooled m w Q'.
Proof.
  intros (Δ & HΔ & Hle & Hnd & Hfr & HQ) Himp. exists Δ. repeat split; try done.
  destruct (m w).1; [by apply Himp|done].
Qed.

Lemma pooled_bind {Σ A B} (m : M Σ A) (f : A → M Σ B) (w : world Σ)
    (Q : A → list nat → list nat → Prop) (Q' : B → list nat → list nat → Prop) :
  pooled m w Q →
  (∀ a acq ret w', Q a acq ret →
     pooled (f a) w' (λ b acq' ret', Q' b (acq' ++ acq) (ret' ++ ret))) →
  pooled (m ≫= f) w Q'.
Proof.
  intros (Δ & HΔ & Hle & Hnd & Hfr & HQ) Hf. unfold pooled. rewrite bind_eq.
  destruct (m w) as [[a|] w1]; cbn [fst snd] in *.
  2:{ exists Δ. by repeat split. }
  destruct (Hf a _ _ w1 HQ) as (Δ' & HΔ' & Hle' & Hnd' & Hfr' & HQ').
  exists (Δ' ++ Δ). rewrite HΔ', HΔ, (assoc_L (++)), acquired_app, returned_app.
  split; [done|]. split; [lia|]. split; [|split; [|done]].
  - apply NoDup_app. split; [done|]. split; [|done].
    intros id Hid Hid'. rewrite Forall_forall in Hfr, Hfr'.
    specialize (Hfr _ Hid'). specialize (Hfr' _ Hid). lia.
  - apply Forall_app. split.
    + eapply Forall_impl; [exact Hfr'|]. cbn. lia.
    + eapply Forall_impl; [exact Hfr|]. cbn. lia.
Qed.

Lemma pooled_after_silent {Σ A B} (m : M Σ A) (f : A → M Σ B) (w : world Σ)
    (Q : B → list nat → list nat → Prop) :
  pooled m w silent → (∀ a w', pooled (f a) w' Q) → pooled (m ≫= f) w Q.
Proof.
  intros Hm Hf. eapply pooled_bind; [exact Hm|].
  intros a acq ret w' [-> ->]. eapply pooled_weaken; [apply Hf|].
  intros b acq' ret' HQ. by rewrite !app_nil_r.
Qed.

Lemma silent_bind {Σ A B} (m : M Σ A) (f : A → M Σ B) (w : world Σ) :
  pooled m w silent → (∀ a w', pooled (f a) w' silent) → pooled (m ≫= f) w silent.
Proof.
  intros Hm Hf. eapply pooled_bind; [exact Hm|].
  intros a acq ret w' [-> ->]. eapply pooled_weaken; [apply Hf|].
  intros b acq' ret' [-> ->]. by split.
Qed.

Lemma silent_emit {Σ} e (w : world Σ) :
  acquired [e] = [] → returned [e] = [] → pooled (emit e) w silent.
Proof. intros Ha Hr. apply pooled_emit; [done|]. by rewrite Hr. Qed.

Ltac silence :=
  repeat first
    [ apply pooled_ret; by split
    | apply pooled_panic
    | apply silent_emit; reflexivity
    | apply pooled_oracle; intros; by split
    | apply pooled_effect; by split
    | apply silent_bind; [|intros ? ?]
    | progress case_match ].

Lemma RuptOn_silent {Σ L} (caller : L → M Σ (L * (bool * option error))) :
  (∀ l w, pooled (caller l) w silent) →
  ∀ n d l w, pooled (RuptOn n d caller l) w silent.
Proof.
  intros Hc n. induction n as [|n IH]; intros d l w; cbn [RuptOn]; [silence|].
  apply silent_bind; [apply Hc|]. intros [l' [i [e|]]] w'; [|silence].
  destruct i; [silence|]. destruct n; [silence|].
  apply silent_bind; [silence|]. intros _ w''. apply IH.
Qed.

Lemma shardAttempt_silent {Σ} (h : Handler Σ) idx clusterID vid cancelChan tg w :
  pooled (shardAttempt h idx clusterID vid cancelChan tg) w silent.
Proof.
  unfold shardAttempt, afterSwitch, punishDisk, punishDiskWith, getVolume.
  silence.
Qed.

Lemma transport_silent {Σ} (h : Handler Σ) hst disk args idx c v cancelChan w :
  pooled (hystrixDo h (getOneShardFromHost h hst disk args idx c v cancelChan)) w silent.
Proof.
  assert (∀ w', pooled (getOneShardFromHost h hst disk args idx c v cancelChan) w' silent)
    as Hg.
  { intros w'. unfold getOneShardFromHost. apply silent_bind.
    - apply RuptOn_silent. intros l w0. apply shardAttempt_silent.
    - intros [tg rerr] w0. silence. }
  unfold hystrixDo. apply silent_bind; [silence|].
  intros [| |] w'; [apply Hg|silence|].
  apply silent_bind; [apply Hg|]. intros [body e0] w0. silence.
Qed.

Lemma pooled_alloc {Σ} (h : Handler Σ) size (w : world Σ) :
  pooled (memPoolAlloc h size) w
    (λ r acq ret, ret = [] ∧
       match r with
       | inl buf => ∃ id, buf_id buf = Some id ∧ acq = [id]
       | inr _ => acq = []
       end).
Proof.
  unfold memPoolAlloc. unfold pooled. rewrite bind_eq, oracle_eq. cbn [fst snd].
  destruct (h_poolAlloc h (w_env w) size) as [σ [bytes|e]]; cbn [fst snd]; run_M.
  - exists [EvAlloc (w_nextBuf w) size]. cbn. split; [done|]. split; [lia|].
    split; [apply NoDup_singleton|]. split; [repeat constructor; lia|].
    split; [done|]. by eexists.
  - exists []. cbn. repeat split; try done; constructor.
Qed.

Lemma pooled_put {Σ} buf (w : world Σ) :
  pooled (memPoolPut buf) w (λ _ acq ret, acq = [] ∧ ret = held [buf]).
Proof.
  unfold memPoolPut, held. cbn. destruct (buf_id buf) as [id|]; cbn.
  - apply pooled_emit; [done|]. by split.
  - by apply pooled_ret.
Qed.

(** A shard reader hands over one fresh buffer with a success, and keeps
    none otherwise. *)
Lemma readOneShard_pooled {Σ} (h : Handler Σ) clusterID vid shardSize blob vu stopChan w :
  pooled (readOneShard h clusterID vid shardSize blob vu stopChan) w
    (λ sd acq ret, acq = ret ++ (if sd_status sd then held [sd_buffer sd] else [])).
Proof.
  unfold readOneShard. apply pooled_after_silent; [apply transport_silent|].
  intros [body err] w1.
  destruct err; [by apply pooled_ret|].
  destruct body as [body|]; [|apply pooled_panic].
  eapply pooled_bind; [apply pooled_alloc|].
  intros [buf|e] acq ret w2 [-> Hacq]; [|subst acq; by apply pooled_ret].
  destruct Hacq as (id & Hid & ->).
  destruct (ReadFull body buf) as [buf'|] eqn:Hfull.
  - apply pooled_ret. cbn. unfold ReadFull in Hfull. case_match; [|done].
    injection Hfull as <-. unfold held. cbn. by rewrite Hid.
  - eapply pooled_bind; [apply pooled_put|].
    intros _ acq ret w3 [-> ->]. apply pooled_ret. cbn. unfold held. cbn. by rewrite Hid.
Qed.

Lemma held_app a b : held (a ++ b) = held a ++ held b.
Proof. unfold held. apply omap_app. Qed.

Lemma held_insert shards idx old new :
  shards !! idx = Some old →
  held [old] ++ held (<[idx := new]> shards) ≡ₚ held shards ++ held [new].
Proof.
  intros Hold. rewrite insert_take_drop by (by eapply lookup_lt_Some).
  rewrite <-(take_drop_middle shards idx old Hold) at 3.
  change (new :: drop (S idx) shards) with ([new] ++ drop (S idx) shards).
  change (old :: drop (S idx) shards) with ([old] ++ drop (S idx) shards).
  rewrite !held_app. solve_Permutation.
Qed.

Lemma held_insert_same shards idx old new :
  shards !! idx = Some old → buf_id new = buf_id old →
  held (<[idx := new]> shards) = held shards.
Proof.
  intros Hold Hid. rewrite insert_take_drop by (by eapply lookup_lt_Some).
  rewrite <-(take_drop_middle shards idx old Hold) at 3.
  rewrite !held_app. unfold held at 2 4. cbn. by rewrite Hid.
Qed.

Lemma held_imap (f : nat → buffer → buffer) shards :
  (∀ i b, buf_id (f i b) = buf_id b) → held (imap f shards) = held shards.
Proof.
  revert f. induction shards as [|b shards IH]; intros f Hf; [done|].
  cbn [imap]. change (f 0%nat b :: imap (f ∘ S) shards) with ([f 0%nat b] ++ imap (f ∘ S) shards).
  change (b :: shards) with ([b] ++ shards). rewrite !held_app, IH by (intros; apply Hf).
  unfold held. cbn. by rewrite Hf.
Qed.

Section pool.

Context {Σ : Type} (h : Handler Σ).

Variables (clusterID vid codeMode : Z) (blob : blobGetArgs) (shardSize : Z).

Variables (dataN dataParityN lenSorted : nat).

Lemma ReconstructData_pooled shards badIdx (w : world Σ) :
  pooled (ReconstructData h codeMode shards badIdx) w
    (λ r acq ret, acq = [] ∧ ret = [] ∧ held r.1 = held shards).
Proof.
  unfold ReconstructData. eapply pooled_bind; [by apply silent_emit|].
  intros _ acq ret w1 [-> ->].
  eapply pooled_bind with (Q := silent); [by apply pooled_oracle|].
  intros [bytes err] acq ret w2 [-> ->]. apply pooled_ret.
  split; [done|]. split; [done|]. cbn. by apply held_imap.
Qed.

(** The reader's loop gives back the buffer it replaces. *)
Lemma consume_pooled sd st w :
  pooled (consume h codeMode dataN dataParityN lenSorted sd st) w
    (λ r acq ret, acq = [] ∧
       ret ++ held (br_shards r.1) ≡ₚ
       held (br_shards st) ++ (if sd_status sd then held [sd_buffer sd] else [])).
Proof.
  unfold consume.
  eapply pooled_bind with
    (Q := λ S1 acq ret, acq = [] ∧
            ret ++ held S1 ≡ₚ
            held (br_shards st) ++ (if sd_status sd then held [sd_buffer sd] else [])).
  { destruct (sd_status sd); [|apply pooled_ret; by rewrite app_nil_r].
    destruct (br_shards st !! sd_index sd) as [buf|] eqn:Hbuf; [|apply pooled_panic].
    eapply pooled_bind; [apply pooled_put|].
    intros _ acq ret w1 [-> ->]. apply pooled_ret. split; [done|].
    rewrite app_nil_l. by apply held_insert. }
  intros S1 acq ret w1 [-> HS1].
  set (R' := <[sd_index sd := sd_status sd]> (br_received st)).
  assert (∀ m : M Σ (blobRead * bool),
            (∀ w', pooled m w' (λ r acq' ret', acq' = [] ∧ ret' = [] ∧
                                   held (br_shards r.1) = held S1)) →
            pooled m w1
              (λ r acq' ret', acq' ++ [] = [] ∧
                 (ret' ++ ret) ++ held (br_shards r.1) ≡ₚ
                 held (br_shards st) ++ (if sd_status sd then held [sd_buffer sd] else [])))
    as Hrest.
  { intros m Hm. eapply pooled_weaken; [apply Hm|].
    intros r acq' ret' (-> & -> & Hheld). split; [done|]. cbn. by rewrite Hheld. }
  assert (∀ S2 b (w' : world Σ), held S2 = held S1 →
            pooled (closeStop R' S2 b st) w'
              (λ r acq' ret', acq' = [] ∧ ret' = [] ∧ held (br_shards r.1) = held S1))
    as Hclose.
  { intros S2 b w' HS2. unfold closeStop. eapply pooled_bind; [by apply silent_emit|].
    intros _ acq' ret' w'' [-> ->]. by apply pooled_ret. }
  assert (∀ S2 (w' : world Σ), held S2 = held S1 →
            pooled (sendNext R' S2 st) w'
              (λ r acq' ret', acq' = [] ∧ ret' = [] ∧ held (br_shards r.1) = held S1))
    as Hnext.
  { intros S2 w' HS2. unfold sendNext. eapply pooled_bind; [by apply silent_emit|].
    intros _ acq' ret' w'' [-> ->]. destruct (br_waiting st); [by apply pooled_ret|].
    eapply pooled_bind; [by apply silent_emit|].
    intros _ acq' ret' w3 [-> ->]. by apply pooled_ret. }
  apply Hrest. intros w'.
  destruct (size R' <? dataN)%nat; [by apply pooled_ret|].
  destruct (filter _ (seq 0 dataN)); [by apply Hclose|].
  destruct (_ <? countBad R')%nat; [by apply Hclose|].
  eapply pooled_bind with
    (Q := λ r acq' ret', acq' = [] ∧ ret' = [] ∧ held r.1 = held S1).
  { destruct (_ <=? size R')%nat; [|by apply pooled_ret].
    eapply pooled_bind; [apply ReconstructData_pooled|].
    intros [S2 err] acq' ret' w2 (-> & -> & HS2). by apply pooled_ret. }
  intros [S2 ok] acq' ret' w2 (-> & -> & HS2). cbn in HS2.
  eapply pooled_weaken.
  { destruct ok; [by apply Hclose|]. destruct (_ <=? size R')%nat; [by apply Hclose|].
    by apply Hnext. }
  intros r acq' ret' (-> & -> & Hr). by repeat split.
Qed.

Lemma blobLoop_pooled sched : ∀ st w,
  pooled (blobLoop h clusterID vid codeMode shardSize blob dataN dataParityN lenSorted
            sched st) w
    (λ r acq ret, ret ++ held (br_shards r.1) ≡ₚ held (br_shards st) ++ acq).
Proof.
  induction sched as [|k sched IH]; intros st w; cbn [blobLoop].
  { apply pooled_ret. by rewrite app_nil_r. }
  destruct (pick k (br_inflight st)) as [[vu rest]|].
  2:{ destruct (br_waiting st); apply pooled_ret; by rewrite app_nil_r. }
  eapply pooled_bind; [apply readOneShard_pooled|].
  intros sd acq1 ret1 w1 Hsd. unfold onShard.
  eapply pooled_bind; [apply consume_pooled|].
  intros [st' brk] acq2 ret2 w2 [-> Hcons]. cbn [fst taken br_shards] in Hcons.
  destruct brk.
  - apply pooled_ret. cbn [fst]. rewrite Hsd, !app_nil_l.
    transitivity (ret1 ++ (ret2 ++ held (br_shards st'))); [solve_Permutation|].
    rewrite Hcons. solve_Permutation.
  - eapply pooled_weaken; [apply IH|].
    intros [st'' e] acq3 ret3 Hloop. cbn [fst] in *. rewrite Hsd, !app_nil_r.
    transitivity (ret1 ++ ret2 ++ (ret3 ++ held (br_shards st''))); [solve_Permutation|].
    rewrite Hloop.
    transitivity (ret1 ++ (ret2 ++ held (br_shards st')) ++ acq3); [solve_Permutation|].
    rewrite Hcons. solve_Permutation.
Qed.

Lemma zeroEmpties_pooled idxs : ∀ (R : gmap nat bool) S (w : world Σ),
  pooled (zeroEmpties idxs R S) w (λ r acq ret, acq = [] ∧ ret = [] ∧ held r.2 = held S).
Proof.
  induction idxs as [|idx idxs IH]; intros R S w; cbn [zeroEmpties]; [by apply pooled_ret|].
  destruct (S !! idx) as [buf|] eqn:Hbuf; [|apply pooled_panic].
  eapply pooled_bind with (Q := λ b acq ret, acq = [] ∧ ret = [] ∧ buf_id b = buf_id buf).
  { unfold memPoolZero. eapply pooled_bind; [by apply silent_emit|].
    intros _ acq ret w1 [-> ->]. by apply pooled_ret. }
  intros b acq ret w1 (-> & -> & Hid).
  eapply pooled_weaken; [apply IH|].
  intros [R' S'] acq ret (-> & -> & HS'). cbn in *. repeat split.
  rewrite HS'. by eapply held_insert_same.
Qed.

Lemma drainShards_pooled stopped vus : ∀ late (w : world Σ),
  pooled (drainShards h clusterID vid shardSize blob stopped late vus) w
    (λ _ acq ret, acq ≡ₚ ret).
Proof.
  induction vus as [|vu vus IH]; intros late w; cbn [drainShards]; [by apply pooled_ret|].
  eapply pooled_bind; [apply readOneShard_pooled|].
  intros sd acq1 ret1 w1 Hsd.
  eapply pooled_bind with
    (Q := λ _ acq ret, acq = [] ∧ ret = (if sd_status sd then held [sd_buffer sd] else [])).
  { destruct (sd_status sd); [apply pooled_put|by apply pooled_ret]. }
  intros _ acq2 ret2 w2 [-> ->].
  eapply pooled_weaken; [apply IH|].
  intros u acq3 ret3 Hrest. cbn. rewrite Hsd, Hrest. solve_Permutation.
Qed.

Lemma emitAll_launches idxs (w : world Σ) :
  pooled (emitAll (EvLaunch <$> idxs)) w silent.
Proof.
  revert w. induction idxs as [|i idxs IH]; intros w; cbn; [by apply pooled_ret|].
  apply silent_bind; [by apply silent_emit|]. intros _ w'. apply IH.
Qed.

End pool.

Lemma readOneBlob_pooled {Σ} (h : Handler Σ) clusterID vid codeMode blob sortedVuids shards
    sched late w :
  pooled (readOneBlob h clusterID vid codeMode blob sortedVuids shards sched late) w
    (λ o acq ret,
       match o with
       | BlobReturned _ shards' => ret ++ held shards' ≡ₚ held shards ++ acq
       | _ => True
       end).
Proof.
  unfold readOneBlob.
  destruct (h_GetBufferSizes _ _ _) as [sizes|e]; [|apply pooled_ret; by rewrite app_nil_r].
  destruct shards as [|s0 shards0] eqn:Hshards; [apply pooled_panic|]. rewrite <-Hshards.
  apply pooled_after_silent; [apply emitAll_launches|]. intros _ w1.
  eapply pooled_bind; [apply zeroEmpties_pooled|].
  intros [R0 S0] acq ret w2 (-> & -> & HS0). cbn [snd] in HS0.
  eapply pooled_bind; [apply blobLoop_pooled|].
  intros [st e] acq ret w3 Hloop. cbn [fst br_shards] in Hloop. rewrite HS0 in Hloop.
  unfold blobResult.
  destruct e; try (by apply pooled_ret).
  all: eapply pooled_bind; [apply drainShards_pooled|].
  all: intros u acq' ret' w4 Hdrain.
  all: destruct (br_reconstructed st); apply pooled_ret; rewrite !app_nil_r.
  all: rewrite <-(assoc_L (++)), Hloop, Hdrain; solve_Permutation.
Qed.

Lemma putAll_pooled {Σ} shards (w : world Σ) :
  pooled (putAll shards) w (λ _ acq ret, acq = [] ∧ ret ≡ₚ held shards).
Proof.
  revert w. induction shards as [|b shards IH]; intros w; cbn [putAll]; [by apply pooled_ret|].
  eapply pooled_bind; [apply pooled_put|].
  intros _ acq ret w1 [-> ->].
  eapply pooled_weaken; [apply IH|].
  intros _ acq ret [-> Hret]. split; [done|]. rewrite Hret.
  change (b :: shards) with ([b] ++ shards). rewrite held_app. solve_Permutation.
Qed.

Lemma writeShards_silent {Σ} (h : Handler Σ) shards : ∀ off n (w : world Σ),
  pooled (writeShards h shards off n) w silent.
Proof.
  induction shards as [|buf rest IH]; intros off n w; cbn [writeShards].
  { destruct (n <=? 0); silence. }
  destruct (n <=? 0); [silence|]. destruct (len buf <=? off); [apply IH|].
  apply silent_bind; [by apply silent_emit|]. intros _ w1.
  apply silent_bind; [silence|]. intros [e|] w2; [silence|apply IH].
Qed.

Lemma consumeLine_pooled {Σ} (h : Handler Σ) line (w : world Σ) :
  pooled (consumeLine h line) w (λ _ acq ret, acq = [] ∧ ret ≡ₚ held (pb_shards line)).
Proof.
  unfold consumeLine. apply pooled_after_silent; [apply writeShards_silent|].
  intros err w1. eapply pooled_bind; [apply putAll_pooled|].
  intros u acq ret w2 [-> Hret]. apply pooled_ret. by rewrite app_nil_l.
Qed.

Lemma pooled_conserved {Σ A} (m : M Σ A) (w : world Σ) before a w' :
  pooled m w (λ _ acq ret, ret ≡ₚ before ++ acq) → m w = (Some a, w') →
  conserved before w w'.
Proof.
  intros (Δ & HΔ & Hle & Hnd & Hfr & HQ) Hm. rewrite Hm in *. cbn [fst snd] in *.
  exists Δ. split; [done|]. split; [done|]. split; [done|]. split.
  { eapply Forall_impl; [exact Hfr|]. cbn. lia. }
  intros Hb Hlt. rewrite HQ. apply NoDup_app. split; [done|]. split; [|done].
  intros id Hid Hid'. rewrite Forall_forall in Hfr, Hlt.
  specialize (Hfr _ Hid'). specialize (Hlt _ Hid). lia.
Qed.

(** On every path on which the blob reader returns and the shards of the
    blob are released, by the producer after a failed read or by the
    consuming loop after writing, each buffer the blob had and each buffer
    acquired for it has been returned to the pool, once. *)
Theorem blob_buffers_returned {Σ} (h : Handler Σ) clusterID vid codeMode blob sortedVuids
    shards sched late (w : world Σ) :
  match readOneBlob h clusterID vid codeMode blob sortedVuids shards sched late w with
  | (Some (BlobReturned err shards'), w1) =>
      conserved (held shards) w (putAll shards' w1).2 ∧
      match consumeLine h {| pb_err := None; pb_blob := blob; pb_shards := shards' |} w1 with
      | (Some _, w2) => conserved (held shards) w w2
      | (None, _) => True
      end
  | _ => True
  end.
Proof.
  assert (∀ (release : list buffer → M Σ unit),
            (∀ s w', pooled (release s) w' (λ _ acq ret, acq = [] ∧ ret ≡ₚ held s)) →
            pooled (o ← readOneBlob h clusterID vid codeMode blob sortedVuids shards sched late;
                    match o with
                    | BlobReturned _ shards' => release shards'
                    | _ => panic
                    end) w
              (λ _ acq ret, ret ≡ₚ held shards ++ acq)) as Hall.
  { intros release Hrel. eapply pooled_bind; [apply readOneBlob_pooled|].
    intros [err shards'| |] acq ret w1 Hread; try apply pooled_panic.
    eapply pooled_weaken; [apply Hrel|].
    intros u acq' ret' [-> Hret']. cbn. rewrite Hret', <-Hread. solve_Permutation. }
  destruct (readOneBlob _ _ _ _ _ _ _ _ _ _) as [[[err shards'| |]|] w1] eqn:Hread; try done.
  split.
  - destruct (putAll shards' w1) as [[[]|] w2] eqn:Hput.
    2:{ destruct (putAll_ok shards' w1) as (w' & Hw' & _). congruence. }
    eapply (pooled_conserved _ w (held shards) tt w2); [apply (Hall putAll)|].
    + intros s w'. apply putAll_pooled.
    + by rewrite bind_eq, Hread.
  - destruct (consumeLine _ _ _) as [[e|] w2] eqn:Hcons; [|done].
    eapply (pooled_conserved _ w (held shards) tt w2);
      [apply (Hall (λ s, _ ← consumeLine h {| pb_err := None; pb_blob := blob;
                                              pb_shards := s |}; mret tt))|].
    + intros s w'. eapply pooled_bind; [apply consumeLine_pooled|].
      intros e' acq ret w'' [-> Hret]. apply pooled_ret. by rewrite !app_nil_l.
    + rewrite bind_eq, Hread. cbv beta iota. by rewrite bind_eq, Hcons.
Qed.

Lemma genSortedVuidByIDC_silent {Σ} (h : Handler Σ) idc vuidPhys (w : world Σ) :
  pooled (genSortedVuidByIDC h idc vuidPhys) w silent.
Proof.
  assert (∀ disk (w' : world Σ), pooled (lookupDiskHost h disk) w' silent) as Hlookup.
  { intros disk w'. unfold lookupDiskHost, On. apply silent_bind.
    - apply RuptOn_silent. intros l w0. silence.
    - intros [hostIDC err] w0. silence. }
  assert (∀ units idx sortMap (w' : world Σ),
            pooled (sortLoop h idc idx units sortMap) w' silent) as Hsort.
  { induction units as [|phy units IH]; intros idx sortMap w'; cbn [sortLoop]; [silence|].
    apply silent_bind; [apply Hlookup|]. intros [hostIDC|] w0; apply IH. }
  assert (∀ keys sortMap vuids (w' : world Σ),
            pooled (shuffleGroups h keys sortMap vuids) w' silent) as Hshuffle.
  { induction keys as [|dis keys IH]; intros sortMap vuids w'; cbn [shuffleGroups]; [silence|].
    apply silent_bind; [silence|]. intros ids w0. apply IH. }
  unfold genSortedVuidByIDC. apply silent_bind; [apply Hsort|].
  intros sortMap w'. apply Hshuffle.
Qed.

Lemma allocShards_pooled {Σ} (h : Handler Σ) n size (w : world Σ) :
  pooled (allocShards h n size) w (λ bufs acq ret, ret = [] ∧ acq ≡ₚ held bufs).
Proof.
  revert w. induction n as [|n IH]; intros w; cbn [allocShards]; [by apply pooled_ret|].
  eapply pooled_bind; [apply pooled_alloc|].
  intros a acq ret w1 [-> Ha].
  eapply pooled_bind; [apply IH|].
  intros rest acq' ret' w2 [-> Hrest]. apply pooled_ret. split; [done|].
  rewrite app_nil_l, Hrest.
  change (?b :: rest) with ([b] ++ rest). rewrite held_app.
  destruct a as [buf|e].
  - destruct Ha as (id & Hid & ->). unfold held at 3. cbn. rewrite Hid. cbn. solve_Permutation.
  - subst acq. cbn. by rewrite app_nil_r.
Qed.

(** What one pass of the producer leaves with the line it makes: the
    buffers acquired and not yet returned are the shards of the line, and
    an error line has none. *)
Lemma produceBlob_pooled {Σ} (h : Handler Σ) clusterID blob pp sched late (w : world Σ) :
  pooled (produceBlob h clusterID blob pp sched late) w
    (λ r acq ret,
       match r.2 with
       | Line line =>
           ret ++ held (pb_shards line) ≡ₚ acq ∧
           (is_Some (pb_err line) → pb_shards line = [])
       | Stuck => True
       end).
Proof.
  unfold produceBlob. cbv zeta.
  apply pooled_after_silent.
  { assert (∀ w' : world Σ,
              pooled (v ← getVolume h clusterID (Vid blob) true;
                      match v with
                      | inr err => mret (inr err)
                      | inl bv =>
                          match slice (v_Units bv) 0
                                  (t_N (h_Tactic h (v_CodeMode bv)) +
                                   t_M (h_Tactic h (v_CodeMode bv))) with
                          | None => panic
                          | Some units =>
                              sortedVuids ← genSortedVuidByIDC h (h_IDC h) units;
                              if (length sortedVuids <? t_N (h_Tactic h (v_CodeMode bv)))%nat
                              then mret (inr (ErrBrokenBlob clusterID (Vid blob) (Bid blob)))
                              else mret (inl (bv, sortedVuids))
                          end
                      end) w' silent) as Hfresh.
    { intros w'. apply silent_bind; [unfold getVolume; silence|].
      intros [bv|e] w1; [|silence]. destruct (slice _ _ _); [|silence].
      apply silent_bind; [apply genSortedVuidByIDC_silent|]. intros vuids w2. silence. }
    destruct (pp_blobVolume pp) as [bv0|]; [|apply Hfresh].
    destruct (bool_decide _); [apply Hfresh|silence]. }
  intros [[bv sortedVuids]|err] w1; [|by apply pooled_ret].
  eapply pooled_bind; [apply allocShards_pooled|].
  intros shards acq ret w2 [-> Hshards].
  eapply pooled_bind; [by apply silent_emit|].
  intros u acq' ret' w3 [-> ->].
  eapply pooled_bind; [apply readOneBlob_pooled|].
  intros [[err|] shards'| |] acq' ret' w4 Hread; try (by apply pooled_ret).
  - eapply pooled_bind; [apply putAll_pooled|].
    intros u' acq'' ret'' w5 [-> Hput]. apply pooled_ret. cbn. split; [|done].
    rewrite !app_nil_r, Hput, Hshards. rewrite (comm (++)), Hread. solve_Permutation.
  - apply pooled_ret. cbn. split; [|by intros [? [=]]].
    rewrite !app_nil_r, Hshards, Hread. solve_Permutation.
Qed.

(** The buffers of a blob: when the producer sends an error line, every
    buffer acquired for the blob has been returned; when it sends the
    shards and the consuming loop takes the line, every buffer has been
    returned once the loop has written it, whatever the writer answered. *)
Theorem blob_buffers_conserved {Σ} (h : Handler Σ) clusterID blob pp sched late
    (w : world Σ) :
  match produceBlob h clusterID blob pp sched late w with
  | (Some (_, Line line), w1) =>
      match pb_err line with
      | Some _ => conserved [] w w1
      | None =>
          match consumeLine h line w1 with
          | (Some _, w2) => conserved [] w w2
          | (None, _) => True
          end
      end
  | _ => True
  end.
Proof.
  destruct (produceBlob h clusterID blob pp sched late w) as [[[pp' [line|]]|] w1] eqn:Hprod;
    try done.
  destruct (pb_err line) as [e|] eqn:Herr.
  - eapply (pooled_conserved
              ('(pp0, p) ← produceBlob h clusterID blob pp sched late;
               match p with
               | Line l => match pb_err l with Some _ => mret tt | None => panic end
               | Stuck => panic
               end) w [] tt w1).
    + eapply pooled_bind; [apply produceBlob_pooled|].
      intros [pp0 [l|]] acq ret w' Hl; [|apply pooled_panic]. cbn [snd] in Hl.
      destruct Hl as [Hl Hnone].
      destruct (pb_err l) eqn:Hl'; [|apply pooled_panic].
      apply pooled_ret. cbn [app]. rewrite <-Hl, Hnone by eauto. by rewrite app_nil_r.
    + rewrite bind_eq, Hprod. cbv beta iota. by rewrite Herr.
  - destruct (consumeLine h line w1) as [[e|] w2] eqn:Hcons; [|done].
    eapply (pooled_conserved
              ('(pp0, p) ← produceBlob h clusterID blob pp sched late;
               match p with
               | Line l => _ ← consumeLine h l; mret tt
               | Stuck => panic
               end) w [] tt w2).
    + eapply pooled_bind; [apply produceBlob_pooled|].
      intros [pp0 [l|]] acq ret w' Hl; [|apply pooled_panic]. cbn [snd] in Hl.
      destruct Hl as [Hl _].
      eapply pooled_bind; [apply consumeLine_pooled|].
      intros e' acq' ret' w'' [-> Hret]. apply pooled_ret. cbn [app].
      rewrite Hret, <-Hl. solve_Permutation.
    + rewrite bind_eq, Hprod. cbv beta iota. by rewrite bind_eq, Hcons.
Qed.

Lemma notPool_trace Δ : Forall notPool Δ → acquired Δ = [] ∧ returned Δ = [].
Proof.
  induction 1 as [|ev Δ Hev _ [IH1 IH2]]; [done|]. by destruct ev.
Qed.

Lemma transportEvent_notPool idx ev : transportEvent idx ev → notPool ev.
Proof. by destruct ev. Qed.

Lemma dataShardLoop_notPool {Σ} (h : Handler Σ) clusterID blob units :
  ∀ idx shardSize shardOffset remainSize data w,
  runs notPool (dataShardLoop h clusterID blob units idx shardSize shardOffset
                  remainSize data) w (λ _, True).
Proof.
  induction units as [|shard rest IH]; intros idx shardSize shardOffset remainSize data w;
    cbn [dataShardLoop]; [by apply runs_ret|].
  destruct (remainSize <=? 0); [by apply runs_ret|].
  eapply runs_bind with (Q := λ _, True).
  { match goal with |- context [getOneShardFromHost h ?x1 ?x2 ?x3 ?x4 ?x5 ?x6 ?x7] =>
      destruct (getOneShardFromHost_trace h x1 x2 x3 x4 x5 x6 x7 w) as (Δ & HΔ & HR)
    end.
    destruct (retryTrace_attempts _ _ _ _ _ _ HR) as (_ & _ & _ & _ & Hev & _).
    exists Δ. split; [done|]. split; [|by destruct (getOneShardFromHost _ _ _ _ _ _ _ _ _).1].
    eapply Forall_impl; [exact Hev|]. apply transportEvent_notPool. }
  intros [body [e|]] w1 _; [by apply runs_ret|].
  destruct body as [body|]; [|apply runs_panic].
  destruct (_ <=? length body)%nat; [apply IH|by apply runs_ret].
Qed.

(** The range buffer of the data-shard-only reader is returned on every
    path out of the function, a panic included. *)
Theorem getDataShardOnly_releases {Σ} (h : Handler Σ) clusterID blob (w : world Σ) :
  ∃ Δ, w_trace (getDataShardOnly h clusterID blob w).2 = Δ ++ w_trace w ∧
       returned Δ = acquired Δ ∧ (length (acquired Δ) ≤ 1)%nat.
Proof.
  unfold getDataShardOnly.
  destruct (ReadSize blob =? 0); [exists []; cbn; split; [done|]; split; [done|lia]|].
  rewrite bind_eq. unfold getVolume at 1. rewrite bind_eq. unfold emit at 1.
  rewrite oracle_eq. cbn [fst snd w_env w_trace w_nextBuf].
  destruct (h_getVolume h (w_env w) clusterID (Vid blob) true) as [σ [bv|e]]; cbn [fst snd].
  2:{ exists [EvGetVolume clusterID (Vid blob) true]. cbn. split; [done|]. split; [done|lia]. }
  unfold NewRangeBuffer.
  destruct (h_GetBufferSizes _ _ _) as [sizes|e].
  2:{ exists [EvGetVolume clusterID (Vid blob) true]. cbn. split; [done|]. split; [done|lia]. }
  rewrite !bind_eq. unfold memPoolAlloc. rewrite bind_eq, oracle_eq.
  cbn [fst snd w_env w_trace w_nextBuf].
  destruct (h_poolAlloc h σ _) as [σ' [bytes|e]]; cbn [fst snd];
    [|exists [EvGetVolume clusterID (Vid blob) true]; cbn; split; [done|]; split; [done|lia]].
  run_M.
  match goal with |- context [defer (memPoolPut ?b) ?m ?wa] =>
    assert (runs notPool m wa (λ _, True)) as (Δ & HΔ & Hev & _);
    [|unfold defer, memPoolPut; cbn [buf_id]; destruct (m wa) as [[r|] w1]]
  end.
  { destruct (ShardSize sizes =? 0); [apply runs_panic|].
    destruct (_ <? 0); [apply runs_panic|].
    destruct (slice _ _ _); [|apply runs_panic].
    eapply runs_bind; [apply dataShardLoop_notPool|].
    intros [[remain data]|err] w1 _; [|by apply runs_ret].
    destruct (0 <? remain); [by apply runs_ret|].
    unfold runs. cbn.
    destruct (h_Write h (w_env w1) _) as [σ2 [e|]]; cbn.
    all: eexists [EvWrite _]; split; [done|]; split; [by repeat constructor|done]. }
  all: cbn [fst snd] in *; run_M.
  all: destruct (notPool_trace Δ Hev) as [Ha Hr].
  all: eexists (EvPut _ :: Δ ++ [EvAlloc _ _; EvGetVolume _ _ _]).
  all: rewrite HΔ; cbn [w_trace app]; rewrite <-(assoc_L (++)); split; [done|].
  all: cbn [returned acquired]; rewrite returned_app, acquired_app, Ha, Hr; cbn; split; [done|lia].
Qed.

Lemma runPipeline_app {Σ} (h : Handler Σ) clusterID s1 s2 : ∀ st w,
  runPipeline h clusterID (s1 ++ s2) st w =
  match runPipeline h clusterID s1 st w with
  | (Some st', w') => runPipeline h clusterID s2 st' w'
  | (None, w') => (None, w')
  end.
Proof.
  induction s1 as [|[who choice] s1 IH]; intros st w; [done|].
  cbn [app runPipeline]. rewrite !bind_eq.
  destruct (if who then _ else _) as [[st1|] w1]; [apply IH|done].
Qed.

Lemma pipelineOver_runs {Σ} (h : Handler Σ) clusterID s : ∀ st w,
  pipelineOver st →
  ∃ st', runPipeline h clusterID s st w = (Some st', w) ∧ ps_result st' = ps_result st.
Proof.
  induction s as [|[who choice] s IH]; intros st w Hover; [by exists st|].
  destruct Hover as ([r Hr] & Hhold & Hblobs).
  cbn [runPipeline]. rewrite bind_eq. destruct who.
  - unfold producerStep. rewrite Hhold, Hblobs.
    destruct (ps_closed st || ps_stuck st); run_M.
    + destruct (IH st w) as (st' & -> & Hres); [by repeat split; [exists r|..]|].
      exists st'. split; [done|]. by rewrite Hres, ?Hr.
    + destruct (IH (setProducer st [] (ps_scheds st) (ps_producer st) None false true
                      (ps_ch st)) w) as (st' & -> & Hres).
      { by repeat split; [exists r|..]. }
      exists st'. split; [done|]. rewrite Hres. cbn. by rewrite ?Hr.
  - unfold consumerStep. rewrite Hr. run_M.
    destruct (IH st w) as (st' & -> & Hres); [by repeat split; [exists r|..]|].
    exists st'. split; [done|]. by rewrite Hres, ?Hr.
Qed.

Lemma runGet_general {Σ} (h : Handler Σ) location readSize offset s w blobs :
  genLocationBlobs location readSize offset = Some (inl blobs) →
  blobs ≠ [] →
  (h_GetServiceController h (w_env w) (loc_ClusterID location)).2 = None →
  dataShardOnly h location blobs = None →
  runGet h location readSize offset s w =
  (st ← generalPath h (loc_ClusterID location) blobs s; mret (ps_result st))
    {| w_env := (h_GetServiceController h (w_env w) (loc_ClusterID location)).1;
       w_trace := w_trace w; w_nextBuf := w_nextBuf w |}.
Proof.
  intros Hgen Hne Hsc Hfast. unfold runGet, Get. rewrite Hgen.
  destruct blobs as [|b bs]; [done|].
  cbn [TimedOn]. rewrite !bind_eq, oracle_eq, Hsc. cbv beta iota. run_M.
  unfold transfer. rewrite Hfast. by run_M.
Qed.

(** [Get] of an illegal read, a range past the size of the location, a
    blob size of zero or more bytes than the blobs hold, returns the
    illegal-arguments error; [Get] of zero bytes inside the location
    returns no error. Neither asks anything of a collaborator, and the
    function returned with them writes nothing and returns no error.
    [Get] panics when the capacity asked of [make] is out of range. *)
Theorem Get_without_blobs {Σ} (h : Handler Σ) location readSize offset (w : world Σ) :
  is_u64 readSize → is_u64 offset → offset + readSize < 2 ^ 64 →
  is_u64 (loc_Size location) → is_u32 (loc_BlobSize location) →
  Forall (λ r, is_u64 (s_MinBid r) ∧ is_u32 (s_Count r)) (loc_Blobs location) →
  totalCount (loc_Blobs location) < 2 ^ 64 →
  let bs := loc_BlobSize location in
  let total := totalCount (loc_Blobs location) in
  let cap := (1 + (readSize + offset mod bs) / bs) mod 2 ^ 64 in
  let idle (f : schedule → M Σ (option (option error))) :=
    ∀ s w', f s w' = (Some (Some None), w') in
  (loc_Size location < offset + readSize ∨ bs = 0 ∨
   (sizeofBlobGetArgs * cap <= maxAlloc ∧ 0 < readSize ∧ total * bs < offset + readSize) →
   ∃ f, Get h location readSize offset w = (Some (f, Some ErrIllegalArguments), w) ∧ idle f) ∧
  (readSize = 0 → offset <= loc_Size location → bs ≠ 0 →
   ∃ f, Get h location readSize offset w = (Some (f, None), w) ∧ idle f) ∧
  (offset + readSize <= loc_Size location → bs ≠ 0 →
   maxAlloc < sizeofBlobGetArgs * cap →
   Get h location readSize offset w = (None, w)).
Proof.
  intros Hrs Hoff Hsum Hls Hbs Hruns Htot bs total cap idle.
  destruct (genLocationBlobs_spec location readSize offset Hrs Hoff Hsum Hls Hbs Hruns Htot)
    as (Hpanic & Herr & Hcover).
  fold bs total cap in Hpanic, Herr, Hcover.
  unfold Get. split; [|split].
  - intros Hill. apply Herr in Hill.
    destruct (genLocationBlobs location readSize offset) as [[blobs|e]|]; try done.
    by eexists.
  - intros -> Hfit Hnz.
    destruct (genLocationBlobs location 0 offset) as [[blobs|e]|] eqn:Hgen.
    + rewrite (Hcover blobs eq_refl). cbn. by eexists.
    + exfalso. assert (is_err (Some (inr e) : option (list blobGetArgs + error))) as Hi by done.
      apply Herr in Hi. lia.
    + exfalso. destruct Hpanic as [Hp _]. specialize (Hp eq_refl).
      destruct Hp as (_ & _ & Hcap). subst cap.
      unfold is_u32 in Hbs. fold bs in Hbs.
      rewrite Z.add_0_l, Z.div_small in Hcap by (apply Z.mod_pos_bound; lia).
      by vm_compute in Hcap.
  - intros Hfit Hnz Hcap.
    destruct Hpanic as [_ Hp]. by rewrite Hp.
Qed.

(** C3: on [twoBlobs] with a writer that fails, [Get] returns the writer's
    error while three buffers of the second blob (6, 8 and 9 of the ten
    acquired) are never returned to the pool, whichever way the producer's
    [select] goes and however the schedule continues: the shard buffers of
    a line that is not consumed are lost. *)
Theorem writer_error_leaks_second_blob choice more :
  let r := runGet (cluster healthy (Some ErrWriteResponse)) twoBlobs 16 0
             (writerFails choice more) emptyWorld in
  r.1 = Some (Some (Some ErrWriteResponse)) ∧
  acquired (w_trace r.2) = [9; 8; 7; 6; 5; 4; 3; 2; 1; 0]%nat ∧
  leaked (w_trace r.2) = [9; 8; 6]%nat.
Proof.
  intros r. subst r.
  rewrite (runGet_general _ _ _ _ _ _
             [ {| Vid := 1; Bid := 1; BlobSize := 8; Offset := 0; ReadSize := 8 |};
               {| Vid := 1; Bid := 2; BlobSize := 8; Offset := 0; ReadSize := 8 |} ]);
    [|by vm_compute..].
  unfold generalPath, writerFails. cbn [sc_pipeline sc_blobs].
  rewrite bind_eq, runPipeline_app.
  match goal with |- context [runPipeline ?h ?c ?s ?st ?w] =>
    lazymatch s with more => fail | _ => idtac end;
    destruct (runPipeline h c s st w) as [o w'] eqn:E
  end.
  assert (∃ st', o = Some st' ∧ pipelineOver st' ∧
                 ps_result st' = Some (Some ErrWriteResponse) ∧
                 acquired (w_trace w') = [9; 8; 7; 6; 5; 4; 3; 2; 1; 0]%nat ∧
                 leaked (w_trace w') = [9; 8; 6]%nat) as (st' & -> & Hover & Hres & Hacq & Hleak).
  { destruct choice; vm_compute in E; injection E as <- <-; eexists; (split; [reflexivity|]);
      repeat split; eauto. }
  clear E.
  destruct (pipelineOver_runs (cluster healthy (Some ErrWriteResponse)) (loc_ClusterID twoBlobs)
              more st' w' Hover) as (st'' & -> & Hres').
  run_M. by rewrite Hres', Hres.
Qed.

(** The concrete cluster meets the assumptions made of the collaborators. *)
Lemma cluster_encoder_frame answer write σ codeMode bytes badIdx i :
  i ∉ badIdx →
  (h_ReconstructData (cluster answer write) σ codeMode bytes badIdx).2.1 !! i = bytes !! i.
Proof.
  intros Hi. cbn. rewrite list_lookup_imap.
  destruct (bytes !! i); [|done]. cbn. by rewrite bool_decide_eq_false_2.
Qed.

Lemma cluster_encoder_rebuilds answer write σ codeMode bytes badIdx n m :
  length bytes = n →
  (∀ i, (i < n)%nat → i ∉ badIdx → bytes !! i = Some (shardBytes i)) →
  ∃ σ' out, h_ReconstructData (cluster answer write) σ codeMode bytes badIdx
              = (σ', (out, None)) ∧
            length out = n ∧ ∀ i, (i < m)%nat → (m ≤ n)%nat → out !! i = Some (shardBytes i).
Proof.
  intros Hlen Hgood. eexists _, _. split; [reflexivity|]. split; [by rewrite length_imap|].
  intros i Hi Hmn. rewrite list_lookup_imap.
  destruct (lookup_lt_is_Some_2 bytes i) as [b Hb]; [lia|]. rewrite Hb. cbn.
  case_bool_decide as Hbad; [done|]. rewrite <-Hb. apply Hgood; [lia|done].
Qed.




(** The read of the first unit of the healthy cluster. *)
Lemma readOneShard_buffer_witness :
  0 <= 4 ∧
  let h := cluster healthy None in
  let args := {| a_DiskID := 100; a_Vuid := 10; a_Bid := 1; a_Offset := 0; a_Size := 4 |} in
  let t := hystrixDo h (getOneShardFromHost h "h0" 100 args 0 1 1 (Some false)) emptyWorld in
  let r := readOneShard h 1 1 4 fullBlob firstUnit (Some false) emptyWorld in
  match r.1 with
  | Some shard =>
      sd_index shard = 0%nat ∧
      if sd_status shard then
        ∃ body id, t.1 = Some (Some body, None) ∧
          w_trace r.2 = EvAlloc id 4 :: w_trace t.2 ∧
          sd_buffer shard = {| buf_id := Some id; buf_bytes := take 4 body |} ∧
          len (sd_buffer shard) = 4
      else
        sd_buffer shard = nilBuffer ∧
        (w_trace r.2 = w_trace t.2 ∨
         ∃ body id, t.1 = Some (Some body, None) ∧
           w_trace r.2 = EvPut id :: EvAlloc id 4 :: w_trace t.2)
  | None => t.1 = None ∧ r.2 = t.2
  end.
Proof.
  split; [lia|].
  exact (proj2 (readOneShard_buffer (cluster healthy None) 1 1 4 fullBlob firstUnit
                  (Some false) emptyWorld ltac:(lia))).
Defined.

(** The two blobs of [twoBlobs], read in full. *)
Lemma genLocationBlobs_cover_witness :
  (genLocationBlobs twoBlobs 16 0 = None ↔
     0 + 16 <= 16 ∧ 8 ≠ 0 ∧ maxAlloc < sizeofBlobGetArgs * 3) ∧
  (is_err (genLocationBlobs twoBlobs 16 0) ↔
     16 < 0 + 16 ∨ 8 = 0 ∨
     (sizeofBlobGetArgs * 3 <= maxAlloc ∧ 0 < 16 ∧ 2 * 8 < 0 + 16)) ∧
  (∀ blobs, genLocationBlobs twoBlobs 16 0 = Some (inl blobs) →
     blobs = coverBlob twoBlobs 16 0 <$> seqZ 0 2).
Proof.
  refine (genLocationBlobs_cover twoBlobs 16 0 _ _ _ _ _ _ _).
  all: unfold is_u64, is_u32; cbn; try lia.
  repeat constructor; cbn; lia.
Defined.

(** ** The entries of the read order *)

Lemma lookupDiskHost_found {Σ} (h : Handler Σ) disk w :
  (∀ σ, ∃ hi, (h_GetDiskHost h σ disk).2 = inl hi) →
  ∃ hi w', lookupDiskHost h disk w = (Some (Some hi), w').
Proof.
  intros Hok. unfold lookupDiskHost, On. cbn [RuptOn]. run_M.
  destruct (Hok (w_env w)) as [hi Hhi].
  destruct (h_GetDiskHost h (w_env w) disk) as [σ r]. cbn in Hhi. subst r. cbn.
  by eexists _, _.
Qed.

Lemma lookupDiskHost_lost {Σ} (h : Handler Σ) disk w :
  (∀ σ, ∃ e, (h_GetDiskHost h σ disk).2 = inr e) →
  ∃ w', lookupDiskHost h disk w = (Some None, w').
Proof.
  intros Hno. unfold lookupDiskHost, On. cbn [RuptOn]. run_M.
  destruct (Hno (w_env w)) as [e He].
  destruct (h_GetDiskHost h (w_env w) disk) as [σ r]. cbn in He. subst r. cbn.
  destruct (Hno σ) as [e' He'].
  destruct (h_GetDiskHost h σ disk) as [σ' r]. cbn in He'. subst r. cbn.
  by eexists.
Qed.

(** The resolved units are units of the volume, in ascending index; a unit
    whose disk is always resolved is among them, and a unit whose disk is
    never resolved is not. *)
Lemma resolvedUnits_spec {Σ} (h : Handler Σ) rest : ∀ pre w,
  ∃ rs w', resolvedUnits h (length pre) rest w = (Some rs, w') ∧
    Forall (λ r, unitAt (pre ++ rest) r.1 ∧ (length pre ≤ index r.1)%nat) rs ∧
    StronglySorted lt (index <$> (fst <$> rs)) ∧
    (∀ i phy, rest !! i = Some phy →
       ((∀ σ, ∃ hi, (h_GetDiskHost h σ (u_DiskID phy)).2 = inl hi) →
          (length pre + i)%nat ∈ index <$> (fst <$> rs)) ∧
       ((∀ σ, ∃ e, (h_GetDiskHost h σ (u_DiskID phy)).2 = inr e) →
          (length pre + i)%nat ∉ index <$> (fst <$> rs))).
Proof.
  induction rest as [|phy rest IH]; intros pre w.
  { exists [], w. split; [done|]. split; [constructor|]. split; [constructor|]. by intros i phy. }
  cbn [resolvedUnits]. rewrite bind_eq.
  destruct (lookupDiskHost_total h (u_DiskID phy) w) as (r & Δ & w1 & Hl & _ & _).
  rewrite Hl. cbv beta iota. rewrite bind_eq.
  destruct (IH (pre ++ [phy]) w1) as (rs & w2 & Hrs & Hall & Hsorted & Hmem).
  rewrite length_app in Hrs, Hall, Hmem. cbn [length] in Hrs, Hall, Hmem.
  rewrite Nat.add_1_r in Hrs, Hall, Hmem.
  rewrite Hrs. run_M. rewrite <-(assoc_L (++)) in Hall. cbn [app] in Hall.
  assert (Hbeyond : Forall (λ j, (length pre < j)%nat) (index <$> (fst <$> rs))).
  { apply Forall_fmap, Forall_fmap. eapply Forall_impl; [exact Hall|].
    intros x [_ Hx]. cbn. lia. }
  assert (Hall' : Forall (λ r0, unitAt (pre ++ phy :: rest) r0.1 ∧ (length pre ≤ index r0.1)%nat) rs).
  { eapply Forall_impl; [exact Hall|]. intros x [? ?]. split; [done|lia]. }
  assert (Hnot : length pre ∉ index <$> (fst <$> rs)).
  { intros Hin. eapply Forall_forall in Hbeyond; [|exact Hin]. lia. }
  eexists _, w2. split; [reflexivity|].
  destruct r as [hostIDC|].
  - split; [|split].
    + constructor; [|done]. cbn. split; [|done].
      exists phy. cbn. split; [|done]. by rewrite list_lookup_middle.
    + cbn. constructor; [done|]. done.
    + intros [|i] phy' Hi; cbn in Hi.
      * injection Hi as <-. rewrite Nat.add_0_r. split.
        -- intros _. cbn. left.
        -- intros Hno. destruct (lookupDiskHost_lost h (u_DiskID phy) w Hno) as [w' Hl'].
           rewrite Hl in Hl'. done.
      * destruct (Hmem i phy' Hi) as [Hyes Hno].
        replace (length pre + S i)%nat with (S (length pre) + i)%nat by lia. split.
        -- intros Hok. cbn. right. by apply Hyes.
        -- intros Hlost. cbn. intros [Heq|Hin]%elem_of_cons; [lia|]. by apply Hno.
  - split; [done|]. split; [done|].
    intros [|i] phy' Hi; cbn in Hi.
    + injection Hi as <-. rewrite Nat.add_0_r. split; [|done].
      intros Hok. destruct (lookupDiskHost_found h (u_DiskID phy) w Hok) as (hi & w' & Hl').
      rewrite Hl in Hl'. done.
    + destruct (Hmem i phy' Hi) as [Hyes Hno].
      by replace (length pre + S i)%nat with (S (length pre) + i)%nat by lia.
Qed.

Section order_units.

Context {Σ : Type} (h : Handler Σ).

Hypothesis Hshuffle : ∀ σ l, (h_Shuffle h σ l).2 ≡ₚ l.

Lemma sorted_entries idc vuidPhys w :
  ∃ vuids w', genSortedVuidByIDC h idc vuidPhys w = (Some vuids, w') ∧
    NoDup (index <$> vuids) ∧
    Forall (unitAt vuidPhys) vuids ∧
    (∀ i phy, vuidPhys !! i = Some phy →
       (∀ σ, ∃ e, (h_GetDiskHost h σ (u_DiskID phy)).2 = inr e) →
       i ∉ index <$> vuids) ∧
    ((∀ σ phy, phy ∈ vuidPhys → ∃ hi, (h_GetDiskHost h σ (u_DiskID phy)).2 = inl hi) →
     index <$> vuids ≡ₚ seq 0 (length vuidPhys)).
Proof.
  destruct (genSortedVuidByIDC_groups h Hshuffle idc vuidPhys w)
    as (rs & gs & Δ & w' & Hr & Hs & _ & _ & Hgs).
  destruct (resolvedUnits_spec h vuidPhys [] w) as (rs' & w1 & Hr' & Hall & Hsorted & Hmem).
  cbn [length app] in Hr', Hall, Hmem. rewrite Hr' in Hr. cbn in Hr. injection Hr as ->.
  assert (Hperm : concat gs ≡ₚ fst <$> rs).
  { rewrite <-(groups_all idc rs).
    repeat match goal with
           | H : Forall2 _ (_ :: _) _ |- _ =>
               apply Forall2_cons_inv_l in H as (? & ? & ? & ? & ->)
           | H : Forall2 _ [] _ |- _ => apply Forall2_nil_inv_l in H as ->
           end.
    cbn [concat]. rewrite app_nil_r.
    repeat match goal with H : _ ≡ₚ groupAt _ _ _ |- _ => rewrite H; clear H end.
    done. }
  assert (Hnd : NoDup (index <$> (fst <$> rs))).
  { clear -Hsorted. induction Hsorted as [|x l _ IH Hx]; constructor; [|done].
    intros Hin. eapply Forall_forall in Hx; [|exact Hin]. lia. }
  assert (Hidx : index <$> concat gs ≡ₚ index <$> (fst <$> rs)) by (by rewrite Hperm).
  exists (concat gs), w'. split; [done|]. split; [by rewrite Hidx|]. split; [|split].
  - rewrite Hperm. apply Forall_fmap. eapply Forall_impl; [exact Hall|]. by intros x [? _].
  - intros i phy Hi Hlost. destruct (Hmem i phy Hi) as [_ Hno]. rewrite Hidx. by apply Hno.
  - intros Hok. rewrite Hidx. apply NoDup_Permutation; [done|apply NoDup_seq|].
    intros i. rewrite elem_of_seq. split.
    + intros (sv & -> & (r & -> & Hin)%list_elem_of_fmap)%list_elem_of_fmap.
      eapply Forall_forall in Hall; [|exact Hin]. destruct Hall as [(phy & Hphy & _) _].
      apply lookup_lt_Some in Hphy. lia.
    + intros [_ Hi]. destruct (lookup_lt_is_Some_2 vuidPhys i) as [phy Hphy]; [lia|].
      destruct (Hmem i phy Hphy) as [Hyes _]. apply Hyes.
      intros σ. apply Hok. by eapply list_elem_of_lookup_2.
Qed.

(** The read order holds every unit at most once, under the index the unit
    has in the volume and with the vuid, disk and host of that unit. A unit
    whose disk the service controller never resolves is left out, and when
    every disk is resolved the order is a permutation of the whole slice. *)
Theorem genSortedVuidByIDC_units idc vuidPhys w :
  ∃ vuids w', genSortedVuidByIDC h idc vuidPhys w = (Some vuids, w') ∧
    NoDup (index <$> vuids) ∧
    Forall (unitAt vuidPhys) vuids ∧
    (∀ i phy, vuidPhys !! i = Some phy →
       (∀ σ, ∃ e, (h_GetDiskHost h σ (u_DiskID phy)).2 = inr e) →
       i ∉ index <$> vuids) ∧
    ((∀ σ phy, phy ∈ vuidPhys → ∃ hi, (h_GetDiskHost h σ (u_DiskID phy)).2 = inl hi) →
     index <$> vuids ≡ₚ seq 0 (length vuidPhys)).
Proof. apply sorted_entries. Qed.

End order_units.

(** ** A read that finds the stop channel closed *)

(** A shard read that sees the stop channel closed sends no request to a
    storage node, takes no buffer from the pool and reports a failed shard
    for its index, whatever the circuit breaker decides. *)
Theorem readOneShard_after_stop {Σ} (h : Handler Σ) clusterID vid shardSize blob vu
    (w : world Σ) :
  readOneShard h clusterID vid shardSize blob vu (Some true) w =
  (Some {| sd_index := index vu; sd_status := false; sd_buffer := nilBuffer |},
   {| w_env := (h_hystrix h (w_env w)).1; w_trace := w_trace w; w_nextBuf := w_nextBuf w |}).
Proof.
  unfold readOneShard, hystrixDo, getOneShardFromHost. rewrite !bind_eq, oracle_eq.
  destruct (h_hystrix h (w_env w)) as [σ []]; cbn [fst snd RuptOn shardAttempt]; by run_M.
Qed.

(** ** Which disk a transport call punishes *)

Lemma punishesAsked_app a t1 t2 :
  punishesAsked a (t1 ++ t2) ↔ punishesAsked a t1 ∧ punishesAsked (lastAsked a t1) t2.
Proof.
  revert a. induction t1 as [|ev t1 IH]; intros a; [cbn; tauto|].
  destruct ev as [? ? ? [?|]| | | | | | | | | | | | | | |]; cbn; rewrite ?IH; tauto.
Qed.

Lemma punishesOwn_app Δ1 Δ2 : punishesOwn Δ1 → punishesOwn Δ2 → punishesOwn (Δ2 ++ Δ1).
Proof.
  intros H1 H2 a. rewrite reverse_app. apply punishesAsked_app. split; [apply H1|apply H2].
Qed.

Lemma shardAttempt_punishes {Σ} (h : Handler Σ) idx c v cancelChan tg w :
  aimed tg →
  ∃ Δ, w_trace (shardAttempt h idx c v cancelChan tg w).2 = Δ ++ w_trace w ∧
       punishesOwn Δ ∧
       match (shardAttempt h idx c v cancelChan tg w).1 with
       | Some (tg', _) => aimed tg'
       | None => True
       end.
Proof.
  intros Haim. unfold aimed in *.
  unfold shardAttempt, afterSwitch, punishDisk, punishDiskWith, getVolume.
  destruct cancelChan as [[]|]; run_M.
  1: by exists [].
  all: destruct (h_RangeGetShard _ _ _ _) as [σ [body|err]]; run_M.
  all: try (give_delta; split; [intros a; by cbn|done]).
  all: destruct err; cbn; run_M.
  all: repeat case_match; simplify_eq/=; give_delta.
  all: split; [intros a; cbn; rewrite ?Haim; by repeat split|done].
Qed.

Lemma RuptOn_inv {Σ L} (I : L → Prop) (P : list event → Prop)
    (caller : L → M Σ (L * (bool * option error))) :
  P [] → (∀ Δ1 Δ2, P Δ1 → P Δ2 → P (Δ2 ++ Δ1)) → (∀ d, P [EvBackoff d]) →
  (∀ l w, I l → ∃ Δ, w_trace (caller l w).2 = Δ ++ w_trace w ∧ P Δ ∧
     match (caller l w).1 with
     | Some (l', _) => I l'
     | None => True
     end) →
  ∀ n d l w, I l →
    ∃ Δ, w_trace (RuptOn n d caller l w).2 = Δ ++ w_trace w ∧ P Δ ∧
      match (RuptOn n d caller l w).1 with
      | Some (l', _) => I l'
      | None => True
      end.
Proof.
  intros Hnil Happ Hback Hc n. induction n as [|n IH]; intros d l w Hl.
  { exists []. by repeat split. }
  cbn [RuptOn]. rewrite bind_eq.
  destruct (Hc l w Hl) as (Δ & HΔ & HP & HI).
  destruct (caller l w) as [[[l' [intr err]]|] w1]; cbn [fst snd] in *; [|by exists Δ].
  destruct err as [e|]; [|by exists Δ].
  destruct intr; [by exists Δ|].
  destruct n as [|n]; [by exists Δ|].
  run_M.
  destruct (IH (2 * d) l' {| w_env := w_env w1; w_trace := EvBackoff d :: w_trace w1;
                             w_nextBuf := w_nextBuf w1 |} HI) as (Δ' & HΔ' & HP' & HI').
  exists (Δ' ++ EvBackoff d :: Δ). split.
  - rewrite HΔ'. cbn [w_trace]. rewrite HΔ. by rewrite <-(assoc_L (++)).
  - split; [|done]. apply Happ; [|done]. apply (Happ Δ [EvBackoff d]); [done|apply Hback].
Qed.

(** One transport call punishes only the disk it has just asked: every
    punishment follows a failed request and names the host and the disk of
    that request, also after the call has moved to the disk of a refreshed
    volume. *)
Theorem getOneShardFromHost_punishes_asked {Σ} (h : Handler Σ) hst disk args idx c v
    cancelChan (w : world Σ) :
  a_DiskID args = disk →
  ∃ Δ, w_trace (getOneShardFromHost h hst disk args idx c v cancelChan w).2 = Δ ++ w_trace w ∧
       punishesAsked None (reverse Δ).
Proof.
  intros Haim. unfold getOneShardFromHost. rewrite bind_eq.
  destruct (RuptOn_inv aimed punishesOwn (shardAttempt h idx c v cancelChan))
    with (n := 3%nat) (d := 200) (w := w)
         (l := {| tg_host := hst; tg_diskID := disk; tg_args := args; tg_rbody := None |})
    as (Δ & HΔ & HP & _).
  - by intros a.
  - apply punishesOwn_app.
  - by intros d a.
  - intros l w0 Hl. apply shardAttempt_punishes, Hl.
  - done.
  - exists Δ. split; [|apply HP].
    destruct (RuptOn _ _ _ _ _) as [[[tg rerr]|] w1]; done.
Qed.

(** ** What the data-shard-only reader writes *)

Section fast_bytes.

Context {Σ : Type} (h : Handler Σ).

Variables (clusterID : Z) (blob : blobGetArgs) (bv : VolumePhy) (sizes : BufferSizes).

Variable truth : nat → list byte.

Let tactic := h_Tactic h (v_CodeMode bv).

Let N := t_N tactic.

Let shardSize := ShardSize sizes.

Let stored := concat (truth <$> seq 0 N).

Hypothesis Hvolume : ∀ σ, (h_getVolume h σ clusterID (Vid blob) true).2 = inl bv.

Hypothesis Hsizes : h_GetBufferSizes h (int64 (BlobSize blob)) tactic = inl sizes.

Hypothesis Hpool : ∀ σ size, ∃ bytes, (h_poolAlloc h σ size).2 = inl bytes.

Hypothesis HshardSize : 0 < shardSize.

Hypothesis Hint : Z.of_nat N * shardSize < 2 ^ 63.

Hypothesis Hunits : (N ≤ length (v_Units bv))%nat.

Hypothesis Hoffset : 0 <= Offset blob.

Hypothesis Hread : 0 < ReadSize blob.

Hypothesis Hfits : Offset blob + ReadSize blob <= Z.of_nat N * shardSize.

Hypothesis Htruthlen : ∀ i, (i < N)%nat → length (truth i) = Z.to_nat shardSize.

Hypothesis Hnode : ∀ σ i phy off size,
  v_Units bv !! i = Some phy → (i < N)%nat →
  0 <= off → 0 < size → off + size <= shardSize →
  (h_RangeGetShard h σ (u_Host phy)
     {| a_DiskID := u_DiskID phy; a_Vuid := u_Vuid phy; a_Bid := Bid blob;
        a_Offset := off; a_Size := size |}).2
  = inl (take (Z.to_nat size) (drop (Z.to_nat off) (truth i))).

(** The shards a range of [remain] bytes that starts [off] bytes into a
    shard reaches. *)
Definition shardsOf (off remain : Z) : nat :=
  if remain <=? 0 then 0%nat else Z.to_nat ((off + remain - 1) / shardSize + 1).

Lemma dataShardLoop_reads units : ∀ idx shardOffset remain data (w : world Σ),
  (∀ j phy, units !! j = Some phy → v_Units bv !! (idx + j)%nat = Some phy) →
  (idx + length units = N)%nat →
  0 <= shardOffset < shardSize → 0 <= remain →
  Z.of_nat idx * shardSize + shardOffset + remain <= Z.of_nat N * shardSize →
  ∃ w' Δ,
    dataShardLoop h clusterID blob units idx shardSize shardOffset remain data w
    = (Some (Running
         (0, data ++ take (Z.to_nat remain)
                       (drop (Z.to_nat (Z.of_nat idx * shardSize + shardOffset)) stored))), w') ∧
    w_trace w' = Δ ++ w_trace w ∧
    written (w_trace w') = written (w_trace w) ∧
    acquired Δ = [] ∧ returned Δ = [] ∧
    requestedUnits Δ = reverse (seq idx (shardsOf shardOffset remain)).
Proof.
  induction units as [|shard rest IH]; intros idx shardOffset remain data w Hu Hn Hoff Hrem Hfit.
  { cbn in Hn. assert (remain = 0) as -> by nia.
    exists w, []. cbn. rewrite take_0, app_nil_r. by repeat split. }
  cbn [dataShardLoop]. destruct (Z.leb_spec remain 0) as [Hz|Hpos].
  { assert (remain = 0) as -> by lia.
    exists w, []. cbn. rewrite take_0, app_nil_r. by repeat split. }
  set (toReadSize := minU64 remain (u64 (shardSize - shardOffset))).
  assert (Hidx : (idx < N)%nat) by (cbn in Hn; lia).
  assert (Hone : shardSize <= Z.of_nat N * shardSize) by nia.
  assert (HtoRead : toReadSize = Z.min remain (shardSize - shardOffset)).
  { unfold toReadSize. rewrite minU64_min. unfold u64. rewrite Z.mod_small; [done|]. lia. }
  assert (Hsmall : toReadSize < 2 ^ 63) by lia.
  rewrite (int64_small toReadSize) by lia.
  pose proof (Hu 0%nat shard eq_refl) as Hshard. rewrite Nat.add_0_r in Hshard.
  rewrite bind_eq.
  erewrite getOneShardFromHost_first
    by (apply (Hnode _ idx shard shardOffset toReadSize Hshard); lia).
  cbv beta iota.
  set (body := take (Z.to_nat toReadSize) (drop (Z.to_nat shardOffset) (truth idx))).
  assert (Hbody : length body = Z.to_nat toReadSize).
  { unfold body. rewrite length_take, length_drop, Htruthlen by done. lia. }
  rewrite Hbody, Nat.leb_refl.
  set (w1 := {| w_env := _; w_trace := _; w_nextBuf := _ |}).
  assert (Hrest : u64 (remain - toReadSize) = remain - toReadSize).
  { apply u64_small. unfold is_u64. nia. }
  rewrite Hrest.
  destruct (IH (S idx) 0 (remain - toReadSize) (data ++ take (Z.to_nat toReadSize) body) w1)
    as (w' & Δ & Hrun & HΔ & Hwr & Hacq & Hret & Hreq).
  { intros j phy Hj. replace (S idx + j)%nat with (idx + S j)%nat by lia. by apply Hu. }
  { cbn in Hn. lia. }
  { lia. }
  { lia. }
  { rewrite Nat2Z.inj_succ. nia. }
  exists w', (Δ ++ [EvRangeGetShard idx (u_Host shard)
                     {| a_DiskID := u_DiskID shard; a_Vuid := u_Vuid shard; a_Bid := Bid blob;
                        a_Offset := shardOffset; a_Size := toReadSize |} None]).
  rewrite Hrun. split.
  - do 3 f_equal. rewrite <-(assoc_L (++)). f_equal.
    rewrite take_ge by (rewrite Hbody; lia).
    replace (Z.to_nat remain) with (Z.to_nat toReadSize + Z.to_nat (remain - toReadSize))%nat
      by lia.
    rewrite take_add, drop_drop. f_equal. f_equal.
    + unfold body, stored.
      replace (Z.to_nat (Z.of_nat idx * shardSize + shardOffset))
        with (idx * Z.to_nat shardSize + Z.to_nat shardOffset)%nat by nia.
      symmetry. apply (concat_chunk truth (Z.to_nat shardSize) N); [done|done|lia].
    + destruct (Z.le_gt_cases remain (shardSize - shardOffset)) as [Hlast|Hmore].
      * replace (Z.to_nat (remain - toReadSize)) with 0%nat by lia. by rewrite !take_0.
      * do 2 f_equal. rewrite Nat2Z.inj_succ. nia.
  - split; [by rewrite HΔ, <-(assoc_L (++))|]. split; [by rewrite Hwr|].
    rewrite acquired_app, returned_app, requestedUnits_app, Hacq, Hret, Hreq.
    split; [done|]. split; [done|]. cbn [requestedUnits].
    unfold shardsOf at 2. destruct (Z.leb_spec remain 0); [lia|].
    assert (Z.to_nat ((shardOffset + remain - 1) / shardSize + 1)
            = S (shardsOf 0 (remain - toReadSize))) as ->.
    { unfold shardsOf. destruct (Z.leb_spec (remain - toReadSize) 0) as [Hlast|Hmore].
      - assert ((shardOffset + remain - 1) / shardSize = 0) as ->; [|done].
        apply Z.div_small. lia.
      - assert (toReadSize = shardSize - shardOffset) as Ht by lia.
        replace (shardOffset + remain - 1)
          with ((0 + (remain - toReadSize) - 1) + 1 * shardSize) by lia.
        rewrite Z.div_add by lia.
        assert (0 <= (0 + (remain - toReadSize) - 1) / shardSize)
          by (apply Z.div_pos; lia).
        lia. }
    cbn [seq]. by rewrite reverse_cons.
Qed.

(** When the volume is known, the pool delivers and every data unit
    answers with the bytes asked of its shard, the data-shard-only reader
    asks exactly the data units the range reaches, each once and in
    ascending order, and hands the bytes [Offset, Offset + ReadSize) of the
    stored data shards to the writer in one write; its result is the
    writer's. *)
Theorem getDataShardOnly_reads_range (w : world Σ) :
  let data := take (Z.to_nat (ReadSize blob)) (drop (Z.to_nat (Offset blob)) stored) in
  ∃ σ w' Δ,
    getDataShardOnly h clusterID blob w =
      (Some (match (h_Write h σ data).2 with
             | Some _ => Some ErrWriteResponse
             | None => None
             end), w') ∧
    w_trace w' = Δ ++ w_trace w ∧
    written (w_trace w') = written (w_trace w) ++ data ∧
    requestedUnits Δ =
      reverse (seq (Z.to_nat (Offset blob / shardSize))
                 (Z.to_nat ((Offset blob + ReadSize blob - 1) / shardSize
                            - Offset blob / shardSize + 1))).
Proof.
  intros data.
  assert (HN : 0 < Z.of_nat N) by nia.
  unfold getDataShardOnly. destruct (Z.eqb_spec (ReadSize blob) 0) as [|_]; [lia|].
  unfold getVolume. rewrite !bind_eq. unfold emit at 1. rewrite oracle_eq, Hvolume.
  cbv beta iota. cbn [fst snd w_env w_trace w_nextBuf]. fold tactic.
  unfold NewRangeBuffer. rewrite Hsizes, !bind_eq.
  unfold memPoolAlloc. rewrite !bind_eq, oracle_eq. cbn [fst snd w_env w_trace w_nextBuf].
  set (σ1 := (h_getVolume h (w_env w) clusterID (Vid blob) true).1).
  set (size := int64 (u64 (Offset blob + ReadSize blob)) - int64 (Offset blob)).
  destruct (Hpool σ1 size) as [bytes Hbytes]. rewrite Hbytes. cbv beta iota.
  run_M. fold shardSize.
  set (buf := {| buf_id := Some (w_nextBuf w); buf_bytes := resize (Z.to_nat size) x00 bytes |}).
  set (w0 := {| w_env := (h_poolAlloc h σ1 size).1;
                w_trace := EvAlloc (w_nextBuf w) size :: EvGetVolume clusterID (Vid blob) true
                             :: w_trace w;
                w_nextBuf := S (w_nextBuf w) |}).
  unfold defer.
  destruct (Z.eqb_spec shardSize 0) as [|_]; [lia|].
  rewrite (int64_small (Offset blob)) by nia.
  rewrite Z.quot_div_nonneg, Z.rem_mod_nonneg by lia.
  set (first := Offset blob / shardSize).
  assert (Hfirst : 0 <= first < Z.of_nat N).
  { unfold first. split; [apply Z.div_pos; lia|]. apply Z.div_lt_upper_bound; nia. }
  destruct (Z.ltb_spec first 0) as [|_]; [lia|].
  unfold slice.
  pose proof (Z.mod_pos_bound (Offset blob) shardSize HshardSize) as Hmod.
  pose proof (Z.div_mod (Offset blob) shardSize ltac:(lia)) as Hdm. fold first in Hdm.
  destruct (dataShardLoop_reads (take (N - Z.to_nat first) (drop (Z.to_nat first) (v_Units bv)))
              (Z.to_nat first) (Offset blob mod shardSize) (ReadSize blob) [] w0)
    as (w1 & Δ & Hrun & HΔ & Hwr & _ & _ & Hreq).
  { intros j phy Hj. apply lookup_take_Some in Hj as [Hj _]. by rewrite lookup_drop in Hj. }
  { rewrite length_take, length_drop. lia. }
  { done. }
  { lia. }
  { rewrite Z2Nat.id by lia. nia. }
  change (t_N tactic) with N.
  destruct (Nat.leb_spec (Z.to_nat first) N) as [_|]; [|lia].
  destruct (Nat.leb_spec N (length (v_Units bv))) as [_|]; [|lia].
  cbn [andb]. rewrite Hrun. cbv beta iota.
  destruct (Z.ltb_spec 0 0) as [|_]; [lia|].
  cbn [app]. rewrite (int64_small (ReadSize blob)) by nia.
  replace (Z.to_nat (Z.of_nat (Z.to_nat first) * shardSize + Offset blob mod shardSize))
    with (Z.to_nat (Offset blob)) by nia.
  fold data.
  assert (Hlen : length data = Z.to_nat (ReadSize blob)).
  { unfold data, stored. rewrite length_take, length_drop.
    rewrite (length_concat_uniform _ (Z.to_nat shardSize)).
    - rewrite length_fmap, length_seq. nia.
    - apply Forall_fmap, Forall_forall. intros i Hi%elem_of_seq. apply Htruthlen. lia. }
  rewrite take_ge by lia.
  exists (w_env w1). destruct (h_Write h (w_env w1) data) as [σ2 [e|]]; cbn [fst snd].
  all: unfold memPoolPut; cbn [buf_id buf]; run_M.
  all: eexists _, (EvPut (w_nextBuf w) :: EvWrite data :: Δ ++
                   [EvAlloc (w_nextBuf w) size; EvGetVolume clusterID (Vid blob) true]).
  all: split; [reflexivity|]; cbn [w_trace].
  all: rewrite HΔ; split; [subst w0; cbn; by rewrite <-(assoc_L (++))|].
  all: rewrite <-HΔ; cbn [written]; rewrite Hwr; split; [by subst w0|].
  all: cbn [requestedUnits]; rewrite requestedUnits_app, Hreq; cbn [requestedUnits].
  all: rewrite app_nil_r; f_equal; f_equal.
  all: unfold shardsOf; destruct (Z.leb_spec (ReadSize blob) 0); [lia|].
  all: f_equal.
  all: replace (Offset blob mod shardSize + ReadSize blob - 1)
         with ((Offset blob + ReadSize blob - 1) + (- first) * shardSize) by lia.
  all: rewrite Z.div_add by lia; lia.
Qed.

End fast_bytes.

(** ** The pipeline of [Get] *)

Ltac close_pipe := repeat (split; [done|]); first [done | intros ? ?; congruence].

Section pipeline.

Context {Σ : Type} (h : Handler Σ).

Variables (clusterID : Z) (I : pipeProducer → Prop) (fair : list nat * list bool → Prop).

Variables (data : blobGetArgs → list byte) (blobs : list blobGetArgs) (base : list byte).

Hypothesis Hpass : ∀ blob pp sl (w : world Σ), blob ∈ blobs → I pp → fair sl →
  ∃ pp' line w',
    produceBlob h clusterID blob pp sl.1 sl.2 w = (Some (pp', Line line), w') ∧
    I pp' ∧ goodLine (data blob) blob line ∧
    written (w_trace w') = written (w_trace w).

Hypothesis Hwriter : ∀ σ bytes, (h_Write h σ bytes).2 = None.

Let inv := pipeInv I fair data blobs base.

Lemma producerStep_inv choice st (w : world Σ) :
  inv (w_trace w) st →
  ∃ st' w', producerStep h clusterID choice st w = (Some st', w') ∧
    inv (w_trace w') st' ∧ ps_result st' = ps_result st ∧
    ((pipeWork st' < pipeWork st)%nat ∨
     st' = st ∧ (ps_closed st = true ∨ is_Some (ps_hold st) ∧ is_Some (ps_ch st))).
Proof.
  intros (served & sent & Hblobs & Hsent & Hwr & HI & Hfair & Hlen & Hstuck & Hclose
          & Hclosed & Hres).
  unfold producerStep. rewrite Hstuck, orb_false_r.
  destruct (ps_closed st) eqn:Hc.
  { exists st, w. split; [done|]. split; [|split; [done|right; eauto]].
    exists served, sent. rewrite Hc. repeat (split; [done|]). done. }
  assert (Hnores : ps_result st = None).
  { destruct (ps_result st) as [r|] eqn:Hr; [|done]. by destruct (Hres r eq_refl) as (_ & ? & _). }
  destruct (ps_hold st) as [line|] eqn:Hhold.
  - unfold pending in Hsent. rewrite Hhold in Hsent.
    assert (pb_err line = None) as Herr.
    { apply Forall2_app_inv_r in Hsent as (s1 & s2 & _ & H2 & _).
      apply Forall2_cons_inv_r in H2 as (b & ? & (? & _) & _ & _). done. }
    rewrite Herr, Hclose. cbn [andb].
    destruct (ps_ch st) as [held|] eqn:Hch.
    + rewrite bool_decide_false by done.
      exists st, w. split; [done|]. split; [|split; [done|]].
      * exists served, sent. unfold pending. rewrite ?Hhold, ?Hch, ?Hc. close_pipe.
      * right. split; [done|]. right. eauto.
    + rewrite bool_decide_true by done. run_M.
      eexists _, w. split; [reflexivity|]. split; [|split; [done|]].
      * exists served, sent. unfold pending, setProducer. cbn.
        cbn in Hsent. close_pipe.
      * left. unfold pipeWork, setProducer. cbn. rewrite ?Hhold, ?Hch, ?Hc. cbn. lia.
  - destruct (ps_blobs st) as [|blob rest] eqn:Hb.
    + run_M. eexists _, w. split; [reflexivity|]. split; [|split; [done|]].
      * exists served, sent. unfold pending, setProducer. cbn.
        unfold pending in Hsent. rewrite Hhold in Hsent. close_pipe.
      * left. unfold pipeWork, setProducer. cbn. rewrite ?Hhold, ?Hb, ?Hc. cbn. lia.
    + destruct (ps_scheds st) as [|sl sls] eqn:Hs; [cbn in Hlen; lia|].
      cbn [hd tl]. apply Forall_cons in Hfair as [Hsl Hsls].
      destruct (Hpass blob (ps_producer st) sl w) as (pp' & line & w' & Hp & HI' & Hgood & Hw').
      { rewrite Hblobs. set_solver. }
      { done. }
      { done. }
      destruct sl as [sched late]. cbn [fst snd] in Hp. rewrite bind_eq, Hp. run_M.
      eexists _, w'. split; [reflexivity|]. split; [|split; [done|]].
      * exists served, (sent ++ [blob]). unfold pending, setProducer. cbn.
        unfold pending in Hsent. rewrite Hhold in Hsent. cbn in Hsent.
        rewrite app_nil_r in Hsent.
        split; [by rewrite Hblobs, <-(assoc_L (++))|].
        split; [apply Forall2_app; [done|constructor; [done|constructor]]|].
        split; [by rewrite Hw'|].
        cbn in Hlen. split; [done|]. split; [done|]. split; [lia|]. close_pipe.
      * left. unfold pipeWork, setProducer. cbn. rewrite ?Hhold, ?Hb, ?Hc. cbn. lia.
Qed.

Lemma consumerStep_inv st (w : world Σ) :
  inv (w_trace w) st →
  ∃ st' w', consumerStep h st w = (Some st', w') ∧
    inv (w_trace w') st' ∧
    (∀ r, ps_result st = Some r → ps_result st' = Some r) ∧
    (pipeWork st' ≤ pipeWork st)%nat ∧
    (ps_result st = None →
       (is_Some (ps_ch st) → (pipeWork st' < pipeWork st)%nat) ∧
       (ps_ch st = None → ps_closed st = true → is_Some (ps_result st'))).
Proof.
  intros (served & sent & Hblobs & Hsent & Hwr & HI & Hfair & Hlen & Hstuck & Hclose
          & Hclosed & Hres).
  unfold consumerStep. destruct (ps_result st) as [r|] eqn:Hr.
  { exists st, w. split; [done|]. split; [|split; [by rewrite Hr|split; [lia|done]]].
    exists served, sent. rewrite Hr. close_pipe. }
  destruct (ps_ch st) as [line|] eqn:Hch.
  - unfold pending in Hsent. rewrite Hch in Hsent. cbn [option_list app] in Hsent.
    apply Forall2_cons_inv_r in Hsent as (blob & sent' & Hgood & Hsent' & ->).
    destruct Hgood as (Herr & Hblob & Hoff & Hfit & Hdata).
    rewrite Herr. unfold consumeLine. rewrite Hblob, !bind_eq.
    destruct (writeShards_ok h (pb_shards line) (Offset blob) (ReadSize blob) w Hwriter Hoff Hfit)
      as (w1 & -> & Hw1).
    rewrite bind_eq. destruct (putAll_ok (pb_shards line) w1) as (w2 & -> & Hw2).
    run_M. eexists _, w2. split; [reflexivity|]. split; [|split; [done|]].
    + exists (served ++ [blob]), sent'. unfold pending, setConsumer. cbn.
      split; [by rewrite Hblobs, <-(assoc_L (++))|]. split; [done|].
      split.
      { rewrite Hw2, Hw1, Hwr, Hdata, fmap_app, concat_app. cbn.
        by rewrite app_nil_r, (assoc_L (++)). }
      close_pipe.
    + unfold pipeWork, setConsumer. cbn. rewrite ?Hch. cbn. split; [lia|].
      intros _. split; [intros _; lia|done].
  - destruct (ps_closed st) eqn:Hc.
    + run_M. eexists _, w. split; [reflexivity|]. split; [|split; [done|]].
      * destruct (Hclosed eq_refl) as [Hh Hb].
        unfold pending in Hsent. rewrite Hch, Hh in Hsent. apply Forall2_nil_inv_r in Hsent.
        exists served, sent. unfold pending, setConsumer. cbn. rewrite ?Hch, ?Hh, ?Hc.
        subst sent. repeat (split; [done|]). intros r [= <-]. done.
      * unfold pipeWork, setConsumer. cbn. rewrite ?Hch, ?Hc. split; [lia|].
        intros _. split; [by intros [? ?]|]. intros _ _. eauto.
    + exists st, w. split; [done|]. split; [|split; [done|]].
      * exists served, sent. rewrite Hr, Hc. close_pipe.
      * split; [lia|]. intros _. split; [by intros [? ?]|done].
Qed.

Lemma runPipeline_inv sched : ∀ st (w : world Σ),
  inv (w_trace w) st →
  ∃ st' w', runPipeline h clusterID sched st w = (Some st', w') ∧
    inv (w_trace w') st' ∧
    (∀ r, ps_result st = Some r → ps_result st' = Some r).
Proof.
  induction sched as [|[who choice] sched IH]; intros st w Hinv.
  { by exists st, w. }
  cbn [runPipeline]. rewrite bind_eq. destruct who.
  - destruct (producerStep_inv choice st w Hinv) as (st1 & w1 & -> & Hinv1 & Hres1 & _).
    destruct (IH st1 w1 Hinv1) as (st2 & w2 & -> & Hinv2 & Hres2).
    exists st2, w2. split; [done|]. split; [done|]. intros r Hr. apply Hres2. by rewrite Hres1.
  - destruct (consumerStep_inv st w Hinv) as (st1 & w1 & -> & Hinv1 & Hres1 & _).
    destruct (IH st1 w1 Hinv1) as (st2 & w2 & -> & Hinv2 & Hres2).
    exists st2, w2. split; [done|]. split; [done|]. intros r Hr. by apply Hres2, Hres1.
Qed.

Lemma roundRobin_returns n : ∀ st (w : world Σ),
  inv (w_trace w) st → (pipeWork st < n)%nat →
  ∃ st' w', runPipeline h clusterID (roundRobin n) st w = (Some st', w') ∧
    is_Some (ps_result st').
Proof.
  induction n as [|n IH]; intros st w Hinv Hwork; [lia|].
  unfold roundRobin. cbn [replicate concat app]. fold (roundRobin n).
  cbn [runPipeline]. rewrite !bind_eq.
  destruct (producerStep_inv false st w Hinv) as (st1 & w1 & -> & Hinv1 & Hres1 & Hprog1).
  rewrite bind_eq.
  destruct (consumerStep_inv st1 w1 Hinv1) as (st2 & w2 & -> & Hinv2 & Hres2 & Hle & Hprog2).
  destruct (ps_result st2) as [r|] eqn:Hr2.
  { destruct (runPipeline_inv (roundRobin n) st2 w2 Hinv2) as (st3 & w3 & -> & _ & Hres3).
    exists st3, w3. split; [done|]. rewrite (Hres3 r Hr2). eauto. }
  apply IH; [done|].
  assert (Hr1 : ps_result st1 = None).
  { destruct (ps_result st1) as [r|] eqn:Hr1; [|done]. by specialize (Hres2 r eq_refl). }
  destruct (Hprog2 Hr1) as [Hch Hend].
  destruct Hprog1 as [Hlt|[-> Hidle]]; [lia|].
  destruct (ps_ch st) as [line|] eqn:Hch'.
  - specialize (Hch ltac:(eauto)). lia.
  - destruct Hidle as [Hc|[_ [? ?]]]; [|done].
    destruct (Hend eq_refl Hc) as [r Hr]. congruence.
Qed.

End pipeline.

Lemma pipeline_in_order {Σ} (h : Handler Σ) clusterID
    (I : pipeProducer → Prop) (fair : list nat * list bool → Prop)
    (data : blobGetArgs → list byte) blobs s (w : world Σ) :
  (∀ blob pp sl (w : world Σ), blob ∈ blobs → I pp → fair sl →
     ∃ pp' line w',
       produceBlob h clusterID blob pp sl.1 sl.2 w = (Some (pp', Line line), w') ∧
       I pp' ∧ goodLine (data blob) blob line ∧
       written (w_trace w') = written (w_trace w)) →
  (∀ σ bytes, (h_Write h σ bytes).2 = None) →
  I {| pp_blobVolume := None; pp_sortedVuids := [] |} →
  Forall fair (sc_blobs s) → (length blobs ≤ length (sc_blobs s))%nat →
  ∃ st w' k,
    generalPath h clusterID blobs s w = (Some st, w') ∧
    (k ≤ length blobs)%nat ∧
    written (w_trace w') = written (w_trace w) ++ concat (data <$> take k blobs) ∧
    (∀ r, ps_result st = Some r → r = None ∧ k = length blobs) ∧
    (∀ more, sc_pipeline s = roundRobin (3 * length blobs + 2) ++ more →
       ps_result st = Some None).
Proof.
  intros Hpass Hwriter Hinit Hfair Hlen. unfold generalPath.
  set (st0 := {| ps_blobs := blobs; ps_scheds := sc_blobs s;
                 ps_producer := {| pp_blobVolume := None; pp_sortedVuids := [] |};
                 ps_hold := None; ps_stuck := false; ps_closed := false;
                 ps_ch := None; ps_closeCh := false; ps_result := None |}).
  assert (Hinv0 : pipeInv I fair data blobs (written (w_trace w)) (w_trace w) st0).
  { exists [], []. unfold pending. cbn. rewrite app_nil_r.
    split; [done|]. split; [constructor|]. close_pipe. }
  destruct (runPipeline_inv h clusterID I fair data blobs (written (w_trace w)) Hpass Hwriter
              (sc_pipeline s) st0 w Hinv0) as (st & w' & Hrun & Hinv & _).
  pose proof Hinv as (served & sent & Hblobs & Hsent & Hwr & _ & _ & _ & _ & _ & Hclosed & Hres).
  assert (Hdone : ∀ r, ps_result st = Some r → r = None ∧ length served = length blobs).
  { intros r Hr. destruct (Hres r Hr) as (-> & Hc & _ & ->).
    destruct (Hclosed Hc) as [_ Hb]. rewrite Hb, !app_nil_r in Hblobs. by subst. }
  exists st, w', (length served). split; [done|]. split.
  { rewrite Hblobs, length_app. lia. }
  split.
  { rewrite Hwr. do 3 f_equal. by rewrite Hblobs, take_app_length. }
  split; [done|].
  intros more Hs. rewrite Hs, runPipeline_app in Hrun.
  destruct (roundRobin_returns h clusterID I fair data blobs (written (w_trace w)) Hpass Hwriter
              (3 * length blobs + 2) st0 w Hinv0) as (st1 & w1 & Hr1 & [r Hres1]).
  { unfold pipeWork. cbn. lia. }
  rewrite Hr1 in Hrun.
  destruct (runPipeline_inv h clusterID I fair data blobs (written (w_trace w)) Hpass Hwriter
              (roundRobin (3 * length blobs + 2)) st0 w Hinv0) as (st1' & w1' & Hr1' & Hinv1 & _).
  rewrite Hr1 in Hr1'. injection Hr1' as <- <-.
  destruct (runPipeline_inv h clusterID I fair data blobs (written (w_trace w)) Hpass Hwriter
              more st1 w1 Hinv1) as (st2 & w2 & Hr2 & _ & Hkeep).
  rewrite Hr2 in Hrun. injection Hrun as <- <-.
  rewrite (Hkeep r Hres1). f_equal.
  destruct (Hdone r (Hkeep r Hres1)) as [-> _]. done.
Qed.

(** The pipeline of [Get] hands the lines to the writer in the order of
    the blobs, each once. When every pass of the producing goroutine ends
    with a line that holds the range of its blob and the writer accepts
    what it is given, then under every interleaving of the two goroutines
    the bytes written so far are the ranges of the first [k] blobs; the
    consuming loop returns only after the last blob, with no error; and it
    has returned as soon as the two goroutines have taken
    [3 * length blobs + 2] turns each. *)
Theorem Get_pipeline_in_order {Σ} (h : Handler Σ) clusterID
    (I : pipeProducer → Prop) (fair : list nat * list bool → Prop)
    (data : blobGetArgs → list byte) blobs s (w : world Σ) :
  (∀ blob pp sl (w : world Σ), blob ∈ blobs → I pp → fair sl →
     ∃ pp' line w',
       produceBlob h clusterID blob pp sl.1 sl.2 w = (Some (pp', Line line), w') ∧
       I pp' ∧ goodLine (data blob) blob line ∧
       written (w_trace w') = written (w_trace w)) →
  (∀ σ bytes, (h_Write h σ bytes).2 = None) →
  I {| pp_blobVolume := None; pp_sortedVuids := [] |} →
  Forall fair (sc_blobs s) → (length blobs ≤ length (sc_blobs s))%nat →
  ∃ st w' k,
    generalPath h clusterID blobs s w = (Some st, w') ∧
    (k ≤ length blobs)%nat ∧
    written (w_trace w') = written (w_trace w) ++ concat (data <$> take k blobs) ∧
    (∀ r, ps_result st = Some r → r = None ∧ k = length blobs) ∧
    (∀ more, sc_pipeline s = roundRobin (3 * length blobs + 2) ++ more →
       ps_result st = Some None).
Proof. apply pipeline_in_order. Qed.

(** ** The producing goroutine does not write *)

Lemma producerEvent_written Δ tr : Forall producerEvent Δ → written (Δ ++ tr) = written tr.
Proof.
  induction 1 as [|ev Δ Hev _ IH]; [done|]. by destruct ev.
Qed.

Lemma readerEvent_producer idx ev : readerEvent idx ev → producerEvent ev.
Proof. by destruct ev. Qed.

Lemma lookupEvent_producer ev : lookupEvent ev → producerEvent ev.
Proof. by destruct ev. Qed.

Ltac runs_auto :=
  repeat first
    [ apply runs_panic
    | apply runs_ret; exact I
    | apply runs_emit; [exact I|exact I]
    | apply runs_oracle; intros; exact I
    | eapply runs_bind with (Q := λ _, True); [|intros ? ? _]
    | match goal with |- runs _ (match ?x with _ => _ end) _ _ => destruct x end ].

Lemma readOneShard_produces {Σ} (h : Handler Σ) clusterID vid shardSize blob vu stop
    (w : world Σ) :
  runs producerEvent (readOneShard h clusterID vid shardSize blob vu stop) w (λ _, True).
Proof.
  destruct (readOneShard_events h clusterID vid shardSize blob vu stop w) as (Δ & HΔ & Hev & _).
  exists Δ. split; [done|]. split.
  - eapply Forall_impl; [exact Hev|]. apply readerEvent_producer.
  - by destruct (readOneShard _ _ _ _ _ _ _ _).1.
Qed.

Lemma consume_produces {Σ} (h : Handler Σ) codeMode dataN dataParityN lenSorted sd st
    (w : world Σ) :
  runs producerEvent (consume h codeMode dataN dataParityN lenSorted sd st) w (λ _, True).
Proof.
  unfold consume, closeStop, sendNext, ReconstructData, memPoolPut. runs_auto.
Qed.

Lemma blobLoop_produces {Σ} (h : Handler Σ) clusterID vid codeMode shardSize blob
    dataN dataParityN lenSorted sched : ∀ st (w : world Σ),
  runs producerEvent
    (blobLoop h clusterID vid codeMode shardSize blob dataN dataParityN lenSorted sched st)
    w (λ _, True).
Proof.
  induction sched as [|k sched IH]; intros st w; cbn [blobLoop]; [by apply runs_ret|].
  destruct (pick k (br_inflight st)) as [[vu rest]|]; [|runs_auto].
  eapply runs_bind with (Q := λ _, True); [apply readOneShard_produces|].
  intros sd w1 _. unfold onShard.
  eapply runs_bind with (Q := λ _, True); [apply consume_produces|].
  intros [st' brk] w2 _. destruct brk; [by apply runs_ret|apply IH].
Qed.

Lemma drainShards_produces {Σ} (h : Handler Σ) clusterID vid shardSize blob stopped vus :
  ∀ late (w : world Σ),
  runs producerEvent (drainShards h clusterID vid shardSize blob stopped late vus) w
    (λ _, True).
Proof.
  induction vus as [|vu vus IH]; intros late w; cbn [drainShards]; [by apply runs_ret|].
  eapply runs_bind with (Q := λ _, True); [apply readOneShard_produces|].
  intros sd w1 _.
  eapply runs_bind with (Q := λ _, True); [|intros ? ? _; apply IH].
  unfold memPoolPut. runs_auto.
Qed.

Lemma zeroEmpties_produces {Σ} idxs : ∀ R S (w : world Σ),
  runs producerEvent (zeroEmpties idxs R S) w (λ _, True).
Proof.
  induction idxs as [|idx idxs IH]; intros R S w; cbn [zeroEmpties]; [by apply runs_ret|].
  destruct (S !! idx); [|apply runs_panic].
  eapply runs_bind with (Q := λ _, True); [unfold memPoolZero; runs_auto|].
  intros ? ? _. apply IH.
Qed.

Lemma readOneBlob_produces {Σ} (h : Handler Σ) clusterID vid codeMode blob sortedVuids
    shards sched late (w : world Σ) :
  runs producerEvent
    (readOneBlob h clusterID vid codeMode blob sortedVuids shards sched late) w (λ _, True).
Proof.
  unfold readOneBlob. destruct (h_GetBufferSizes _ _ _); [|by apply runs_ret].
  destruct shards as [|s0 shards']; [apply runs_panic|].
  eapply runs_bind with (Q := λ _, True).
  { apply emitAll_runs. apply Forall_fmap, Forall_forall. by intros. }
  intros _ w1 _.
  eapply runs_bind with (Q := λ _, True); [apply zeroEmpties_produces|].
  intros [R S0] w2 _.
  eapply runs_bind with (Q := λ _, True); [apply blobLoop_produces|].
  intros [st e] w3 _. unfold blobResult. destruct e; try by apply runs_ret.
  all: eapply runs_bind with (Q := λ _, True); [apply drainShards_produces|].
  all: intros _ w4 _; destruct (br_reconstructed st); by apply runs_ret.
Qed.

Lemma sortLoop_produces {Σ} (h : Handler Σ) idc vuidPhys : ∀ idx sortMap (w : world Σ),
  runs producerEvent (sortLoop h idc idx vuidPhys sortMap) w (λ _, True).
Proof.
  induction vuidPhys as [|phy rest IH]; intros idx sortMap w; cbn [sortLoop];
    [by apply runs_ret|].
  eapply runs_bind with (Q := λ _, True).
  { destruct (lookupDiskHost_total h (u_DiskID phy) w) as (r & Δ & w1 & Hl & HΔ & Hev).
    exists Δ. rewrite Hl. split; [done|]. split; [|done].
    eapply Forall_impl; [exact Hev|]. apply lookupEvent_producer. }
  intros [hi|] w1 _; apply IH.
Qed.

Lemma shuffleGroups_produces {Σ} (h : Handler Σ) sortMap keys : ∀ vuids (w : world Σ),
  runs producerEvent (shuffleGroups h keys sortMap vuids) w (λ _, True).
Proof.
  induction keys as [|dis keys IH]; intros vuids w; cbn [shuffleGroups];
    [by apply runs_ret|].
  eapply runs_bind with (Q := λ _, True); [runs_auto|]. intros ? ? _. apply IH.
Qed.

Lemma allocShards_produces {Σ} (h : Handler Σ) n size : ∀ (w : world Σ),
  runs producerEvent (allocShards h n size) w (λ _, True).
Proof.
  induction n as [|n IH]; intros w; cbn [allocShards]; [by apply runs_ret|].
  eapply runs_bind with (Q := λ _, True).
  { unfold memPoolAlloc, freshBuf. eapply runs_bind with (Q := λ _, True); [runs_auto|].
    intros [bytes|e] w1 _; [|by apply runs_ret].
    exists [EvAlloc (w_nextBuf w1) size]. cbn. split; [done|]. split; [|done].
    by repeat constructor. }
  intros a w1 _. eapply runs_bind with (Q := λ _, True); [apply IH|].
  intros ? ? _. by apply runs_ret.
Qed.

Lemma putAll_produces {Σ} bufs : ∀ (w : world Σ),
  runs producerEvent (putAll bufs) w (λ _, True).
Proof.
  induction bufs as [|b bufs IH]; intros w; cbn [putAll]; [by apply runs_ret|].
  eapply runs_bind with (Q := λ _, True); [unfold memPoolPut; runs_auto|].
  intros ? ? _. apply IH.
Qed.

Lemma produceBlob_produces {Σ} (h : Handler Σ) clusterID blob pp sched late (w : world Σ) :
  runs producerEvent (produceBlob h clusterID blob pp sched late) w (λ _, True).
Proof.
  unfold produceBlob.
  eapply runs_bind with (Q := λ _, True).
  { destruct (match pp_blobVolume pp with None => true | Some bv => _ end).
    - unfold getVolume. eapply runs_bind with (Q := λ _, True); [runs_auto|].
      intros [bv|e] w1 _; [|by apply runs_ret].
      destruct (slice _ _ _); [|apply runs_panic].
      eapply runs_bind with (Q := λ _, True).
      + unfold genSortedVuidByIDC.
        eapply runs_bind with (Q := λ _, True); [apply sortLoop_produces|].
        intros ? ? _. apply shuffleGroups_produces.
      + intros vs w2 _. destruct (_ <? _)%nat; by apply runs_ret.
    - destruct (pp_blobVolume pp); [by apply runs_ret|apply runs_panic]. }
  intros [[bv vs]|e] w1 _; [|by apply runs_ret].
  eapply runs_bind with (Q := λ _, True); [apply allocShards_produces|].
  intros shards w2 _.
  eapply runs_bind with (Q := λ _, True); [by apply runs_emit|].
  intros _ w3 _.
  eapply runs_bind with (Q := λ _, True); [apply readOneBlob_produces|].
  intros [[e|] shards'| |] w4 _; try by apply runs_ret.
  eapply runs_bind with (Q := λ _, True); [apply putAll_produces|].
  intros ? ? _. by apply runs_ret.
Qed.

(** One pass of the producing goroutine over a blob, whatever its
    collaborators answer, hands nothing to the caller's writer, and one
    pass of the consuming loop over a line sends nothing to a storage node
    and looks up nothing: its events are writes and returns of buffers. *)
Theorem producer_reads_consumer_writes {Σ} (h : Handler Σ) clusterID blob pp sched late line
    (w : world Σ) :
  (∃ Δ, w_trace (produceBlob h clusterID blob pp sched late w).2 = Δ ++ w_trace w ∧
        Forall producerEvent Δ ∧
        written (w_trace (produceBlob h clusterID blob pp sched late w).2)
        = written (w_trace w)) ∧
  (∃ Δ, w_trace (consumeLine h line w).2 = Δ ++ w_trace w ∧
        Forall (λ ev, match ev with EvWrite _ | EvPut _ => True | _ => False end) Δ).
Proof.
  split.
  - destruct (produceBlob_produces h clusterID blob pp sched late w) as (Δ & HΔ & Hev & _).
    exists Δ. split; [done|]. split; [done|]. rewrite HΔ. by apply producerEvent_written.
  - unfold consumeLine.
    assert (Hws : ∀ shards off n (w0 : world Σ),
              runs (λ ev, match ev with EvWrite _ | EvPut _ => True | _ => False end)
                (writeShards h shards off n) w0 (λ _, True)).
    { induction shards as [|buf rest IH]; intros off n w0; cbn [writeShards].
      - destruct (n <=? 0); [by apply runs_ret|apply runs_panic].
      - destruct (n <=? 0); [by apply runs_ret|].
        destruct (len buf <=? off); [apply IH|].
        eapply runs_bind with (Q := λ _, True); [by apply runs_emit|]. intros _ w1 _.
        eapply runs_bind with (Q := λ _, True); [by apply runs_oracle|].
        intros [e|] w2 _; [by apply runs_ret|apply IH]. }
    assert (Hpa : ∀ bufs (w0 : world Σ),
              runs (λ ev, match ev with EvWrite _ | EvPut _ => True | _ => False end)
                (putAll bufs) w0 (λ _, True)).
    { induction bufs as [|b bufs IH]; intros w0; cbn [putAll]; [by apply runs_ret|].
      eapply runs_bind with (Q := λ _, True); [|intros ? ? _; apply IH].
      unfold memPoolPut. destruct (buf_id b); [by apply runs_emit|by apply runs_ret]. }
    destruct (runs_bind _ (writeShards h (pb_shards line) (Offset (pb_blob line))
                             (ReadSize (pb_blob line)))
                (λ err, _ ← putAll (pb_shards line); mret err) w (λ _, True) (λ _, True)
                (Hws _ _ _ w)) as (Δ & HΔ & Hev & _).
    { intros err w1 _. eapply runs_bind with (Q := λ _, True); [apply Hpa|].
      intros ? ? _. by apply runs_ret. }
    by exists Δ.
Qed.

(** ** A pass of the producer over a readable blob *)

Lemma allocShards_ok {Σ} (h : Handler Σ) size n : ∀ (w : world Σ),
  (∀ σ s, ∃ bytes, (h_poolAlloc h σ s).2 = inl bytes) → 0 <= size →
  ∃ shards w', allocShards h n size w = (Some shards, w') ∧
    length shards = n ∧ Forall (λ b, len b = size) shards.
Proof.
  intros w Hpool Hsize. revert w. induction n as [|n IH]; intros w.
  { exists [], w. by repeat split. }
  cbn [allocShards]. unfold memPoolAlloc. rewrite !bind_eq, oracle_eq.
  destruct (Hpool (w_env w) size) as [bytes ->]. cbv beta iota. run_M.
  match goal with |- context [allocShards h n size ?w1] =>
    destruct (IH w1) as (shards & w' & -> & Hlen & Hall) end.
  eexists _, w'. split; [reflexivity|]. cbn. split; [by rewrite Hlen|].
  constructor; [|done]. unfold len. cbn. rewrite length_resize. lia.
Qed.

Section pass.

Context {Σ : Type} (h : Handler Σ).

Variables (clusterID : Z) (blobs : list blobGetArgs).

Variables (vol : blobGetArgs → VolumePhy) (sizesOf : blobGetArgs → BufferSizes).

Variables (truth : blobGetArgs → nat → list byte) (bad : blobGetArgs → gset nat).

Hypothesis Hserves : ∀ blob, blob ∈ blobs →
  serves h clusterID (vol blob) (sizesOf blob) (truth blob) (bad blob) blob.

Hypothesis Hvol : ∀ b1 b2, b1 ∈ blobs → b2 ∈ blobs → Vid b1 = Vid b2 → vol b1 = vol b2.

Hypothesis Hshuffle : ∀ σ l, (h_Shuffle h σ l).2 ≡ₚ l.

Hypothesis Hpool : ∀ σ s, ∃ bytes, (h_poolAlloc h σ s).2 = inl bytes.

Lemma produceBlob_serves blob pp sched late (w : world Σ) :
  blob ∈ blobs → keeps h vol blobs pp →
  (t_N (h_Tactic h (v_CodeMode (vol blob))) + t_M (h_Tactic h (v_CodeMode (vol blob)))
   ≤ length sched)%nat →
  ∃ pp' line w',
    produceBlob h clusterID blob pp sched late w = (Some (pp', Line line), w') ∧
    keeps h vol blobs pp' ∧
    goodLine (rangeOf (t_N (h_Tactic h (v_CodeMode (vol blob)))) (truth blob) blob) blob line ∧
    written (w_trace w') = written (w_trace w).
Proof.
  intros Hblob Hkeeps Hsched.
  destruct (produceBlob_produces h clusterID blob pp sched late w) as (Δ & HΔ & Hev & _).
  assert (Hwritten : written (w_trace (produceBlob h clusterID blob pp sched late w).2)
                     = written (w_trace w)).
  { rewrite HΔ. by apply producerEvent_written. }
  clear Δ HΔ Hev.
  pose proof (Hserves blob Hblob) as Hs.
  set (bv := vol blob) in *. set (sizes := sizesOf blob) in *.
  set (tactic := h_Tactic h (v_CodeMode bv)) in *.
  set (N := t_N tactic) in *. set (M_ := t_M tactic) in *.
  assert (Hss : 0 < ShardSize sizes) by (by destruct (sv_wf _ _ _ _ _ _ _ Hs)).
  enough (∃ pp' line w',
            produceBlob h clusterID blob pp sched late w = (Some (pp', Line line), w') ∧
            keeps h vol blobs pp' ∧
            goodLine (rangeOf N (truth blob) blob) blob line)
    as (pp' & line & w' & Hrun & Hk & Hg).
  { exists pp', line, w'. rewrite Hrun in Hwritten. done. }
  clear Hwritten.
  unfold produceBlob. cbv zeta. rewrite bind_eq.
  match goal with |- ∃ _ _ _, match ?m w with _ => _ end = _ ∧ _ =>
    assert (Horder : ∃ vuids w1, m w = (Some (inl (bv, vuids)), w1) ∧
                                 goodOrder (v_Units bv) (N + M_) vuids)
  end.
  { destruct (pp_blobVolume pp) as [bv0|] eqn:Hpp.
    - destruct (decide (v_Vid bv0 = Vid blob)) as [Heq|Hne].
      + rewrite bool_decide_false by (intros ?; done). run_M.
        unfold keeps in Hkeeps. rewrite Hpp in Hkeeps.
        destruct Hkeeps as [(b & Hb & ->) Hgood].
        assert (vol b = bv) as Hsame.
        { apply Hvol; [done|done|]. rewrite <-Heq. symmetry.
          apply (sv_vid _ _ _ _ _ _ _ (Hserves b Hb)). }
        rewrite Hsame in *. by eexists _, _.
      + rewrite bool_decide_true by done.
        unfold getVolume. rewrite !bind_eq. unfold emit at 1. rewrite oracle_eq.
        rewrite (sv_volume _ _ _ _ _ _ _ Hs). cbv beta iota. fold bv tactic N M_.
        unfold slice. cbn [Nat.leb andb].
        pose proof (sv_units _ _ _ _ _ _ _ Hs) as Hu. fold tactic N M_ in Hu.
        destruct (Nat.leb_spec (N + M_) (length (v_Units bv))) as [_|]; [|lia].
        rewrite Nat.sub_0_r, drop_0, bind_eq.
        match goal with |- context [genSortedVuidByIDC h (h_IDC h) ?us ?w0] =>
          destruct (sorted_entries h Hshuffle (h_IDC h) us w0)
            as (vuids & w1 & -> & Hnd & Hall & _ & Hperm)
        end.
        specialize (Hperm ltac:(intros σ phy Hphy; by apply (sv_hosts _ _ _ _ _ _ _ Hs))).
        rewrite length_take, Nat.min_l in Hperm by lia.
        assert (length vuids = (N + M_)%nat) as Hlen.
        { rewrite <-(length_fmap index), Hperm. apply length_seq. }
        destruct (Nat.ltb_spec (length vuids) N) as [|_]; [lia|]. run_M.
        by eexists _, _.
    - unfold getVolume. rewrite !bind_eq. unfold emit at 1. rewrite oracle_eq.
      rewrite (sv_volume _ _ _ _ _ _ _ Hs). cbv beta iota. fold bv tactic N M_.
      unfold slice. cbn [Nat.leb andb].
      pose proof (sv_units _ _ _ _ _ _ _ Hs) as Hu. fold tactic N M_ in Hu.
      destruct (Nat.leb_spec (N + M_) (length (v_Units bv))) as [_|]; [|lia].
      rewrite Nat.sub_0_r, drop_0, bind_eq.
      match goal with |- context [genSortedVuidByIDC h (h_IDC h) ?us ?w0] =>
        destruct (sorted_entries h Hshuffle (h_IDC h) us w0)
          as (vuids & w1 & -> & Hnd & Hall & _ & Hperm)
      end.
      specialize (Hperm ltac:(intros σ phy Hphy; by apply (sv_hosts _ _ _ _ _ _ _ Hs))).
      rewrite length_take, Nat.min_l in Hperm by lia.
      assert (length vuids = (N + M_)%nat) as Hlen.
      { rewrite <-(length_fmap index), Hperm. apply length_seq. }
      destruct (Nat.ltb_spec (length vuids) N) as [|_]; [lia|]. run_M.
      by eexists _, _. }
  destruct Horder as (vuids & w1 & Horder & Hnd & Hall & Hperm).
  rewrite Horder. cbv beta iota.
  pose proof (sv_sizes _ _ _ _ _ _ _ Hs) as Hsz. fold tactic in Hsz.
  fold tactic N M_. rewrite Hsz. cbn [sizesOrZero].
  destruct (allocShards_ok h (ShardSize sizes) (N + M_) w1 Hpool ltac:(lia))
    as (shards & w2 & Halloc & Hlen & Hshardlen).
  rewrite bind_eq, Halloc. cbv beta iota.
  rewrite bind_eq. unfold emit at 1. rewrite bind_eq.
  assert (Hlenv : length vuids = (N + M_)%nat).
  { rewrite <-(length_fmap index), Hperm. apply length_seq. }
  match goal with |- context [readOneBlob h clusterID ?vid ?cm blob vuids shards sched late ?w3] =>
    destruct (readOneBlob_ok h clusterID vid cm blob vuids (truth blob) (bad blob)
                (ShardSize sizes)) with (sizes := sizes) (shards := shards) (sched := sched)
                (late := late) (w := w3) as (shards' & w4 & Hread & Hdata)
  end.
  - done.
  - intros vu Hvu. assert (index vu ∈ seq 0 (N + M_)) as Hin.
    { rewrite <-Hperm. apply list_elem_of_fmap. eauto. }
    apply elem_of_seq in Hin. fold bv tactic N M_. lia.
  - apply (sv_bad _ _ _ _ _ _ _ Hs).
  - intros i Hi _. apply elem_of_list_to_set. rewrite Hperm. apply elem_of_seq.
    fold bv tactic N M_ in Hi. lia.
  - intros vu w0 Hvu. apply (sv_read _ _ _ _ _ _ _ Hs).
    eapply Forall_forall in Hall; [|exact Hvu]. done.
  - apply (sv_encoder _ _ _ _ _ _ _ Hs).
  - apply (sv_sizes _ _ _ _ _ _ _ Hs).
  - apply (sv_wf _ _ _ _ _ _ _ Hs).
  - done.
  - done.
  - apply (sv_padding _ _ _ _ _ _ _ Hs).
  - by rewrite Hlenv.
  - rewrite Hread. run_M.
    eexists _, _, w4. split; [reflexivity|]. split.
    + unfold keeps. cbn. split; [by exists blob|]. by repeat split.
    + destruct (dataRead_concat h (v_CodeMode bv) vuids (truth blob) (bad blob)
                  (sv_bad _ _ _ _ _ _ _ Hs) shards Hlen shards' Hdata) as [parity Hcat].
      fold tactic N in Hcat.
      assert (HlenT : length (concat (truth blob <$> seq 0 N))
                      = (N * Z.to_nat (ShardSize sizes))%nat).
      { rewrite (length_concat_uniform _ (Z.to_nat (ShardSize sizes))).
        - by rewrite length_fmap, length_seq.
        - apply Forall_fmap, Forall_forall. intros i Hi%elem_of_seq.
          apply (sv_truthlen _ _ _ _ _ _ _ Hs). fold bv tactic N. lia. }
      pose proof (sv_offset _ _ _ _ _ _ _ Hs) as Hoff.
      pose proof (sv_fits _ _ _ _ _ _ _ Hs) as Hfit. fold bv tactic N sizes in Hfit.
      unfold goodLine, rangeOf. cbn [pb_err pb_blob pb_shards].
      split; [done|]. split; [done|]. split; [done|]. rewrite Hcat, length_app, HlenT.
      split; [nia|].
      destruct (Z.le_gt_cases (ReadSize blob) 0) as [Hz|Hpos].
      { replace (Z.to_nat (ReadSize blob)) with 0%nat by lia. by rewrite !take_0. }
      rewrite drop_app_le by (rewrite HlenT; nia).
      rewrite take_app_le; [done|]. rewrite length_drop, HlenT. nia.
Qed.

Hypothesis Hwriter : ∀ σ bytes, (h_Write h σ bytes).2 = None.

(** [Get] on the general path writes the request. When the service
    controller of the cluster is found, every blob of the decomposition is
    served (at most [M] of its units fail, the others deliver their
    shards, the encoder rebuilds missing data shards), the pool delivers
    and the writer accepts what it is given, then [Get] with blob readers
    that get their turns and a pipeline whose goroutines take turns
    returns no error, and what it has written is, blob after blob in the
    order of the decomposition, the range of each blob in its data
    shards. *)
Theorem Get_reads_every_blob location readSize offset s more (w : world Σ) :
  genLocationBlobs location readSize offset = Some (inl blobs) → blobs ≠ [] →
  clusterID = loc_ClusterID location →
  (h_GetServiceController h (w_env w) clusterID).2 = None →
  dataShardOnly h location blobs = None →
  Forall (λ sl : list nat * list bool, ∀ blob, blob ∈ blobs →
            (t_N (h_Tactic h (v_CodeMode (vol blob)))
             + t_M (h_Tactic h (v_CodeMode (vol blob))) ≤ length sl.1)%nat) (sc_blobs s) →
  (length blobs ≤ length (sc_blobs s))%nat →
  sc_pipeline s = roundRobin (3 * length blobs + 2) ++ more →
  ∃ w', runGet h location readSize offset s w = (Some (Some None), w') ∧
        written (w_trace w') =
          written (w_trace w) ++
          concat ((λ blob, rangeOf (t_N (h_Tactic h (v_CodeMode (vol blob))))
                             (truth blob) blob) <$> blobs).
Proof.
  intros Hgen Hne Hc Hsc Hslow Hfair Hlen Hpipe. rewrite Hc in Hsc.
  rewrite (runGet_general h location readSize offset s w blobs Hgen Hne Hsc Hslow).
  rewrite bind_eq, <-Hc.
  set (w0 := {| w_env := _; w_trace := w_trace w; w_nextBuf := w_nextBuf w |}).
  destruct (pipeline_in_order h clusterID (keeps h vol blobs)
              (λ sl, ∀ blob, blob ∈ blobs →
                 (t_N (h_Tactic h (v_CodeMode (vol blob)))
                  + t_M (h_Tactic h (v_CodeMode (vol blob))) ≤ length sl.1)%nat)
              (λ blob, rangeOf (t_N (h_Tactic h (v_CodeMode (vol blob)))) (truth blob) blob)
              blobs s w0)
    as (st & w' & k & -> & Hk & Hwr & Hres & Hlive); try done.
  { intros blob pp sl w1 Hblob Hpp Hsl. apply produceBlob_serves; [done|done|by apply Hsl]. }
  specialize (Hlive more Hpipe). destruct (Hres _ Hlive) as [_ ->].
  rewrite firstn_all in Hwr. exists w'. run_M. by rewrite Hlive.
Qed.

End pass.

(** ** A blob that cannot be read *)

Lemma tagged_length good bad : length (tagged good bad) = S (length good).
Proof. unfold tagged. rewrite length_app, length_fmap. cbn. lia. Qed.

Lemma tagged_lookup good bad xs tb todo :
  tagged good bad = xs ++ tb :: todo →
  if tb.2 then todo = [] ∧ tb.1 = bad ∧ length xs = length good
  else good !! length xs = Some tb.1 ∧ todo ≠ [] ∧ (length xs < length good)%nat.
Proof.
  intros Heq.
  assert (Hlen : S (length good) = (length xs + S (length todo))%nat).
  { rewrite <-(tagged_length good bad), Heq, length_app. cbn. lia. }
  assert (Hat : tagged good bad !! length xs = Some tb).
  { rewrite Heq. by apply list_lookup_middle. }
  unfold tagged in Hat. destruct (decide (length xs < length good)%nat) as [Hlt|Hge].
  - rewrite lookup_app_l in Hat by (rewrite length_fmap; lia).
    rewrite list_lookup_fmap in Hat.
    destruct (good !! length xs) as [blob|] eqn:Hb; [|done]. injection Hat as <-. cbn.
    split; [done|]. split; [|done]. intros ->. cbn in Hlen. lia.
  - rewrite lookup_app_r in Hat by (rewrite length_fmap; lia). rewrite length_fmap in Hat.
    destruct (length xs - length good)%nat as [|n] eqn:Hn; [|done].
    injection Hat as <-. cbn. split; [|split; [done|lia]].
    destruct todo; [done|]. cbn in Hlen. lia.
Qed.

Ltac close_fail := repeat (split; [done|]); first [done | intros ? ?; congruence].

Section failing.

Context {Σ : Type} (h : Handler Σ).

Variables (clusterID : Z) (I : pipeProducer → Prop) (fair : list nat * list bool → Prop).

Variables (data : blobGetArgs → list byte) (good : list blobGetArgs) (bad : blobGetArgs).

Variables (rest : list blobGetArgs) (e : error) (base : list byte).

Hypothesis Hpass : ∀ blob pp sl (w : world Σ), blob ∈ good → I pp → fair sl →
  ∃ pp' line w',
    produceBlob h clusterID blob pp sl.1 sl.2 w = (Some (pp', Line line), w') ∧
    I pp' ∧ goodLine (data blob) blob line ∧
    written (w_trace w') = written (w_trace w).

Hypothesis Hfail : ∀ pp sl (w : world Σ), I pp → fair sl →
  ∃ pp' line w',
    produceBlob h clusterID bad pp sl.1 sl.2 w = (Some (pp', Line line), w') ∧
    pb_err line = Some e ∧
    written (w_trace w') = written (w_trace w).

Hypothesis Hwriter : ∀ σ bytes, (h_Write h σ bytes).2 = None.

Let inv := failInv I fair data good bad rest e base.

Lemma producerStep_fail choice st (w : world Σ) :
  inv (w_trace w) st →
  ∃ st' w', producerStep h clusterID choice st w = (Some st', w') ∧
    inv (w_trace w') st' ∧ ps_result st' = ps_result st ∧
    ((failWork rest st' < failWork rest st)%nat ∨
     st' = st ∧ (ps_closed st = true ∨ is_Some (ps_hold st) ∧ is_Some (ps_ch st))).
Proof.
  intros (served & sent & todo & Hplan & Hblobs & Hsent & Hwr & HI & Hfair & Hlen & Hstuck
          & Hclose & Hclosed & Hopen & Hnone & Hres).
  unfold producerStep. rewrite Hstuck, orb_false_r.
  destruct (ps_closed st) eqn:Hc.
  { exists st, w. split; [done|]. split; [|split; [done|right; eauto]].
    exists served, sent, todo. rewrite Hc. repeat (split; [done|]). done. }
  assert (Hnores : ps_result st = None).
  { destruct (ps_result st) as [r|] eqn:Hr; [|done]. by destruct (Hres r eq_refl) as (_ & ? & _). }
  destruct (Hopen eq_refl) as [Hchgood Htodo].
  destruct (ps_hold st) as [line|] eqn:Hhold.
  - unfold pending in Hsent. rewrite Hhold in Hsent.
    apply Forall2_app_inv_r in Hsent as (sent0 & s2 & Hsent0 & H2 & ->).
    apply Forall2_cons_inv_r in H2 as (tb & s3 & Hline & Hnil & ->).
    apply Forall2_nil_inv_r in Hnil as ->.
    assert (Hat : tagged good bad = (served ++ sent0) ++ tb :: todo).
    { rewrite Hplan. by rewrite <-!(assoc_L (++)). }
    pose proof (tagged_lookup good bad _ tb todo Hat) as Htb.
    unfold lineFor in Hline. destruct tb as [blob [|]]; cbn [fst snd] in *.
    + (* the line of the blob that cannot be read *)
      destruct Htb as (-> & -> & Hall). rewrite Hline.
      destruct (ps_ch st) as [held|] eqn:Hch.
      * exists st, w. split; [done|]. split; [|split; [done|]].
        -- exists served, (sent0 ++ [(bad, true)]), []. unfold pending.
           rewrite ?Hhold, ?Hch, ?Hc.
           split; [done|]. split; [done|].
           split; [apply Forall2_app; [done|constructor; [exact Hline|constructor]]|].
           close_fail.
        -- right. split; [done|]. right. eauto.
      * run_M. eexists _, w. split; [reflexivity|]. split; [|split; [done|]].
        -- exists served, (sent0 ++ [(bad, true)]), []. unfold pending, setProducer. cbn.
           cbn in Hsent0. apply Forall2_nil_inv_r in Hsent0 as ->.
           split; [done|]. split; [done|].
           split; [constructor; [exact Hline|constructor]|].
           close_fail.
        -- left. unfold failWork, setProducer. cbn. rewrite ?Hhold, ?Hch, ?Hc. cbn. lia.
    + (* the line of a blob that was read *)
      destruct Htb as (Hblob & Hmore & Hlt).
      assert (pb_err line = None) as Herr by apply Hline.
      rewrite Herr, Hclose. cbn [andb].
      destruct (ps_ch st) as [held|] eqn:Hch.
      * rewrite bool_decide_false by done.
        exists st, w. split; [done|]. split; [|split; [done|]].
        -- exists served, (sent0 ++ [(blob, false)]), todo. unfold pending.
           rewrite ?Hhold, ?Hch, ?Hc.
           split; [done|]. split; [done|].
           split; [apply Forall2_app; [done|constructor; [exact Hline|constructor]]|].
           close_fail.
        -- right. split; [done|]. right. eauto.
      * rewrite bool_decide_true by done. run_M.
        eexists _, w. split; [reflexivity|]. split; [|split; [done|]].
        -- exists served, (sent0 ++ [(blob, false)]), todo. unfold pending, setProducer. cbn.
           cbn in Hsent0. apply Forall2_nil_inv_r in Hsent0 as ->.
           split; [done|]. split; [done|].
           split; [constructor; [exact Hline|constructor]|].
           repeat (split; [done|]).
           split; [intros _; split; [by intros ? [= <-]|done]|].
           close_fail.
        -- left. unfold failWork, setProducer. cbn. rewrite ?Hhold, ?Hch, ?Hc. cbn. lia.
  - specialize (Htodo eq_refl). destruct todo as [|tb todo]; [done|].
    cbn [fmap list_fmap app] in Hblobs. rewrite Hblobs.
    destruct (ps_scheds st) as [|sl sls] eqn:Hs; [rewrite Hblobs in Hlen; cbn in Hlen; lia|].
    cbn [hd tl]. apply Forall_cons in Hfair as [Hsl Hsls].
    assert (Hat : tagged good bad = (served ++ sent) ++ tb :: todo).
    { rewrite Hplan. by rewrite <-!(assoc_L (++)). }
    pose proof (tagged_lookup good bad _ tb todo Hat) as Htb.
    unfold pending in Hsent. rewrite Hhold in Hsent. cbn in Hsent. rewrite app_nil_r in Hsent.
    assert (∃ pp' line w',
              produceBlob h clusterID tb.1 (ps_producer st) sl.1 sl.2 w
                = (Some (pp', Line line), w') ∧
              (todo ≠ [] → I pp') ∧ lineFor data e tb line ∧
              written (w_trace w') = written (w_trace w))
      as (pp' & line & w' & Hp & HI' & Hline & Hw').
    { destruct tb as [blob [|]]; cbn [fst snd] in *.
      - destruct Htb as (-> & -> & _).
        destruct (Hfail (ps_producer st) sl w) as (pp' & line & w' & Hp & Herr & Hw');
          [by apply HI|done|].
        exists pp', line, w'. done.
      - destruct Htb as (Hblob & _ & _).
        destruct (Hpass blob (ps_producer st) sl w) as (pp' & line & w' & Hp & HI' & Hg & Hw');
          [by eapply list_elem_of_lookup_2|by apply HI|done|].
        exists pp', line, w'. done. }
    destruct sl as [sched late]. cbn [fst snd] in Hp. rewrite bind_eq, Hp. run_M.
    eexists _, w'. split; [reflexivity|]. split; [|split; [done|]].
    + exists served, (sent ++ [tb]), todo. unfold pending, setProducer. cbn.
      split; [by rewrite Hplan, <-!(assoc_L (++))|]. split; [done|].
      split; [apply Forall2_app; [done|constructor; [exact Hline|constructor]]|].
      split; [by rewrite Hw'|]. split; [done|]. split; [done|].
      rewrite Hblobs in Hlen. cbn in Hlen. split; [lia|].
      repeat (split; [done|]).
      close_fail.
    + left. unfold failWork, setProducer. cbn. rewrite ?Hhold, ?Hblobs, ?Hc. cbn.
      rewrite !length_app. lia.
Qed.

Lemma consumerStep_fail st (w : world Σ) :
  inv (w_trace w) st →
  ∃ st' w', consumerStep h st w = (Some st', w') ∧
    inv (w_trace w') st' ∧
    (∀ r, ps_result st = Some r → ps_result st' = Some r) ∧
    (failWork rest st' ≤ failWork rest st)%nat ∧
    (ps_result st = None →
       (is_Some (ps_ch st) → (failWork rest st' < failWork rest st)%nat) ∧
       (ps_ch st = None → ps_closed st = true → is_Some (ps_result st'))).
Proof.
  intros (served & sent & todo & Hplan & Hblobs & Hsent & Hwr & HI & Hfair & Hlen & Hstuck
          & Hclose & Hclosed & Hopen & Hnone & Hres).
  unfold consumerStep. destruct (ps_result st) as [r|] eqn:Hr.
  { exists st, w. split; [done|]. split; [|split; [by rewrite Hr|split; [lia|done]]].
    exists served, sent, todo. rewrite Hr. close_fail. }
  specialize (Hnone eq_refl).
  destruct (ps_ch st) as [line|] eqn:Hch.
  - unfold pending in Hsent. rewrite Hch in Hsent. cbn [option_list app] in Hsent.
    apply Forall2_cons_inv_r in Hsent as (tb & sent' & Hline & Hsent' & ->).
    assert (Hat : tagged good bad = served ++ tb :: sent' ++ todo) by done.
    pose proof (tagged_lookup good bad _ tb _ Hat) as Htb.
    unfold lineFor in Hline. destruct tb as [blob [|]]; cbn [fst snd] in *.
    + (* the error line: the consumer returns the error *)
      destruct Htb as (Hend & -> & Hall). apply app_eq_nil in Hend as [-> ->].
      rewrite Hline. run_M. eexists _, w. split; [reflexivity|]. split; [|split; [done|]].
      * assert (Hc : ps_closed st = true).
        { destruct (ps_closed st) eqn:Hc; [done|].
          destruct (Hopen eq_refl) as [Hgoodch _]. specialize (Hgoodch line eq_refl).
          congruence. }
        destruct (Hclosed Hc) as [Hh _].
        exists (served ++ [(bad, true)]), [], []. unfold pending, setConsumer. cbn.
        rewrite ?Hh, ?Hc, ?Hch.
        split; [rewrite Hplan; cbn; by rewrite ?app_nil_r|]. split; [done|].
        split; [constructor|].
        split.
        { rewrite Hwr, length_app, Hall. cbn.
          rewrite firstn_all. rewrite take_ge by lia. done. }
        repeat (split; [done|]). intros r [= <-]. done.
      * unfold failWork, setConsumer. cbn. rewrite ?Hch. cbn. split; [lia|].
        intros _. split; [intros _; lia|done].
    + (* the line of a blob that was read *)
      destruct Htb as (Hblob & Hmore & Hlt).
      destruct Hline as (Herr & Hb & Hoff & Hfit & Hdata).
      rewrite Herr. unfold consumeLine. rewrite Hb, !bind_eq.
      destruct (writeShards_ok h (pb_shards line) (Offset blob) (ReadSize blob) w Hwriter
                  Hoff Hfit) as (w1 & -> & Hw1).
      rewrite bind_eq. destruct (putAll_ok (pb_shards line) w1) as (w2 & -> & Hw2).
      run_M. eexists _, w2. split; [reflexivity|]. split; [|split; [done|]].
      * exists (served ++ [(blob, false)]), sent', todo. unfold pending, setConsumer. cbn.
        split; [by rewrite Hplan, <-(assoc_L (++))|]. split; [done|]. split; [done|].
        split.
        { rewrite Hw2, Hw1, Hwr, Hdata, length_app. cbn.
          rewrite Nat.add_1_r, (take_S_r _ _ _ Hblob), fmap_app, concat_app. cbn.
          by rewrite app_nil_r, (assoc_L (++)). }
        repeat (split; [done|]).
        split.
        { intros Hc. destruct (Hopen Hc) as [_ Hh]. split; [by intros ? [=]|done]. }
        split; [intros _; rewrite length_app; cbn; lia|]. done.
      * unfold failWork, setConsumer. cbn. rewrite ?Hch. cbn. split; [lia|].
        intros _. split; [intros _; lia|done].
  - destruct (ps_closed st) eqn:Hc.
    + (* the channel is closed only after the error line *)
      exfalso. destruct (Hclosed eq_refl) as [Hh ->].
      unfold pending in Hsent. rewrite Hch, Hh in Hsent. apply Forall2_nil_inv_r in Hsent as ->.
      pose proof (tagged_length good bad) as Hl. rewrite Hplan, !app_nil_r in Hl. lia.
    + exists st, w. split; [done|]. split; [|split; [done|]].
      * exists served, sent, todo. rewrite ?Hr, ?Hc.
        do 3 (split; [done|]). rewrite ?Hch. close_fail.
      * split; [lia|]. intros _. split; [by intros [? ?]|done].
Qed.

Lemma runPipeline_fail sched : ∀ st (w : world Σ),
  inv (w_trace w) st →
  ∃ st' w', runPipeline h clusterID sched st w = (Some st', w') ∧
    inv (w_trace w') st' ∧
    (∀ r, ps_result st = Some r → ps_result st' = Some r).
Proof.
  induction sched as [|[who choice] sched IH]; intros st w Hinv.
  { by exists st, w. }
  cbn [runPipeline]. rewrite bind_eq. destruct who.
  - destruct (producerStep_fail choice st w Hinv) as (st1 & w1 & -> & Hinv1 & Hres1 & _).
    destruct (IH st1 w1 Hinv1) as (st2 & w2 & -> & Hinv2 & Hres2).
    exists st2, w2. split; [done|]. split; [done|]. intros r Hr. apply Hres2. by rewrite Hres1.
  - destruct (consumerStep_fail st w Hinv) as (st1 & w1 & -> & Hinv1 & Hres1 & _).
    destruct (IH st1 w1 Hinv1) as (st2 & w2 & -> & Hinv2 & Hres2).
    exists st2, w2. split; [done|]. split; [done|]. intros r Hr. by apply Hres2, Hres1.
Qed.

Lemma roundRobin_fails n : ∀ st (w : world Σ),
  inv (w_trace w) st → (failWork rest st < n)%nat →
  ∃ st' w', runPipeline h clusterID (roundRobin n) st w = (Some st', w') ∧
    is_Some (ps_result st').
Proof.
  induction n as [|n IH]; intros st w Hinv Hwork; [lia|].
  unfold roundRobin. cbn [replicate concat app]. fold (roundRobin n).
  cbn [runPipeline]. rewrite !bind_eq.
  destruct (producerStep_fail false st w Hinv) as (st1 & w1 & -> & Hinv1 & Hres1 & Hprog1).
  rewrite bind_eq.
  destruct (consumerStep_fail st1 w1 Hinv1) as (st2 & w2 & -> & Hinv2 & Hres2 & Hle & Hprog2).
  destruct (ps_result st2) as [r|] eqn:Hr2.
  { destruct (runPipeline_fail (roundRobin n) st2 w2 Hinv2) as (st3 & w3 & -> & _ & Hres3).
    exists st3, w3. split; [done|]. rewrite (Hres3 r Hr2). eauto. }
  apply IH; [done|].
  assert (Hr1 : ps_result st1 = None).
  { destruct (ps_result st1) as [r|] eqn:Hr1; [|done]. by specialize (Hres2 r eq_refl). }
  destruct (Hprog2 Hr1) as [Hch Hend].
  destruct Hprog1 as [Hlt|[-> Hidle]]; [lia|].
  destruct (ps_ch st) as [line|] eqn:Hch'.
  - specialize (Hch ltac:(eauto)). lia.
  - destruct Hidle as [Hc|[_ [? ?]]]; [|done].
    destruct (Hend eq_refl Hc) as [r Hr]. congruence.
Qed.

End failing.

Lemma pipeline_stops {Σ} (h : Handler Σ) clusterID
    (I : pipeProducer → Prop) (fair : list nat * list bool → Prop)
    (data : blobGetArgs → list byte) good bad rest e s (w : world Σ) :
  (∀ blob pp sl (w : world Σ), blob ∈ good → I pp → fair sl →
     ∃ pp' line w',
       produceBlob h clusterID blob pp sl.1 sl.2 w = (Some (pp', Line line), w') ∧
       I pp' ∧ goodLine (data blob) blob line ∧
       written (w_trace w') = written (w_trace w)) →
  (∀ pp sl (w : world Σ), I pp → fair sl →
     ∃ pp' line w',
       produceBlob h clusterID bad pp sl.1 sl.2 w = (Some (pp', Line line), w') ∧
       pb_err line = Some e ∧
       written (w_trace w') = written (w_trace w)) →
  (∀ σ bytes, (h_Write h σ bytes).2 = None) →
  I {| pp_blobVolume := None; pp_sortedVuids := [] |} →
  Forall fair (sc_blobs s) → (length (good ++ bad :: rest) ≤ length (sc_blobs s))%nat →
  ∃ st w' k,
    generalPath h clusterID (good ++ bad :: rest) s w = (Some st, w') ∧
    (k ≤ length good)%nat ∧
    written (w_trace w') = written (w_trace w) ++ concat (data <$> take k good) ∧
    (∀ r, ps_result st = Some r → r = Some e ∧ k = length good) ∧
    rest `suffix_of` ps_blobs st ∧
    (∀ more, sc_pipeline s = roundRobin (3 * (length good + 1) + 2) ++ more →
       ps_result st = Some (Some e)).
Proof.
  intros Hpass Hfail Hwriter Hinit Hfair Hlen. unfold generalPath.
  set (st0 := {| ps_blobs := good ++ bad :: rest; ps_scheds := sc_blobs s;
                 ps_producer := {| pp_blobVolume := None; pp_sortedVuids := [] |};
                 ps_hold := None; ps_stuck := false; ps_closed := false;
                 ps_ch := None; ps_closeCh := false; ps_result := None |}).
  assert (Hinv0 : failInv I fair data good bad rest e (written (w_trace w)) (w_trace w) st0).
  { exists [], [], (tagged good bad). unfold pending. cbn.
    split; [done|]. split.
    { unfold tagged. rewrite fmap_app, <-list_fmap_compose. cbn.
      rewrite list_fmap_id, <-(assoc_L (++)). done. }
    split; [constructor|]. split; [by rewrite app_nil_r|].
    repeat (split; [done|]). split.
    { intros _. split; [done|]. intros _. unfold tagged. by destruct good. }
    split; [intros _; lia|done]. }
  destruct (runPipeline_fail h clusterID I fair data good bad rest e (written (w_trace w))
              Hpass Hfail Hwriter (sc_pipeline s) st0 w Hinv0) as (st & w' & Hrun & Hinv & _).
  pose proof Hinv as (served & sent & todo & Hplan & Hblobs & Hsent & Hwr & _ & _ & _ & _ & _
                      & Hclosed & _ & Hnone & Hres).
  assert (Hdone : ∀ r, ps_result st = Some r →
            r = Some e ∧ (length good ≤ length served)%nat).
  { intros r Hr. destruct (Hres r Hr) as (-> & _ & _ & -> & ->). split; [done|].
    pose proof (tagged_length good bad) as Hl. rewrite Hplan, !app_nil_r in Hl. lia. }
  exists st, w', (length served `min` length good)%nat. split; [done|]. split; [lia|].
  split.
  { rewrite Hwr. do 3 f_equal.
    destruct (decide (length served ≤ length good)%nat).
    - by rewrite Nat.min_l.
    - rewrite Nat.min_r by lia. by rewrite firstn_all, take_ge by lia. }
  split.
  { intros r Hr. destruct (Hdone r Hr) as [-> Hge]. split; [done|]. lia. }
  split; [rewrite Hblobs; by apply suffix_app_r|].
  intros more Hs. rewrite Hs, runPipeline_app in Hrun.
  destruct (roundRobin_fails h clusterID I fair data good bad rest e (written (w_trace w))
              Hpass Hfail Hwriter (3 * (length good + 1) + 2) st0 w Hinv0)
    as (st1 & w1 & Hr1 & [r Hres1]).
  { unfold failWork. cbn. rewrite length_app. cbn. lia. }
  rewrite Hr1 in Hrun.
  destruct (runPipeline_fail h clusterID I fair data good bad rest e (written (w_trace w))
              Hpass Hfail Hwriter (roundRobin (3 * (length good + 1) + 2)) st0 w Hinv0)
    as (st1' & w1' & Hr1' & Hinv1 & _).
  rewrite Hr1 in Hr1'. injection Hr1' as <- <-.
  destruct (runPipeline_fail h clusterID I fair data good bad rest e (written (w_trace w))
              Hpass Hfail Hwriter more st1 w1 Hinv1) as (st2 & w2 & Hr2 & _ & Hkeep).
  rewrite Hr2 in Hrun. injection Hrun as <- <-.
  rewrite (Hkeep r Hres1). f_equal.
  destruct (Hdone r (Hkeep r Hres1)) as [-> _]. done.
Qed.

(** [Get] stops at the first blob that cannot be read. When the passes of
    the producing goroutine over the blobs [good] end with their lines,
    the pass over the next blob, [bad], ends with an error line, and the
    writer accepts what it is given, then under every interleaving of the
    two goroutines the bytes written are the ranges of the first [k] blobs
    of [good] and nothing of [bad]; the consuming loop returns only after
    the last blob of [good], and what it returns is the error of [bad];
    no blob after [bad] is taken up; and the loop has returned as soon as
    the two goroutines have taken [3 * (length good + 1) + 2] turns
    each. *)
Theorem Get_stops_at_first_error {Σ} (h : Handler Σ) clusterID
    (I : pipeProducer → Prop) (fair : list nat * list bool → Prop)
    (data : blobGetArgs → list byte) good bad rest e s (w : world Σ) :
  (∀ blob pp sl (w : world Σ), blob ∈ good → I pp → fair sl →
     ∃ pp' line w',
       produceBlob h clusterID blob pp sl.1 sl.2 w = (Some (pp', Line line), w') ∧
       I pp' ∧ goodLine (data blob) blob line ∧
       written (w_trace w') = written (w_trace w)) →
  (∀ pp sl (w : world Σ), I pp → fair sl →
     ∃ pp' line w',
       produceBlob h clusterID bad pp sl.1 sl.2 w = (Some (pp', Line line), w') ∧
       pb_err line = Some e ∧
       written (w_trace w') = written (w_trace w)) →
  (∀ σ bytes, (h_Write h σ bytes).2 = None) →
  I {| pp_blobVolume := None; pp_sortedVuids := [] |} →
  Forall fair (sc_blobs s) → (length (good ++ bad :: rest) ≤ length (sc_blobs s))%nat →
  ∃ st w' k,
    generalPath h clusterID (good ++ bad :: rest) s w = (Some st, w') ∧
    (k ≤ length good)%nat ∧
    written (w_trace w') = written (w_trace w) ++ concat (data <$> take k good) ∧
    (∀ r, ps_result st = Some r → r = Some e ∧ k = length good) ∧
    rest `suffix_of` ps_blobs st ∧
    (∀ more, sc_pipeline s = roundRobin (3 * (length good + 1) + 2) ++ more →
       ps_result st = Some (Some e)).
Proof. apply pipeline_stops. Qed.

(** ** Blob ids are handed out once *)

Section bid_manager.
Import allocator.

Lemma Alloc_spec b count :
  bidMgrWF b → 1 <= count →
  match Alloc b count with
  | (b', inl ranges, signal) =>
      count <= BidAllocNums b ∧
      Forall (λ r, StartBid r <= EndBid r) ranges ∧
      foldr Z.add 0 (rangeSize <$> ranges) = count ∧
      (∀ x, Exists (inRange x) ranges → availableBid b x ∧ ¬ availableBid b' x) ∧
      (∀ x, availableBid b' x → availableBid b x) ∧
      (∀ i j r1 r2 x, ranges !! i = Some r1 → ranges !! j = Some r2 → i ≠ j →
         inRange x r1 → inRange x r2 → False) ∧
      bidMgrWF b' ∧ BidAllocNums b' = BidAllocNums b ∧
      signal = bool_decide (backup b' = None) ∧
      (∀ x, availableBid b x → Exists (inRange x) ranges ∨ availableBid b' x)
  | (b', inr e, signal) =>
      b' = b ∧ signal = bool_decide (backup b = None) ∧
      (e = ErrIllegalArguments ∧ BidAllocNums b < count ∨
       e = ErrAllocBidFromCm ∧ count <= BidAllocNums b ∧
       (current b = None ∨
        ∃ cur, current b = Some cur ∧ maxBid cur - minBid cur + 1 < count ∧
               backup b = None))
  end.
Proof.
  intros (Hn & Hcur & Hbk & Hapart) Hcount. unfold Alloc.
  destruct (Z.ltb_spec (BidAllocNums b) count) as [Hbig|Hfit].
  { split; [done|]. split; [done|]. by left. }
  destruct (current b) as [cur|] eqn:Hc.
  2:{ split; [done|]. split; [done|]. right. repeat split; [done|]. by left. }
  destruct (Hcur cur eq_refl) as [Hmin Hmax].
  assert (Hsum : u64 (u64 (count + minBid cur) - 1) = minBid cur + count - 1).
  { unfold u64. rewrite (Z.mod_small (count + minBid cur)) by lia.
    rewrite Z.mod_small by lia. lia. }
  rewrite Hsum.
  destruct (Z.leb_spec (minBid cur + count - 1) (maxBid cur)) as [Henough|Hshort].
  - rewrite (u64_small (minBid cur + count - 1)) by (unfold is_u64; lia).
    rewrite (u64_small (minBid cur + count)) by (unfold is_u64; lia).
    cbn [minBid maxBid].
    rewrite (u64_small (maxBid cur - (minBid cur + count) + 1)) by (unfold is_u64; lia).
    destruct (Z.eqb_spec (maxBid cur - (minBid cur + count) + 1) 0) as [Hall|Hleft].
    + cbn [backup current BidAllocNums].
      split; [done|]. split; [by repeat constructor; cbn; lia|].
      split; [cbn; unfold rangeSize; cbn; lia|].
      split.
      { intros x Hx. apply Exists_cons in Hx as [Hx|Hx]; [|by apply Exists_nil in Hx].
        unfold inRange in Hx. cbn in Hx. split.
        - left. exists cur. split; [done|]. unfold inScope. lia.
        - intros [(c & Hc' & Hin)|(k & Hk & _)]; cbn in *; [|done].
          destruct (Hapart cur c eq_refl Hc') as [?|?]; unfold inScope in Hin; lia. }
      split.
      { intros x [(c & Hc' & Hin)|(k & Hk & _)]; cbn in *; [|done]. right. eauto. }
      split.
      { intros [|i] [|j] r1 r2 x H1 H2 Hij; cbn in *; try done.
        all: by rewrite ?lookup_nil in *. }
      split; [|split; [done|split; [done|]]].
      { split; [done|]. cbn. split.
        { intros c Hc'. by destruct (Hbk c Hc'). }
        split; [done|]. done. }
      intros x [(c & Hc' & Hin)|(k & Hk & Hin)]; unfold inScope in Hin.
      * assert (c = cur) as -> by congruence.
        left. apply Exists_cons. left. unfold inRange. cbn. lia.
      * right. left. exists k. split; [done|]. done.
    + cbn [backup current BidAllocNums].
      split; [done|]. split; [by repeat constructor; cbn; lia|].
      split; [cbn; unfold rangeSize; cbn; lia|].
      split.
      { intros x Hx. apply Exists_cons in Hx as [Hx|Hx]; [|by apply Exists_nil in Hx].
        unfold inRange in Hx. cbn in Hx. split.
        - left. exists cur. split; [done|]. unfold inScope. lia.
        - intros [(c & [= <-] & Hin)|(k & Hk & Hin)]; unfold inScope in Hin; cbn in *; [lia|].
          destruct (Hapart cur k eq_refl Hk) as [?|?]; lia. }
      split.
      { intros x [(c & [= <-] & Hin)|(k & Hk & Hin)]; unfold inScope in Hin; cbn in *.
        - left. exists cur. split; [done|]. unfold inScope. lia.
        - right. eauto. }
      split.
      { intros [|i] [|j] r1 r2 x H1 H2 Hij; cbn in *; try done.
        all: by rewrite ?lookup_nil in *. }
      split; [|split; [done|split; [done|]]].
      { split; [done|]. cbn. split.
        { intros c [= <-]. unfold scopeWF. cbn. lia. }
        split; [done|].
        intros c k [= <-] Hk.
        destruct (Hapart cur k eq_refl Hk) as [?|?]; unfold apart; cbn; lia. }
      intros x [(c & Hc' & Hin)|(k & Hk & Hin)]; unfold inScope in Hin.
      * assert (c = cur) as -> by congruence.
        destruct (Z.le_gt_cases x (minBid cur + count - 1)).
        -- left. apply Exists_cons. left. unfold inRange. cbn. lia.
        -- right. left. eexists. split; [reflexivity|]. unfold inScope. cbn. lia.
      * right. right. exists k. split; [done|]. done.
  - rewrite (u64_small (maxBid cur - minBid cur + 1)) by (unfold is_u64; lia).
    rewrite (u64_small (count - (maxBid cur - minBid cur + 1))) by (unfold is_u64; lia).
    destruct (backup b) as [bk|] eqn:Hb.
    2:{ split; [done|]. split; [done|]. right. split; [done|]. split; [done|].
        right. exists cur. split; [done|]. split; [lia|done]. }
    destruct (Hbk bk eq_refl) as [[Hbmin Hbmax] Hbsize].
    pose proof (Hapart cur bk eq_refl eq_refl) as Hsep.
    set (remain := count - (maxBid cur - minBid cur + 1)) in *.
    rewrite (u64_small (minBid bk + remain - 1)) by (unfold is_u64, remain; lia).
    rewrite (u64_small (minBid bk + remain)) by (unfold is_u64, remain; lia).
    cbn [backup current BidAllocNums].
    split; [done|]. split; [repeat constructor; cbn; unfold remain; lia|].
    split; [cbn; unfold rangeSize, remain; cbn; lia|].
    split.
    { intros x Hx. apply Exists_cons in Hx as [Hx|Hx].
      - unfold inRange in Hx. cbn in Hx. split.
        + left. exists cur. split; [done|]. unfold inScope. lia.
        + intros [(c & [= <-] & Hin)|(k & Hk & Hin)]; unfold inScope in Hin; cbn in *;
            [|done]. destruct Hsep; unfold remain in *; lia.
      - apply Exists_cons in Hx as [Hx|Hx]; [|by apply Exists_nil in Hx].
        unfold inRange in Hx. cbn in Hx. split.
        + right. exists bk. split; [done|]. unfold inScope, remain in *. lia.
        + intros [(c & [= <-] & Hin)|(k & Hk & Hin)]; unfold inScope in Hin; cbn in *;
            [lia|done]. }
    split.
    { intros x [(c & [= <-] & Hin)|(k & Hk & Hin)]; unfold inScope in Hin; cbn in *; [|done].
      right. exists bk. split; [done|]. unfold inScope, remain in *. lia. }
    split.
    { intros [|[|i]] [|[|j]] r1 r2 x H1 H2 Hij; cbn in *; try done;
        rewrite ?lookup_nil in *; try done.
      all: injection H1 as <-; injection H2 as <-; unfold inRange; cbn.
      all: destruct Hsep; unfold remain in *; lia. }
    split; [|split; [done|split; [done|]]].
    { split; [done|]. cbn. split.
      { intros c [= <-]. unfold scopeWF, remain. cbn. lia. }
      split; [done|]. done. }
    intros x [(c & Hc' & Hin)|(k & Hk & Hin)]; unfold inScope in Hin.
    + assert (c = cur) as -> by congruence.
      left. apply Exists_cons. left. unfold inRange. cbn. lia.
    + assert (k = bk) as -> by congruence.
      destruct (Z.le_gt_cases x (minBid bk + remain - 1)).
      * left. apply Exists_cons. right. apply Exists_cons. left. unfold inRange. cbn. lia.
      * right. left. eexists. split; [reflexivity|]. unfold inScope. cbn. lia.
Qed.

Lemma install_spec b s :
  bidMgrWF b → scopeWF (BidAllocNums b) s →
  BidAllocNums b <= maxBid s - minBid s + 1 →
  (∀ x, inScope x s → ¬ availableBid b x) →
  bidMgrWF (install b s) ∧ BidAllocNums (install b s) = BidAllocNums b ∧
  (∀ x, availableBid (install b s) x → availableBid b x ∨ inScope x s).
Proof.
  intros (Hn & Hcur & Hbk & Hapart) Hs Hsize Hfresh. unfold install.
  destruct (current b) as [cur|] eqn:Hc; cbn.
  - split; [|split; [done|]].
    + split; [done|]. cbn. split; [intros c [= <-]; by apply Hcur|].
      split; [by intros k [= <-]|]. intros c k [= <-] [= <-].
      destruct (Hcur cur eq_refl) as [Hmin _]. destruct Hs as [Hsmin _].
      unfold apart. destruct (Z.lt_ge_cases (maxBid cur) (minBid s)) as [?|Hge]; [by left|].
      destruct (Z.lt_ge_cases (maxBid s) (minBid cur)) as [?|Hge']; [by right|].
      exfalso. apply (Hfresh (Z.max (minBid cur) (minBid s))); [unfold inScope; lia|].
      left. exists cur. rewrite Hc. split; [done|]. unfold inScope. lia.
    + intros x [(c & [= <-] & Hin)|(k & [= <-] & Hin)]; [|by right].
      left. left. exists cur. by rewrite Hc.
  - split; [|split; [done|]].
    + split; [done|]. cbn. split; [by intros c [= <-]|]. done.
    + intros x [(c & [= <-] & Hin)|(k & ? & _)]; [by right|done].
Qed.

Lemma handed_once ops : ∀ b issued,
  bidMgrWF b → (∀ x, availableBid b x → Exists (inScope x) issued) →
  opsWF (BidAllocNums b) issued ops →
  (∀ i j r1 r2 x, handedOut b ops !! i = Some r1 → handedOut b ops !! j = Some r2 →
     i ≠ j → inRange x r1 → inRange x r2 → False) ∧
  (∀ r x, r ∈ handedOut b ops → inRange x r →
     availableBid b x ∨ ¬ Exists (inScope x) issued).
Proof.
  induction ops as [|[count|scope] ops IH]; intros b issued Hwf Hav Hops.
  { cbn. split; [by intros [|?] ? ? ? ? ?|]. by intros r x Hr%elem_of_nil. }
  - cbn [opsWF] in Hops. destruct Hops as [Hcount Hops]. cbn [handedOut].
    pose proof (Alloc_spec b count Hwf Hcount) as Hspec.
    destruct (Alloc b count) as [[b' [ranges|e]] signal].
    2:{ destruct Hspec as [-> _]. by apply IH. }
    destruct Hspec as (_ & _ & _ & Hhand & Hleft & Hdisj & Hwf' & HN & _).
    destruct (IH b' issued Hwf') as [IHd IHa].
    { intros x Hx. apply Hav, Hleft, Hx. }
    { by rewrite HN. }
    assert (Hnew : ∀ r x, r ∈ ranges → inRange x r → availableBid b x ∧ ¬ availableBid b' x).
    { intros r x Hr Hx. apply Hhand. apply Exists_exists. eauto. }
    split.
    + intros i j r1 r2 x H1 H2 Hij Hx1 Hx2.
      apply lookup_app_Some in H1 as [H1|[Hi H1]]; apply lookup_app_Some in H2 as [H2|[Hj H2]].
      * by eapply (Hdisj i j).
      * destruct (Hnew r1 x (list_elem_of_lookup_2 _ _ _ H1) Hx1) as [Hb Hb'].
        destruct (IHa r2 x (list_elem_of_lookup_2 _ _ _ H2) Hx2) as [?|Hno]; [done|].
        apply Hno, Hav, Hb.
      * destruct (Hnew r2 x (list_elem_of_lookup_2 _ _ _ H2) Hx2) as [Hb Hb'].
        destruct (IHa r1 x (list_elem_of_lookup_2 _ _ _ H1) Hx1) as [?|Hno]; [done|].
        apply Hno, Hav, Hb.
      * eapply (IHd (i - length ranges)%nat (j - length ranges)%nat); try done. lia.
    + intros r x [Hr|Hr]%elem_of_app Hx.
      * left. by apply (Hnew r x).
      * destruct (IHa r x Hr Hx) as [Hb'|?]; [left; by apply Hleft|by right].
  - cbn [opsWF] in Hops. destruct Hops as (Hs & Hsize & Hfresh & Hops). cbn [handedOut].
    assert (Hnot : ∀ x, inScope x scope → ¬ Exists (inScope x) issued).
    { intros x Hx Hex. apply Exists_exists in Hex as (s' & Hs' & Hin).
      eapply Forall_forall in Hfresh; [|exact Hs'].
      unfold apart, inScope in *. lia. }
    destruct (install_spec b scope Hwf Hs Hsize) as (Hwf' & HN & Hav').
    { intros x Hx Hb. by apply (Hnot x Hx), Hav. }
    destruct (IH (install b scope) (scope :: issued) Hwf') as [IHd IHa].
    { intros x Hx. destruct (Hav' x Hx) as [Hb|Hin].
      - apply Exists_cons. right. by apply Hav.
      - apply Exists_cons. by left. }
    { by rewrite HN. }
    split; [done|].
    intros r x Hr Hx. destruct (IHa r x Hr Hx) as [Hb'|Hno].
    + destruct (Hav' x Hb') as [?|Hin]; [by left|]. right. by apply Hnot.
    + right. intros Hex. apply Hno. apply Exists_cons. by right.
Qed.

(** [Alloc] hands out exactly the ids it is asked for. The manager is in
    order ([bidMgrWF]): [BidAllocNums] is one at least; the current scope
    and the scope in reserve are not empty and end more than
    [BidAllocNums] below the end of [uint64]; the scope in reserve holds
    [BidAllocNums] ids at least; and the two scopes are disjoint. For a
    request of [count] ids, one at least, from such a manager: the ranges
    returned hold [count] ids, all of which the manager could hand out
    before and cannot hand out any more; every other id the manager could
    hand out it still can, and it has gained none; the manager is in order
    again; and it signals for a new scope exactly when none is in
    reserve. A request that fails leaves the manager as it was: it asked
    for more than [BidAllocNums] ids, or there is no current scope, or the
    current scope is too small and none is in reserve. *)
Theorem Alloc_hands_out_count b count :
  bidMgrWF b → 1 <= count →
  match Alloc b count with
  | (b', inl ranges, signal) =>
      count <= BidAllocNums b ∧
      Forall (λ r, StartBid r <= EndBid r) ranges ∧
      foldr Z.add 0 (rangeSize <$> ranges) = count ∧
      (∀ x, Exists (inRange x) ranges → availableBid b x ∧ ¬ availableBid b' x) ∧
      (∀ x, availableBid b' x → availableBid b x) ∧
      (∀ i j r1 r2 x, ranges !! i = Some r1 → ranges !! j = Some r2 → i ≠ j →
         inRange x r1 → inRange x r2 → False) ∧
      bidMgrWF b' ∧ BidAllocNums b' = BidAllocNums b ∧
      signal = bool_decide (backup b' = None) ∧
      (∀ x, availableBid b x → Exists (inRange x) ranges ∨ availableBid b' x)
  | (b', inr e, signal) =>
      b' = b ∧ signal = bool_decide (backup b = None) ∧
      (e = ErrIllegalArguments ∧ BidAllocNums b < count ∨
       e = ErrAllocBidFromCm ∧ count <= BidAllocNums b ∧
       (current b = None ∨
        ∃ cur, current b = Some cur ∧ maxBid cur - minBid cur + 1 < count ∧
               backup b = None))
  end.
Proof. apply Alloc_spec. Qed.

(** No blob id is handed out twice. The manager starts in order
    ([bidMgrWF]: [BidAllocNums] is one at least, its scopes are not empty,
    end more than [BidAllocNums] below the end of [uint64] and are
    disjoint, and the scope in reserve holds [BidAllocNums] ids at least);
    every request asks for one id at least; and every scope installed is
    not empty, ends more than [BidAllocNums] below the end of [uint64],
    holds [BidAllocNums] ids at least and is disjoint from every scope the
    manager held at the start or was given before ([opsWF]). Then, over
    every sequence of requests and installed scopes, any two ranges handed
    out are disjoint. *)
Theorem bidMgr_hands_out_once b ops i j r1 r2 x :
  bidMgrWF b →
  opsWF (BidAllocNums b) (option_list (current b) ++ option_list (backup b)) ops →
  handedOut b ops !! i = Some r1 → handedOut b ops !! j = Some r2 → i ≠ j →
  ¬ (inRange x r1 ∧ inRange x r2).
Proof.
  intros Hwf Hops H1 H2 Hij [Hx1 Hx2]. revert H1 H2 Hij Hx1 Hx2.
  eapply (handed_once ops b); [done| |done].
  intros y [(cur & Hc & Hin)|(bk & Hb & Hin)]; apply Exists_exists.
  - exists cur. rewrite Hc. split; [set_solver|done].
  - exists bk. rewrite Hb. split; [set_solver|done].
Qed.

(** [NewBidMgr] asks the cluster manager for [max BidAllocNums 10000] ids
    until it gets a scope, three times at most, each time in the state the
    call before left. The manager returned with the first scope given
    holds exactly that scope as its current one, nothing in reserve and
    the raised [BidAllocNums], and no error comes with it; after three
    errors the manager holds no scope and comes with the third error.
    When the scopes the cluster manager gives for that count are not empty
    and end more than the count below the end of [uint64], a manager
    returned without an error is in order. *)
Theorem NewBidMgr_ready {Σ} (cm : clusterMgr Σ) n (σ : Σ) :
  let N := Z.max n 10000 in
  let holding (lo hi : Z) :=
    {| current := Some {| minBid := lo; maxBid := hi |}; backup := None;
       BidAllocNums := N |} in
  let a1 := AllocBid cm σ N in
  let a2 := AllocBid cm a1.1 N in
  let a3 := AllocBid cm a2.1 N in
  NewBidMgr cm n σ =
    match a1.2, a2.2, a3.2 with
    | inl (lo, hi), _, _ => (a1.1, (holding lo hi, None))
    | inr _, inl (lo, hi), _ => (a2.1, (holding lo hi, None))
    | inr _, inr _, inl (lo, hi) => (a3.1, (holding lo hi, None))
    | inr _, inr _, inr e =>
        (a3.1, ({| current := None; backup := None; BidAllocNums := N |}, Some e))
    end ∧
  ((∀ σ0, match (AllocBid cm σ0 N).2 with
          | inl (lo, hi) => 0 <= lo <= hi ∧ hi + N < 2 ^ 64
          | inr _ => True
          end) →
   match NewBidMgr cm n σ with
   | (_, (b, None)) => bidMgrWF b
   | (_, (_, Some _)) => True
   end).
Proof.
  intros N holding a1 a2 a3.
  assert (Hconf : confCheck n = N).
  { unfold confCheck, DefaultBidAllocNums, N. destruct (Z.ltb_spec n 10000); lia. }
  assert (Heq : NewBidMgr cm n σ =
    match a1.2, a2.2, a3.2 with
    | inl (lo, hi), _, _ => (a1.1, (holding lo hi, None))
    | inr _, inl (lo, hi), _ => (a2.1, (holding lo hi, None))
    | inr _, inr _, inl (lo, hi) => (a3.1, (holding lo hi, None))
    | inr _, inr _, inr e =>
        (a3.1, ({| current := None; backup := None; BidAllocNums := N |}, Some e))
    end).
  { unfold NewBidMgr, allocBid. cbn [BidAllocNums tryAllocBid]. rewrite Hconf.
    subst a3 a2 a1.
    destruct (AllocBid cm σ N) as [σ1 [[lo hi]|e1]]; cbn [fst snd]; [done|].
    destruct (AllocBid cm σ1 N) as [σ2 [[lo hi]|e2]]; cbn [fst snd]; [done|].
    by destruct (AllocBid cm σ2 N) as [σ3 [[lo hi]|e3]]. }
  split; [exact Heq|].
  intros Hcm. rewrite Heq.
  assert (Hok : ∀ σ0 lo hi, (AllocBid cm σ0 N).2 = inl (lo, hi) → bidMgrWF (holding lo hi)).
  { intros σ0 lo hi Hans. specialize (Hcm σ0). rewrite Hans in Hcm.
    split; [cbn; lia|]. cbn.
    split; [intros c [= <-]; unfold scopeWF; cbn; lia|]. done. }
  destruct (a1.2) as [[lo hi]|e1] eqn:H1; [by apply (Hok σ)|].
  destruct (a2.2) as [[lo hi]|e2] eqn:H2; [by apply (Hok a1.1)|].
  destruct (a3.2) as [[lo hi]|e3] eqn:H3; [by apply (Hok a2.1)|].
  done.
Qed.

End bid_manager.

(** ** The key count limiter keeps its limit *)

Section key_limiter.
Import keycount.

Section limiter_facts.

Context {K : Type} `{Countable K}.
Implicit Types (m : gmap K Z) (l : keyCountLimit K) (keys : list K).

Lemma count_nonneg m key : countersWF m → 0 <= count m key < 2 ^ 32.
Proof.
  intros Hwf. unfold count. destruct (m !! key) as [n|] eqn:Hn; cbn; [|lia].
  specialize (Hwf key n Hn). lia.
Qed.

Lemma limited_spec lim m keys :
  limited lim m keys = true ↔ ∃ key, key ∈ keys ∧ lim <= count m key.
Proof.
  induction keys as [|key keys IH]; cbn.
  { split; [done|]. by intros (? & ?%elem_of_nil & _). }
  destruct (Z.leb_spec lim (count m key)) as [Hle|Hlt].
  - split; [|done]. intros _. exists key. split; [left|done].
  - rewrite IH. split.
    + intros (k & Hk & Hle). exists k. split; [by right|done].
    + intros (k & [->|Hk]%elem_of_cons & Hle); [lia|eauto].
Qed.

Lemma increment_spec keys : ∀ m,
  countersWF m → NoDup keys → (∀ key, key ∈ keys → count m key < 2 ^ 32 - 1) →
  countersWF (increment m keys) ∧
  ∀ key, count (increment m keys) key
         = count m key + (if decide (key ∈ keys) then 1 else 0).
Proof.
  induction keys as [|k keys IH]; intros m Hwf Hnd Hroom; cbn [increment].
  { split; [done|]. intros key. rewrite decide_False by apply not_elem_of_nil. lia. }
  apply NoDup_cons in Hnd as [Hk Hnd].
  pose proof (count_nonneg m k Hwf) as Hck.
  pose proof (Hroom k ltac:(left)) as Hrk.
  assert (Hu : u32 (count m k + 1) = count m k + 1).
  { unfold u32. apply Z.mod_small. lia. }
  rewrite Hu.
  assert (Hcount' : ∀ key, count (<[k := count m k + 1]> m) key
                           = count m key + (if decide (key = k) then 1 else 0)).
  { intros key. unfold count at 1. destruct (decide (key = k)) as [->|Hne].
    - by rewrite lookup_insert_eq.
    - rewrite lookup_insert_ne by done. fold (count m key). lia. }
  destruct (IH (<[k := count m k + 1]> m)) as [Hwf' Hc'].
  - intros key n. destruct (decide (key = k)) as [->|Hne].
    + rewrite lookup_insert_eq. intros [= <-]. lia.
    + rewrite lookup_insert_ne by done. apply Hwf.
  - done.
  - intros key Hkey. rewrite Hcount'. destruct (decide (key = k)) as [->|_]; [done|].
    specialize (Hroom key ltac:(by right)). lia.
  - split; [done|]. intros key. rewrite Hc', Hcount'.
    destruct (decide (key = k)) as [->|Hne].
    + rewrite decide_False by done. rewrite decide_True by left. lia.
    + destruct (decide (key ∈ keys)) as [Hin|Hout].
      * rewrite decide_True by (by right). lia.
      * rewrite decide_False; [lia|]. by intros [?|?]%elem_of_cons.
Qed.

Lemma occurrences_cons (key k : K) keys :
  occurrences key (k :: keys) = (if decide (k = key) then 1 else 0) + occurrences key keys.
Proof.
  unfold occurrences. rewrite filter_cons. destruct (decide (k = key)); cbn [length]; lia.
Qed.

Lemma occurrences_nonneg (key : K) keys : 0 <= occurrences key keys.
Proof. unfold occurrences. lia. Qed.

(** The loop of [Release] ends well exactly when every key is held as
    often as it is released. *)
Lemma release_spec keys : ∀ m,
  countersWF m →
  countersWF (release m keys).1 ∧
  ((release m keys).2 = Returns ↔ ∀ key, occurrences key keys <= count m key) ∧
  ((release m keys).2 = Returns →
     ∀ key, count (release m keys).1 key = count m key - occurrences key keys).
Proof.
  induction keys as [|k keys IH]; intros m Hwf; cbn [release].
  { split; [done|]. split.
    - split; [|done]. intros _ key. pose proof (count_nonneg m key Hwf).
      unfold occurrences. cbn. lia.
    - intros _ key. unfold occurrences. cbn. lia. }
  destruct (m !! k) as [n|] eqn:Hk.
  2:{ split; [done|]. split; [|done]. split; [done|]. intros Hall. exfalso.
      specialize (Hall k). rewrite occurrences_cons, decide_True in Hall by done.
      pose proof (occurrences_nonneg k keys). unfold count in Hall. rewrite Hk in Hall.
      cbn in Hall. lia. }
  pose proof (Hwf k n Hk) as Hn.
  destruct (Z.eqb_spec n 0) as [|_]; [lia|].
  assert (Hcm : count m k = n) by (unfold count; by rewrite Hk).
  destruct (Z.eqb_spec n 1) as [->|Hn1].
  - destruct (IH (delete k m)) as (Hwf' & Hret & Hcnt).
    { intros key v Hv. apply lookup_delete_Some in Hv as [_ Hv]. by eapply Hwf. }
    assert (Hcd : ∀ key, count (delete k m) key
                         = count m key - (if decide (k = key) then 1 else 0)).
    { intros key. unfold count at 1. destruct (decide (k = key)) as [<-|Hne].
      - rewrite lookup_delete_eq. cbn. lia.
      - rewrite lookup_delete_ne by done. fold (count m key). lia. }
    split; [done|]. split.
    + rewrite Hret. split; intros Hall key; specialize (Hall key);
        rewrite ?occurrences_cons, Hcd in *; lia.
    + intros Hr key. rewrite (Hcnt Hr), Hcd, occurrences_cons. lia.
  - assert (Hu : u32 (n - 1) = n - 1) by (unfold u32; apply Z.mod_small; lia).
    rewrite Hu.
    destruct (IH (<[k := n - 1]> m)) as (Hwf' & Hret & Hcnt).
    { intros key v. destruct (decide (key = k)) as [->|Hne].
      - rewrite lookup_insert_eq. intros [= <-]. lia.
      - rewrite lookup_insert_ne by done. apply Hwf. }
    assert (Hci : ∀ key, count (<[k := n - 1]> m) key
                         = count m key - (if decide (k = key) then 1 else 0)).
    { intros key. unfold count at 1. destruct (decide (k = key)) as [<-|Hne].
      - rewrite lookup_insert_eq. cbn. lia.
      - rewrite lookup_insert_ne by done. fold (count m key). lia. }
    split; [done|]. split.
    + rewrite Hret. split; intros Hall key; specialize (Hall key);
        rewrite ?occurrences_cons, Hci in *; lia.
    + intros Hr key. rewrite (Hcnt Hr), Hci, occurrences_cons. lia.
Qed.

Lemma counters_eq m1 m2 :
  countersWF m1 → countersWF m2 → (∀ key, count m1 key = count m2 key) → m1 = m2.
Proof.
  intros H1 H2 Hc. apply map_eq. intros key. specialize (Hc key). unfold count in Hc.
  destruct (m1 !! key) as [a|] eqn:Ha, (m2 !! key) as [b|] eqn:Hb; cbn in Hc; try done.
  - by subst.
  - specialize (H1 key a Ha). lia.
  - specialize (H2 key b Hb). lia.
Qed.

Lemma occurrences_NoDup (key : K) keys :
  NoDup keys → occurrences key keys = if decide (key ∈ keys) then 1 else 0.
Proof.
  induction 1 as [|k keys Hk Hnd IH].
  { rewrite decide_False by apply not_elem_of_nil. done. }
  rewrite occurrences_cons, IH. destruct (decide (k = key)) as [->|Hne].
  - rewrite decide_False by done. rewrite decide_True by left. lia.
  - destruct (decide (key ∈ keys)).
    + rewrite decide_True by (by right). lia.
    + rewrite decide_False; [lia|]. intros [?|?]%elem_of_cons; congruence.
Qed.

Lemma Acquire_spec l keys :
  countersWF (current l) → 0 <= limit l < 2 ^ 32 → NoDup keys →
  (∀ key, count (current l) key <= limit l) →
  match Acquire l keys with
  | (l', None) =>
      (∀ key, key ∈ keys → count (current l) key < limit l) ∧
      limit l' = limit l ∧ countersWF (current l') ∧
      (∀ key, count (current l') key
              = count (current l) key + (if decide (key ∈ keys) then 1 else 0)) ∧
      (∀ key, count (current l') key <= limit l)
  | (l', Some e) =>
      l' = l ∧ e = ErrLimited ∧ ∃ key, key ∈ keys ∧ count (current l) key = limit l
  end.
Proof.
  intros Hwf Hlim Hnd Hbound. unfold Acquire.
  destruct (limited (limit l) (current l) keys) eqn:Hl.
  - apply limited_spec in Hl as (key & Hkey & Hle). split; [done|]. split; [done|].
    exists key. split; [done|]. specialize (Hbound key). lia.
  - assert (Hfree : ∀ key, key ∈ keys → count (current l) key < limit l).
    { intros key Hkey. destruct (Z.lt_ge_cases (count (current l) key) (limit l)); [done|].
      assert (limited (limit l) (current l) keys = true) as Ht; [|congruence].
      apply limited_spec. eauto. }
    destruct (increment_spec keys (current l) Hwf Hnd) as [Hwf' Hc].
    { intros key Hkey. specialize (Hfree key Hkey). lia. }
    cbn [limit current]. split; [done|]. split; [done|]. split; [done|]. split; [done|].
    intros key. rewrite Hc. destruct (decide (key ∈ keys)) as [Hin|_].
    + specialize (Hfree key Hin). lia.
    + specialize (Hbound key). lia.
Qed.

Lemma holds_insert_fresh m key v :
  m !! key = None → holds (<[key := v]> m) = holds m + v.
Proof. intros Hk. unfold holds. rewrite map_fold_insert_L; [done| |done]. intros. lia. Qed.

Lemma holds_change m key v : holds (<[key := v]> m) = holds m - count m key + v.
Proof.
  unfold count. destruct (m !! key) as [n|] eqn:Hn; cbn.
  - rewrite <-(insert_delete_id m key n Hn) at 2. rewrite <-insert_delete_eq.
    rewrite !holds_insert_fresh by apply lookup_delete_eq. lia.
  - rewrite holds_insert_fresh by done. lia.
Qed.

Lemma holds_delete m key : holds (delete key m) = holds m - count m key.
Proof.
  unfold count. destruct (m !! key) as [n|] eqn:Hn; cbn.
  - rewrite <-(insert_delete_id m key n Hn) at 2.
    rewrite holds_insert_fresh by apply lookup_delete_eq. lia.
  - rewrite delete_id by done. lia.
Qed.

Lemma Running_holds l : Running l = u32 (holds (current l)).
Proof.
  unfold Running, holds. induction (current l) as [|key v m Hk _ IH] using map_first_key_ind.
  { by rewrite !map_fold_empty. }
  rewrite !map_fold_insert_L; try done.
  - rewrite IH. unfold u32. by rewrite Zplus_mod_idemp_l.
  - intros. lia.
  - intros. unfold u32. rewrite !Zplus_mod_idemp_l. f_equal. lia.
Qed.

Lemma holds_increment keys : ∀ m,
  countersWF m → (∀ key, key ∈ keys → count m key < 2 ^ 32 - 1) → NoDup keys →
  holds (increment m keys) = holds m + Z.of_nat (length keys).
Proof.
  induction keys as [|k keys IH]; intros m Hwf Hroom Hnd; cbn [increment length]; [lia|].
  apply NoDup_cons in Hnd as [Hk Hnd].
  pose proof (count_nonneg m k Hwf) as Hck.
  pose proof (Hroom k ltac:(left)) as Hrk.
  assert (Hu : u32 (count m k + 1) = count m k + 1) by (unfold u32; apply Z.mod_small; lia).
  rewrite Hu, IH, holds_change; [lia| | |done].
  - intros key n. destruct (decide (key = k)) as [->|Hne].
    + rewrite lookup_insert_eq. intros [= <-]. lia.
    + rewrite lookup_insert_ne by done. apply Hwf.
  - intros key Hkey. unfold count. rewrite lookup_insert_ne by (by intros ->).
    apply (Hroom key). by right.
Qed.

Lemma holds_release keys : ∀ m,
  countersWF m → (release m keys).2 = Returns →
  holds (release m keys).1 = holds m - Z.of_nat (length keys).
Proof.
  induction keys as [|k keys IH]; intros m Hwf; cbn [release length]; [cbn; lia|].
  destruct (m !! k) as [n|] eqn:Hk; [|done].
  pose proof (Hwf k n Hk) as Hn.
  assert (Hcm : count m k = n) by (unfold count; by rewrite Hk).
  destruct (Z.eqb_spec n 0); [done|]. destruct (Z.eqb_spec n 1) as [->|].
  - intros Hr. rewrite IH, holds_delete; [lia| |done].
    intros key v Hv. apply lookup_delete_Some in Hv as [_ Hv]. by eapply Hwf.
  - assert (u32 (n - 1) = n - 1) as -> by (unfold u32; apply Z.mod_small; lia).
    intros Hr. rewrite IH, holds_change; [lia| |done].
    intros key v. destruct (decide (key = k)) as [->|Hne].
    + rewrite lookup_insert_eq. intros [= <-]. lia.
    + rewrite lookup_insert_ne by done. apply Hwf.
Qed.

End limiter_facts.

(** [Acquire] takes every key or none. For keys that differ and a limiter
    within its limit: when no key has reached the limit, each key is held
    once more and nothing else changes, so that the limiter stays within
    its limit; otherwise [Acquire] returns [ErrLimited], some key is at the
    limit, and the limiter is as it was. *)
Theorem Acquire_all_or_nothing {K : Type} `{Countable K} (l : keyCountLimit K) keys :
  countersWF (current l) → 0 <= limit l < 2 ^ 32 → NoDup keys →
  (∀ key, count (current l) key <= limit l) →
  match Acquire l keys with
  | (l', None) =>
      (∀ key, key ∈ keys → count (current l) key < limit l) ∧
      limit l' = limit l ∧ countersWF (current l') ∧
      (∀ key, count (current l') key
              = count (current l) key + (if decide (key ∈ keys) then 1 else 0)) ∧
      (∀ key, count (current l') key <= limit l)
  | (l', Some e) =>
      l' = l ∧ e = ErrLimited ∧ ∃ key, key ∈ keys ∧ count (current l) key = limit l
  end.
Proof. apply Acquire_spec. Qed.

(** [Release] ends well exactly when every key is held as often as the
    call releases it, and then takes that many holds from each key. It
    panics otherwise, at the first key that is not held, with the keys
    before it released: for a key [key] that is not held after the release
    of [before], the limiter is left as the release of [before] leaves
    it. *)
Theorem Release_exact {K : Type} `{Countable K} (l : keyCountLimit K) keys :
  countersWF (current l) →
  ((Release l keys).2 = Returns ↔ ∀ key, occurrences key keys <= count (current l) key) ∧
  ((Release l keys).2 = Returns →
     ∀ key, count (current (Release l keys).1) key
            = count (current l) key - occurrences key keys) ∧
  (∀ before key after,
     keys = before ++ key :: after →
     (Release l before).2 = Returns →
     count (current (Release l before).1) key = 0 →
     (Release l keys).2 = Panics "released by 0" ∧
     (Release l keys).1 = (Release l before).1).
Proof.
  intros Hwf. unfold Release.
  destruct (release_spec keys (current l) Hwf) as (_ & Hret & Hcnt).
  split; [|split].
  - destruct (release (current l) keys) as [m o]. exact Hret.
  - destruct (release (current l) keys) as [m o]. exact Hcnt.
  - intros before key after -> Hb Hzero.
    assert (Happ : ∀ (ks1 ks2 : list K) (m : gmap K Z), (release m ks1).2 = Returns →
              release m (ks1 ++ ks2) = release (release m ks1).1 ks2).
    { induction ks1 as [|k ks1 IH]; intros ks2 m Hr; [done|].
      cbn [app release] in *. destruct (m !! k) as [n|]; [|done].
      destruct (n =? 0); [done|]. destruct (n =? 1); by apply IH. }
    destruct (release (current l) before) as [m1 o1] eqn:Hrel. cbn [fst snd] in *.
    subst o1. rewrite (Happ before (key :: after) (current l)) by (by rewrite Hrel).
    rewrite Hrel. cbn [fst release].
    destruct (release_spec before (current l) Hwf) as (Hwf1 & _ & _).
    rewrite Hrel in Hwf1. cbn in Hwf1.
    destruct (m1 !! key) as [n|] eqn:Hn.
    + unfold count in Hzero. simpl in Hzero. rewrite Hn in Hzero. cbn in Hzero.
      specialize (Hwf1 key n Hn). lia.
    + done.
Qed.

(** Releasing what was acquired restores the limiter: after an [Acquire]
    of keys that differ has succeeded, the [Release] of the same keys ends
    well and leaves the map of counters exactly as it was before the
    [Acquire]. *)
Theorem Acquire_Release_round_trip {K : Type} `{Countable K} (l l1 : keyCountLimit K) keys :
  countersWF (current l) → 0 <= limit l < 2 ^ 32 → NoDup keys →
  (∀ key, count (current l) key <= limit l) →
  Acquire l keys = (l1, None) →
  Release l1 keys = (l, Returns).
Proof.
  intros Hwf Hlim Hnd Hbound Hacq.
  pose proof (Acquire_spec l keys Hwf Hlim Hnd Hbound) as Hspec. rewrite Hacq in Hspec.
  destruct Hspec as (_ & Hl1 & Hwf1 & Hc1 & _).
  destruct (release_spec keys (current l1) Hwf1) as (Hwf2 & Hret & Hcnt).
  unfold Release. destruct (release (current l1) keys) as [m2 o2]. cbn [fst snd] in *.
  assert (o2 = Returns) as ->.
  { apply Hret. intros key. rewrite Hc1, (occurrences_NoDup key keys Hnd).
    pose proof (count_nonneg (current l) key Hwf). destruct (decide _); lia. }
  f_equal. destruct l as [lim m]. cbn in *. rewrite Hl1. f_equal.
  apply counters_eq; [done|done|]. intros key.
  rewrite (Hcnt eq_refl), Hc1, (occurrences_NoDup key keys Hnd). destruct (decide _); lia.
Qed.

(** A limiter made by [New] never holds a key more often than its limit,
    whatever calls of [Acquire] with keys that differ and of [Release],
    also calls that fail or panic, have been made. *)
Theorem keyCountLimit_within_limit {K : Type} `{Countable K} n (ops : list (op K)) key :
  Forall (λ o, match o with OpAcquire keys => NoDup keys | OpRelease _ => True end) ops →
  let l := foldl step (New n) ops in
  0 <= count (current l) key <= limit l ∧ limit l = u32 n.
Proof.
  intros Hops l. subst l.
  enough (∀ l0 : keyCountLimit K,
            countersWF (current l0) → 0 <= limit l0 < 2 ^ 32 →
            (∀ k, count (current l0) k <= limit l0) →
            let l := foldl step l0 ops in
            countersWF (current l) ∧ (∀ k, count (current l) k <= limit l) ∧
            limit l = limit l0) as Hgen.
  { destruct (Hgen (New n)) as (Hwf & Hb & Hl).
    - intros k v. cbn. by rewrite lookup_empty.
    - cbn. unfold u32. apply Z.mod_pos_bound. lia.
    - intros k. cbn. unfold count, u32. rewrite lookup_empty. cbn.
      apply Z.mod_pos_bound. lia.
    - split; [|by rewrite Hl]. split; [|apply Hb].
      apply (count_nonneg _ key Hwf). }
  induction ops as [|o ops IH]; intros l0 Hwf Hlim Hb; [done|].
  apply Forall_cons in Hops as [Ho Hops]. cbn [foldl].
  assert (countersWF (current (step l0 o)) ∧ limit (step l0 o) = limit l0 ∧
          ∀ k, count (current (step l0 o)) k <= limit l0) as (Hwf1 & Hl1 & Hb1).
  { destruct o as [keys|keys]; cbn [step].
    - pose proof (Acquire_spec l0 keys Hwf Hlim Ho Hb) as Hspec.
      destruct (Acquire l0 keys) as [l1 [e|]]; cbn [fst].
      + destruct Hspec as (-> & _). done.
      + destruct Hspec as (_ & ? & ? & _ & ?). done.
    - destruct (release_spec keys (current l0) Hwf) as (Hwf1 & _ & _).
      unfold Release. destruct (release (current l0) keys) as [m1 o1] eqn:Hrel.
      cbn [fst current limit] in *. split; [done|]. split; [done|].
      assert (Hmono : ∀ ks (m : gmap K Z) k, countersWF m →
                count (release m ks).1 k <= count m k).
      { clear. induction ks as [|k0 ks IHks]; intros m k Hwf; cbn [release]; [done|].
        destruct (m !! k0) as [v|] eqn:Hv; [|done].
        pose proof (Hwf k0 v Hv) as Hpos.
        destruct (Z.eqb_spec v 0); [done|]. destruct (Z.eqb_spec v 1) as [->|].
        - etrans; [apply IHks|].
          + intros k1 v1 Hv1. apply lookup_delete_Some in Hv1 as [_ Hv1]. by eapply Hwf.
          + unfold count. destruct (decide (k0 = k)) as [<-|Hne].
            * rewrite lookup_delete_eq, Hv. cbn. lia.
            * by rewrite lookup_delete_ne.
        - assert (u32 (v - 1) = v - 1) as -> by (unfold u32; apply Z.mod_small; lia).
          etrans; [apply IHks|].
          + intros k1 v1. destruct (decide (k1 = k0)) as [->|Hne].
            * rewrite lookup_insert_eq. intros [= <-]. lia.
            * rewrite lookup_insert_ne by done. apply Hwf.
          + unfold count. destruct (decide (k0 = k)) as [<-|Hne].
            * rewrite lookup_insert_eq, Hv. cbn. lia.
            * by rewrite lookup_insert_ne. }
      intros k. specialize (Hmono keys (current l0) k Hwf). rewrite Hrel in Hmono.
      cbn in Hmono. specialize (Hb k). lia. }
  destruct (IH Hops (step l0 o) Hwf1) as (Hwf2 & Hb2 & Hl2).
  - by rewrite Hl1.
  - intros k. rewrite Hl1. apply Hb1.
  - split; [done|]. split; [done|]. by rewrite Hl2.
Qed.

(** [Running] counts the holds. It is zero for a new limiter, grows by the
    number of keys with every [Acquire] that succeeds and shrinks by the
    number of keys with every [Release] that ends well, in [uint32]
    arithmetic. *)
Theorem Running_tracks_holds {K : Type} `{Countable K} (l : keyCountLimit K) n keys :
  countersWF (current l) → 0 <= limit l < 2 ^ 32 → NoDup keys →
  (∀ key, count (current l) key <= limit l) →
  Running (New n : keyCountLimit K) = 0 ∧
  (∀ l', Acquire l keys = (l', None) →
     Running l' = u32 (Running l + Z.of_nat (length keys))) ∧
  (∀ released, (Release l released).2 = Returns →
     Running (Release l released).1 = u32 (Running l - Z.of_nat (length released))).
Proof.
  intros Hwf Hlim Hnd Hbound. split; [|split].
  - unfold Running. cbn. by rewrite map_fold_empty.
  - intros l' Hacq.
    pose proof (Acquire_spec l keys Hwf Hlim Hnd Hbound) as Hspec. rewrite Hacq in Hspec.
    destruct Hspec as (Hfree & _).
    unfold Acquire in Hacq. destruct (limited _ _ _); [done|]. injection Hacq as <-.
    rewrite !Running_holds. cbn [current].
    rewrite holds_increment; [|done| |done].
    + unfold u32. by rewrite Zplus_mod_idemp_l.
    + intros key Hkey. specialize (Hfree key Hkey). lia.
  - intros released Hr. unfold Release in *.
    pose proof (holds_release released (current l) Hwf) as Hh.
    destruct (release (current l) released) as [m o]. cbn [fst snd] in *.
    rewrite !Running_holds. cbn [current]. rewrite (Hh Hr).
    unfold u32. by rewrite Zminus_mod_idemp_l.
Qed.

(** The limit is checked for every key before any key is counted, so that
    a key given twice passes the check twice: when a key has room for one
    more hold, an [Acquire] that names it twice succeeds and leaves it held
    once more than the limit allows. *)
Theorem Acquire_repeated_key_exceeds {K : Type} `{Countable K} (l : keyCountLimit K) key :
  countersWF (current l) → limit l + 1 < 2 ^ 32 →
  count (current l) key + 1 = limit l →
  ∃ l', Acquire l [key; key] = (l', None) ∧ count (current l') key = limit l + 1.
Proof.
  intros Hwf Hlim Hroom. pose proof (count_nonneg (current l) key Hwf) as Hc.
  unfold Acquire. cbn [limited].
  destruct (Z.leb_spec (limit l) (count (current l) key)); [lia|].
  eexists. split; [reflexivity|]. cbn [current increment].
  assert (u32 (count (current l) key + 1) = limit l) as ->.
  { unfold u32. rewrite Z.mod_small; lia. }
  unfold count at 2. rewrite lookup_insert_eq. cbn.
  unfold count. rewrite lookup_insert_eq. cbn. unfold u32. apply Z.mod_small. lia.
Qed.

End key_limiter.

(** ** The choice of a cluster *)

Section cluster_choice.
Import controller.

Lemma availableTB_nonneg cluster : 0 <= Available cluster → 0 <= availableTB cluster.
Proof. intros. unfold availableTB. by apply Z.shiftr_nonneg. Qed.

Lemma sumTB_nonneg clusters :
  Forall (λ cluster, 0 <= Available cluster) clusters → 0 <= sumTB clusters.
Proof.
  induction 1 as [|cluster clusters Hc _ IH]; cbn; [done|].
  pose proof (availableTB_nonneg cluster Hc). unfold sumTB in IH. lia.
Qed.

Lemma chooseAvailable_spec clusters : ∀ r,
  Forall (λ cluster, 0 <= Available cluster) clusters → 0 <= r < 2 ^ 63 →
  match chooseAvailable r clusters with
  | Some cluster =>
      ∃ before after, clusters = before ++ cluster :: after ∧
        r <= sumTB before + availableTB cluster ∧ (before ≠ [] → sumTB before < r)
  | None => clusters = [] ∨ sumTB clusters < r
  end.
Proof.
  induction clusters as [|c0 clusters IH]; intros r Hall Hr; cbn [chooseAvailable]; [by left|].
  apply Forall_cons in Hall as [Hc0 Hall]. pose proof (availableTB_nonneg c0 Hc0) as Htb.
  fold (availableTB c0).
  destruct (Z.leb_spec r (availableTB c0)) as [Hle|Hgt].
  { exists [], clusters. split; [done|]. split; [cbn; lia|done]. }
  assert (int64 (r - availableTB c0) = r - availableTB c0) as ->.
  { unfold int64. rewrite Z.mod_small; lia. }
  specialize (IH (r - availableTB c0) Hall ltac:(lia)).
  destruct (chooseAvailable _ clusters) as [cluster|].
  - destruct IH as (before & after & -> & Hsum & Hbefore).
    exists (c0 :: before), after. split; [done|]. unfold sumTB in *. cbn. split; [lia|].
    intros _. destruct before as [|b before]; [cbn; lia|].
    specialize (Hbefore ltac:(done)). lia.
  - right. destruct IH as [->|IH]; unfold sumTB in *; cbn in *; lia.
Qed.

Lemma rotate_Permutation {A} n (l : list A) : rotate n l ≡ₚ l.
Proof.
  unfold rotate. rewrite Permutation_app_comm. by rewrite take_drop.
Qed.

Lemma ChooseOne_random c r :
  allocAlg c = AlgRandom → available c ≠ [] →
  0 <= roundRobinCount c → roundRobinCount c + 1 < 2 ^ 64 →
  ChooseOne c r =
  ({| allocAlg := allocAlg c; totalAvailableTB := totalAvailableTB c;
      available := available c; roundRobinCount := roundRobinCount c + 1 |},
   match available c !! Z.to_nat ((roundRobinCount c + 1)
                                   mod Z.of_nat (length (available c))) with
   | Some cluster => inl cluster
   | None => inr PanicIndexOutOfRange
   end).
Proof.
  intros Halg Hne Hc Hmax. unfold ChooseOne. rewrite Halg. cbn.
  destruct (available c) as [|c0 l] eqn:Hav; [done|]. cbn [length Nat.ltb Nat.leb].
  unfold u64. rewrite (Z.mod_small (roundRobinCount c + 1)) by lia.
  by destruct (_ !! _).
Qed.

Lemma chosen_random rs : ∀ c i r,
  allocAlg c = AlgRandom → available c ≠ [] →
  0 <= roundRobinCount c → roundRobinCount c + Z.of_nat (length rs) < 2 ^ 64 →
  rs !! i = Some r →
  chosen c (OpChooseOne <$> rs) !! i
  = inl <$> (available c !! Z.to_nat ((roundRobinCount c + 1 + Z.of_nat i)
                                      mod Z.of_nat (length (available c)))).
Proof.
  induction rs as [|r0 rs IH]; intros c i r Halg Hne Hc Hmax Hi; [done|].
  cbn [fmap list_fmap chosen length] in *.
  rewrite (ChooseOne_random c r0) by (done || lia).
  assert (Hlen : (0 < length (available c))%nat) by (destruct (available c); [done|cbn; lia]).
  destruct i as [|i]; cbn [lookup list_lookup].
  - rewrite Z.add_0_r.
    destruct (lookup_lt_is_Some_2 (available c)
                (Z.to_nat ((roundRobinCount c + 1) mod Z.of_nat (length (available c)))))
      as [cluster Hcl].
    { pose proof (Z.mod_pos_bound (roundRobinCount c + 1) (Z.of_nat (length (available c)))).
      lia. }
    by rewrite Hcl.
  - cbn in Hi.
    rewrite (IH _ i r); [|cbn [allocAlg available roundRobinCount]; first [done|lia]..].
    cbn [available roundRobinCount].
    replace (roundRobinCount c + 1 + 1 + Z.of_nat i)
      with (roundRobinCount c + 1 + Z.of_nat (S i)) by lia.
    done.
Qed.

(** Chosen by [AlgAvailable], a cluster is drawn by its available space.
    With a total that is positive, a random value below the total and
    clusters whose available space is not negative, [ChooseOne] returns the
    first cluster of the queue at which the sum of the TB so far reaches
    the random value, and leaves the controller as it is. It fails only
    when the TB of the whole queue are less than the random value, so that
    it never fails when the total is at most the TB of the queue. *)
Theorem ChooseOne_by_available c r :
  allocAlg c = AlgAvailable →
  Forall (λ cluster, 0 <= Available cluster) (available c) →
  0 <= r < totalAvailableTB c → totalAvailableTB c < 2 ^ 63 →
  match ChooseOne c r with
  | (c', inl cluster) =>
      c' = c ∧
      ∃ before after, available c = before ++ cluster :: after ∧
        r <= sumTB before + availableTB cluster ∧ (before ≠ [] → sumTB before < r)
  | (c', inr e) =>
      c' = c ∧ e = ErrNoAvailableCluster AlgAvailable ∧
      (available c = [] ∨ sumTB (available c) < r) ∧
      sumTB (available c) < totalAvailableTB c
  end.
Proof.
  intros Halg Hall Hr Hmax. unfold ChooseOne. rewrite Halg. cbn [Z.eqb AlgAvailable Pos.eqb].
  destruct (Z.leb_spec (totalAvailableTB c) 0); [lia|].
  pose proof (chooseAvailable_spec (available c) r Hall ltac:(lia)) as Hspec.
  destruct (chooseAvailable r (available c)) as [cluster|]; [done|].
  split; [done|]. split; [done|]. split; [done|].
  destruct Hspec as [->|?]; [cbn|]; lia.
Qed.

(** Chosen by [AlgRandom], the clusters take turns. While the count does
    not wrap, the [i]-th of successive calls returns the cluster at
    [(count + 1 + i) mod n] of a queue of [n] clusters, so that [n] calls
    in a row return every cluster of the queue once. *)
Theorem ChooseOne_round_robin c rs :
  allocAlg c = AlgRandom → available c ≠ [] →
  0 <= roundRobinCount c → roundRobinCount c + Z.of_nat (length rs) < 2 ^ 64 →
  (∀ i r, rs !! i = Some r →
     chosen c (OpChooseOne <$> rs) !! i
     = inl <$> (available c !! Z.to_nat ((roundRobinCount c + 1 + Z.of_nat i)
                                         mod Z.of_nat (length (available c))))) ∧
  (length rs = length (available c) →
   chosen c (OpChooseOne <$> rs) ≡ₚ inl <$> available c).
Proof.
  intros Halg Hne Hc Hmax. split; [intros i r; by apply chosen_random|].
  intros Hlen.
  assert (Hclen : ∀ ops c0, Forall (λ o, ∃ r, o = OpChooseOne r) ops →
            length (chosen c0 ops) = length ops).
  { clear. induction ops as [|o ops IH]; intros c0 Hops; [done|].
    apply Forall_cons in Hops as [[r ->] Hops]. cbn [chosen].
    destruct (ChooseOne c0 r) as [c' res]. cbn. by rewrite IH. }
  assert (chosen c (OpChooseOne <$> rs)
          = inl <$> rotate (Z.to_nat (roundRobinCount c + 1)) (available c)) as ->.
  { apply list_eq. intros i.
    destruct (decide (i < length rs)%nat) as [Hi|Hi].
    - destruct (lookup_lt_is_Some_2 rs i Hi) as [r Hr].
      rewrite (chosen_random rs c i r) by done.
      rewrite list_lookup_fmap, lookup_rotate_r by lia.
      unfold rotate_nat_add. rewrite Z2Nat.id by lia.
      done.
    - rewrite !lookup_ge_None_2; [done| |].
      + rewrite length_fmap, length_rotate. lia.
      + rewrite Hclen, length_fmap; [lia|].
        apply Forall_fmap, Forall_true. intros r. by exists r. }
  by rewrite rotate_Permutation.
Qed.

(** The algorithm of a controller stays one that [ChooseOne] implements:
    [ChangeChooseAlg] installs [AlgAvailable] or [AlgRandom] only and
    refuses anything else with [ErrInvalidAllocAlg], leaving the controller
    as it is. Over every sequence of calls, no [ChooseOne] answers that its
    algorithm is not implemented, and none reads beyond the queue. *)
Theorem ChooseOne_always_implemented c ops :
  IsValidAlg (allocAlg c) = true →
  (∀ alg, match ChangeChooseAlg c alg with
          | (c', None) => (alg = AlgAvailable ∨ alg = AlgRandom) ∧ allocAlg c' = alg
          | (c', Some e) => c' = c ∧ e = ErrInvalidAllocAlg
          end) ∧
  Forall (λ r, ¬ unexpected r) (chosen c ops).
Proof.
  intros Hvalid. split.
  - intros alg. unfold ChangeChooseAlg. destruct (IsValidAlg alg) eqn:Halg; [|done].
    split; [|done]. unfold IsValidAlg, minAlg, maxAlg, AlgAvailable, AlgRandom in *. lia.
  - revert c Hvalid. induction ops as [|[r|alg] ops IH]; intros c Hvalid; [done| |].
    + cbn [chosen]. destruct (ChooseOne c r) as [c' res] eqn:Hch.
      assert (allocAlg c' = allocAlg c ∧ ¬ unexpected res) as [Halg Hres].
      { unfold ChooseOne in Hch.
        assert (allocAlg c = AlgAvailable ∨ allocAlg c = AlgRandom) as [Ha|Ha].
        { unfold IsValidAlg, minAlg, maxAlg, AlgAvailable, AlgRandom in *. lia. }
        - rewrite Ha in Hch. cbn [Z.eqb AlgAvailable Pos.eqb] in Hch.
          destruct (totalAvailableTB c <=? 0);
            [injection Hch as <- <-; split; [done|cbn; tauto]|].
          destruct (chooseAvailable _ _); injection Hch as <- <-; (split; [done|cbn; tauto]).
        - rewrite Ha in Hch. cbn [Z.eqb AlgAvailable AlgRandom Pos.eqb] in Hch.
          destruct (Nat.ltb_spec 0 (length (available c))) as [Hlen|Hlen];
            [|injection Hch as <- <-; split; [done|cbn; tauto]].
          destruct (lookup_lt_is_Some_2 (available c)
                      (Z.to_nat (u64 (roundRobinCount c + 1)
                                 mod Z.of_nat (length (available c))))) as [cluster Hcl].
          { pose proof (Z.mod_pos_bound (u64 (roundRobinCount c + 1))
                          (Z.of_nat (length (available c)))). lia. }
          rewrite Hcl in Hch. injection Hch as <- <-. cbn. split; [done|]. tauto. }
      constructor; [done|]. apply IH. by rewrite Halg.
    + cbn [chosen]. apply IH. unfold ChangeChooseAlg.
      destruct (IsValidAlg alg) eqn:Halg; done.
Qed.

End cluster_choice.

(** ** The task switches follow the cluster manager *)

Section task_switches.
Import taskswitch.

Lemma call_inStep s o :
  inStep s →
  (call s o).2 = Returns ∧ inStep (call s o).1 ∧
  enabled (call s o).1 = match o with OpEnable => true | OpDisable => false end.
Proof.
  unfold inStep. destruct s as [[|] n]; cbn; intros ->; by destruct o.
Qed.

Lemma switchStatus_spec statusStr :
  switchStatus statusStr =
  if decide (statusStr = "Enable") then (true, None)
  else if decide (statusStr = "Disable") then (false, None)
  else (true, Some ErrIllegalStatus).
Proof.
  unfold switchStatus, SwitchOpen, SwitchClose.
  destruct (String.eqb_spec statusStr "Enable"); [by rewrite decide_True|].
  rewrite decide_False by done.
  destruct (String.eqb_spec statusStr "Disable"); [by rewrite decide_True|].
  by rewrite decide_False.
Qed.

Lemma updateLoop_spec answers names : ∀ sm,
  map_Forall (λ _ s, inStep s) sm → NoDup names →
  ∃ sm', updateLoop answers names sm = (sm', Returns) ∧
    map_Forall (λ _ s, inStep s) sm' ∧
    ∀ name,
      (name ∉ names → sm' !! name = sm !! name) ∧
      (name ∈ names →
       match sm !! name with
       | None => sm' !! name = None
       | Some s => ∃ s', sm' !! name = Some s' ∧ asConfigured (answers name) s s'
       end).
Proof.
  induction names as [|n names IH]; intros sm Hall Hnd.
  { exists sm. split; [done|]. split; [done|]. intros name. split; [done|].
    by intros ?%elem_of_nil. }
  apply NoDup_cons in Hnd as [Hn Hnd]. cbn [updateLoop].
  assert (Hstay : ∃ sm', updateLoop answers names sm = (sm', Returns) ∧
            map_Forall (λ _ s, inStep s) sm' ∧
            ∀ name,
              (name ∉ names → sm' !! name = sm !! name) ∧
              (name ∈ names →
               match sm !! name with
               | None => sm' !! name = None
               | Some s => ∃ s', sm' !! name = Some s' ∧ asConfigured (answers name) s s'
               end)) by (by apply IH).
  assert (Hsame : (sm !! n = None ∨
                   ∃ s, sm !! n = Some s ∧ asConfigured (answers n) s s) →
            ∃ sm', updateLoop answers names sm = (sm', Returns) ∧
              map_Forall (λ _ s, inStep s) sm' ∧
              ∀ name,
                (name ∉ n :: names → sm' !! name = sm !! name) ∧
                (name ∈ n :: names →
                 match sm !! name with
                 | None => sm' !! name = None
                 | Some s => ∃ s', sm' !! name = Some s' ∧ asConfigured (answers name) s s'
                 end)).
  { intros Hcase. destruct Hstay as (sm' & Heq & Hall' & Hnames).
    exists sm'. split; [done|]. split; [done|]. intros name. split.
    - intros Hname. apply Hnames. set_solver.
    - intros [->|Hname]%elem_of_cons; [|by apply Hnames].
      destruct (Hnames n) as [Hkeep _]. specialize (Hkeep Hn).
      destruct Hcase as [Hnone|(s & Hs & Hconf)].
      + by rewrite Hnone, Hkeep.
      + rewrite Hs. exists s. by rewrite Hkeep. }
  destruct (sm !! n) as [s|] eqn:Hs; [|apply Hsame; by left].
  destruct (answers n) as [statusStr|e] eqn:Hans.
  2:{ apply Hsame. right. exists s. split; [done|]. unfold asConfigured. by rewrite ?Hans. }
  rewrite switchStatus_spec.
  assert (Hset : ∀ o, (statusStr = "Enable" ∧ o = OpEnable ∨
                       statusStr = "Disable" ∧ o = OpDisable) →
            ∃ sm', (let '(s', out) := call s o in
                    match out with
                    | Panics msg => (<[n := s']> sm, Panics msg)
                    | Returns => updateLoop answers names (<[n := s']> sm)
                    end) = (sm', Returns) ∧
              map_Forall (λ _ s0, inStep s0) sm' ∧
              ∀ name,
                (name ∉ n :: names → sm' !! name = sm !! name) ∧
                (name ∈ n :: names →
                 match sm !! name with
                 | None => sm' !! name = None
                 | Some s0 =>
                     ∃ s', sm' !! name = Some s' ∧ asConfigured (answers name) s0 s'
                 end)).
  { intros o Ho. destruct (call_inStep s o (Hall n s Hs)) as (Hret & Hstep & Hen).
    destruct (call s o) as [s1 out]. cbn [fst snd] in *. subst out.
    destruct (IH (<[n := s1]> sm)) as (sm' & Heq & Hall' & Hnames); [|done|].
    { by apply map_Forall_insert_2. }
    exists sm'. split; [done|]. split; [done|]. intros name. split.
    - intros Hname. destruct (Hnames name) as [Hkeep _].
      rewrite Hkeep by set_solver. apply lookup_insert_ne. set_solver.
    - intros [->|Hname]%elem_of_cons.
      + rewrite Hs. exists s1. destruct (Hnames n) as [Hkeep _].
        rewrite (Hkeep Hn), lookup_insert_eq. split; [done|].
        unfold asConfigured. rewrite ?Hans.
        destruct Ho as [[-> ->]|[-> ->]]; by rewrite Hen.
      + destruct (Hnames name) as [_ Hvisit]. specialize (Hvisit Hname).
        rewrite lookup_insert_ne in Hvisit by (by intros ->). done. }
  destruct (decide (statusStr = "Enable")) as [He|He]; [apply (Hset OpEnable); by left|].
  destruct (decide (statusStr = "Disable")) as [Hd|Hd]; [apply (Hset OpDisable); by right|].
  apply Hsame. right. exists s. split; [done|]. unfold asConfigured. rewrite ?Hans.
  by rewrite !decide_False.
Qed.

(** A switch and its counter stay in step. From a switch whose counter is
    zero when it is enabled and one when it is disabled, as the switches
    that [newTaskSwitch] and [NewEnabledTaskSwitch] make are, no call of
    [Enable] or [Disable] panics, whatever the sequence of calls; after
    it the switch is as the last call set it, and [WaitEnable] returns at
    once exactly when the switch is enabled. *)
Theorem TaskSwitch_in_step s ops :
  inStep s →
  inStep newTaskSwitch ∧ Enabled newTaskSwitch = false ∧
  inStep NewEnabledTaskSwitch ∧ Enabled NewEnabledTaskSwitch = true ∧
  Forall (λ out, out = Returns) (calls s ops).2 ∧
  inStep (calls s ops).1 ∧
  WaitEnableReturns (calls s ops).1 = Enabled (calls s ops).1 ∧
  Enabled (calls s ops).1 = match last ops with
                            | Some OpEnable => true
                            | Some OpDisable => false
                            | None => Enabled s
                            end.
Proof.
  intros Hs. do 4 (split; [done|]).
  assert (Hwait : ∀ s0, inStep s0 → WaitEnableReturns s0 = Enabled s0).
  { intros [[|] n]; unfold inStep, WaitEnableReturns, Enabled; cbn; by intros ->. }
  revert s Hs. induction ops as [|o ops IH]; intros s Hs.
  { cbn. split; [done|]. split; [done|]. split; [by apply Hwait|done]. }
  cbn [calls]. destruct (call_inStep s o Hs) as (Hret & Hstep & Hen).
  destruct (call s o) as [s1 out]. cbn [fst snd] in *. subst out.
  specialize (IH s1 Hstep). destruct (calls s1 ops) as [s2 outs]. cbn [fst snd] in *.
  destruct IH as (Houts & Hstep2 & Hw & Hlast).
  split; [by constructor|]. split; [done|]. split; [done|].
  rewrite Hlast. destruct ops as [|o' ops]; [cbn; unfold Enabled; rewrite Hen; by destruct o|].
  change (last (o :: o' :: ops)) with (last (o' :: ops)).
  destruct (last (o' :: ops)) as [[|]|] eqn:Hl; [done|done|]. by apply last_None in Hl.
Qed.

(** An update sets every switch as the cluster manager says. When the
    switches of the manager are in step and the loop visits every name of
    the map once, [update] does not panic; it keeps the names of the map,
    enables the switches whose answer is ["Enable"], disables those whose
    answer is ["Disable"], and leaves a switch as it is when the answer
    is anything else or an error; every switch stays in step. *)
Theorem update_follows_config answers names sm :
  map_Forall (λ _ s, inStep s) sm → NoDup names →
  (∀ name, name ∈ names ↔ is_Some (sm !! name)) →
  ∃ sm', update answers names sm = (sm', Returns) ∧
    map_Forall (λ _ s, inStep s) sm' ∧
    ∀ name,
      match sm !! name with
      | None => sm' !! name = None
      | Some s => ∃ s', sm' !! name = Some s' ∧ asConfigured (answers name) s s'
      end.
Proof.
  intros Hall Hnd Hkeys. unfold update.
  destruct (updateLoop_spec answers names sm Hall Hnd) as (sm' & Heq & Hall' & Hnames).
  exists sm'. split; [done|]. split; [done|]. intros name.
  destruct (Hnames name) as [Hkeep Hvisit].
  destruct (sm !! name) as [s|] eqn:Hs.
  - apply Hvisit, Hkeys. by rewrite Hs.
  - rewrite Hkeep; [done|]. intros Hin%Hkeys. rewrite Hs in Hin. by destruct Hin.
Qed.

(** A switch that is added is disabled until an update enables it. After
    [AddSwitch] of a new name the switch of that name is disabled, so that
    [WaitEnable] blocks; a name that exists is refused with
    [ErrConflictSwitch]; and [DelSwitch] of the name added gives the
    manager back as it was. *)
Theorem AddSwitch_starts_disabled (sm : gmap string TaskSwitch) switchName :
  map_Forall (λ _ s, inStep s) sm →
  match AddSwitch sm switchName with
  | (sm', inl s) =>
      sm !! switchName = None ∧ sm' !! switchName = Some s ∧
      Enabled s = false ∧ WaitEnableReturns s = false ∧
      map_Forall (λ _ s0, inStep s0) sm' ∧
      (∀ name, name ≠ switchName → sm' !! name = sm !! name) ∧
      DelSwitch sm' switchName = (sm, None)
  | (sm', inr e) => sm' = sm ∧ e = ErrConflictSwitch ∧ is_Some (sm !! switchName)
  end.
Proof.
  intros Hall. unfold AddSwitch. destruct (sm !! switchName) as [s|] eqn:Hs; [by eauto|].
  split; [done|]. split; [by rewrite lookup_insert_eq|]. split; [done|]. split; [done|].
  split; [by apply map_Forall_insert_2|].
  split; [intros name Hne; by rewrite lookup_insert_ne|].
  unfold DelSwitch. rewrite lookup_insert_eq. f_equal. by rewrite delete_insert_id.
Qed.

End task_switches.

(** ** The idle volumes hold every volume once *)

Section idle_facts.
Import volumemgr.

Context {volume : Type} (vid : volume → Z).
Implicit Types (i : idleVolumes volume) (vol : volume) (v : Z).

Lemma list_filter_ext_in {A} (P Q : A → Prop) `{∀ x, Decision (P x)} `{∀ x, Decision (Q x)}
    (l : list A) :
  (∀ x, x ∈ l → (P x ↔ Q x)) → filter P l = filter Q l.
Proof.
  induction l as [|x l IH]; intros Hext; [done|].
  rewrite !filter_cons. rewrite IH by (intros y Hy; apply Hext; by right).
  destruct (decide (P x)) as [HP|HP], (decide (Q x)) as [HQ|HQ]; try done.
  - by apply (Hext x ltac:(left)) in HP.
  - by apply (Hext x ltac:(left)) in HQ.
Qed.

Lemma list_filter_all {A} (P : A → Prop) `{∀ x, Decision (P x)} (l : list A) :
  (∀ x, x ∈ l → P x) → filter P l = l.
Proof.
  induction l as [|x l IH]; intros Hall; [done|].
  rewrite filter_cons_True by (apply Hall; by left).
  by rewrite IH by (intros y Hy; apply Hall; by right).
Qed.

Lemma fmap_filter_snd (P : volume → Prop) (Q : nat * volume → Prop)
    `{∀ x, Decision (P x)} `{∀ x, Decision (Q x)} (l : list (nat * volume)) :
  (∀ x, Q x ↔ P x.2) → snd <$> filter Q l = filter P (snd <$> l).
Proof.
  intros HQ. induction l as [|x l IH]; [done|]. cbn [fmap list_fmap]. rewrite !filter_cons.
  destruct (decide (Q x)) as [Hq|Hq], (decide (P x.2)) as [Hp|Hp]; cbn; rewrite ?IH; try done.
  - by apply HQ in Hq.
  - by apply HQ in Hp.
Qed.

Lemma NoDup_fst_filter {A B} (P : A * B → Prop) `{∀ x, Decision (P x)} (l : list (A * B)) :
  NoDup (fst <$> l) → NoDup (fst <$> filter P l).
Proof.
  induction l as [|x l IH]; [done|]. cbn [fmap list_fmap]. intros [Hx Hl]%NoDup_cons.
  rewrite filter_cons. destruct (decide (P x)); [|by apply IH].
  cbn. apply NoDup_cons. split; [|by apply IH].
  intros Hin. apply Hx. apply list_elem_of_fmap in Hin as (y & -> & Hy).
  apply list_elem_of_filter in Hy as [_ Hy]. apply list_elem_of_fmap. eauto.
Qed.

Lemma entry_unique (l : list (nat * volume)) e vol1 vol2 :
  NoDup (fst <$> l) → (e, vol1) ∈ l → (e, vol2) ∈ l → vol1 = vol2.
Proof.
  induction l as [|x l IH]; [by intros _ ?%elem_of_nil|].
  cbn [fmap list_fmap]. intros [Hx Hl]%NoDup_cons H1 H2.
  apply elem_of_cons in H1 as [H1|H1]; apply elem_of_cons in H2 as [H2|H2].
  - congruence.
  - subst x. exfalso. apply Hx. apply list_elem_of_fmap. by exists (e, vol2).
  - subst x. exfalso. apply Hx. apply list_elem_of_fmap. by exists (e, vol1).
  - by apply IH.
Qed.

Lemma idle_head i (b : bool) e vol :
  idleWF vid i →
  (e, vol) ∈ (if b then allocatable i else notAllocatable i) →
  m i !! vid vol = Some {| head := b; element := e |}.
Proof.
  intros (_ & _ & Hm) Hin. apply Hm. exists vol. by split.
Qed.

Lemma idle_entry i v item :
  idleWF vid i → m i !! v = Some item →
  ∀ (b : bool) x, x ∈ (if b then allocatable i else notAllocatable i) →
    (vid x.2 = v ↔ b = head item ∧ x.1 = element item).
Proof.
  intros Hwf Hv b [e vol] Hx. pose proof Hwf as (Hnd & _ & Hm). cbn [fst snd]. split.
  - intros Hvid. pose proof (idle_head i b e vol Hwf Hx) as Hlook.
    rewrite Hvid, Hv in Hlook. by injection Hlook as ->.
  - intros [-> ->]. apply Hm in Hv as (vol0 & <- & Hin0). f_equal.
    eapply (entry_unique (idleEntries i)); [done| |];
      unfold idleEntries; apply elem_of_app; destruct (head item); eauto.
Qed.

Lemma idle_absent i v :
  idleWF vid i → m i !! v = None → ∀ x, x ∈ idleEntries i → vid x.2 ≠ v.
Proof.
  intros Hwf Hv [e vol] Hx Hvid. unfold idleEntries in Hx. cbn in Hvid.
  apply elem_of_app in Hx as [Hx|Hx].
  - pose proof (idle_head i true e vol Hwf Hx) as Hlook. rewrite Hvid in Hlook. congruence.
  - pose proof (idle_head i false e vol Hwf Hx) as Hlook. rewrite Hvid in Hlook. congruence.
Qed.

(** What [Remove] and [delete] make of a volume id that is in the map. *)
Lemma removed_dropVid i v item :
  idleWF vid i → m i !! v = Some item →
  {| m := base.delete v (m (removeItem i item));
     allocatable := allocatable (removeItem i item);
     notAllocatable := notAllocatable (removeItem i item);
     elements := elements (removeItem i item) |} = dropVid vid v i.
Proof.
  intros Hwf Hv. pose proof (idle_entry i v item Hwf Hv) as Hent.
  unfold removeItem, dropVid, listRemove. destruct (head item) eqn:Hh; cbn; f_equal.
  - apply list_filter_ext_in. intros x Hx. specialize (Hent true x Hx). cbn in Hent.
    split; intros Hne Heq; apply Hne; [by apply Hent|]. apply Hent. by split.
  - symmetry. apply list_filter_all. intros x Hx Heq.
    by destruct (proj1 (Hent false x Hx) Heq).
  - symmetry. apply list_filter_all. intros x Hx Heq.
    by destruct (proj1 (Hent true x Hx) Heq).
  - apply list_filter_ext_in. intros x Hx. specialize (Hent false x Hx). cbn in Hent.
    split; intros Hne Heq; apply Hne; [by apply Hent|]. apply Hent. by split.
Qed.

Lemma absent_dropVid i v : idleWF vid i → m i !! v = None → dropVid vid v i = i.
Proof.
  intros Hwf Hv. pose proof (idle_absent i v Hwf Hv) as Habs.
  unfold dropVid. destruct i as [mi A N n]. cbn in *. f_equal.
  - by apply delete_id.
  - apply list_filter_all. intros x Hx. apply Habs. unfold idleEntries. cbn. set_solver.
  - apply list_filter_all. intros x Hx. apply Habs. unfold idleEntries. cbn. set_solver.
Qed.

Lemma delete_dropVid i v : idleWF vid i → delete i v = dropVid vid v i.
Proof.
  intros Hwf. unfold delete. destruct (m i !! v) as [item|] eqn:Hv.
  - by apply removed_dropVid.
  - by rewrite absent_dropVid.
Qed.

Lemma dropVid_WF i v : idleWF vid i → idleWF vid (dropVid vid v i).
Proof.
  intros (Hnd & Hbound & Hm). unfold idleWF, idleEntries, dropVid. cbn.
  rewrite <-filter_app. split; [by apply NoDup_fst_filter|]. split.
  - intros x [_ Hx]%list_elem_of_filter. by apply Hbound.
  - intros v0 item. rewrite lookup_delete_Some, Hm. split.
    + intros (Hne & vol & Hvid & Hin). exists vol. split; [done|].
      destruct (head item); apply list_elem_of_filter; (split; [cbn; congruence|done]).
    + intros (vol & Hvid & Hin).
      assert (vid vol ≠ v ∧
              (element item, vol) ∈ (if head item then allocatable i else notAllocatable i))
        as [Hne Hin'].
      { destruct (head item); apply list_elem_of_filter in Hin as [Hne Hin']; by split. }
      split; [congruence|]. by exists vol.
Qed.

(** [PushFront] on one of the lists, with the entry of the map. *)
Definition pushed (b : bool) vol i : idleVolumes volume :=
  {| m := <[vid vol := {| head := b; element := elements i |}]> (m i);
     allocatable := if b then (elements i, vol) :: allocatable i else allocatable i;
     notAllocatable := if b then notAllocatable i else (elements i, vol) :: notAllocatable i;
     elements := S (elements i) |}.

Lemma pushed_WF (b : bool) vol i :
  idleWF vid i → m i !! vid vol = None → idleWF vid (pushed b vol i).
Proof.
  intros Hwf Hv. pose proof Hwf as (Hnd & Hbound & Hm).
  pose proof (idle_absent i (vid vol) Hwf Hv) as Habs.
  assert (Hfresh : elements i ∉ fst <$> idleEntries i).
  { intros (x & Hx & Hin)%list_elem_of_fmap. specialize (Hbound x Hin). lia. }
  unfold idleWF, idleEntries, pushed in *. cbn. split; [|split].
  - destruct b; cbn.
    + apply NoDup_cons. by split.
    + rewrite fmap_app. cbn. rewrite fmap_app in Hnd, Hfresh.
      apply NoDup_app in Hnd as (HA & HAN & HN). apply NoDup_app. split; [done|]. split.
      * intros e He [->|Hin]%elem_of_cons; [|by eapply HAN].
        apply Hfresh. set_solver.
      * apply NoDup_cons. split; [|done]. intros Hin. apply Hfresh. set_solver.
  - intros x Hx.
    assert (x = (elements i, vol) ∨ x ∈ allocatable i ++ notAllocatable i) as [->|Hin].
    { destruct b; set_solver. }
    + cbn. lia.
    + specialize (Hbound x Hin). lia.
  - intros v0 item. rewrite lookup_insert_Some, Hm. split.
    + intros [[<- <-]|(Hne & vol0 & Hvid & Hin)].
      * exists vol. split; [done|]. cbn. destruct b; by left.
      * exists vol0. split; [done|]. destruct b, (head item); try done; by right.
    + intros (vol0 & Hvid & Hin).
      assert ((element item = elements i ∧ vol0 = vol ∧ head item = b) ∨
              (element item, vol0) ∈ (if head item then allocatable i else notAllocatable i))
        as [(He & -> & Hh)|Hin'].
      { destruct b, (head item); try (by right);
          apply elem_of_cons in Hin as [[= -> ->]|Hin]; [by left|by right|by left|by right]. }
      * left. split; [done|]. destruct item as [hd el]. cbn in *. by subst.
      * right. split; [|by exists vol0].
        intros <-. apply (Habs (element item, vol0)); [|done].
        destruct (head item); set_solver.
Qed.

Lemma add_pushed (b : bool) i vol :
  idleWF vid i →
  (if b then addAllocatable vid i vol else addNotAllocatable vid i vol)
  = pushed b vol (dropVid vid (vid vol) i).
Proof.
  intros Hwf.
  assert (∀ i1, m i1 = m i → allocatable i1 = allocatable (dropVid vid (vid vol) i) →
            notAllocatable i1 = notAllocatable (dropVid vid (vid vol) i) →
            elements i1 = elements i →
            {| m := <[vid vol := {| head := b; element := elements i1 |}]> (m i1);
               allocatable := if b then (elements i1, vol) :: allocatable i1
                              else allocatable i1;
               notAllocatable := if b then notAllocatable i1
                                 else (elements i1, vol) :: notAllocatable i1;
               elements := S (elements i1) |} = pushed b vol (dropVid vid (vid vol) i))
    as Heq.
  { intros i1 Hm HA HN He. unfold pushed. rewrite Hm, HA, HN, He. cbn.
    by rewrite insert_delete_eq. }
  unfold addAllocatable, addNotAllocatable.
  destruct (m i !! vid vol) as [item|] eqn:Hv.
  - pose proof (removed_dropVid i (vid vol) item Hwf Hv) as Hrem.
    injection Hrem as _ HA HN He. cbn in He.
    destruct b; rewrite <-(Heq (removeItem i item)); try done;
      unfold removeItem; by destruct (head item).
  - pose proof (absent_dropVid i (vid vol) Hwf Hv) as Habs.
    destruct b; rewrite <-(Heq i); try done; by rewrite Habs.
Qed.

Lemma add_WF (b : bool) i vol :
  idleWF vid i →
  idleWF vid (if b then addAllocatable vid i vol else addNotAllocatable vid i vol).
Proof.
  intros Hwf. rewrite add_pushed by done. apply pushed_WF; [by apply dropVid_WF|].
  cbn. apply lookup_delete_eq.
Qed.

Lemma allocLoop_spec optionalVids count : ∀ i succeed,
  idleWF vid i →
  (∀ v, v ∈ succeed → m i !! v = None) → NoDup succeed →
  (Z.of_nat (length succeed) < count ∨ succeed = []) →
  ∃ taken,
    (allocLoop optionalVids count i succeed).2 = succeed ++ taken ∧
    (allocLoop optionalVids count i succeed).1 = foldl (λ i0 v, dropVid vid v i0) i taken ∧
    idleWF vid (allocLoop optionalVids count i succeed).1 ∧
    NoDup (succeed ++ taken) ∧ taken `sublist_of` optionalVids ∧
    (∀ v, v ∈ taken → is_Some (m i !! v)) ∧
    Z.of_nat (length (succeed ++ taken)) <= Z.max count 1 ∧
    (Z.of_nat (length (succeed ++ taken)) < count →
       ∀ v, v ∈ optionalVids → m (allocLoop optionalVids count i succeed).1 !! v = None).
Proof.
  induction optionalVids as [|v rest IH]; intros i succeed Hwf Hgone Hnd Hroom.
  { exists []. cbn. rewrite app_nil_r. repeat (split; [done|]).
    split; [by intros ? ?%elem_of_nil|]. split; [destruct Hroom as [?| ->]; cbn; lia|].
    by intros _ ? ?%elem_of_nil. }
  cbn [allocLoop]. destruct (m i !! v) as [item|] eqn:Hv.
  - rewrite (removed_dropVid i v item Hwf Hv).
    assert (Hnew : NoDup (succeed ++ [v])).
    { apply NoDup_app. split; [done|]. split; [|apply NoDup_singleton].
      intros x Hx ->%list_elem_of_singleton. specialize (Hgone v Hx). congruence. }
    destruct (Z.leb_spec count (Z.of_nat (length (succeed ++ [v])))) as [Hfull|Hmore].
    + exists [v]. cbn [fst snd foldl]. repeat (split; [done|]).
      split; [by apply dropVid_WF|]. split; [done|].
      split; [apply sublist_skip, sublist_nil_l|].
      split; [intros ? ->%list_elem_of_singleton; by rewrite Hv|].
      rewrite length_app in *. cbn in *.
      split; [destruct Hroom as [?| ->]; cbn; lia|lia].
    + destruct (IH (dropVid vid v i) (succeed ++ [v])) as (taken & Hs & Hi & Hwf' & Hnd' & Hsub
                                                          & Hidle & Hlen & Hall).
      { by apply dropVid_WF. }
      { intros x [Hx| ->%list_elem_of_singleton]%elem_of_app; cbn.
        - rewrite lookup_delete_ne; [by apply Hgone|].
          intros <-. specialize (Hgone v Hx). congruence.
        - apply lookup_delete_eq. }
      { done. }
      { by left. }
      exists (v :: taken). rewrite Hs, Hi, <-!(assoc_L (++)). cbn [app foldl].
      repeat (split; [done|]).
      rewrite <-(assoc_L (++)) in Hnd', Hlen, Hall. cbn [app] in Hnd', Hlen, Hall.
      split; [by rewrite Hi in Hwf'|]. split; [done|].
      split; [by apply sublist_skip|].
      split.
      { intros x [->|Hx]%elem_of_cons; [by rewrite Hv|].
        specialize (Hidle x Hx). cbn in Hidle. destruct Hidle as [it Hit].
        apply lookup_delete_Some in Hit as [_ Hit]. by rewrite Hit. }
      split; [done|].
      intros Hshort x [->|Hx]%elem_of_cons.
      * rewrite <-Hi.
        assert (∀ l i0, m i0 !! v = None →
                  m (foldl (λ i1 v0, dropVid vid v0 i1) i0 l) !! v = None) as Hkeep.
        { clear. induction l as [|y l IHl]; intros i0 H0; [done|]. cbn [foldl].
          apply IHl. cbn. destruct (decide (y = v)) as [->|Hne].
          - apply lookup_delete_eq.
          - by rewrite lookup_delete_ne. }
        rewrite Hi. apply Hkeep. cbn. apply lookup_delete_eq.
      * rewrite <-Hi. by apply Hall.
  - destruct (IH i succeed Hwf Hgone Hnd Hroom) as (taken & Hs & Hi & Hwf' & Hnd' & Hsub
                                                    & Hidle & Hlen & Hall).
    exists taken. repeat (split; [done|]).
    split; [by apply sublist_cons|]. split; [done|]. split; [done|].
    intros Hshort x [->|Hx]%elem_of_cons; [|by apply Hall].
    rewrite Hi.
    assert (∀ l i0, m i0 !! v = None →
              m (foldl (λ i1 v0, dropVid vid v0 i1) i0 l) !! v = None) as Hkeep.
    { clear. induction l as [|y l IHl]; intros i0 H0; [done|]. cbn [foldl].
      apply IHl. cbn. destruct (decide (y = v)) as [->|Hne].
      - apply lookup_delete_eq.
      - by rewrite lookup_delete_ne. }
    by apply Hkeep.
Qed.

Lemma reachable_WF ops : ∀ i,
  idleWF vid i → idleWF vid (foldl (step vid) i ops).
Proof.
  induction ops as [|o ops IH]; intros i Hwf; [done|].
  cbn [foldl]. apply IH. destruct o as [vol|vol|v|options count]; cbn [step].
  - by apply (add_WF true).
  - by apply (add_WF false).
  - rewrite delete_dropVid by done. by apply dropVid_WF.
  - unfold allocFromOptions.
    destruct (allocLoop_spec options count i [] Hwf) as (taken & _ & _ & Hwf' & _);
      [by intros ? ?%elem_of_nil|constructor|by right|done].
Qed.

Lemma new_WF : idleWF vid newIdleVolumes.
Proof.
  unfold idleWF, idleEntries. cbn. split; [constructor|]. split; [by intros ? ?%elem_of_nil|].
  intros v item. rewrite lookup_empty. split; [done|].
  intros (vol & _ & Hin). destruct (head item); by apply elem_of_nil in Hin.
Qed.

Lemma dropVid_fold_lists taken : ∀ i,
  allocatable (foldl (λ i0 v, dropVid vid v i0) i taken)
  = filter (λ x, vid x.2 ∉ taken) (allocatable i) ∧
  notAllocatable (foldl (λ i0 v, dropVid vid v i0) i taken)
  = filter (λ x, vid x.2 ∉ taken) (notAllocatable i) ∧
  (∀ v, m (foldl (λ i0 v0, dropVid vid v0 i0) i taken) !! v
        = if decide (v ∈ taken) then None else m i !! v).
Proof.
  induction taken as [|t taken IH]; intros i.
  { cbn. rewrite !list_filter_all by (intros ? _ ?%elem_of_nil; done). split; [done|].
    split; [done|]. intros v. by rewrite decide_False by (by intros ?%elem_of_nil). }
  cbn [foldl]. destruct (IH (dropVid vid t i)) as (HA & HN & Hm). cbn in HA, HN, Hm.
  rewrite HA, HN, !list_filter_filter. split; [|split].
  - apply list_filter_iff. intros x. rewrite not_elem_of_cons. tauto.
  - apply list_filter_iff. intros x. rewrite not_elem_of_cons. tauto.
  - intros v. rewrite Hm. destruct (decide (v ∈ taken)) as [Hin|Hout].
    + rewrite decide_True by (by right). done.
    + destruct (decide (v = t)) as [->|Hne].
      * rewrite decide_True by (by left). apply lookup_delete_eq.
      * rewrite decide_False by (rewrite not_elem_of_cons; tauto).
        by rewrite lookup_delete_ne.
Qed.

End idle_facts.

(** The idle volumes hold a volume id once. After any sequence of calls
    from the empty structure, no two elements of the two lists are volumes
    of one id, and the map has exactly the ids of the listed volumes.
    A call of [addAllocatable] puts the volume at the front of the
    allocatable list and takes the volumes of its id from where they were;
    [addNotAllocatable] does so for the other list; [delete] takes the
    volumes of an id from both lists; the other volumes keep their
    order. *)
Theorem idleVolumes_hold_each_once {volume : Type} (vid : volume → Z)
    (ops : list (volumemgr.op volume)) :
  let i := foldl (volumemgr.step vid) volumemgr.newIdleVolumes ops in
  let others v (l : list (nat * volume)) := filter (λ vol, vid vol ≠ v) (snd <$> l) in
  NoDup (vid <$> (snd <$> idleEntries i)) ∧
  (∀ v, is_Some (volumemgr.m i !! v) ↔ v ∈ vid <$> (snd <$> idleEntries i)) ∧
  (∀ vol,
     volumemgr.getAllIdles (volumemgr.addAllocatable vid i vol)
     = vol :: others (vid vol) (volumemgr.allocatable i) ∧
     snd <$> volumemgr.notAllocatable (volumemgr.addAllocatable vid i vol)
     = others (vid vol) (volumemgr.notAllocatable i)) ∧
  (∀ vol,
     volumemgr.getAllIdles (volumemgr.addNotAllocatable vid i vol)
     = others (vid vol) (volumemgr.allocatable i) ∧
     snd <$> volumemgr.notAllocatable (volumemgr.addNotAllocatable vid i vol)
     = vol :: others (vid vol) (volumemgr.notAllocatable i)) ∧
  (∀ v,
     volumemgr.getAllIdles (volumemgr.delete i v) = others v (volumemgr.allocatable i) ∧
     snd <$> volumemgr.notAllocatable (volumemgr.delete i v)
     = others v (volumemgr.notAllocatable i)).
Proof.
  intros i others.
  assert (Hwf : idleWF vid i) by apply reachable_WF, new_WF.
  pose proof Hwf as (Hnd & Hbound & Hm).
  split; [|split; [|split; [|split]]].
  - apply NoDup_fmap_2_strong; [|apply NoDup_fmap_2_strong; [|by eapply NoDup_fmap_1]].
    + intros vol1 vol2 (x1 & -> & H1)%list_elem_of_fmap (x2 & -> & H2)%list_elem_of_fmap Hvid.
      assert (∃ b1 : bool, x1 ∈ (if b1 then volumemgr.allocatable i
                                 else volumemgr.notAllocatable i)) as [b1 Hb1].
      { unfold idleEntries in H1. apply elem_of_app in H1 as [?|?];
          [by exists true|by exists false]. }
      assert (∃ b2 : bool, x2 ∈ (if b2 then volumemgr.allocatable i
                                 else volumemgr.notAllocatable i)) as [b2 Hb2].
      { unfold idleEntries in H2. apply elem_of_app in H2 as [?|?];
          [by exists true|by exists false]. }
      destruct x1 as [e1 v1], x2 as [e2 v2]. cbn in *.
      pose proof (idle_head vid i b1 e1 v1 Hwf Hb1) as L1.
      pose proof (idle_head vid i b2 e2 v2 Hwf Hb2) as L2.
      rewrite Hvid, L2 in L1. injection L1 as -> ->.
      by eapply (entry_unique (idleEntries i)).
    + intros [e1 v1] [e2 v2] H1 H2. cbn. intros ->.
      f_equal. pose proof Hnd as Hnd'.
      apply (NoDup_fmap_1 fst) in Hnd'.
      assert (∀ e, (e, v2) ∈ idleEntries i → ∃ b : bool,
                volumemgr.m i !! vid v2 = Some {| volumemgr.head := b;
                                                  volumemgr.element := e |}) as Hlook.
      { intros e He. unfold idleEntries in He. apply elem_of_app in He as [?|?].
        - exists true. by apply (idle_head vid i true).
        - exists false. by apply (idle_head vid i false). }
      destruct (Hlook e1 H1) as [b1 L1]. destruct (Hlook e2 H2) as [b2 L2].
      rewrite L2 in L1. by injection L1.
  - intros v. split.
    + intros [item Hitem]. apply Hm in Hitem as (vol & <- & Hin).
      apply list_elem_of_fmap. exists vol. split; [done|].
      apply list_elem_of_fmap. exists (volumemgr.element item, vol). split; [done|].
      unfold idleEntries. apply elem_of_app. destruct (volumemgr.head item); eauto.
    + intros (vol & -> & (x & -> & Hx)%list_elem_of_fmap)%list_elem_of_fmap.
      unfold idleEntries in Hx. destruct x as [e vol]. cbn.
      apply elem_of_app in Hx as [Hx|Hx].
      * rewrite (idle_head vid i true e vol Hwf Hx). eauto.
      * rewrite (idle_head vid i false e vol Hwf Hx). eauto.
  - intros vol. rewrite (add_pushed vid true i vol Hwf). unfold volumemgr.getAllIdles, others.
    cbn. split; [f_equal|]; by apply fmap_filter_snd.
  - intros vol. rewrite (add_pushed vid false i vol Hwf). unfold volumemgr.getAllIdles, others.
    cbn. split; [|f_equal]; by apply fmap_filter_snd.
  - intros v. rewrite (delete_dropVid vid i v Hwf). unfold volumemgr.getAllIdles, others.
    cbn. split; by apply fmap_filter_snd.
Qed.

(** [allocFromOptions] takes idle volumes of the options, in their order.
    After any sequence of calls from the empty structure, the ids it
    returns differ, are a subsequence of the options, were idle, and are
    idle no more; every other volume stays in its list. It returns
    [max count 1] ids at most: also for a [count] of zero or less it takes
    the first option that is idle. When it returns fewer than [count] ids,
    no option is idle any more. *)
Theorem allocFromOptions_takes_idle {volume : Type} (vid : volume → Z)
    (ops : list (volumemgr.op volume)) optionalVids count :
  let i := foldl (volumemgr.step vid) volumemgr.newIdleVolumes ops in
  let i' := (volumemgr.allocFromOptions i optionalVids count).1 in
  let succeed := (volumemgr.allocFromOptions i optionalVids count).2 in
  NoDup succeed ∧ succeed `sublist_of` optionalVids ∧
  (∀ v, v ∈ succeed → is_Some (volumemgr.m i !! v)) ∧
  (∀ v, volumemgr.m i' !! v = if decide (v ∈ succeed) then None else volumemgr.m i !! v) ∧
  volumemgr.allocatable i' = filter (λ x, vid x.2 ∉ succeed) (volumemgr.allocatable i) ∧
  volumemgr.notAllocatable i'
  = filter (λ x, vid x.2 ∉ succeed) (volumemgr.notAllocatable i) ∧
  Z.of_nat (length succeed) <= Z.max count 1 ∧
  (Z.of_nat (length succeed) < count →
     ∀ v, v ∈ optionalVids → volumemgr.m i' !! v = None) ∧
  (count <= 0 → (∃ v, v ∈ optionalVids ∧ is_Some (volumemgr.m i !! v)) →
     length succeed = 1%nat).
Proof.
  intros i i' succeed.
  assert (Hwf : idleWF vid i) by apply reachable_WF, new_WF.
  unfold volumemgr.allocFromOptions in *.
  destruct (allocLoop_spec vid optionalVids count i [] Hwf)
    as (taken & Hs & Hi & Hwf' & Hnd & Hsub & Hidle & Hlen & Hall);
    [by intros ? ?%elem_of_nil|constructor|by right|].
  cbn [app] in *. fold succeed in Hs. fold i' in Hi, Hwf', Hall. rewrite <-Hs in *.
  destruct (dropVid_fold_lists vid succeed i) as (HA & HN & Hm). rewrite <-Hi in HA, HN, Hm.
  do 7 (split; [done|]). split; [done|].
  intros Hcount (v & Hv & Hidlev).
  assert (succeed ≠ []) as Hne.
  { intros Hnil.
    assert (volumemgr.m i' !! v = None) as Hgone.
    { revert Hv. clear -Hnil Hcount. subst succeed i'. revert i Hnil.
      induction optionalVids as [|o rest IH]; intros i Hnil Hv; [by apply elem_of_nil in Hv|].
      cbn [volumemgr.allocLoop] in *.
      destruct (volumemgr.m i !! o) as [item|] eqn:Ho.
      - destruct (Z.leb_spec count (Z.of_nat (length ([] ++ [o])))); [done|]. cbn in *. lia.
      - apply elem_of_cons in Hv as [->|Hv]; [|by apply IH].
        clear IH Hnil. revert i Ho.
        induction rest as [|o' rest IH]; intros i Ho; [done|].
        cbn [volumemgr.allocLoop].
        destruct (volumemgr.m i !! o') as [item|] eqn:Ho'.
        + destruct (Z.leb_spec count (Z.of_nat (length ([] ++ [o'])))); [|cbn in *; lia].
          cbn. destruct (decide (o' = o)) as [->|Hne]; [apply lookup_delete_eq|].
          rewrite lookup_delete_ne by done. unfold volumemgr.removeItem.
          by destruct (volumemgr.head item).
        + by apply IH. }
    rewrite Hm, Hnil in Hgone. rewrite decide_False in Hgone by (by intros ?%elem_of_nil).
    rewrite Hgone in Hidlev. by destruct Hidlev. }
  destruct succeed as [|s1 [|s2 rest]]; [done|done|]. cbn in Hlen. lia.
Qed.

(** ** The properties on the cluster of three units *)

Lemma twoSwitches_inStep : map_Forall (λ _ s, inStep s) twoSwitches.
Proof.
  apply map_Forall_insert_2; [done|]. apply map_Forall_insert_2; [done|].
  apply map_Forall_empty.
Qed.

Lemma heldOnce_WF : countersWF (keycount.current heldOnce).
Proof.
  intros key n. cbn. intros [_ <-]%lookup_singleton_Some. lia.
Qed.

Lemma heldOnce_bound key :
  keycount.count (keycount.current heldOnce) key <= keycount.limit heldOnce.
Proof.
  unfold keycount.count. cbn. destruct (decide (key = "a")) as [->|Hne].
  - rewrite lookup_singleton_eq. cbn. lia.
  - rewrite lookup_singleton_ne by done. cbn. lia.
Qed.

Lemma cluster_shuffle answer write σ (l : list sortedVuid) :
  (h_Shuffle (cluster answer write) σ l).2 ≡ₚ l.
Proof. apply reverse_Permutation. Qed.

Lemma cluster_pool answer write σ (s : Z) :
  ∃ bytes, (h_poolAlloc (cluster answer write) σ s).2 = inl bytes.
Proof. by exists []. Qed.

Lemma unitAt_cluster vu :
  unitAt (take 3 clusterUnits) vu → vu = firstUnit ∨ vu = secondUnit ∨ vu = thirdUnit.
Proof.
  intros (phy & Hphy & Hv & Hd & Hh). destruct vu as [i v d hst]. cbn in *.
  destruct i as [|[|[|i]]]; cbn in Hphy; [..|done]; injection Hphy as <-; cbn in *; subst.
  - by left.
  - right. by left.
  - right. by right.
Qed.

Lemma healthy_reads blob vu (w : world unit) :
  blob ∈ twoBlobsRead →
  unitAt (take 3 clusterUnits) vu →
  ∃ sd w', readOneShard (cluster healthy None) 1 1 4 blob vu (Some false) w
           = (Some sd, w') ∧
           sd_index sd = index vu ∧
           (sd_status sd = true → buf_bytes (sd_buffer sd) = shardBytes (index vu)) ∧
           (index vu ∉ (∅ : gset nat) → sd_status sd = true).
Proof.
  destruct w as [[] tr nb]. intros Hblob Hvu.
  repeat (apply elem_of_cons in Hblob as [->|Hblob]); [..|by apply elem_of_nil in Hblob].
  all: destruct (unitAt_cluster vu Hvu) as [->|[->| ->]].
  all: eexists _, _; split; [vm_compute; reflexivity|].
  all: cbn; repeat split; done.
Qed.

Lemma healthy_serves blob :
  blob ∈ twoBlobsRead →
  serves (cluster healthy None) 1 clusterVolume clusterSizes shardBytes ∅ blob.
Proof.
  intros Hblob.
  assert (Vid blob = 1 ∧ BlobSize blob = 8 ∧ Offset blob = 0 ∧ ReadSize blob = 8)
    as (Hvid & Hsize & Hoff & Hrd).
  { by repeat (apply elem_of_cons in Hblob as [->|Hblob]); [| |by apply elem_of_nil in Hblob]. }
  split.
  - intros σ. cbn. by rewrite Hvid.
  - by rewrite Hvid.
  - cbn. lia.
  - intros σ phy _. by eexists.
  - cbn. by rewrite Hsize.
  - repeat split; cbn; lia.
  - rewrite size_empty. lia.
  - intros vu w Hvu. by apply healthy_reads.
  - intros σ bytes badIdx Hlen Hgood _.
    destruct (cluster_encoder_rebuilds healthy None σ 1 bytes badIdx 3 2 Hlen Hgood)
      as (σ' & out & Heq & Hout & Hdata).
    exists σ', out. split; [done|]. split; [done|]. intros i Hi. apply Hdata; [done|cbn; lia].
  - intros i Hi. apply (elem_of_emptyDataShardIndexes _ 2) in Hi.
    + cbn [DataSize ShardSize clusterSizes] in Hi. change ((8 + 4 - 1) / 4) with 2 in Hi. lia.
    + repeat split; cbn; lia.
  - intros i Hi. cbn in Hi. by destruct i as [|[|i]]; [..|lia].
  - lia.
  - rewrite Hoff, Hrd. cbn. lia.
Qed.

Lemma oneVolume_serves blob :
  blob ∈ [knownBlob] →
  serves oneVolume 1 clusterVolume clusterSizes shardBytes ∅ blob.
Proof.
  intros ->%list_elem_of_singleton. split.
  - done.
  - done.
  - cbn. lia.
  - intros σ phy _. by eexists.
  - done.
  - repeat split; cbn; lia.
  - rewrite size_empty. lia.
  - intros vu [[] tr nb] Hvu.
    destruct (unitAt_cluster vu Hvu) as [->|[->| ->]].
    all: eexists _, _; split; [vm_compute; reflexivity|].
    all: cbn; repeat split; done.
  - intros σ bytes badIdx Hlen Hgood _.
    destruct (cluster_encoder_rebuilds healthy None σ 1 bytes badIdx 3 2 Hlen Hgood)
      as (σ' & out & Heq & Hout & Hdata).
    exists σ', out. split; [done|]. split; [done|]. intros i Hi. apply Hdata; [done|cbn; lia].
  - intros i Hi. apply (elem_of_emptyDataShardIndexes _ 2) in Hi.
    + cbn [DataSize ShardSize clusterSizes] in Hi. change ((8 + 4 - 1) / 4) with 2 in Hi. lia.
    + repeat split; cbn; lia.
  - intros i Hi. cbn in Hi. by destruct i as [|[|i]]; [..|lia].
  - cbn. lia.
  - cbn. lia.
Qed.

(** The read order of the three units holds each of them once. *)
Lemma genSortedVuidByIDC_units_witness :
  (∀ σ l, (h_Shuffle (cluster healthy None) σ l).2 ≡ₚ l) ∧
  ∃ vuids w',
    genSortedVuidByIDC (cluster healthy None) "A" clusterUnits emptyWorld = (Some vuids, w') ∧
    NoDup (index <$> vuids) ∧
    Forall (unitAt clusterUnits) vuids ∧
    (∀ i phy, clusterUnits !! i = Some phy →
       (∀ σ, ∃ e, (h_GetDiskHost (cluster healthy None) σ (u_DiskID phy)).2 = inr e) →
       i ∉ index <$> vuids) ∧
    ((∀ σ phy, phy ∈ clusterUnits →
        ∃ hi, (h_GetDiskHost (cluster healthy None) σ (u_DiskID phy)).2 = inl hi) →
     index <$> vuids ≡ₚ seq 0 (length clusterUnits)).
Proof.
  split; [apply cluster_shuffle|].
  exact (genSortedVuidByIDC_units (cluster healthy None) (cluster_shuffle healthy None)
           "A" clusterUnits emptyWorld).
Defined.

(** A transport call to the broken disk of the second unit. *)
Lemma getOneShardFromHost_punishes_asked_witness :
  let args := {| a_DiskID := 101; a_Vuid := 11; a_Bid := 1; a_Offset := 0; a_Size := 4 |} in
  a_DiskID args = 101 ∧
  ∃ Δ,
    w_trace (getOneShardFromHost (cluster degraded None) "h1" 101 args 1 1 1 (Some false)
               emptyWorld).2 = Δ ++ w_trace emptyWorld ∧
    punishesAsked None (reverse Δ).
Proof.
  split; [reflexivity|].
  exact (getOneShardFromHost_punishes_asked (cluster degraded None) "h1" 101
           {| a_DiskID := 101; a_Vuid := 11; a_Bid := 1; a_Offset := 0; a_Size := 4 |}
           1 1 1 (Some false) emptyWorld eq_refl).
Defined.

(** The four bytes of [midRead] come from both data shards. *)
Lemma getDataShardOnly_reads_range_witness :
  ∃ σ w' Δ,
    getDataShardOnly rangeNodes 1 midRead emptyWorld =
      (Some (match (h_Write rangeNodes σ [x03; x04; x05; x06]).2 with
             | Some _ => Some ErrWriteResponse
             | None => None
             end), w') ∧
    w_trace w' = Δ ++ w_trace emptyWorld ∧
    written (w_trace w') = written (w_trace emptyWorld) ++ [x03; x04; x05; x06] ∧
    requestedUnits Δ = [1; 0]%nat.
Proof.
  refine (getDataShardOnly_reads_range rangeNodes 1 midRead clusterVolume clusterSizes
            shardBytes _ _ _ _ _ _ _ _ _ _ _ emptyWorld).
  - done.
  - done.
  - intros σ size. by exists [].
  - cbn. lia.
  - cbn. lia.
  - cbn. lia.
  - cbn. lia.
  - cbn. lia.
  - cbn. lia.
  - intros i Hi. cbn in Hi. by destruct i as [|[|i]]; [..|lia].
  - intros σ i phy off size Hphy Hi _ _ _. cbn in Hi.
    destruct i as [|[|i]]; [..|lia]; cbn in Hphy; by injection Hphy as <-.
Defined.

(** The pipeline of [Get] over the two blobs of [twoBlobs]. *)
Lemma Get_pipeline_in_order_witness :
  ∃ st w' k,
    generalPath (cluster healthy None) 1 twoBlobsRead inTurns emptyWorld = (Some st, w') ∧
    (k ≤ length twoBlobsRead)%nat ∧
    written (w_trace w') =
      written (w_trace emptyWorld)
      ++ concat ((λ blob, rangeOf 2 shardBytes blob) <$> take k twoBlobsRead) ∧
    (∀ r, ps_result st = Some r → r = None ∧ k = length twoBlobsRead) ∧
    (∀ more, sc_pipeline inTurns = roundRobin (3 * length twoBlobsRead + 2) ++ more →
       ps_result st = Some None).
Proof.
  refine (Get_pipeline_in_order (cluster healthy None) 1
            (keeps (cluster healthy None) (λ _, clusterVolume) twoBlobsRead)
            (λ sl, (3 ≤ length sl.1)%nat)
            (λ blob, rangeOf 2 shardBytes blob) twoBlobsRead inTurns emptyWorld _ _ _ _ _).
  - intros blob pp sl w Hblob Hpp Hsl.
    apply (produceBlob_serves (cluster healthy None) 1 twoBlobsRead (λ _, clusterVolume)
             (λ _, clusterSizes) (λ _, shardBytes) (λ _, ∅)); try done.
    + intros b Hb. by apply healthy_serves.
    + apply cluster_shuffle.
    + apply cluster_pool.
  - done.
  - done.
  - repeat constructor.
  - cbn. lia.
Defined.

(** [Get] of the sixteen bytes of [twoBlobs] from the healthy cluster. *)
Lemma Get_reads_every_blob_witness :
  ∃ w',
    runGet (cluster healthy None) twoBlobs 16 0 inTurns emptyWorld = (Some (Some None), w') ∧
    written (w_trace w') =
      written (w_trace emptyWorld)
      ++ concat ((λ blob, rangeOf 2 shardBytes blob) <$> twoBlobsRead).
Proof.
  refine (Get_reads_every_blob (cluster healthy None) 1 twoBlobsRead (λ _, clusterVolume)
            (λ _, clusterSizes) (λ _, shardBytes) (λ _, ∅) _ _ _ _ _
            twoBlobs 16 0 inTurns [] emptyWorld _ _ _ _ _ _ _ _).
  - intros b Hb. by apply healthy_serves.
  - done.
  - apply cluster_shuffle.
  - apply cluster_pool.
  - done.
  - by vm_compute.
  - done.
  - done.
  - done.
  - by vm_compute.
  - repeat constructor; intros blob _; cbn; lia.
  - cbn. lia.
  - by vm_compute.
Defined.

(** [Get] of three blobs of which the second is of a volume that is not
    known. *)
Lemma Get_stops_at_first_error_witness :
  ∃ st w' k,
    generalPath oneVolume 1 ([knownBlob] ++ lostBlob :: [laterBlob]) threeReaders emptyWorld
      = (Some st, w') ∧
    (k ≤ length [knownBlob])%nat ∧
    written (w_trace w') =
      written (w_trace emptyWorld) ++ concat (rangeOf 2 shardBytes <$> take k [knownBlob]) ∧
    (∀ r, ps_result st = Some r → r = Some (ErrCollaborator 404) ∧ k = length [knownBlob]) ∧
    [laterBlob] `suffix_of` ps_blobs st ∧
    (∀ more, sc_pipeline threeReaders = roundRobin (3 * (length [knownBlob] + 1) + 2) ++ more →
       ps_result st = Some (Some (ErrCollaborator 404))).
Proof.
  refine (Get_stops_at_first_error oneVolume 1
            (keeps oneVolume (λ _, clusterVolume) [knownBlob])
            (λ sl, (3 ≤ length sl.1)%nat)
            (rangeOf 2 shardBytes) [knownBlob] lostBlob [laterBlob] (ErrCollaborator 404)
            threeReaders emptyWorld _ _ _ _ _ _).
  - intros blob pp sl w Hblob Hpp Hsl.
    apply (produceBlob_serves oneVolume 1 [knownBlob] (λ _, clusterVolume)
             (λ _, clusterSizes) (λ _, shardBytes) (λ _, ∅)); try done.
    + apply oneVolume_serves.
    + apply (cluster_shuffle healthy None).
    + apply (cluster_pool healthy None).
  - intros [[bv|] sv] sl [[] tr nb] Hpp _.
    + destruct Hpp as [(b & _ & ->) _].
      eexists _, _, _. split; [vm_compute; reflexivity|]. done.
    + eexists _, _, _. split; [vm_compute; reflexivity|]. done.
  - done.
  - done.
  - repeat constructor.
  - cbn. lia.
Defined.

(** Three blob ids from the fresh manager. *)
Lemma Alloc_hands_out_count_witness :
  bidMgrWF freshMgr ∧
  match allocator.Alloc freshMgr 3 with
  | (b', inl ranges, signal) =>
      foldr Z.add 0 (rangeSize <$> ranges) = 3 ∧
      (∀ x, Exists (inRange x) ranges → availableBid freshMgr x ∧ ¬ availableBid b' x) ∧
      bidMgrWF b' ∧ signal = bool_decide (allocator.backup b' = None)
  | (_, inr _, _) => False
  end.
Proof.
  assert (Hwf : bidMgrWF freshMgr).
  { split; [cbn; lia|]. split; [intros cur [= <-]; unfold scopeWF; cbn; lia|]. done. }
  split; [exact Hwf|].
  pose proof (Alloc_hands_out_count freshMgr 3 Hwf ltac:(lia)) as Hspec.
  destruct (allocator.Alloc freshMgr 3) as [[b' [ranges|e]] signal] eqn:Halloc.
  - destruct Hspec as (_ & _ & Hsum & Hhand & _ & _ & Hwf' & _ & Hsig & _). done.
  - vm_compute in Halloc. done.
Defined.

(** The three ranges handed out over [acrossScopes]: the last id of the
    first scope is in the second range only. *)
Lemma bidMgr_hands_out_once_witness :
  bidMgrWF freshMgr ∧
  allocator.handedOut freshMgr acrossScopes
  = [ {| allocator.StartBid := 1; allocator.EndBid := 9999 |};
      {| allocator.StartBid := 10000; allocator.EndBid := 10000 |};
      {| allocator.StartBid := 10001; allocator.EndBid := 10004 |} ] ∧
  ¬ (inRange 10000 {| allocator.StartBid := 1; allocator.EndBid := 9999 |} ∧
     inRange 10000 {| allocator.StartBid := 10000; allocator.EndBid := 10000 |}).
Proof.
  assert (Hwf : bidMgrWF freshMgr).
  { split; [cbn; lia|]. split; [intros cur [= <-]; unfold scopeWF; cbn; lia|]. done. }
  split; [exact Hwf|]. split; [by vm_compute|].
  refine (bidMgr_hands_out_once freshMgr acrossScopes 0 1 _ _ 10000 Hwf _ eq_refl eq_refl _).
  - cbn. split; [lia|]. split; [unfold scopeWF; cbn; lia|]. split; [lia|].
    split; [|split; [lia|done]].
    constructor; [|constructor]. right. cbn. lia.
  - lia.
Defined.

(** A manager made with the cluster manager [failsOnce]: the second
    answer is the scope it holds. *)
Lemma NewBidMgr_ready_witness :
  let b := {| allocator.current :=
                Some {| allocator.minBid := 1; allocator.maxBid := 10000 |};
              allocator.backup := None; allocator.BidAllocNums := 10000 |} in
  allocator.NewBidMgr failsOnce 100 false = (true, (b, None)) ∧ bidMgrWF b.
Proof.
  pose proof (NewBidMgr_ready failsOnce 100 false) as [Heq Hwf].
  split; [exact Heq|].
  apply Hwf. intros [|]; cbn; lia.
Defined.

(** ["b"] is free and ["a"] has room for one more hold. *)
Lemma Acquire_all_or_nothing_witness :
  countersWF (keycount.current heldOnce) ∧
  match keycount.Acquire heldOnce ["a"; "b"] with
  | (l', None) =>
      (∀ key, key ∈ ["a"; "b"] →
         keycount.count (keycount.current heldOnce) key < keycount.limit heldOnce) ∧
      keycount.limit l' = keycount.limit heldOnce ∧ countersWF (keycount.current l') ∧
      (∀ key, keycount.count (keycount.current l') key
              = keycount.count (keycount.current heldOnce) key
                + (if decide (key ∈ ["a"; "b"]) then 1 else 0)) ∧
      (∀ key, keycount.count (keycount.current l') key <= keycount.limit heldOnce)
  | (l', Some e) =>
      l' = heldOnce ∧ e = keycount.ErrLimited ∧
      ∃ key, key ∈ ["a"; "b"] ∧
             keycount.count (keycount.current heldOnce) key = keycount.limit heldOnce
  end.
Proof.
  assert (Hwf : countersWF (keycount.current heldOnce)) by apply heldOnce_WF.
  split; [exact Hwf|].
  refine (Acquire_all_or_nothing heldOnce ["a"; "b"] Hwf _ _ _).
  - cbn. lia.
  - apply (bool_decide_unpack _). by vm_compute.
  - apply heldOnce_bound.
Defined.

(** A release of the one hold of ["a"]. *)
Lemma Release_exact_witness :
  countersWF (keycount.current heldOnce) ∧
  ((keycount.Release heldOnce ["a"]).2 = keycount.Returns ↔
   ∀ key, occurrences key ["a"] <= keycount.count (keycount.current heldOnce) key).
Proof.
  split; [apply heldOnce_WF|].
  exact (proj1 (Release_exact heldOnce ["a"] heldOnce_WF)).
Defined.

(** Acquiring ["a"] and ["b"] and releasing them. *)
Lemma Acquire_Release_round_trip_witness :
  keycount.Acquire heldOnce ["a"; "b"]
  = ({| keycount.limit := 2; keycount.current := {[ "b" := 1; "a" := 2 ]} |}, None) ∧
  keycount.Release {| keycount.limit := 2; keycount.current := {[ "b" := 1; "a" := 2 ]} |}
    ["a"; "b"] = (heldOnce, keycount.Returns).
Proof.
  assert (keycount.Acquire heldOnce ["a"; "b"]
          = ({| keycount.limit := 2; keycount.current := {[ "b" := 1; "a" := 2 ]} |}, None))
    as Hacq.
  { by vm_compute. }
  split; [exact Hacq|].
  refine (Acquire_Release_round_trip heldOnce _ ["a"; "b"] heldOnce_WF _ _ _ Hacq).
  - cbn. lia.
  - apply (bool_decide_unpack _). by vm_compute.
  - apply heldOnce_bound.
Defined.

(** A limiter of one hold per key after a second [Acquire] of ["a"]. *)
Lemma keyCountLimit_within_limit_witness :
  let ops := [keycount.OpAcquire ["a"]; keycount.OpAcquire ["a"; "b"];
              keycount.OpRelease ["b"]] in
  let l := foldl keycount.step (keycount.New 1) ops in
  0 <= keycount.count (keycount.current l) "a" <= keycount.limit l ∧
  keycount.limit l = keycount.u32 1.
Proof.
  refine (keyCountLimit_within_limit 1 _ "a" _).
  repeat constructor; apply (bool_decide_unpack _); by vm_compute.
Defined.

(** Two more holds in [heldOnce]. *)
Lemma Running_tracks_holds_witness :
  keycount.Running (keycount.New 2 : keycount.keyCountLimit string) = 0 ∧
  (∀ l', keycount.Acquire heldOnce ["a"; "b"] = (l', None) →
     keycount.Running l' = keycount.u32 (keycount.Running heldOnce + 2)) ∧
  (∀ released, (keycount.Release heldOnce released).2 = keycount.Returns →
     keycount.Running (keycount.Release heldOnce released).1
     = keycount.u32 (keycount.Running heldOnce - Z.of_nat (length released))).
Proof.
  refine (Running_tracks_holds heldOnce 2 ["a"; "b"] heldOnce_WF _ _ _).
  - cbn. lia.
  - apply (bool_decide_unpack _). by vm_compute.
  - apply heldOnce_bound.
Defined.

(** ["a"], held once under a limit of two, is acquired twice in one call. *)
Lemma Acquire_repeated_key_exceeds_witness :
  ∃ l', keycount.Acquire heldOnce ["a"; "a"] = (l', None) ∧
        keycount.count (keycount.current l') "a" = keycount.limit heldOnce + 1.
Proof.
  refine (Acquire_repeated_key_exceeds heldOnce "a" heldOnce_WF _ _).
  - cbn. lia.
  - reflexivity.
Defined.

(** The random value 4 falls to the second of [twoClusters]. *)
Lemma ChooseOne_by_available_witness :
  match controller.ChooseOne (chooser controller.AlgAvailable) 4 with
  | (c', inl cluster) =>
      c' = chooser controller.AlgAvailable ∧
      ∃ before after, twoClusters = before ++ cluster :: after ∧
        4 <= sumTB before + availableTB cluster ∧ (before ≠ [] → sumTB before < 4)
  | (c', inr e) =>
      c' = chooser controller.AlgAvailable ∧
      e = controller.ErrNoAvailableCluster controller.AlgAvailable ∧
      (twoClusters = [] ∨ sumTB twoClusters < 4) ∧ sumTB twoClusters < 8
  end.
Proof.
  refine (ChooseOne_by_available (chooser controller.AlgAvailable) 4 eq_refl _ _ _).
  - repeat constructor; by cbn.
  - cbn. lia.
  - cbn. lia.
Defined.

(** Two calls in a row choose both clusters. *)
Lemma ChooseOne_round_robin_witness :
  let c := chooser controller.AlgRandom in
  (∀ i r, [0; 0] !! i = Some r →
     controller.chosen c (controller.OpChooseOne <$> [0; 0]) !! i
     = inl <$> (twoClusters !! Z.to_nat ((0 + 1 + Z.of_nat i) mod 2))) ∧
  (length [0; 0] = length twoClusters →
   controller.chosen c (controller.OpChooseOne <$> [0; 0]) ≡ₚ inl <$> twoClusters).
Proof.
  refine (ChooseOne_round_robin (chooser controller.AlgRandom) [0; 0] eq_refl _ _ _).
  - done.
  - cbn. lia.
  - cbn. lia.
Defined.

(** A controller that is asked for an algorithm it does not know. *)
Lemma ChooseOne_always_implemented_witness :
  let c := chooser controller.AlgAvailable in
  let ops := [controller.OpChangeChooseAlg 7; controller.OpChooseOne 4;
              controller.OpChangeChooseAlg 2; controller.OpChooseOne 0] in
  (∀ alg, match controller.ChangeChooseAlg c alg with
          | (c', None) =>
              (alg = controller.AlgAvailable ∨ alg = controller.AlgRandom) ∧
              controller.allocAlg c' = alg
          | (c', Some e) => c' = c ∧ e = controller.ErrInvalidAllocAlg
          end) ∧
  Forall (λ r, ¬ unexpected r) (controller.chosen c ops).
Proof.
  exact (ChooseOne_always_implemented (chooser controller.AlgAvailable) _ eq_refl).
Defined.

(** A new switch that is enabled, disabled twice and enabled. *)
Lemma TaskSwitch_in_step_witness :
  let ops := [taskswitch.OpEnable; taskswitch.OpDisable; taskswitch.OpDisable;
              taskswitch.OpEnable] in
  inStep taskswitch.newTaskSwitch ∧
  Forall (λ out, out = taskswitch.Returns) (taskswitch.calls taskswitch.newTaskSwitch ops).2 ∧
  taskswitch.WaitEnableReturns (taskswitch.calls taskswitch.newTaskSwitch ops).1 = true.
Proof.
  assert (inStep taskswitch.newTaskSwitch) as Hnew by done.
  pose proof (TaskSwitch_in_step taskswitch.newTaskSwitch
                [taskswitch.OpEnable; taskswitch.OpDisable; taskswitch.OpDisable;
                 taskswitch.OpEnable] Hnew) as (_ & _ & _ & _ & Hret & _ & Hwait & Hlast).
  split; [exact Hnew|]. split; [exact Hret|]. by rewrite Hwait, Hlast.
Defined.

(** An update of [twoSwitches] under [opensBalance]. *)
Lemma update_follows_config_witness :
  ∃ sm', taskswitch.update opensBalance ["disk_drop"; "balance"] twoSwitches
         = (sm', taskswitch.Returns) ∧
    map_Forall (λ _ s, inStep s) sm' ∧
    ∀ name,
      match twoSwitches !! name with
      | None => sm' !! name = None
      | Some s => ∃ s', sm' !! name = Some s' ∧ asConfigured (opensBalance name) s s'
      end.
Proof.
  refine (update_follows_config opensBalance ["disk_drop"; "balance"] twoSwitches
            twoSwitches_inStep _ _).
  - apply (bool_decide_unpack _). by vm_compute.
  - intros name. split.
    + intros [->|[->|[]%elem_of_nil]%elem_of_cons]%elem_of_cons; by eexists.
    + intros [s Hs]. unfold twoSwitches in Hs.
      apply lookup_insert_Some in Hs as [[<- _]|[_ Hs]]; [set_solver|].
      apply lookup_singleton_Some in Hs as [<- _]. set_solver.
Defined.

(** A third switch for [twoSwitches]. *)
Lemma AddSwitch_starts_disabled_witness :
  match taskswitch.AddSwitch twoSwitches "blob_delete" with
  | (sm', inl s) =>
      twoSwitches !! "blob_delete" = None ∧ sm' !! "blob_delete" = Some s ∧
      taskswitch.Enabled s = false ∧ taskswitch.WaitEnableReturns s = false ∧
      map_Forall (λ _ s0, inStep s0) sm' ∧
      (∀ name, name ≠ "blob_delete" → sm' !! name = twoSwitches !! name) ∧
      taskswitch.DelSwitch sm' "blob_delete" = (twoSwitches, None)
  | (sm', inr e) =>
      sm' = twoSwitches ∧ e = taskswitch.ErrConflictSwitch ∧
      is_Some (twoSwitches !! "blob_delete")
  end.
Proof.
  exact (AddSwitch_starts_disabled twoSwitches "blob_delete" twoSwitches_inStep).
Defined.

(** ** The read path on the cluster of three units *)

(** The first attempt on the stale cluster: the node does not know the
    vuid, the volume is refreshed, the unit is where it was, the disk is
    threshold-punished and the loop goes on; the whole call refreshes and
    punishes three times. *)
Lemma getOneShardFromHost_refreshes_witness :
  let h := cluster stale None in
  let a := shardAttempt h 0 1 1 (Some false) staleTarget emptyWorld in
  (∃ Δ, w_trace a.2 = Δ ++ [EvGetVolume 1 1 false;
                            EvRangeGetShard 0 "h0" (tg_args staleTarget) (Some VuidNotFound)] ∧
        attemptResults Δ = [] ∧ forcedRefreshes Δ = [] ∧ backoffs Δ = [] ∧
        thresholdPunishes Δ = [(1, 100, "h0")] ∧
        ∃ err,
          a.1 = Some (staleTarget, (false, Some err)) ∧
          RuptOn 3 200 (shardAttempt h 0 1 1 (Some false)) staleTarget emptyWorld =
          RuptOn 2 400 (shardAttempt h 0 1 1 (Some false)) staleTarget
            {| w_env := w_env a.2; w_trace := EvBackoff 200 :: w_trace a.2;
               w_nextBuf := w_nextBuf a.2 |}) ∧
  (∃ err w' Δ,
     getOneShardFromHost h "h0" 100 (tg_args staleTarget) 0 1 1 (Some false) emptyWorld
       = (Some (None, Some err), w') ∧
     w_trace w' = Δ ++ w_trace emptyWorld ∧
     length (attemptResults Δ) = 3%nat ∧
     forcedRefreshes Δ = [(1, 1); (1, 1); (1, 1)] ∧
     thresholdPunishes Δ = [(1, 100, "h0"); (1, 100, "h0"); (1, 100, "h0")] ∧
     reverse (backoffs Δ) = [200; 400]).
Proof.
  pose proof (getOneShardFromHost_refreshes (cluster stale None) 0 1 1 (Some false))
    as (_ & Hattempt & Hcall).
  split.
  - exact (Hattempt 2%nat 200 staleTarget emptyWorld VuidNotFound ltac:(done) eq_refl eq_refl).
  - apply Hcall; [done| |].
    + intros σ. by exists VuidNotFound.
    + intros σ. by eexists _, _.
Defined.

Lemma cluster_resolves answer write : resolves (cluster answer write) clusterResolve.
Proof. intros σ disk. reflexivity. Qed.

Lemma lostDisks_resolves : resolves lostDisks firstDiskOnly.
Proof.
  intros σ disk. unfold lostDisks, withDiskHost, firstDiskOnly. cbn [h_GetDiskHost snd].
  destruct (disk =? 100); cbn; eauto.
Qed.

(** The order of the three units seen from IDC [A], and the blob of a
    volume of which one disk only is known. *)
Lemma genSortedVuidByIDC_order_witness :
  (∀ σ l, (h_Shuffle (cluster healthy None) σ l).2 ≡ₚ l) ∧
  (∃ gs w',
     genSortedVuidByIDC (cluster healthy None) "A" clusterUnits emptyWorld
       = (Some (concat gs), w') ∧
     Forall2 (λ d g, g ≡ₚ groupAt "A" d (resolvableUnits clusterResolve 0 clusterUnits))
       [0; 1; 2; 3] gs) ∧
  (∃ ws Δ,
     produceBlob lostDisks 1 fullBlob {| pp_blobVolume := None; pp_sortedVuids := [] |}
       [0; 0; 0]%nat [] emptyWorld
     = (Some ({| pp_blobVolume := None; pp_sortedVuids := [] |},
              Line (errLine (ErrBrokenBlob 1 1 1))), ws) ∧
     w_trace ws = Δ ++ w_trace emptyWorld ∧ Forall lookupEvent Δ).
Proof.
  assert (∀ σ l, (h_Shuffle (cluster healthy None) σ l).2 ≡ₚ l) as Hshuffle.
  { intros σ l. apply reverse_Permutation. }
  split; [exact Hshuffle|]. split.
  - exact (proj1 (proj2 (genSortedVuidByIDC_order (cluster healthy None) Hshuffle "A"
                           clusterUnits emptyWorld))
             clusterResolve (cluster_resolves healthy None)).
  - refine (proj2 (proj2 (proj2 (genSortedVuidByIDC_order lostDisks _ "A" clusterUnits
                                   emptyWorld)))
              firstDiskOnly 1 fullBlob {| pp_blobVolume := None; pp_sortedVuids := [] |}
              [0; 0; 0]%nat [] clusterVolume lostDisks_resolves I eq_refl
              clusterUnits eq_refl _).
    + intros σ l. apply reverse_Permutation.
    + cbn. lia.
Defined.

Lemma rangeDegraded_served blob :
  blob = tinyRead ∨ blob = lateRead →
  fastServed rangeDegraded 1 blob clusterVolume clusterSizes shardBytes 1.
Proof.
  intros Hb.
  assert (Vid blob = 1 ∧ Bid blob = 1 ∧ BlobSize blob = 8 ∧ 0 <= Offset blob ∧
          0 < ReadSize blob ∧ Offset blob + ReadSize blob <= 8) as (HV & HB & HS & HO & HR & HF).
  { destruct Hb as [->| ->]; cbn; lia. }
  split.
  - intros σ cache. cbn. by rewrite HV.
  - cbn. by rewrite HS.
  - intros σ size. by exists [].
  - cbn. lia.
  - cbn. lia.
  - cbn. lia.
  - done.
  - done.
  - cbn. lia.
  - intros i Hi. cbn in Hi. by destruct i as [|[|i]]; [..|lia].
  - intros σ i phy off size Hphy Hi _ _ _ _.
    destruct i as [|i]; [|lia]. cbn in Hphy. by injection Hphy as <-.
  - intros σ phy off size Hphy. cbn in Hphy. injection Hphy as <-. by eexists.
Qed.

(** One byte of the first data shard is read on the data-shard-only path
    and written; one byte of the second, whose disk is broken, is asked of
    that disk once and left to the general path. *)
Lemma data_shard_only_path_witness :
  (0 <= BlobSize tinyRead < 2 ^ 63 ∧
   (dataShardOnly rangeDegraded oneBlob [tinyRead] = Some tinyRead ↔
    [tinyRead] = [tinyRead] ∧ (8 <= 4 ∨ 1 < 8 / 4))) ∧
  (∃ w' Δ,
     transfer rangeDegraded oneBlob [tinyRead] noSchedule emptyWorld
       = (Some (Some None), w') ∧
     w_trace w' = Δ ++ [EvDataShardOnly tinyRead] ∧
     written (w_trace w') = [x01] ∧ requestedUnits Δ = [0%nat]) ∧
  (∃ w' Δ m,
     getDataShardOnly rangeDegraded 1 lateRead
       {| w_env := (); w_trace := [EvDataShardOnly lateRead]; w_nextBuf := 0 |}
       = (Some (Some errNeedReconstructRead), w') ∧
     w_trace w' = Δ ++ [EvDataShardOnly lateRead] ∧
     written (w_trace w') = [] ∧
     (1 ≤ m ≤ 3)%nat ∧ requestedUnits Δ = replicate m 1%nat ∧
     transfer rangeDegraded oneBlob [lateRead] noSchedule emptyWorld
       = (st ← generalPath rangeDegraded 1 [lateRead] noSchedule; mret (ps_result st)) w').
Proof.
  assert (0 <= BlobSize tinyRead < 2 ^ 63) as Hbs by (cbn; lia).
  pose proof (data_shard_only_path rangeDegraded oneBlob [tinyRead] noSchedule emptyWorld)
    as [Hiff H1].
  pose proof (data_shard_only_path rangeDegraded oneBlob [lateRead] noSchedule emptyWorld)
    as [_ H2].
  split; [split; [exact Hbs|exact (Hiff tinyRead Hbs)]|]. split.
  - assert (dataShardOnly rangeDegraded oneBlob [tinyRead] = Some tinyRead) as Hd
      by reflexivity.
    rewrite Hd in H1. destruct H1 as (_ & _ & H1).
    destruct (H1 clusterVolume clusterSizes shardBytes 1%nat
                (rangeDegraded_served tinyRead (or_introl eq_refl)) ltac:(vm_compute; lia))
      as (Δ & HΔ & Hcase).
    destruct (decide _) as [Hbad|_] in Hcase; [vm_compute in Hbad; lia|].
    destruct Hcase as ((σ & _ & Htr) & Hwr & Hreq).
    eexists _, Δ. split; [exact Htr|]. split; [exact HΔ|]. split; [exact Hwr|exact Hreq].
  - assert (dataShardOnly rangeDegraded oneBlob [lateRead] = Some lateRead) as Hd
      by reflexivity.
    rewrite Hd in H2. destruct H2 as (_ & _ & H2).
    destruct (H2 clusterVolume clusterSizes shardBytes 1%nat
                (rangeDegraded_served lateRead (or_intror eq_refl)) ltac:(vm_compute; lia))
      as (Δ & HΔ & Hcase).
    destruct (decide _) as [_|Hbad] in Hcase; [|vm_compute in Hbad; lia].
    destruct Hcase as (Hres & Hwr & (m & Hm & Hreq) & Htr).
    eexists _, Δ, m. split; [apply surjective_pairing|].
    split; [exact HΔ|]. split; [exact Hwr|]. split; [exact Hm|]. split; [|exact Htr].
    rewrite Hreq. change (reverse _) with (@nil nat). apply app_nil_r.
Defined.

Lemma smallCluster_reads vu (w : world unit) :
  vu ∈ clusterVuids →
  ∃ sd w', readOneShard smallCluster 1 1 4 smallBlob vu (Some false) w = (Some sd, w') ∧
           sd_index sd = index vu ∧
           (sd_status sd = true → buf_bytes (sd_buffer sd) = smallBytes (index vu)) ∧
           (index vu ∉ (∅ : gset nat) → sd_status sd = true).
Proof.
  destruct w as [[] tr nb]. intros Hvu.
  repeat (apply elem_of_cons in Hvu as [->|Hvu]); [..|by apply elem_of_nil in Hvu].
  all: eexists _, _; split; [vm_compute; reflexivity|].
  all: cbn; repeat split; done.
Qed.

Lemma smallCluster_served :
  blobServed smallCluster 1 1 1 smallBlob clusterVuids smallBytes ∅ 4 smallSizes poolShards.
Proof.
  split.
  - apply (bool_decide_unpack _). by vm_compute.
  - intros vu Hvu.
    repeat (apply elem_of_cons in Hvu as [->|Hvu]); [..|by apply elem_of_nil in Hvu];
      cbn; lia.
  - rewrite size_empty. lia.
  - intros i Hi _. cbn in Hi. destruct i as [|[|[|i]]]; [set_solver..|lia].
  - intros vu w. apply smallCluster_reads.
  - intros σ bytes badIdx Hlen Hgood _.
    eexists _, _. split; [reflexivity|]. split; [by rewrite length_imap|].
    intros i Hi. cbn in Hi, Hlen. rewrite list_lookup_imap.
    destruct (lookup_lt_is_Some_2 bytes i) as [b Hb]; [lia|]. rewrite Hb. cbn.
    case_bool_decide as Hbad; [done|]. rewrite <-Hb. apply Hgood; [cbn; lia|done].
  - reflexivity.
  - by repeat constructor.
  - intros i Hi. apply (elem_of_emptyDataShardIndexes _ 2) in Hi.
    + cbn [DataSize ShardSize smallSizes] in Hi. change ((3 + 4 - 1) / 4) with 1 in Hi.
      by replace i with 1%nat by lia.
    + repeat split; cbn; lia.
  - intros i Hi. cbn in Hi. by destruct i as [|[|i]]; [..|lia].
  - cbn. lia.
  - cbn. lia.
  - done.
Qed.

(** The small blob leaves the second data shard empty: its buffer is
    zero-filled and its unit is not asked. *)
Lemma empty_shards_zero_filled_witness :
  let E := emptyDataShardIndexes smallSizes in
  (∀ i, i ∈ E ↔ (3 + 4 - 1) / 4 <= Z.of_nat i < Z.of_nat 2) ∧
  ∃ shards' w1 w2 Δ,
    readOneBlob smallCluster 1 1 1 smallBlob clusterVuids poolShards [0; 0; 0]%nat []
      pooledWorld = (Some (BlobReturned None shards'), w1) ∧
    w_trace w1 = Δ ++ w_trace pooledWorld ∧ Forall (untouched E) Δ ∧
    (∀ i, i ∈ E → buf_bytes <$> shards' !! i = Some (zeros 4)) ∧
    consumeLine smallCluster {| pb_err := None; pb_blob := smallBlob; pb_shards := shards' |} w1
      = (Some None, w2) ∧
    written (w_trace w2) =
      written (w_trace w1) ++ take 3 (drop 0 (concat (buf_bytes <$> shards'))) ∧
    ∀ p : nat,
      (0 ≤ p < 3)%nat → (p / 4)%nat ∈ E →
      written (w_trace w2) !! (length (written (w_trace w1)) + (p - 0))%nat = Some x00.
Proof.
  assert (Hthm := empty_shards_zero_filled smallCluster 1 1 1 smallBlob smallSizes).
  lapply Hthm; [clear Hthm; intros Hthm|reflexivity].
  lapply Hthm; [clear Hthm; intros Hthm|repeat split; cbn; lia].
  lapply Hthm; [clear Hthm; intros Hthm|].
  2:{ intros σ bytes badIdx i Hi. cbn. rewrite list_lookup_imap.
      destruct (bytes !! i); [|done]. cbn. by rewrite bool_decide_eq_false_2. }
  destruct Hthm as (Hiff & _ & _ & _ & Hserved).
  split; [exact Hiff|].
  exact (Hserved clusterVuids smallBytes ∅ 4 poolShards [0; 0; 0]%nat [] pooledWorld
           smallCluster_served ltac:(cbn; lia)).
Defined.

(** A read past the end of [twoBlobs], a read of no byte inside it, and a
    read of a location of which [make] cannot hold the blobs. *)
Lemma Get_without_blobs_witness :
  (∃ f, Get (cluster healthy None) twoBlobs 17 0 emptyWorld
          = (Some (f, Some ErrIllegalArguments), emptyWorld) ∧
        ∀ s w', f s w' = (Some (Some None), w')) ∧
  (∃ f, Get (cluster healthy None) twoBlobs 0 3 emptyWorld = (Some (f, None), emptyWorld) ∧
        ∀ s w', f s w' = (Some (Some None), w')) ∧
  Get (cluster healthy None) hugeLocation (2 ^ 63) 0 emptyWorld = (None, emptyWorld).
Proof.
  assert (Hruns : Forall (λ r, is_u64 (s_MinBid r) ∧ is_u32 (s_Count r)) (loc_Blobs twoBlobs)).
  { repeat constructor; cbn; lia. }
  split; [|split].
  - refine (proj1 (Get_without_blobs (cluster healthy None) twoBlobs 17 0 emptyWorld
                     _ _ _ _ _ Hruns _) _).
    all: unfold is_u64, is_u32; cbn; lia.
  - refine (proj1 (proj2 (Get_without_blobs (cluster healthy None) twoBlobs 0 3 emptyWorld
                            _ _ _ _ _ Hruns _)) _ _ _).
    all: unfold is_u64, is_u32; cbn; lia.
  - refine (proj2 (proj2 (Get_without_blobs (cluster healthy None) hugeLocation (2 ^ 63) 0
                            emptyWorld _ _ _ _ _ _ _)) _ _ _).
    all: unfold is_u64, is_u32; cbn [hugeLocation loc_Size loc_BlobSize loc_Blobs totalCount];
      try lia; try done.
    all: try (vm_compute; done).
Defined.
